(** * evolvedominion: the rules engine (engine/engine.py)

    A shallow embedding of the engine of the deck-building game: pieces,
    zones, the shared mutable [State], the zone-transfer primitives, the
    Effect / Process / Decision / Consequence machinery and the heuristic
    look-ahead, followed by the properties established about them.

    Conventions.
    - A Python list is a Rocq list in the same order: index 0 is the head,
      [append] adds at the end, [pop()] removes the last element.  The top
      card of a deck is therefore the LAST element of the list.
    - Python objects that are mutated in place (the State, the actors, the
      zones, the Attack processes) live in one record, [State]; code that
      holds a reference to one of them holds an index into that record
      (a player id, a [ZoneRef], an Attack id).
    - A Python function that mutates or raises is a computation in the
      monad [M]: it maps a State to a result and the State left behind.
      An exception does not roll the State back. *)

From Stdlib Require Import List ZArith Bool String Ascii Lia Permutation Arith.
Import ListNotations.

Set Implicit Arguments.

(** ** Pieces *)

(** Modelled from the spec: the class Piece and its subclasses
    (engine/pieces.py) are missing.  One Piece instance: [uid] is the
    identity of the Python object ([id(piece)]); the other fields are the
    attributes the engine reads, [name] being [repr(piece)].  The
    attributes [simple_effects] and [decision] of a piece are the card
    catalogue, a parameter of the resolution loop below. *)
Record Piece : Type := mkPiece {
  uid : nat;
  name : string;
  cost : Z;
  is_action : bool;
  is_treasure : bool;
  is_victory : bool;
  is_province : bool;
  total_order_index : nat
}.

(** [x is piece]: object identity. *)
Definition piece_is (x piece : Piece) : bool := Nat.eqb (uid x) (uid piece).

(** Two instances have the same Piece type when they share the
    globally unique rank of the type. *)
Definition same_type (x y : Piece) : bool :=
  Nat.eqb (total_order_index x) (total_order_index y).

Definition Zone := list Piece.

(** ** Actors and the State *)

(** Modelled from the spec: the class Actor and its subclasses (agents/)
    are missing.  An actor owns five zones and two scratch lists;
    [n_turns_played] is read by the ranking rule only. *)
Record Actor : Type := mkActor {
  actor_name : string;            (* repr(actor) *)
  HAND : Zone;
  DECK : Zone;
  DISCARD : Zone;
  PLAY : Zone;
  ASIDE : Zone;
  include : list Piece;
  exclude : list Piece;
  n_turns_played : Z
}.

(** Modelled from the spec: the class State is missing.  The list of
    players, the Supply piles indexed by [total_order_index], the TRASH,
    the counters and flags of the turn, and the current player (a position
    in [players]). *)
Record State : Type := mkState {
  players : list Actor;
  piles : list Zone;
  TRASH : Zone;
  n_action : Z;
  n_buy : Z;
  n_coin : Z;
  n_silver_played_this_turn : Z;
  merchant_silver_bonus : Z;
  need_action_phase : bool;
  need_treasure_phase : bool;
  need_buy_phase : bool;
  n_empty_piles : Z;
  province_pile_empty : bool;
  current_player : nat;
  n_total_turns_played : Z;
  (* the private [immunity] attribute of every Attack object created so
     far, by order of creation; not an attribute of the Python State *)
  attack_immunity : list bool;
  (* the state of numpy's global random generator: the draws to come *)
  np_random : list nat
}.

(** Modelled from the spec: the phase constants of evolvedominion.params,
    which is missing; three distinct constants, and any other value. *)
Inductive Phase : Type :=
| ACTION_PHASE
| TREASURE_PHASE
| BUY_PHASE
| other_phase (label : string).

Inductive ZoneName : Type := ZHAND | ZDECK | ZDISCARD | ZPLAY | ZASIDE.

(** A reference to a list object that holds pieces. *)
Inductive ZoneRef : Type :=
| zone_of (actor : nat) (z : ZoneName)
| TRASH_ref
| pile_ref (i : nat).

(** ** Exceptions and the monad *)

Inductive exn : Type :=
| NameError (name : string)
| UnboundLocalError (name : string)
| IndexError
| ValueError
| TypeError
| AttributeError
| KeyError
| NotImplementedError
| DanglingReference.   (* a reference to an object the State does not hold:
                          no Python counterpart, the model stops there *)

Inductive Res (A : Type) : Type :=
| Ok (a : A)
| Raise (e : exn)
| OutOfFuel.

Arguments Raise {A} e.
Arguments OutOfFuel {A}.

Definition M (A : Type) : Type := State -> Res A * State.

Definition ret {A} (a : A) : M A := fun s => (Ok a, s).

Definition raise {A} (e : exn) : M A := fun s => (Raise e, s).

Definition out_of_fuel {A} : M A := fun s => (OutOfFuel, s).

Definition bind {A B} (m : M A) (k : A -> M B) : M B :=
  fun s =>
    match m s with
    | (Ok a, s') => k a s'
    | (Raise e, s') => (Raise e, s')
    | (OutOfFuel, s') => (OutOfFuel, s')
    end.

Definition get : M State := fun s => (Ok s, s).

Definition modify (f : State -> State) : M unit := fun s => (Ok tt, f s).

Declare Scope engine_scope.
Delimit Scope engine_scope with engine.
Notation "x <- m ;; k" := (bind m (fun x => k))
  (at level 61, m at next level, right associativity) : engine_scope.
Notation "m ;; k" := (bind m (fun _ => k))
  (at level 61, right associativity) : engine_scope.
Open Scope engine_scope.

(** [for x in xs: body(x)] *)
Fixpoint for_each {A} (xs : list A) (body : A -> M unit) : M unit :=
  match xs with
  | [] => ret tt
  | x :: r => body x ;; for_each r body
  end.

(** [while cond: body], with at most [fuel] iterations.  The number of
    iterations executed is returned (a ghost value, Python returns none). *)
Fixpoint while_ (fuel : nat) (cond : M bool) (body : M unit) : M nat :=
  match fuel with
  | O => out_of_fuel
  | S fuel' =>
      c <- cond ;;
      if c then (body ;; n <- while_ fuel' cond body ;; ret (S n))
      else ret O
  end.

(** ** Python list operations *)

(** [l.pop()] : the last element and the rest; [None] is IndexError. *)
Fixpoint pop {A} (l : list A) : option (A * list A) :=
  match l with
  | [] => None
  | x :: r =>
      match pop r with
      | None => Some (x, [])
      | Some (y, r') => Some (y, x :: r')
      end
  end.

(** [l.index(piece)] : [==] between pieces is the identity of objects
    (zone membership is by identity, not equality).  [None] is
    ValueError. *)
Fixpoint index (piece : Piece) (l : list Piece) : option nat :=
  match l with
  | [] => None
  | x :: r =>
      if piece_is x piece then Some O
      else match index piece r with
           | None => None
           | Some i => Some (S i)
           end
  end.

(** [l.pop(i)] for [0 <= i] : the element at [i] and the rest. *)
Fixpoint pop_at {A} (i : nat) (l : list A) : option (A * list A) :=
  match l, i with
  | [], _ => None
  | x :: r, O => Some (x, r)
  | x :: r, S i' =>
      match pop_at i' r with
      | None => None
      | Some (y, r') => Some (y, x :: r')
      end
  end.

(** [len(l)] as a Python int. *)
Definition len {A} (l : list A) : Z := Z.of_nat (List.length l).

(** [range(n)] only matters by its length. *)
Definition range_len (n : Z) : nat := Z.to_nat n.

(** ** Field updates *)

Definition set_actor_zone (z : ZoneName) (l : Zone) (a : Actor) : Actor :=
  match z with
  | ZHAND => mkActor (actor_name a) l (DECK a) (DISCARD a) (PLAY a) (ASIDE a)
               (include a) (exclude a) (n_turns_played a)
  | ZDECK => mkActor (actor_name a) (HAND a) l (DISCARD a) (PLAY a) (ASIDE a)
               (include a) (exclude a) (n_turns_played a)
  | ZDISCARD => mkActor (actor_name a) (HAND a) (DECK a) l (PLAY a) (ASIDE a)
               (include a) (exclude a) (n_turns_played a)
  | ZPLAY => mkActor (actor_name a) (HAND a) (DECK a) (DISCARD a) l (ASIDE a)
               (include a) (exclude a) (n_turns_played a)
  | ZASIDE => mkActor (actor_name a) (HAND a) (DECK a) (DISCARD a) (PLAY a) l
               (include a) (exclude a) (n_turns_played a)
  end.

Definition actor_zone (z : ZoneName) (a : Actor) : Zone :=
  match z with
  | ZHAND => HAND a
  | ZDECK => DECK a
  | ZDISCARD => DISCARD a
  | ZPLAY => PLAY a
  | ZASIDE => ASIDE a
  end.

Definition set_scratch (inc exc : list Piece) (a : Actor) : Actor :=
  mkActor (actor_name a) (HAND a) (DECK a) (DISCARD a) (PLAY a) (ASIDE a)
    inc exc (n_turns_played a).

Fixpoint update_nth {A} (i : nat) (f : A -> A) (l : list A) : list A :=
  match l, i with
  | [], _ => []
  | x :: r, O => f x :: r
  | x :: r, S i' => x :: update_nth i' f r
  end.

Definition set_players (ps : list Actor) (s : State) : State :=
  mkState ps (piles s) (TRASH s) (n_action s) (n_buy s) (n_coin s)
    (n_silver_played_this_turn s) (merchant_silver_bonus s)
    (need_action_phase s) (need_treasure_phase s) (need_buy_phase s)
    (n_empty_piles s) (province_pile_empty s) (current_player s)
    (n_total_turns_played s) (attack_immunity s) (np_random s).

Definition set_piles (ps : list Zone) (s : State) : State :=
  mkState (players s) ps (TRASH s) (n_action s) (n_buy s) (n_coin s)
    (n_silver_played_this_turn s) (merchant_silver_bonus s)
    (need_action_phase s) (need_treasure_phase s) (need_buy_phase s)
    (n_empty_piles s) (province_pile_empty s) (current_player s)
    (n_total_turns_played s) (attack_immunity s) (np_random s).

Definition set_TRASH (t : Zone) (s : State) : State :=
  mkState (players s) (piles s) t (n_action s) (n_buy s) (n_coin s)
    (n_silver_played_this_turn s) (merchant_silver_bonus s)
    (need_action_phase s) (need_treasure_phase s) (need_buy_phase s)
    (n_empty_piles s) (province_pile_empty s) (current_player s)
    (n_total_turns_played s) (attack_immunity s) (np_random s).

Definition set_n_action (v : Z) (s : State) : State :=
  mkState (players s) (piles s) (TRASH s) v (n_buy s) (n_coin s)
    (n_silver_played_this_turn s) (merchant_silver_bonus s)
    (need_action_phase s) (need_treasure_phase s) (need_buy_phase s)
    (n_empty_piles s) (province_pile_empty s) (current_player s)
    (n_total_turns_played s) (attack_immunity s) (np_random s).

Definition set_n_buy (v : Z) (s : State) : State :=
  mkState (players s) (piles s) (TRASH s) (n_action s) v (n_coin s)
    (n_silver_played_this_turn s) (merchant_silver_bonus s)
    (need_action_phase s) (need_treasure_phase s) (need_buy_phase s)
    (n_empty_piles s) (province_pile_empty s) (current_player s)
    (n_total_turns_played s) (attack_immunity s) (np_random s).

Definition set_n_coin (v : Z) (s : State) : State :=
  mkState (players s) (piles s) (TRASH s) (n_action s) (n_buy s) v
    (n_silver_played_this_turn s) (merchant_silver_bonus s)
    (need_action_phase s) (need_treasure_phase s) (need_buy_phase s)
    (n_empty_piles s) (province_pile_empty s) (current_player s)
    (n_total_turns_played s) (attack_immunity s) (np_random s).

Definition set_n_silver_played_this_turn (v : Z) (s : State) : State :=
  mkState (players s) (piles s) (TRASH s) (n_action s) (n_buy s) (n_coin s)
    v (merchant_silver_bonus s)
    (need_action_phase s) (need_treasure_phase s) (need_buy_phase s)
    (n_empty_piles s) (province_pile_empty s) (current_player s)
    (n_total_turns_played s) (attack_immunity s) (np_random s).

Definition set_merchant_silver_bonus (v : Z) (s : State) : State :=
  mkState (players s) (piles s) (TRASH s) (n_action s) (n_buy s) (n_coin s)
    (n_silver_played_this_turn s) v
    (need_action_phase s) (need_treasure_phase s) (need_buy_phase s)
    (n_empty_piles s) (province_pile_empty s) (current_player s)
    (n_total_turns_played s) (attack_immunity s) (np_random s).

Definition set_need_action_phase (v : bool) (s : State) : State :=
  mkState (players s) (piles s) (TRASH s) (n_action s) (n_buy s) (n_coin s)
    (n_silver_played_this_turn s) (merchant_silver_bonus s)
    v (need_treasure_phase s) (need_buy_phase s)
    (n_empty_piles s) (province_pile_empty s) (current_player s)
    (n_total_turns_played s) (attack_immunity s) (np_random s).

Definition set_need_treasure_phase (v : bool) (s : State) : State :=
  mkState (players s) (piles s) (TRASH s) (n_action s) (n_buy s) (n_coin s)
    (n_silver_played_this_turn s) (merchant_silver_bonus s)
    (need_action_phase s) v (need_buy_phase s)
    (n_empty_piles s) (province_pile_empty s) (current_player s)
    (n_total_turns_played s) (attack_immunity s) (np_random s).

Definition set_need_buy_phase (v : bool) (s : State) : State :=
  mkState (players s) (piles s) (TRASH s) (n_action s) (n_buy s) (n_coin s)
    (n_silver_played_this_turn s) (merchant_silver_bonus s)
    (need_action_phase s) (need_treasure_phase s) v
    (n_empty_piles s) (province_pile_empty s) (current_player s)
    (n_total_turns_played s) (attack_immunity s) (np_random s).

Definition set_n_empty_piles (v : Z) (s : State) : State :=
  mkState (players s) (piles s) (TRASH s) (n_action s) (n_buy s) (n_coin s)
    (n_silver_played_this_turn s) (merchant_silver_bonus s)
    (need_action_phase s) (need_treasure_phase s) (need_buy_phase s)
    v (province_pile_empty s) (current_player s)
    (n_total_turns_played s) (attack_immunity s) (np_random s).

Definition set_province_pile_empty (v : bool) (s : State) : State :=
  mkState (players s) (piles s) (TRASH s) (n_action s) (n_buy s) (n_coin s)
    (n_silver_played_this_turn s) (merchant_silver_bonus s)
    (need_action_phase s) (need_treasure_phase s) (need_buy_phase s)
    (n_empty_piles s) v (current_player s)
    (n_total_turns_played s) (attack_immunity s) (np_random s).

Definition set_attack_immunity (v : list bool) (s : State) : State :=
  mkState (players s) (piles s) (TRASH s) (n_action s) (n_buy s) (n_coin s)
    (n_silver_played_this_turn s) (merchant_silver_bonus s)
    (need_action_phase s) (need_treasure_phase s) (need_buy_phase s)
    (n_empty_piles s) (province_pile_empty s) (current_player s)
    (n_total_turns_played s) v (np_random s).

Definition set_np_random (v : list nat) (s : State) : State :=
  mkState (players s) (piles s) (TRASH s) (n_action s) (n_buy s) (n_coin s)
    (n_silver_played_this_turn s) (merchant_silver_bonus s)
    (need_action_phase s) (need_treasure_phase s) (need_buy_phase s)
    (n_empty_piles s) (province_pile_empty s) (current_player s)
    (n_total_turns_played s) (attack_immunity s) v.

(** ** Zones through references *)

Definition lookup_zone (r : ZoneRef) (s : State) : option Zone :=
  match r with
  | zone_of a z => option_map (actor_zone z) (nth_error (players s) a)
  | TRASH_ref => Some (TRASH s)
  | pile_ref i => nth_error (piles s) i
  end.

Definition store_zone (r : ZoneRef) (l : Zone) (s : State) : State :=
  match r with
  | zone_of a z => set_players (update_nth a (set_actor_zone z l) (players s)) s
  | TRASH_ref => set_TRASH l s
  | pile_ref i => set_piles (update_nth i (fun _ => l) (piles s)) s
  end.

Definition read_zone (r : ZoneRef) : M Zone :=
  fun s =>
    match lookup_zone r s with
    | Some l => (Ok l, s)
    | None => (Raise DanglingReference, s)
    end.

Definition write_zone (r : ZoneRef) (l : Zone) : M unit :=
  modify (store_zone r l).

Definition read_actor (a : nat) : M Actor :=
  fun s =>
    match nth_error (players s) a with
    | Some x => (Ok x, s)
    | None => (Raise DanglingReference, s)
    end.

(** ** State mutation primitives *)

(** [destination.append(source.pop(source.index(piece)))]: the bound method
    [destination.append] is looked up first, then the argument is
    evaluated, then the call is made. *)
Definition transfer_piece (piece : Piece) (destination source : ZoneRef)
  : M unit :=
  _ <- read_zone destination ;;
  src <- read_zone source ;;
  match index piece src with
  | None => raise ValueError
  | Some i =>
      match pop_at i src with
      | None => raise IndexError
      | Some (x, src') =>
          write_zone source src' ;;
          dst <- read_zone destination ;;
          write_zone destination (dst ++ [x])
      end
  end.

(** [destination.append(source.pop())] *)
Definition transfer_top_piece (destination source : ZoneRef) : M unit :=
  _ <- read_zone destination ;;
  src <- read_zone source ;;
  match pop src with
  | None => raise IndexError
  | Some (x, src') =>
      write_zone source src' ;;
      dst <- read_zone destination ;;
      write_zone destination (dst ++ [x])
  end.

Definition add_action (n : Z) : M unit :=
  modify (fun s => set_n_action (n_action s + n) s).

Definition add_buy (n : Z) : M unit :=
  modify (fun s => set_n_buy (n_buy s + n) s).

Definition add_coin (n : Z) : M unit :=
  modify (fun s => set_n_coin (n_coin s + n) s).

Definition add_merchant_silver_bonus : M unit :=
  modify (fun s => set_merchant_silver_bonus (merchant_silver_bonus s + 1) s).

Definition add_silver : M unit :=
  add_coin 2 ;;
  modify (fun s =>
    set_n_silver_played_this_turn (n_silver_played_this_turn s + 1) s) ;;
  s <- get ;;
  if Z.eqb (n_silver_played_this_turn s) 1
  then add_coin (merchant_silver_bonus s)
  else ret tt.

Definition end_phase (actor : nat) (phase : Phase) : M unit :=
  match phase with
  | ACTION_PHASE =>
      modify (set_need_action_phase false) ;;
      modify (set_n_action 0)
  | TREASURE_PHASE =>
      modify (set_need_treasure_phase false)
  | BUY_PHASE =>
      modify (set_need_buy_phase false) ;;
      modify (set_n_buy 0)
  | other_phase _ => ret tt
  end.

Definition pay_cost (piece : Piece) : M unit :=
  modify (fun s => set_n_buy (n_buy s - 1) s) ;;
  modify (fun s => set_n_coin (n_coin s - cost piece) s).

(** [source = state.piles[piece.total_order_index]] raises IndexError when
    there is no such pile; [not(source)] is read after the transfer. *)
Definition handle_acquisition (player : nat) (piece : Piece)
    (destination : ZoneRef) : M unit :=
  s <- get ;;
  match nth_error (piles s) (total_order_index piece) with
  | None => raise IndexError
  | Some _ =>
      let source := pile_ref (total_order_index piece) in
      transfer_piece piece destination source ;;
      src <- read_zone source ;;
      match src with
      | [] =>
          modify (fun s => set_n_empty_piles (n_empty_piles s + 1) s) ;;
          if is_province piece
          then modify (set_province_pile_empty true)
          else ret tt
      | _ :: _ => ret tt
      end
  end.

Definition default_zone (actor : nat) (z : ZoneName) (r : option ZoneRef)
  : ZoneRef :=
  match r with
  | None => zone_of actor z
  | Some r' => r'
  end.

Definition gain (actor : nat) (piece : Piece) (destination : option ZoneRef)
  : M unit :=
  handle_acquisition actor piece (default_zone actor ZDISCARD destination).

Definition buy_piece (actor : nat) (piece : Piece)
    (destination : option ZoneRef) : M unit :=
  let destination := default_zone actor ZDISCARD destination in
  pay_cost piece ;;
  handle_acquisition actor piece destination.

(** ** Combinatorics primitives (engine/combinatorics.py) *)

Module Combinatorics.

(** Modelled from the spec: combinatorics.partition is missing;
    [partition(predicate, items) -> (matching, non_matching)], stable. *)
Fixpoint partition {A} (predicate : A -> bool) (items : list A)
  : list A * list A :=
  match items with
  | [] => ([], [])
  | x :: r =>
      let '(matching, non_matching) := partition predicate r in
      if predicate x then (x :: matching, non_matching)
      else (matching, x :: non_matching)
  end.

(** At most one representative per Piece type, the first in zone order. *)
Fixpoint first_of_each_type (seen : list nat) (zone : list Piece)
  : list Piece :=
  match zone with
  | [] => []
  | x :: r =>
      if existsb (Nat.eqb (total_order_index x)) seen
      then first_of_each_type seen r
      else x :: first_of_each_type (total_order_index x :: seen) r
  end.

(** Modelled from the spec: combinatorics.get_pieces is missing;
    [get_pieces(zone, unique, predicate=None)] filters by predicate and, if
    [unique], keeps one representative per distinct Piece type, the first
    occurrence in zone order. *)
Definition get_pieces (zone : list Piece) (unique : bool)
    (predicate : option (Piece -> bool)) : list Piece :=
  let kept := match predicate with
              | None => zone
              | Some f => filter f zone
              end in
  if unique then first_of_each_type [] kept else kept.

(** The sublists of [zone] with exactly [k] elements, by position, in the
    order of itertools.combinations. *)
Fixpoint combinations {A} (k : nat) (zone : list A) : list (list A) :=
  match k, zone with
  | O, _ => [[]]
  | S _, [] => []
  | S k', x :: r => map (cons x) (combinations k' r) ++ combinations k r
  end.

(** Modelled from the spec: combinatorics.get_piece_combinations is
    missing; every subset of the zone (by position) whose size lies in
    [kmin, kmax], [kmax] defaulting to [len(zone)]; by increasing size. *)
Definition get_piece_combinations (zone : list Piece) (kmin : nat)
    (kmax : option nat) : list (list Piece) :=
  let kmax := match kmax with
              | None => List.length zone
              | Some k => k
              end in
  flat_map (fun k => combinations k zone) (seq kmin (S kmax - kmin)).

End Combinatorics.

(** Modelled from the spec: State.filter_supply is missing; the Supply is
    filtered pile by pile, in pile order, and a non-empty pile is
    represented by its top piece. *)
Definition filter_supply (predicate : Piece -> bool) (s : State)
  : list Piece :=
  flat_map (fun pile =>
              match pop pile with
              | Some (top, _) => if predicate top then [top] else []
              | None => []
              end) (piles s).

(** Modelled from the spec: Actor.opponents is missing; the other players,
    starting from the next player in turn order, wrapping. *)
Definition opponents (actor : nat) (s : State) : list nat :=
  let n := List.length (players s) in
  seq (S actor) (n - S actor) ++ seq 0 (Nat.min actor n).

(** Modelled from the spec: Actor.peek is missing; a display hook, the
    State is the same with or without it. *)
Definition peek (actor : nat) (pieces : list Piece) : M unit := ret tt.

(** ** Shuffling *)

(** numpy.random.shuffle rearranges a list in place according to the draws
    of the global generator.  One draw selects, among the elements not yet
    placed, the one that comes next; a generator that has run dry draws 0. *)
Fixpoint shuffle_list (fuel : nat) (draws : list nat) (l : list Piece)
  : list Piece * list nat :=
  match fuel with
  | O => (l, draws)
  | S fuel' =>
      match pop_at (hd O draws mod List.length l) l with
      | None => (l, draws)
      | Some (x, l') =>
          let '(r, draws') := shuffle_list fuel' (tl draws) l' in
          (x :: r, draws')
      end
  end.

Definition shuffle (iterable : ZoneRef) : M unit :=
  l <- read_zone iterable ;;
  s <- get ;;
  let '(l', draws') := shuffle_list (List.length l) (np_random s) l in
  modify (set_np_random draws') ;;
  write_zone iterable l'.

(** [while source: destination.append(source.pop())] between two lists, one
    of them a local variable; the loop runs [len(source)] times. *)
Fixpoint pour {A} (fuel : nat) (source destination : list A)
  : list A * list A :=
  match fuel with
  | O => (source, destination)
  | S fuel' =>
      match pop source with
      | None => (source, destination)
      | Some (x, source') => pour fuel' source' (destination ++ [x])
      end
  end.

Definition replenish_deck (actor : nat) : M unit :=
  let DECK_ := zone_of actor ZDECK in
  let DISCARD_ := zone_of actor ZDISCARD in
  deck <- read_zone DECK_ ;;
  let '(deck, limbo) := pour (List.length deck) deck [] in
  write_zone DECK_ deck ;;
  discard <- read_zone DISCARD_ ;;
  deck <- read_zone DECK_ ;;
  write_zone DECK_ (deck ++ discard) ;;
  write_zone DISCARD_ [] ;;
  shuffle DECK_ ;;
  deck <- read_zone DECK_ ;;
  let '(_, deck) := pour (List.length limbo) limbo deck in
  write_zone DECK_ deck.

Definition validate_deck_size (actor : nat) (n : Z) : M bool :=
  deck <- read_zone (zone_of actor ZDECK) ;;
  ret (Z.leb n (len deck)).

Definition prepare_deck (actor : nat) (n : Z) : M unit :=
  ok <- validate_deck_size actor n ;;
  if negb ok then
    discard <- read_zone (zone_of actor ZDISCARD) ;;
    match discard with
    | [] => ret tt
    | _ :: _ => replenish_deck actor
    end
  else ret tt.

(** [l[i:]] for a possibly negative [i]. *)
Definition slice_from {A} (i : Z) (l : list A) : list A :=
  if Z.ltb i 0 then skipn (Z.to_nat (len l + i)) l
  else skipn (Z.to_nat i) l.

Definition draw (actor : nat) (n : Z) : M unit :=
  prepare_deck actor n ;;
  deck <- read_zone (zone_of actor ZDECK) ;;
  let true_n := Z.min n (len deck) in
  for_each (seq 0 (range_len true_n))
    (fun _ => transfer_top_piece (zone_of actor ZHAND) (zone_of actor ZDECK)) ;;
  hand <- read_zone (zone_of actor ZHAND) ;;
  peek actor (slice_from (- true_n) hand).

Definition add_card (n : Z) : M unit :=
  s <- get ;;
  draw (current_player s) n.

(** [limbo] is a local list: a piece popped into it before an exception
    is in no zone any more. *)
Definition swap_top_cards_of_deck (actor : nat) : M unit :=
  let DECK_ := zone_of actor ZDECK in
  deck <- read_zone DECK_ ;;
  match pop deck with
  | None => raise IndexError
  | Some (x, deck') =>
      write_zone DECK_ deck' ;;
      deck <- read_zone DECK_ ;;
      match pop deck with
      | None => raise IndexError
      | Some (y, deck') =>
          write_zone DECK_ deck' ;;
          deck <- read_zone DECK_ ;;
          write_zone DECK_ (deck ++ [x; y])
      end
  end.

Definition trash (actor : nat) (piece : Piece) (source : option ZoneRef)
  : M unit :=
  transfer_piece piece TRASH_ref (default_zone actor ZHAND source).

Definition trash_pieces (actor : nat) (pieces : list Piece)
    (source : option ZoneRef) : M unit :=
  for_each pieces (fun piece => trash actor piece source).

Definition reveal (actor : nat) (piece : Piece) : M unit := ret tt.

Definition do_nothing (actor : nat) : M unit := ret tt.

Definition put (actor : nat) (piece : Piece)
    (destination source : option ZoneRef) : M unit :=
  transfer_piece piece (default_zone actor ZHAND destination)
    (default_zone actor ZDECK source).

Definition set_aside (actor : nat) (piece : Piece) (source : ZoneRef)
  : M unit :=
  transfer_piece piece (zone_of actor ZASIDE) source.

Definition topdeck (actor : nat) (piece : Piece) (source : ZoneRef)
  : M unit :=
  transfer_piece piece (zone_of actor ZDECK) source.

(** [source.clear(); source.extend(to_keep); actor.DISCARD.extend(...)].
    The argument [actor] is an object: the reference is resolved first. *)
Definition discard_piece (actor : nat) (piece : Piece)
    (source : option ZoneRef) : M unit :=
  _ <- read_actor actor ;;
  let source := default_zone actor ZHAND source in
  src <- read_zone source ;;
  let '(to_discard, to_keep) :=
    Combinatorics.partition (fun x => piece_is x piece) src in
  write_zone source [] ;;
  src <- read_zone source ;;
  write_zone source (src ++ to_keep) ;;
  d <- read_zone (zone_of actor ZDISCARD) ;;
  write_zone (zone_of actor ZDISCARD) (d ++ to_discard).

Definition discard_pieces (actor : nat) (pieces : list Piece)
    (source : option ZoneRef) : M unit :=
  _ <- read_actor actor ;;
  let source := default_zone actor ZHAND source in
  src <- read_zone source ;;
  let '(to_discard, to_keep) :=
    Combinatorics.partition
      (fun piece => existsb (fun piece_to_discard =>
                               piece_is piece_to_discard piece) pieces) src in
  write_zone source [] ;;
  src <- read_zone source ;;
  write_zone source (src ++ to_keep) ;;
  d <- read_zone (zone_of actor ZDISCARD) ;;
  write_zone (zone_of actor ZDISCARD) (d ++ to_discard).

Definition discard_zone (actor : nat) (source : ZoneRef) : M unit :=
  _ <- read_actor actor ;;
  src <- read_zone source ;;
  d <- read_zone (zone_of actor ZDISCARD) ;;
  write_zone (zone_of actor ZDISCARD) (d ++ src) ;;
  write_zone source [].

(** ** Effects, Processes, Decisions, Consequences *)

(** A Decision object, by its class.  The Subprocess classes keep a
    reference to the Process that created them; only ImmunityProcedure uses
    it (to reach [mark_immunity]), so only it carries the Attack's id.
    [BureaucratProcedure_class] is the class object itself, which
    BureaucratAttack passes where an instance is expected. *)
Inductive Decision : Type :=
| Decision_base
| ImmunityProcedure (process : nat)
| ActionChoices
| TreasureChoices
| BuyChoices
| MineChoices
| CellarChoices
| RemodelChoices
| MilitiaVictimProcedure
| MilitiaChoices
| WorkshopChoices
| ChapelChoices
| HarbingerChoices
| VassalChoices
| BureaucratProcedure
| BureaucratProcedure_class
| BureaucratChoices
| MoneylenderChoices
| PoacherProcedure
| PoacherChoices
| ThroneRoomChoices
| BanditProcedure
| BanditChoices
| CouncilRoomProcedure
| CouncilRoomChoices
| LibraryProcedure
| LibraryTeardown
| LibraryChoices
| SentryChoices
| WitchProcedure
| WitchChoices
| ArtisanChoices.

(** A Process object: its class, the actor it is about and, for an Attack,
    the index of its [immunity] attribute in [attack_immunity]. *)
Inductive Process : Type :=
| MilitiaAttack (actor self : nat)
| BureaucratAttack (actor self : nat)
| BanditAttack (actor self : nat)
| WitchAttack (actor self : nat)
| LibraryProcess (actor : nat).

(** [Effect(function, **kwargs)], by function; [Initiate] is
    [Effect(resolve, ...)], [Update] calls a bound method of a Process, and
    a Process is itself callable on the State. *)
Inductive Effect : Type :=
| Effect_end_phase (actor : nat) (phase : Phase)
| Effect_do_nothing (actor : nat)
| Effect_play_piece (actor : nat) (piece : Piece) (source : option ZoneRef)
    (free : bool)
| Effect_play_treasures (actor : nat) (pieces : list Piece)
| Effect_buy_piece (actor : nat) (piece : Piece)
    (destination : option ZoneRef)
| Effect_gain (actor : nat) (piece : Piece) (destination : option ZoneRef)
| Effect_trash (actor : nat) (piece : Piece) (source : option ZoneRef)
| Effect_trash_pieces (actor : nat) (pieces : list Piece)
    (source : option ZoneRef)
| Effect_reveal (actor : nat) (piece : Piece)
| Effect_put (actor : nat) (piece : Piece)
    (destination source : option ZoneRef)
| Effect_set_aside (actor : nat) (piece : Piece) (source : ZoneRef)
| Effect_topdeck (actor : nat) (piece : Piece) (source : ZoneRef)
| Effect_discard_piece (actor : nat) (piece : Piece)
    (source : option ZoneRef)
| Effect_discard_pieces (actor : nat) (pieces : list Piece)
    (source : option ZoneRef)
| Effect_discard_zone (actor : nat) (source : ZoneRef)
| Effect_draw (actor : nat) (n : Z)
| Effect_add_card (n : Z)
| Effect_add_action (n : Z)
| Effect_add_buy (n : Z)
| Effect_add_coin (n : Z)
| Effect_add_merchant_silver_bonus
| Effect_add_silver
| Effect_swap_top_cards_of_deck (actor : nat)
| Effect_resolve_effects (actor : nat) (piece : Piece)
| Initiate (actor : nat) (decision : Decision) (decider : option nat)
| Update_mark_immunity (process : nat)
| Call (process : Process).

(** [effect.kwargs['piece']] *)
Definition kwargs_piece (e : Effect) : Res Piece :=
  match e with
  | Effect_play_piece _ piece _ _
  | Effect_buy_piece _ piece _
  | Effect_gain _ piece _
  | Effect_trash _ piece _
  | Effect_reveal _ piece
  | Effect_put _ piece _ _
  | Effect_set_aside _ piece _
  | Effect_topdeck _ piece _
  | Effect_discard_piece _ piece _
  | Effect_resolve_effects _ piece => Ok piece
  | Call _ => Raise AttributeError
  | _ => Raise KeyError
  end.

Inductive ConsequenceClass : Type :=
| class_Consequence
| class_PassOption
| class_NullOption
| class_Act
| class_Acquisition
| class_Purchase
| class_DependentAcquisition.

(** A Consequence object: its class, its list of effects, and the slots
    of the subclasses ([None] when the object has no such attribute). *)
Record Consequence : Type := mkConsequence {
  class_of : ConsequenceClass;
  effects : list Effect;
  custom_message : option (list string);
  action : option Piece;
  gained_piece : option Piece;
  lost_piece : option Piece
}.

Definition new_Consequence (effects : list Effect)
    (custom_message : option (list string)) : Consequence :=
  mkConsequence class_Consequence effects custom_message None None None.

Definition PassOption (actor : nat) (phase : Phase) : Consequence :=
  mkConsequence class_PassOption [Effect_end_phase actor phase]
    None None None None.

Definition NullOption (actor : nat) (custom_message : option (list string))
  : Consequence :=
  mkConsequence class_NullOption [Effect_do_nothing actor]
    custom_message None None None.

Definition Act (actor : nat) (action : Piece) : Consequence :=
  mkConsequence class_Act [Effect_play_piece actor action None false]
    None (Some action) None None.

(** [consequence.add(effect)] *)
Definition add (c : Consequence) (effect : Effect) : Consequence :=
  mkConsequence (class_of c) (effects c ++ [effect]) (custom_message c)
    (action c) (gained_piece c) (lost_piece c).

Definition lift {A} (r : Res A) : M A := fun s => (r, s).

(** [l[i]] for [0 <= i] *)
Definition item_at {A} (i : nat) (l : list A) : Res A :=
  match nth_error l i with
  | Some x => Ok x
  | None => Raise IndexError
  end.

Definition res_bind {A B} (r : Res A) (k : A -> Res B) : Res B :=
  match r with
  | Ok a => k a
  | Raise e => Raise e
  | OutOfFuel => OutOfFuel
  end.

Definition Acquisition_as (cls : ConsequenceClass) (effects : list Effect)
  : Res Consequence :=
  res_bind (item_at 0 effects) (fun e =>
  res_bind (kwargs_piece e) (fun piece =>
  Ok (mkConsequence cls effects None None (Some piece) None))).

Definition Acquisition (effects : list Effect) : Res Consequence :=
  Acquisition_as class_Acquisition effects.

Definition Purchase (actor : nat) (piece : Piece) : Res Consequence :=
  Acquisition_as class_Purchase [Effect_buy_piece actor piece None].

Definition DependentAcquisition (effects : list Effect) : Res Consequence :=
  res_bind (Acquisition_as class_DependentAcquisition effects) (fun c =>
  res_bind (item_at 1 effects) (fun e1 =>
  res_bind (kwargs_piece e1) (fun gained =>
  res_bind (item_at 0 effects) (fun e0 =>
  res_bind (kwargs_piece e0) (fun lost =>
  Ok (mkConsequence class_DependentAcquisition effects None None
        (Some gained) (Some lost))))))).

(** [[f(x) for x in xs]] where [f] can raise. *)
Fixpoint res_map {A B} (f : A -> Res B) (xs : list A) : Res (list B) :=
  match xs with
  | [] => Ok []
  | x :: r =>
      res_bind (f x) (fun y =>
      res_bind (res_map f r) (fun ys => Ok (y :: ys)))
  end.

(** The lookup of a module-level name at run time: NameError if the module
    binds no such name. *)
Definition lookup_global {A} (name : string) (binding : option A) : M A :=
  match binding with
  | Some v => ret v
  | None => raise (NameError name)
  end.

(** *** Attack objects *)

(** [Attack.__init__]: a new object, [self.immunity = False]. *)
Definition new_attack : M nat :=
  s <- get ;;
  modify (set_attack_immunity (attack_immunity s ++ [false])) ;;
  ret (List.length (attack_immunity s)).

Definition read_immunity (self : nat) : M bool :=
  fun s =>
    match nth_error (attack_immunity s) self with
    | Some b => (Ok b, s)
    | None => (Raise DanglingReference, s)
    end.

Definition write_immunity (self : nat) (b : bool) : M unit :=
  _ <- read_immunity self ;;
  modify (fun s =>
    set_attack_immunity (update_nth self (fun _ => b) (attack_immunity s)) s).

Definition mark_immunity (self : nat) : M unit := write_immunity self true.

(** [Attack.antecedent]: [not(self.immunity)] *)
Definition Attack_antecedent (self : nat) : M bool :=
  b <- read_immunity self ;;
  ret (negb b).

Definition antecedent (p : Process) : M bool :=
  match p with
  | MilitiaAttack actor self =>
      (* super().antecedent and (len(self.actor.HAND) > 3) *)
      b <- Attack_antecedent self ;;
      if b then
        hand <- read_zone (zone_of actor ZHAND) ;;
        ret (Z.ltb 3 (len hand))
      else ret false
  | BureaucratAttack _ self
  | BanditAttack _ self
  | WitchAttack _ self => Attack_antecedent self
  | LibraryProcess actor =>
      hand <- read_zone (zone_of actor ZHAND) ;;
      deck <- read_zone (zone_of actor ZDECK) ;;
      discard <- read_zone (zone_of actor ZDISCARD) ;;
      let handsize := len hand in
      let n_targets := (len deck + len discard)%Z in
      ret (Z.ltb handsize 7 && negb (Z.eqb n_targets 0))
  end.

Definition clear_internal_state (p : Process) : M unit :=
  match p with
  | MilitiaAttack _ self
  | BureaucratAttack _ self
  | BanditAttack _ self
  | WitchAttack _ self => write_immunity self false
  | LibraryProcess _ => ret tt
  end.

Definition setup_effect (p : Process) : option Effect :=
  match p with
  | MilitiaAttack actor self
  | BureaucratAttack actor self
  | BanditAttack actor self
  | WitchAttack actor self =>
      Some (Initiate actor (ImmunityProcedure self) None)
  | LibraryProcess _ => None
  end.

Definition main_effect (p : Process) : Effect :=
  match p with
  | MilitiaAttack actor _ => Initiate actor MilitiaVictimProcedure None
  | BureaucratAttack actor _ => Initiate actor BureaucratProcedure_class None
  | BanditAttack actor _ => Initiate actor BanditProcedure None
  | WitchAttack actor _ => Initiate actor WitchProcedure None
  | LibraryProcess actor => Initiate actor LibraryProcedure None
  end.

Definition teardown_effect (p : Process) : option Effect :=
  match p with
  | LibraryProcess actor => Some (Initiate actor LibraryTeardown None)
  | _ => None
  end.

(** ** Decision catalogue *)

Import Combinatorics.

(** [sorted(l, key=...)], stable. *)
Fixpoint insert_sorted {A} (le : A -> A -> bool) (x : A) (l : list A)
  : list A :=
  match l with
  | [] => [x]
  | y :: r => if le x y then x :: y :: r else y :: insert_sorted le x r
  end.

Definition sorted {A} (le : A -> A -> bool) (l : list A) : list A :=
  fold_right (insert_sorted le) [] l.

(** [l[-1]] of a non-empty list. *)
Definition last_item {A} (l : list A) : Res A :=
  match pop l with
  | Some (x, _) => Ok x
  | None => Raise IndexError
  end.

Definition Decision_generate_choices (actor : nat) : M (list Consequence) :=
  ret [].

Definition success_message : list string :=
  ["become immune to the attack by revealing Moat."%string;
   "becomes immune to the attack by revealing Moat."%string].

Definition failure_message : list string :=
  ["fail to defend yourself."%string;
   "fails to defend themselves."%string].

Definition ImmunityProcedure_generate_choices (process actor : nat)
  : M (list Consequence) :=
  a <- read_actor actor ;;
  let moat := get_pieces (HAND a) true
                (Some (fun x => String.eqb (name x) "Moat")) in
  match moat with
  | moat0 :: _ =>
      ret [new_Consequence [Effect_reveal actor moat0;
                            Update_mark_immunity process]
             (Some success_message)]
  | [] => ret [NullOption actor (Some failure_message)]
  end.

Definition ActionChoices_generate_choices (actor : nat)
  : M (list Consequence) :=
  s <- get ;;
  let choices := [PassOption actor ACTION_PHASE] in
  if negb (Z.eqb (n_action s) 0) then
    a <- read_actor actor ;;
    let actions := get_pieces (HAND a) true (Some is_action) in
    ret (choices ++ map (Act actor) actions)
  else ret choices.

Definition TreasureChoices_generate_choices (actor : nat)
  : M (list Consequence) :=
  let choices := [PassOption actor TREASURE_PHASE] in
  a <- read_actor actor ;;
  let treasures := get_pieces (HAND a) false (Some is_treasure) in
  match treasures with
  | _ :: _ =>
      ret (choices ++
           [new_Consequence [Effect_play_treasures actor treasures] None])
  | [] => ret choices
  end.

Definition BuyChoices_generate_choices (actor : nat)
  : M (list Consequence) :=
  s <- get ;;
  let choices := [PassOption actor BUY_PHASE] in
  if negb (Z.eqb (n_buy s) 0) then
    let buyables := filter_supply (fun x => Z.leb (cost x) (n_coin s)) s in
    purchases <- lift (res_map (Purchase actor) buyables) ;;
    ret (choices ++ purchases)
  else ret choices.

(** The Consequences one trashable piece gives rise to in Mine and in
    Remodel: one DependentAcquisition per gainable, or the trash alone. *)
Definition trash_then_gain (actor : nat) (trashable : Piece)
    (gainables : list Piece) : Res (list Consequence) :=
  match gainables with
  | _ :: _ =>
      res_map (fun gainable =>
                 DependentAcquisition [Effect_trash actor trashable None;
                                       Effect_gain actor gainable None])
        gainables
  | [] => Ok [new_Consequence [Effect_trash actor trashable None] None]
  end.

Definition MineChoices_generate_choices (actor : nat)
  : M (list Consequence) :=
  s <- get ;;
  let choices := [NullOption actor None] in
  a <- read_actor actor ;;
  let trashables := get_pieces (HAND a) true (Some is_treasure) in
  more <- lift (res_map (fun trashable =>
            let max_cost := (cost trashable + 3)%Z in
            let gainables :=
              filter_supply
                (fun x => is_treasure x && Z.leb (cost x) max_cost) s in
            trash_then_gain actor trashable gainables) trashables) ;;
  ret (choices ++ List.concat more).

Definition CellarChoices_generate_heuristic_choices (actor : nat)
  : M (list Consequence) :=
  a <- read_actor actor ;;
  let pieces_to_discard := get_pieces (HAND a) false (Some is_victory) in
  match pieces_to_discard with
  | _ :: _ =>
      ret [new_Consequence
             [Effect_discard_pieces actor pieces_to_discard None;
              Effect_draw actor (len pieces_to_discard)] None]
  | [] => ret []
  end.

(** The sort key of a Cellar choice:
    [(c.effects[-1].kwargs['n'], repr(c.effects[0].kwargs['pieces'][0]))] *)
Definition cellar_key (c : Consequence) : Z * string :=
  (match pop (effects c) with
   | Some (Effect_draw _ n, _) => n
   | _ => 0%Z
   end,
   match effects c with
   | Effect_discard_pieces _ (p :: _) _ :: _ => name p
   | _ => EmptyString
   end).

Definition key_le (k1 k2 : Z * string) : bool :=
  Z.ltb (fst k1) (fst k2)
  || (Z.eqb (fst k1) (fst k2) && String.leb (snd k1) (snd k2)).

Definition CellarChoices_generate_human_choices (actor : nat)
  : M (list Consequence) :=
  a <- read_actor actor ;;
  let discardables := HAND a in
  let choices :=
    match discardables with
    | _ :: _ =>
        let combos := get_piece_combinations discardables 1 None in
        map (fun combo =>
               let combo :=
                 sorted (fun p q => String.leb (name p) (name q)) combo in
               new_Consequence [Effect_discard_pieces actor combo None;
                                Effect_draw actor (len combo)] None)
          combos
    | [] => []
    end in
  ret (sorted (fun c1 c2 => key_le (cellar_key c1) (cellar_key c2)) choices).

Definition CellarChoices_generate_choices (actor : nat)
  : M (list Consequence) :=
  let choices := [NullOption actor None] in
  a <- read_actor actor ;;
  if String.eqb (actor_name a) "You" then
    more <- CellarChoices_generate_human_choices actor ;;
    ret (choices ++ more)
  else
    more <- CellarChoices_generate_heuristic_choices actor ;;
    ret (choices ++ more).

Definition RemodelChoices_generate_choices (actor : nat)
  : M (list Consequence) :=
  s <- get ;;
  a <- read_actor actor ;;
  let trashables := get_pieces (HAND a) true None in
  match trashables with
  | _ :: _ =>
      more <- lift (res_map (fun trashable =>
                let gainables :=
                  filter_supply
                    (fun x => Z.leb (cost x) (cost trashable + 2)) s in
                trash_then_gain actor trashable gainables) trashables) ;;
      ret (List.concat more)
  | [] => ret [NullOption actor None]
  end.

Definition MilitiaVictimProcedure_generate_choices (actor : nat)
  : M (list Consequence) :=
  a <- read_actor actor ;;
  let discardables := get_pieces (HAND a) true None in
  ret (map (fun discardable =>
              new_Consequence [Effect_discard_piece actor discardable None]
                None) discardables).

(** [for victim in actor.opponents: consequence.add(attack(victim))], each
    attack a new Attack object. *)
Fixpoint add_attacks (attack : nat -> nat -> Process) (victims : list nat)
    (c : Consequence) : M Consequence :=
  match victims with
  | [] => ret c
  | victim :: r =>
      self <- new_attack ;;
      add_attacks attack r (add c (Call (attack victim self)))
  end.

Definition set_custom_message (m : option (list string)) (c : Consequence)
  : Consequence :=
  mkConsequence (class_of c) (effects c) m (action c) (gained_piece c)
    (lost_piece c).

Definition MilitiaChoices_generate_choices (actor : nat)
  : M (list Consequence) :=
  s <- get ;;
  _ <- read_actor actor ;;
  consequence <- add_attacks MilitiaAttack (opponents actor s)
                   (new_Consequence [] None) ;;
  ret [set_custom_message
         (Some ["attack with Militia!"%string;
                "attacks with Militia!"%string]) consequence].

Definition WorkshopChoices_generate_choices (actor : nat)
  : M (list Consequence) :=
  s <- get ;;
  let gainables := filter_supply (fun x => Z.leb (cost x) 4) s in
  match gainables with
  | _ :: _ =>
      lift (res_map (fun gainable =>
                       Acquisition [Effect_gain actor gainable None])
              gainables)
  | [] => ret [NullOption actor None]
  end.

Definition ChapelChoices_generate_choices (actor : nat)
  : M (list Consequence) :=
  let choices := [NullOption actor None] in
  a <- read_actor actor ;;
  let trashables := HAND a in
  match trashables with
  | _ :: _ =>
      let combos := get_piece_combinations trashables 1 (Some 4) in
      ret (choices ++
           map (fun combo =>
                  new_Consequence [Effect_trash_pieces actor combo None]
                    None) combos)
  | [] => ret choices
  end.

Definition HarbingerChoices_generate_choices (actor : nat)
  : M (list Consequence) :=
  let choices := [NullOption actor None] in
  a <- read_actor actor ;;
  let targets := get_pieces (DISCARD a) true None in
  ret (choices ++
       map (fun target =>
              new_Consequence
                [Effect_topdeck actor target (zone_of actor ZDISCARD)] None)
         targets).

Definition VassalChoices_generate_choices (actor : nat)
  : M (list Consequence) :=
  prepare_deck actor 1 ;;
  a <- read_actor actor ;;
  match pop (DECK a) with
  | None => ret [NullOption actor None]
  | Some (topcard, _) =>
      let choices :=
        [new_Consequence
           [Effect_discard_piece actor topcard (Some (zone_of actor ZDECK))]
           None] in
      if is_action topcard then
        ret (choices ++
             [new_Consequence
                [Effect_play_piece actor topcard
                   (Some (zone_of actor ZDECK)) true] None])
      else ret choices
  end.

(** The local name [choices] is used in every branch and bound in none. *)
Definition BureaucratProcedure_generate_choices (actor : nat)
  : M (list Consequence) :=
  a <- read_actor actor ;;
  let victory_cards := get_pieces (HAND a) true (Some is_victory) in
  match victory_cards with
  | [] =>
      match HAND a with
      | [] => raise (NameError "choices")
      | _ :: _ =>
          let reveal_effects := map (Effect_reveal actor) (HAND a) in
          raise (NameError "choices")
      end
  | _ :: _ => raise (NameError "choices")
  end.

(** [BureaucratProcedure.generate_choices(state, actor)] on the class: the
    function receives two of its three arguments. *)
Definition BureaucratProcedure_class_generate_choices (actor : nat)
  : M (list Consequence) :=
  raise TypeError.

Definition BureaucratChoices_generate_choices (actor : nat)
  : M (list Consequence) :=
  s <- get ;;
  _ <- read_actor actor ;;
  let silver := filter_supply (fun x => String.eqb (name x) "Silver") s in
  outcome <-
    match silver with
    | _ :: _ =>
        lift (res_bind (last_item silver) (fun piece =>
              Acquisition [Effect_gain actor piece
                             (Some (zone_of actor ZDECK))]))
    | [] => ret (new_Consequence [] None)
    end ;;
  outcome <- add_attacks BureaucratAttack (opponents actor s) outcome ;;
  ret [outcome].

Definition MoneylenderChoices_generate_choices (actor : nat)
  : M (list Consequence) :=
  let choices := [NullOption actor None] in
  a <- read_actor actor ;;
  let coppers := get_pieces (HAND a) true
                   (Some (fun x => String.eqb (name x) "Copper")) in
  match coppers with
  | copper0 :: _ =>
      ret (choices ++
           [new_Consequence [Effect_trash actor copper0 None;
                             Effect_add_coin 2] None])
  | [] => ret choices
  end.

Definition PoacherProcedure_generate_choices (actor : nat)
  : M (list Consequence) :=
  a <- read_actor actor ;;
  let discardables := get_pieces (HAND a) true None in
  let effects :=
    map (fun card => Effect_discard_piece actor card None) discardables in
  ret [new_Consequence effects None].

Definition PoacherChoices_generate_choices (actor : nat)
  : M (list Consequence) :=
  s <- get ;;
  a <- read_actor actor ;;
  let n_to_discard := n_empty_piles s in
  let n_to_discard := Z.min n_to_discard (len (HAND a)) in
  if Z.eqb n_to_discard 0 then ret [NullOption actor None]
  else
    ret [new_Consequence
           (map (fun _ => Initiate actor PoacherProcedure None)
              (seq 0 (range_len n_to_discard))) None].

Definition ThroneRoomChoices_generate_choices (actor : nat)
  : M (list Consequence) :=
  let choices := [NullOption actor None] in
  a <- read_actor actor ;;
  let actions := get_pieces (HAND a) true (Some is_action) in
  ret (choices ++
       map (fun action =>
              new_Consequence
                [Effect_play_piece actor action
                   (Some (zone_of actor ZHAND)) false;
                 Effect_resolve_effects actor action] None) actions).

Definition could_trash (piece : Piece) : bool :=
  is_treasure piece && negb (String.eqb (name piece) "Copper").

(** In the one-card branch the function chosen is bound to
    [effect_function] and read back as [effect_method]. *)
Definition BanditProcedure_generate_choices (actor : nat)
  : M (list Consequence) :=
  prepare_deck actor 2 ;;
  a <- read_actor actor ;;
  let DECK_ := Some (zone_of actor ZDECK) in
  match pop (DECK a) with
  | None => ret [NullOption actor None]
  | Some (top, rest) =>
      match pop rest with
      | None =>
          let topcard := top in
          let effect_function :=
            if could_trash topcard then Effect_trash
            else Effect_discard_piece in
          raise (NameError "effect_method")
      | Some (second, _) =>
          let topcards := [top; second] in
          let reveal_effects := map (Effect_reveal actor) topcards in
          let '(trashables, discardables) :=
            partition could_trash topcards in
          let unique_trashables := get_pieces trashables true None in
          match unique_trashables with
          | [u0; u1] =>
              ret (map (fun '(trashable, discardable) =>
                          new_Consequence
                            (reveal_effects ++
                             [Effect_trash actor trashable DECK_;
                              Effect_discard_piece actor discardable DECK_])
                            None)
                     [(u0, u1); (u1, u0)])
          | [trashable] =>
              let consequence :=
                new_Consequence
                  (reveal_effects ++ [Effect_trash actor trashable DECK_])
                  None in
              match discardables with
              | discardable :: _ =>
                  ret [add consequence
                         (Effect_discard_piece actor discardable DECK_)]
              | [] => ret [consequence]
              end
          | _ =>
              ret [new_Consequence
                     (reveal_effects ++
                      [Effect_discard_pieces actor discardables DECK_])
                     None]
          end
      end
  end.

Definition BanditChoices_generate_choices (actor : nat)
  : M (list Consequence) :=
  s <- get ;;
  _ <- read_actor actor ;;
  let gold := filter_supply (fun x => String.eqb (name x) "Gold") s in
  outcome <-
    match gold with
    | _ :: _ =>
        lift (res_bind (last_item gold) (fun piece =>
              Acquisition [Effect_gain actor piece None]))
    | [] => ret (new_Consequence [Effect_do_nothing actor] None)
    end ;;
  outcome <- add_attacks BanditAttack (opponents actor s) outcome ;;
  ret [outcome].

Definition CouncilRoomProcedure_generate_choices (actor : nat)
  : M (list Consequence) :=
  ret [new_Consequence [Effect_draw actor 1] None].

Definition CouncilRoomChoices_generate_choices (actor : nat)
  : M (list Consequence) :=
  s <- get ;;
  _ <- read_actor actor ;;
  ret [new_Consequence
         (map (fun victim => Initiate victim CouncilRoomProcedure None)
            (opponents actor s)) None].

Definition LibraryProcedure_generate_choices (actor : nat)
  : M (list Consequence) :=
  prepare_deck actor 1 ;;
  a <- read_actor actor ;;
  match pop (DECK a) with
  | None => ret [NullOption actor None]
  | Some (topcard, _) =>
      let choices :=
        [new_Consequence [Effect_put actor topcard None None] None] in
      if is_action topcard then
        ret (choices ++
             [new_Consequence
                [Effect_set_aside actor topcard (zone_of actor ZDECK)] None])
      else ret choices
  end.

Definition LibraryTeardown_generate_choices (actor : nat)
  : M (list Consequence) :=
  a <- read_actor actor ;;
  match ASIDE a with
  | [] => ret [NullOption actor None]
  | _ :: _ =>
      ret [new_Consequence
             [Effect_discard_zone actor (zone_of actor ZASIDE)] None]
  end.

Definition LibraryChoices_generate_choices (actor : nat)
  : M (list Consequence) :=
  let process := LibraryProcess actor in
  b <- antecedent process ;;
  if b then ret [new_Consequence [Call process] None]
  else ret [NullOption actor None].

(** The type of the module-level functions [trash] and [discard_piece]
    as [Effect(function, actor=..., piece=..., source=...)]. *)
Definition piece_effect : Type := nat -> Piece -> option ZoneRef -> Effect.

(** SentryChoices.generate_choices, given what the module binds to the
    global name [discard]. *)
Definition SentryChoices_generate_choices_in
    (global_discard : option piece_effect) (actor : nat)
  : M (list Consequence) :=
  prepare_deck actor 2 ;;
  a <- read_actor actor ;;
  let DECK_ := Some (zone_of actor ZDECK) in
  match pop (DECK a) with
  | None => ret [NullOption actor None]
  | Some (top, rest) =>
      let choices := [NullOption actor None] in
      let topcards :=
        match pop rest with
        | None => [top]
        | Some (second, _) => [top; second]
        end in
      discard <- lookup_global "discard" global_discard ;;
      let functions := [Effect_trash; discard] in
      let choices :=
        choices ++
        map (fun function : piece_effect =>
               new_Consequence
                 (map (fun topcard => function actor topcard DECK_) topcards)
                 None) functions in
      let unique_topcards := get_pieces topcards true None in
      let n_unique_topcards := List.length unique_topcards in
      if Nat.eqb n_unique_topcards 2 then
        let choices :=
          choices ++
          [new_Consequence [Effect_swap_top_cards_of_deck actor] None] in
        more <- lift (res_map (fun '(trash_index, discard_index) =>
                  res_bind (item_at trash_index topcards) (fun to_trash =>
                  res_bind (item_at discard_index topcards) (fun to_discard =>
                  Ok [new_Consequence
                        [Effect_trash actor to_trash DECK_;
                         Effect_discard_piece actor to_discard DECK_] None;
                      new_Consequence
                        [Effect_trash actor to_trash DECK_] None;
                      new_Consequence
                        [Effect_discard_piece actor to_discard DECK_]
                        None])))
                  [(0, 1); (1, 0)]) ;;
        ret (choices ++ List.concat more)
      else ret choices
  end.

(** engine.py defines and imports no name [discard]. *)
Definition engine_discard : option piece_effect := None.

Definition SentryChoices_generate_choices (actor : nat)
  : M (list Consequence) :=
  SentryChoices_generate_choices_in engine_discard actor.

(** The local name [choices] is used in both branches and bound in none. *)
Definition WitchProcedure_generate_choices (actor : nat)
  : M (list Consequence) :=
  s <- get ;;
  let gainables := filter_supply (fun x => String.eqb (name x) "Curse") s in
  match gainables with
  | _ :: _ => raise (NameError "choices")
  | [] => raise (NameError "choices")
  end.

Definition WitchChoices_generate_choices (actor : nat)
  : M (list Consequence) :=
  s <- get ;;
  _ <- read_actor actor ;;
  outcome <- add_attacks WitchAttack (opponents actor s)
               (new_Consequence [] None) ;;
  ret [outcome].

(** ArtisanChoices.generate_choices, given what the module binds to the
    global name [get_cards]. *)
Definition ArtisanChoices_generate_choices_in
    (global_get_cards : option (list Piece -> bool -> list Piece))
    (actor : nat) : M (list Consequence) :=
  s <- get ;;
  let HAND_ := zone_of actor ZHAND in
  let gainables := filter_supply (fun x => Z.leb (cost x) 5) s in
  get_cards <- lookup_global "get_cards" global_get_cards ;;
  a <- read_actor actor ;;
  let placeables := get_cards (HAND a) true in
  match gainables, placeables with
  | [], [] => ret [NullOption actor None]
  | [], _ :: _ =>
      ret (map (fun placeable =>
                  new_Consequence [Effect_topdeck actor placeable HAND_] None)
             placeables)
  | _ :: _, [] =>
      lift (res_map (fun gainable =>
                       Acquisition
                         [Effect_gain actor gainable (Some HAND_);
                          Effect_topdeck actor gainable HAND_]) gainables)
  | _ :: _, _ :: _ =>
      let placeable_tois := map total_order_index placeables in
      more <- lift (res_map (fun gainable =>
                let gainable_toi := total_order_index gainable in
                res_map (fun placeable =>
                  res_bind (Acquisition
                              [Effect_gain actor gainable (Some HAND_);
                               Effect_topdeck actor placeable HAND_])
                    (fun c1 =>
                  if existsb (Nat.eqb gainable_toi) placeable_tois
                  then Ok [c1]
                  else
                    res_bind (Acquisition
                                [Effect_gain actor gainable (Some HAND_);
                                 Effect_topdeck actor gainable HAND_])
                      (fun c2 => Ok [c1; c2]))) placeables) gainables) ;;
      ret (List.concat (List.concat more))
  end.

(** engine.py defines and imports no name [get_cards]. *)
Definition engine_get_cards : option (list Piece -> bool -> list Piece) :=
  None.

Definition ArtisanChoices_generate_choices (actor : nat)
  : M (list Consequence) :=
  ArtisanChoices_generate_choices_in engine_get_cards actor.

(** [decision.generate_choices(state, actor)] *)
Definition generate_choices (decision : Decision) (actor : nat)
  : M (list Consequence) :=
  match decision with
  | Decision_base => Decision_generate_choices actor
  | ImmunityProcedure process =>
      ImmunityProcedure_generate_choices process actor
  | ActionChoices => ActionChoices_generate_choices actor
  | TreasureChoices => TreasureChoices_generate_choices actor
  | BuyChoices => BuyChoices_generate_choices actor
  | MineChoices => MineChoices_generate_choices actor
  | CellarChoices => CellarChoices_generate_choices actor
  | RemodelChoices => RemodelChoices_generate_choices actor
  | MilitiaVictimProcedure => MilitiaVictimProcedure_generate_choices actor
  | MilitiaChoices => MilitiaChoices_generate_choices actor
  | WorkshopChoices => WorkshopChoices_generate_choices actor
  | ChapelChoices => ChapelChoices_generate_choices actor
  | HarbingerChoices => HarbingerChoices_generate_choices actor
  | VassalChoices => VassalChoices_generate_choices actor
  | BureaucratProcedure => BureaucratProcedure_generate_choices actor
  | BureaucratProcedure_class =>
      BureaucratProcedure_class_generate_choices actor
  | BureaucratChoices => BureaucratChoices_generate_choices actor
  | MoneylenderChoices => MoneylenderChoices_generate_choices actor
  | PoacherProcedure => PoacherProcedure_generate_choices actor
  | PoacherChoices => PoacherChoices_generate_choices actor
  | ThroneRoomChoices => ThroneRoomChoices_generate_choices actor
  | BanditProcedure => BanditProcedure_generate_choices actor
  | BanditChoices => BanditChoices_generate_choices actor
  | CouncilRoomProcedure => CouncilRoomProcedure_generate_choices actor
  | CouncilRoomChoices => CouncilRoomChoices_generate_choices actor
  | LibraryProcedure => LibraryProcedure_generate_choices actor
  | LibraryTeardown => LibraryTeardown_generate_choices actor
  | LibraryChoices => LibraryChoices_generate_choices actor
  | SentryChoices => SentryChoices_generate_choices actor
  | WitchProcedure => WitchProcedure_generate_choices actor
  | WitchChoices => WitchChoices_generate_choices actor
  | ArtisanChoices => ArtisanChoices_generate_choices actor
  end.

Definition expand_choices (actor : nat) (decision : Decision)
  : M (list Consequence) :=
  generate_choices decision actor.

(** ** Resolution loop and effect application *)

Section Engine.

(** The card catalogue (engine/pieces.py), consumed:
    [piece.simple_effects] and [piece.decision], [None] when absent. *)
Variable simple_effects : Piece -> option (list Effect).
Variable decision : Piece -> option Decision.

(** Modelled from the spec: the decider capability
    [select(choices, decision) -> Consequence] picks one of the choices it
    is offered.  The pick of decider [d] is the position [select d ...],
    read modulo the number of choices; with no choices there is nothing
    to pick and the call fails. *)
Variable select : nat -> list Consequence -> Decision -> State -> nat.

Definition request_input (actor : nat) (decision : Decision)
    (decider : nat) : M Consequence :=
  choices <- expand_choices actor decision ;;
  s <- get ;;
  match choices with
  | [] => raise IndexError
  | c :: _ =>
      ret (nth (select decider choices decision s mod List.length choices)
             choices c)
  end.

(** [effect(state)] for every kind of effect, with [enact], [resolve] and
    [resolve_effects], which call each other through it.  [fuel] bounds
    the depth of nested calls and the iterations of a Process. *)
Fixpoint apply_effect (fuel : nat) (e : Effect) {struct fuel} : M unit :=
  match fuel with
  | O => out_of_fuel
  | S fuel' =>
      let enact := fun consequence : list Effect =>
        for_each consequence (apply_effect fuel') in
      let resolve := fun (actor : nat) (decision : Decision)
                         (decider : option nat) =>
        let decider := match decider with
                       | None => actor
                       | Some d => d
                       end in
        consequence <- request_input actor decision decider ;;
        enact (effects consequence) in
      let resolve_effects := fun (actor : nat) (piece : Piece) =>
        match simple_effects piece with
        | Some es => enact es
        | None => ret tt
        end ;;
        match decision piece with
        | Some d => resolve actor d None
        | None => ret tt
        end in
      match e with
      | Effect_end_phase actor phase => end_phase actor phase
      | Effect_do_nothing actor => do_nothing actor
      | Effect_play_piece actor piece source free =>
          (if negb free
           then modify (fun s => set_n_action (n_action s - 1) s)
           else ret tt) ;;
          transfer_piece piece (zone_of actor ZPLAY)
            (default_zone actor ZHAND source) ;;
          resolve_effects actor piece
      | Effect_play_treasures actor pieces =>
          for_each pieces (fun piece =>
            transfer_piece piece (zone_of actor ZPLAY)
              (zone_of actor ZHAND) ;;
            resolve_effects actor piece) ;;
          end_phase actor TREASURE_PHASE
      | Effect_buy_piece actor piece destination =>
          buy_piece actor piece destination
      | Effect_gain actor piece destination => gain actor piece destination
      | Effect_trash actor piece source => trash actor piece source
      | Effect_trash_pieces actor pieces source =>
          trash_pieces actor pieces source
      | Effect_reveal actor piece => reveal actor piece
      | Effect_put actor piece destination source =>
          put actor piece destination source
      | Effect_set_aside actor piece source => set_aside actor piece source
      | Effect_topdeck actor piece source => topdeck actor piece source
      | Effect_discard_piece actor piece source =>
          discard_piece actor piece source
      | Effect_discard_pieces actor pieces source =>
          discard_pieces actor pieces source
      | Effect_discard_zone actor source => discard_zone actor source
      | Effect_draw actor n => draw actor n
      | Effect_add_card n => add_card n
      | Effect_add_action n => add_action n
      | Effect_add_buy n => add_buy n
      | Effect_add_coin n => add_coin n
      | Effect_add_merchant_silver_bonus => add_merchant_silver_bonus
      | Effect_add_silver => add_silver
      | Effect_swap_top_cards_of_deck actor => swap_top_cards_of_deck actor
      | Effect_resolve_effects actor piece => resolve_effects actor piece
      | Initiate actor decision decider => resolve actor decision decider
      | Update_mark_immunity process => mark_immunity process
      | Call process =>
          (* Process.__call__ : setup, the loop, teardown *)
          match setup_effect process with
          | Some e => apply_effect fuel' e
          | None => ret tt
          end ;;
          _ <- while_ fuel' (antecedent process)
                 (apply_effect fuel' (main_effect process)) ;;
          match teardown_effect process with
          | Some e => apply_effect fuel' e
          | None => ret tt
          end ;;
          clear_internal_state process
      end
  end.

Definition enact (fuel : nat) (consequence : list Effect) : M unit :=
  for_each consequence (apply_effect fuel).

Definition resolve (fuel : nat) (actor : nat) (decision : Decision)
    (decider : option nat) : M unit :=
  apply_effect (S fuel) (Initiate actor decision decider).

Definition resolve_effects (fuel : nat) (actor : nat) (piece : Piece)
  : M unit :=
  apply_effect (S fuel) (Effect_resolve_effects actor piece).

Definition play_piece (fuel : nat) (actor : nat) (piece : Piece)
    (source : option ZoneRef) (free : bool) : M unit :=
  apply_effect (S fuel) (Effect_play_piece actor piece source free).

(** [Process.__call__], also giving the number of iterations of the
    main loop. *)
Definition Process_call (fuel : nat) (process : Process) : M nat :=
  match setup_effect process with
  | Some e => apply_effect fuel e
  | None => ret tt
  end ;;
  n <- while_ fuel (antecedent process)
         (apply_effect fuel (main_effect process)) ;;
  match teardown_effect process with
  | Some e => apply_effect fuel e
  | None => ret tt
  end ;;
  clear_internal_state process ;;
  ret n.

End Engine.

(** ** Rules / heuristics *)

Definition set_include (l : list Piece) (a : Actor) : Actor :=
  set_scratch l (exclude a) a.

Definition set_exclude (l : list Piece) (a : Actor) : Actor :=
  set_scratch (include a) l a.

Definition update_actor (player : nat) (f : Actor -> Actor) : M unit :=
  _ <- read_actor player ;;
  modify (fun s => set_players (update_nth player f (players s)) s).

Section Heuristics.

(** [Actor.__lt__], the ranking rule of the game: an Actor capability
    the engine consumes.  It reads the two actors, which includes their
    scratch lists, and it can fail. *)
Variable lt : Actor -> Actor -> Res bool.

Definition actor_lt (x y : nat) : M bool :=
  a <- read_actor x ;;
  b <- read_actor y ;;
  lift (lt a b).

(** [(opponent < player) and not(player < opponent)] *)
Definition would_defeat (player opponent : nat) : M bool :=
  b <- actor_lt opponent player ;;
  if b then
    c <- actor_lt player opponent ;;
    ret (negb c)
  else ret false.

(** [not(player < opponent)] *)
Definition would_defeat_or_tie (player opponent : nat) : M bool :=
  b <- actor_lt player opponent ;;
  ret (negb b).

Definition modify_collection (player : nat) (acquisition : Consequence)
  : M unit :=
  _ <- read_actor player ;;
  match gained_piece acquisition with
  | None => raise AttributeError
  | Some gained =>
      update_actor player (fun a => set_include (include a ++ [gained]) a) ;;
      match lost_piece acquisition with
      | Some lost =>
          update_actor player (fun a => set_exclude (exclude a ++ [lost]) a)
      | None => ret tt
      end
  end.

Definition revert_collection (player : nat) : M unit :=
  update_actor player (set_include []) ;;
  update_actor player (set_exclude []).

(** [all(test(x) for x in xs)]: stops at the first false. *)
Fixpoint all_ {A} (test : A -> M bool) (xs : list A) : M bool :=
  match xs with
  | [] => ret true
  | x :: r =>
      b <- test x ;;
      if b then all_ test r else ret false
  end.

Definition would_win_outright (player : nat) (acquisition : Consequence)
  : M bool :=
  modify_collection player acquisition ;;
  s <- get ;;
  result <- all_ (would_defeat player) (opponents player s) ;;
  revert_collection player ;;
  ret result.

Definition would_win (player : nat) (acquisition : Consequence) : M bool :=
  modify_collection player acquisition ;;
  s <- get ;;
  result <- all_ (would_defeat_or_tie player) (opponents player s) ;;
  revert_collection player ;;
  ret result.

End Heuristics.

(** ** The pieces in circulation *)

Definition actor_pieces (a : Actor) : list Piece :=
  HAND a ++ DECK a ++ DISCARD a ++ PLAY a ++ ASIDE a.

(** Every Piece instance of every Zone of every player, of every Supply
    pile and of the TRASH. *)
Definition all_pieces (s : State) : list Piece :=
  flat_map actor_pieces (players s) ++ List.concat (piles s) ++ TRASH s.

(** The counters and flags of the State: all but the zones. *)
Definition counters (s : State)
  : Z * Z * Z * Z * Z * bool * bool * bool * Z * bool * nat * Z :=
  (n_action s, n_buy s, n_coin s, n_silver_played_this_turn s,
   merchant_silver_bonus s, need_action_phase s, need_treasure_phase s,
   need_buy_phase s, n_empty_piles s, province_pile_empty s,
   current_player s, n_total_turns_played s).

(** The State in which the actor object [actor] has the attribute values
    of [x]. *)
Definition put_actor (actor : nat) (x : Actor) (s : State) : State :=
  set_players (update_nth actor (fun _ => x) (players s)) s.

(** ** Sample pieces and states *)

Module Sample.

Definition Copper (uid : nat) : Piece :=
  mkPiece uid "Copper" 0 false true false false 4.
Definition Silver (uid : nat) : Piece :=
  mkPiece uid "Silver" 3 false true false false 5.
Definition Gold (uid : nat) : Piece :=
  mkPiece uid "Gold" 6 false true false false 6.
Definition Estate (uid : nat) : Piece :=
  mkPiece uid "Estate" 2 false false true false 1.
Definition Province (uid : nat) : Piece :=
  mkPiece uid "Province" 8 false false true true 3.
Definition Moat (uid : nat) : Piece :=
  mkPiece uid "Moat" 2 true false false false 8.
Definition Village (uid : nat) : Piece :=
  mkPiece uid "Village" 3 true false false false 11.

Definition new_actor (label : string) (hand deck discard : Zone) : Actor :=
  mkActor label hand deck discard [] [] [] [] 0.

Definition new_state (players : list Actor) (piles : list Zone) : State :=
  mkState players piles [] 1 1 0 0 0 true true true 0 false 0 0 [] [].

(** One player: an Estate in hand, a Copper in the deck, a Silver under
    a Gold in the discard pile; the generator will draw 1. *)
Definition alice : Actor :=
  new_actor "Alice" [Estate 1] [Copper 2] [Silver 3; Gold 4].

Definition solo : State :=
  set_np_random [1] (new_state [alice] []).

(** A catalogue of cards without effects, and the decider that always
    picks the first choice. *)
Definition no_simple_effects (piece : Piece) : option (list Effect) := None.
Definition no_decision (piece : Piece) : option Decision := None.
Definition first_choice (decider : nat) (choices : list Consequence)
    (decision : Decision) (s : State) : nat := 0.

End Sample.

(** [not(l)] of a list. *)
Definition is_nil {A} (l : list A) : bool :=
  match l with
  | [] => true
  | _ :: _ => false
  end.

(** The Purchase object that [Purchase(actor, piece)] builds. *)
Definition purchase_of (actor : nat) (piece : Piece) : Consequence :=
  mkConsequence class_Purchase [Effect_buy_piece actor piece None]
    None None (Some piece) None.

Module BuySample.

(** The Supply holds one card, a Province, in the Province pile; the
    player has 8 coins and 1 buy. *)
Definition last_province : State :=
  set_n_coin 8
    (Sample.new_state [Sample.alice] [[]; []; []; [Sample.Province 9]]).

End BuySample.

(** The Attack objects of the four Attack classes about one victim. *)
Definition attacks (actor self : nat) : list Process :=
  [MilitiaAttack actor self; BureaucratAttack actor self;
   BanditAttack actor self; WitchAttack actor self].

(** [repr(x) == "Moat"] *)
Definition is_Moat (x : Piece) : bool := String.eqb (name x) "Moat".

(** The Consequence of ImmunityProcedure that reveals [moat] and marks the
    immunity of the Attack [self]. *)
Definition reveal_Moat (actor self : nat) (moat : Piece) : Consequence :=
  new_Consequence [Effect_reveal actor moat; Update_mark_immunity self]
    (Some success_message).

(** The State in which the Attack object [self] has [immunity = b]. *)
Definition set_immunity (self : nat) (b : bool) (s : State) : State :=
  set_attack_immunity (update_nth self (fun _ => b) (attack_immunity s)) s.

Module AttackSample.

(** Bob, the second player, holds a Moat among five cards. *)
Definition bob : Actor :=
  Sample.new_actor "Bob"
    [Sample.Copper 10; Sample.Moat 11; Sample.Estate 12; Sample.Copper 13;
     Sample.Copper 14] [] [].

(** Alice attacks: one Attack object exists, about Bob. *)
Definition moat_in_hand : State :=
  set_attack_immunity [false] (Sample.new_state [Sample.alice; bob] []).

End AttackSample.

(** What SentryChoices builds for two top cards of distinct types when the
    name [discard] is bound: [top] is [DECK[-1]], [second] is [DECK[-2]]. *)
Definition sentry_options (discard : piece_effect) (actor : nat)
    (top second : Piece) : list Consequence :=
  let DECK_ := Some (zone_of actor ZDECK) in
  [NullOption actor None;
   new_Consequence [Effect_trash actor top DECK_;
                    Effect_trash actor second DECK_] None;
   new_Consequence [discard actor top DECK_; discard actor second DECK_] None;
   new_Consequence [Effect_swap_top_cards_of_deck actor] None;
   new_Consequence [Effect_trash actor top DECK_;
                    Effect_discard_piece actor second DECK_] None;
   new_Consequence [Effect_trash actor top DECK_] None;
   new_Consequence [Effect_discard_piece actor second DECK_] None;
   new_Consequence [Effect_trash actor second DECK_;
                    Effect_discard_piece actor top DECK_] None;
   new_Consequence [Effect_trash actor second DECK_] None;
   new_Consequence [Effect_discard_piece actor top DECK_] None].

(** The same for two top cards of one type. *)
Definition sentry_options_same_type (discard : piece_effect) (actor : nat)
    (top second : Piece) : list Consequence :=
  let DECK_ := Some (zone_of actor ZDECK) in
  [NullOption actor None;
   new_Consequence [Effect_trash actor top DECK_;
                    Effect_trash actor second DECK_] None;
   new_Consequence [discard actor top DECK_; discard actor second DECK_] None].

Module SentrySample.

(** A Silver under a Gold on top of the deck. *)
Definition carol : Actor :=
  Sample.new_actor "Carol" [] [Sample.Copper 20; Sample.Silver 21;
                               Sample.Gold 22] [].

Definition two_top_cards : State := Sample.new_state [carol] [].

End SentrySample.

Module WitchSample.

(** Bob holds no Moat; a Curse is left in the Supply. *)
Definition bob : Actor :=
  Sample.new_actor "Bob" [Sample.Copper 10; Sample.Estate 12] [] [].

Definition curse : Piece := mkPiece 30 "Curse" 0 false false false false 0.

Definition no_moat : State :=
  set_attack_immunity [false]
    (Sample.new_state [Sample.alice; bob] [[curse]]).

End WitchSample.

(** The five zones of an actor. *)
Definition zones_of (a : Actor) : Zone * Zone * Zone * Zone * Zone :=
  (HAND a, DECK a, DISCARD a, PLAY a, ASIDE a).

Module RankingSample.

(** A ranking rule that fails. *)
Definition failing_lt (a b : Actor) : Res bool := Raise TypeError.

(** A ranking rule that succeeds: fewer cards held, hypothetical gains
    included, ranks lower. *)
Definition by_size (a b : Actor) : Res bool :=
  Ok (Nat.ltb (List.length (actor_pieces a ++ include a))
              (List.length (actor_pieces b ++ include b))).

Definition two_players : State :=
  Sample.new_state [Sample.alice; AttackSample.bob] [].

Definition buy_province : Consequence := purchase_of 0 (Sample.Province 9).

End RankingSample.

Module BanditSample.

(** Bob holds no Moat; his deck is two Coppers, his discard pile empty. *)
Definition bob : Actor :=
  Sample.new_actor "Bob" [Sample.Estate 12] [Sample.Copper 40;
                                              Sample.Copper 41] [].

(** The same Bob once the two Coppers have been discarded. *)
Definition bob_discarded : Actor :=
  Sample.new_actor "Bob" [Sample.Estate 12] [] [Sample.Copper 40;
                                                 Sample.Copper 41].

(** Alice plays Bandit: one BanditAttack object exists, about Bob. *)
Definition two_coppers : State :=
  set_attack_immunity [false] (Sample.new_state [Sample.alice; bob] []).

Definition two_coppers_discarded : State :=
  set_attack_immunity [false]
    (Sample.new_state [Sample.alice; bob_discarded] []).

End BanditSample.

(** [resolve] and [resolve_effects] as [apply_effect] runs them, with the
    fuel that is left for the effects they apply. *)
Section Resolution.

Variable simple_effects : Piece -> option (list Effect).
Variable decision : Piece -> option Decision.
Variable select : nat -> list Consequence -> Decision -> State -> nat.

Definition resolve_with (fuel : nat) (actor : nat) (d : Decision)
    (decider : option nat) : M unit :=
  consequence <-
    request_input select actor d
      (match decider with None => actor | Some d' => d' end) ;;
  enact simple_effects decision select fuel (effects consequence).

Definition resolve_effects_with (fuel : nat) (actor : nat) (piece : Piece)
  : M unit :=
  match simple_effects piece with
  | Some es => enact simple_effects decision select fuel es
  | None => ret tt
  end ;;
  match decision piece with
  | Some d => resolve_with fuel actor d None
  | None => ret tt
  end.

End Resolution.

(** ** Counting the instances in circulation *)

Definition Piece_eq_dec : forall x y : Piece, {x = y} + {x <> y}.
Proof.
  decide equality;
    first [ apply Nat.eq_dec | apply Bool.bool_dec | apply Z.eq_dec
          | apply string_dec ].
Defined.

Definition ZoneRef_eq_dec : forall x y : ZoneRef, {x = y} + {x <> y}.
Proof.
  decide equality; try apply Nat.eq_dec. decide equality.
Defined.

(** How many times the instance [p] occurs in a list, and in all the
    zones of the State together. *)
Definition cnt (p : Piece) (l : list Piece) : nat :=
  count_occ Piece_eq_dec l p.

Definition occ (p : Piece) (s : State) : nat := cnt p (all_pieces s).

(** A computation that creates and destroys no Piece instance, whatever
    its outcome. *)
Definition conserves {A} (m : M A) : Prop :=
  forall s p, occ p (snd (m s)) = occ p s.

(** The effects that move pieces between zones without a precondition:
    all but the swap of the two top cards (which needs two cards in the
    deck) and the discarding of the discard pile into itself. *)
Definition wf_effect (e : Effect) : Prop :=
  match e with
  | Effect_swap_top_cards_of_deck _ => False
  | Effect_discard_zone actor source => source <> zone_of actor ZDISCARD
  | _ => True
  end.

Definition wf_consequence (c : Consequence) : Prop :=
  Forall wf_effect (effects c).

(** What is known of the value of a computation that returns. *)
Definition yields {A} (Q : A -> Prop) (m : M A) : Prop :=
  forall s a s', m s = (Ok a, s') -> Q a.

Module CatalogueSample.

Definition Militia (uid : nat) : Piece :=
  mkPiece uid "Militia" 4 true false false false 14.

(** Three cards of the catalogue: Village (+1 card, +2 actions), Moat
    (+2 cards) and Militia (+2 coins, then the attack). *)
Definition simple_effects (piece : Piece) : option (list Effect) :=
  if String.eqb (name piece) "Village"
  then Some [Effect_add_card 1; Effect_add_action 2]
  else if String.eqb (name piece) "Moat" then Some [Effect_add_card 2]
  else if String.eqb (name piece) "Militia" then Some [Effect_add_coin 2]
  else None.

Definition decision (piece : Piece) : option Decision :=
  if String.eqb (name piece) "Militia" then Some MilitiaChoices else None.

(** Alice holds a Militia; Carol, the third player, holds five cards and
    no Moat; Bob holds his Moat. *)
Definition alice : Actor :=
  Sample.new_actor "Alice" [Sample.Estate 1; Militia 5] [Sample.Copper 2]
    [Sample.Silver 3; Sample.Gold 4].

Definition carol : Actor :=
  Sample.new_actor "Carol"
    [Sample.Copper 20; Sample.Copper 21; Sample.Estate 22; Sample.Silver 23;
     Sample.Village 24] [Sample.Copper 25] [].

Definition three_players : State :=
  Sample.new_state [alice; AttackSample.bob; carol]
    [[]; [Sample.Estate 50]; []; [Sample.Province 9]].

End CatalogueSample.

(** A computation that leaves the immunity of every Attack as it is,
    whatever its outcome. *)
Definition keeps_immunity {A} (m : M A) : Prop :=
  forall s, attack_immunity (snd (m s)) = attack_immunity s.

(** The effects of the Consequences that BanditProcedure builds. *)
Definition reveal_trash_or_discard (e : Effect) : Prop :=
  match e with
  | Effect_do_nothing _
  | Effect_reveal _ _
  | Effect_trash _ _ _
  | Effect_discard_piece _ _ _
  | Effect_discard_pieces _ _ _ => True
  | _ => False
  end.

(** The Attack classes that define no antecedent of their own. *)
Definition plain_attacks (actor self : nat) : list Process :=
  [BureaucratAttack actor self; BanditAttack actor self;
   WitchAttack actor self].

(** ** Notions used by the further properties *)

(** The first instance of [l] identical to [piece], and [l] without it:
    what [l.pop(l.index(piece))] returns and what it leaves. *)
Fixpoint take_piece (piece : Piece) (l : list Piece)
  : option (Piece * list Piece) :=
  match l with
  | [] => None
  | x :: r =>
      if piece_is x piece then Some (x, r)
      else match take_piece piece r with
           | Some (y, r') => Some (y, x :: r')
           | None => None
           end
  end.

(** The actor once [k] cards have gone from the top of the deck to the
    hand, the top card first. *)
Definition draw_cards (k : nat) (x : Actor) : Actor :=
  let kept := List.length (DECK x) - k in
  mkActor (actor_name x) (HAND x ++ rev (skipn kept (DECK x)))
    (firstn kept (DECK x)) (DISCARD x) (PLAY x) (ASIDE x) (include x)
    (exclude x) (n_turns_played x).

(** The actor once the discard pile, in the order [under], has gone under
    the deck. *)
Definition replenished (under : list Piece) (x : Actor) : Actor :=
  mkActor (actor_name x) (HAND x) (under ++ DECK x) [] (PLAY x) (ASIDE x)
    (include x) (exclude x) (n_turns_played x).

(** The Decisions whose [generate_choices] begins with [prepare_deck]. *)
Definition prepares_deck (d : Decision) : bool :=
  match d with
  | VassalChoices | BanditProcedure | LibraryProcedure | SentryChoices => true
  | _ => false
  end.

(** The State once [k] new Attack objects exist, none with immunity. *)
Definition with_new_attacks (k : nat) (s : State) : State :=
  set_attack_immunity (attack_immunity s ++ repeat false k) s.

(** A computation that at most creates Attack objects, whatever its
    outcome. *)
Definition creates_attacks {A} (m : M A) : Prop :=
  forall s, exists k, snd (m s) = with_new_attacks k s.

(** The Attack class an attack card starts against every opponent. *)
Definition attack_class (d : Decision) : option (nat -> nat -> Process) :=
  match d with
  | MilitiaChoices => Some MilitiaAttack
  | BureaucratChoices => Some BureaucratAttack
  | BanditChoices => Some BanditAttack
  | WitchChoices => Some WitchAttack
  | _ => None
  end.

(** One call of a new Attack object per victim, in order; the first new
    object is the [base]-th Attack object of the State. *)
Fixpoint attacks_on (attack : nat -> nat -> Process) (base : nat)
    (victims : list nat) : list Effect :=
  match victims with
  | [] => []
  | victim :: r => Call (attack victim base) :: attacks_on attack (S base) r
  end.

(** What Mine lets gain for a trashed treasure, and Remodel for a trashed
    card. *)
Definition mine_gainable (trashable x : Piece) : bool :=
  is_treasure x && Z.leb (cost x) (cost trashable + 3).

Definition remodel_gainable (trashable x : Piece) : bool :=
  Z.leb (cost x) (cost trashable + 2).

(** The DependentAcquisition that trashes one piece of the hand and gains
    another from the Supply. *)
Definition trash_to_gain (actor : nat) (trashable gainable : Piece)
  : Consequence :=
  mkConsequence class_DependentAcquisition
    [Effect_trash actor trashable None; Effect_gain actor gainable None]
    None None (Some gainable) (Some trashable).

(** A choice of Mine or Remodel about the piece [t] of the hand: one of
    the pieces on top of a Supply pile that [gainable] allows is gained
    for it, or it is trashed for nothing when there is none. *)
Definition trash_offer (gainable : Piece -> Piece -> bool) (actor : nat)
    (s : State) (t : Piece) (c : Consequence) : Prop :=
  (filter_supply (gainable t) s = []
   /\ c = new_Consequence [Effect_trash actor t None] None)
  \/ (exists g, In g (filter_supply (gainable t) s)
                /\ c = trash_to_gain actor t g).

(** The Supply is well formed when the pile of rank [i] holds only pieces
    whose [total_order_index] is [i]. *)
Definition supply_wf (s : State) : Prop :=
  forall i pile p,
    nth_error (piles s) i = Some pile -> In p pile ->
    total_order_index p = i.

(** The Decisions whose Consequences are made of the operations on zones
    and counters alone: they start no other Decision and no Process. *)
Definition plain_decisions : list Decision :=
  [BuyChoices; MineChoices; CellarChoices; RemodelChoices;
   MilitiaVictimProcedure; WorkshopChoices; ChapelChoices;
   HarbingerChoices; MoneylenderChoices; PoacherProcedure;
   CouncilRoomProcedure; LibraryProcedure; LibraryTeardown;
   BanditProcedure].

(** The number of Supply piles that are empty. *)
Definition empty_piles (s : State) : Z :=
  Z.of_nat (List.length (filter is_nil (piles s))).

(** From [s] to [s'] the Supply has kept its piles, every pile has only
    lost pieces, and [n_empty_piles] has grown by the number of piles that
    have become empty. *)
Definition supply_shrinks (s s' : State) : Prop :=
  List.length (piles s') = List.length (piles s)
  /\ (forall i p, nth_error (piles s) i = Some p ->
        exists taken p',
          nth_error (piles s') i = Some p'
          /\ Permutation p (taken ++ p'))
  /\ (n_empty_piles s' - n_empty_piles s
      = empty_piles s' - empty_piles s)%Z.

Definition shrinks {A} (m : M A) : Prop :=
  forall s, supply_shrinks s (snd (m s)).

(** A zone that is no Supply pile: a zone of a player, or the trash. *)
Definition off_supply (r : ZoneRef) : Prop :=
  match r with
  | pile_ref _ => False
  | _ => True
  end.

(** The effects whose zone arguments are no Supply piles: they reach the
    Supply through [handle_acquisition] only. *)
Definition supply_safe (e : Effect) : Prop :=
  match e with
  | Effect_play_piece actor _ source _
  | Effect_trash actor _ source
  | Effect_trash_pieces actor _ source
  | Effect_discard_piece actor _ source
  | Effect_discard_pieces actor _ source =>
      off_supply (default_zone actor ZHAND source)
  | Effect_buy_piece actor _ destination
  | Effect_gain actor _ destination =>
      off_supply (default_zone actor ZDISCARD destination)
  | Effect_put actor _ destination source =>
      off_supply (default_zone actor ZHAND destination)
      /\ off_supply (default_zone actor ZDECK source)
  | Effect_set_aside _ _ source
  | Effect_topdeck _ _ source
  | Effect_discard_zone _ source => off_supply source
  | _ => True
  end.

Definition safe_consequence (c : Consequence) : Prop :=
  Forall supply_safe (effects c).

(** Where an effect conserves the pieces: everywhere, but for the swap of
    the two top cards of a deck of exactly one card (the card is popped
    into a local list before the second pop raises) and the discarding of
    a discard pile that is not empty into itself (the pile is extended by
    itself, then cleared). *)
Definition conserving (e : Effect) (s : State) : bool :=
  match e with
  | Effect_swap_top_cards_of_deck actor =>
      match nth_error (players s) actor with
      | Some x => negb (Nat.eqb (List.length (DECK x)) 1)
      | None => true
      end
  | Effect_discard_zone actor source =>
      if ZoneRef_eq_dec source (zone_of actor ZDISCARD)
      then match nth_error (players s) actor with
           | Some x => is_nil (DISCARD x)
           | None => true
           end
      else true
  | _ => true
  end.

Section Conserving.

Variable simple_effects : Piece -> option (list Effect).
Variable decision : Piece -> option Decision.
Variable select : nat -> list Consequence -> Decision -> State -> nat.

(** The effects of a Consequence conserve the pieces when each of them
    does in the State in which it is applied; those after an effect that
    does not return are not applied. *)
Fixpoint conserving_all (fuel : nat) (es : list Effect) (s : State)
  : bool :=
  match es with
  | [] => true
  | e :: r =>
      conserving e s
      && match apply_effect simple_effects decision select fuel e s with
         | (Ok _, s') => conserving_all fuel r s'
         | _ => true
         end
  end.

End Conserving.

(** * Properties *)

Unset Implicit Arguments.

(** ** Python list operations *)

Lemma pop_app : forall A (l : list A) (x : A), pop (l ++ [x]) = Some (x, l).
Proof.
  induction l as [|y l IH]; intros x; simpl.
  - reflexivity.
  - rewrite IH. reflexivity.
Qed.

Lemma pop_Some : forall A (l l' : list A) (x : A),
  pop l = Some (x, l') -> l = l' ++ [x].
Proof.
  induction l as [|y l IH]; intros l' x H; simpl in H.
  - discriminate.
  - destruct (pop l) as [[z r]|] eqn:E.
    + inversion H; subst. simpl. f_equal. apply IH. reflexivity.
    + inversion H; subst. destruct l as [|w l].
      * reflexivity.
      * simpl in E. destruct (pop l) as [[? ?]|]; discriminate.
Qed.

Lemma pop_None : forall A (l : list A), pop l = None -> l = [].
Proof.
  destruct l as [|y l]; simpl; intros H.
  - reflexivity.
  - destruct (pop l) as [[? ?]|]; discriminate.
Qed.

Lemma pour_spec : forall A (source destination : list A),
  pour (List.length source) source destination
  = ([], destination ++ rev source).
Proof.
  intros A source. pattern source. apply rev_ind; clear source.
  - intros. simpl. rewrite app_nil_r. reflexivity.
  - intros x l IH destination.
    rewrite length_app. simpl. rewrite Nat.add_1_r. simpl.
    rewrite pop_app. rewrite IH. rewrite rev_app_distr. simpl.
    rewrite <- app_assoc. reflexivity.
Qed.

Lemma pop_at_Permutation : forall A i (l l' : list A) (x : A),
  pop_at i l = Some (x, l') -> Permutation l (x :: l').
Proof.
  induction i as [|i IH]; intros l l' x H; destruct l as [|y l];
    simpl in H; try discriminate.
  - inversion H; subst. apply Permutation_refl.
  - destruct (pop_at i l) as [[z r]|] eqn:E; try discriminate.
    inversion H; subst.
    eapply Permutation_trans; [| apply perm_swap].
    apply perm_skip. apply IH. exact E.
Qed.

Lemma pop_at_length : forall A i (l l' : list A) (x : A),
  pop_at i l = Some (x, l') -> List.length l = S (List.length l').
Proof.
  intros A i l l' x H. apply pop_at_Permutation in H.
  apply Permutation_length in H. exact H.
Qed.

Lemma pop_at_lt : forall A i (l : list A),
  i < List.length l -> exists x l', pop_at i l = Some (x, l').
Proof.
  induction i as [|i IH]; intros l H; destruct l as [|y l];
    simpl in H; try lia.
  - simpl. eauto.
  - destruct (IH l) as [x [l' E]]; [lia|].
    simpl. rewrite E. eauto.
Qed.

Lemma shuffle_list_Permutation : forall fuel draws l,
  Permutation l (fst (shuffle_list fuel draws l)).
Proof.
  induction fuel as [|fuel IH]; intros draws l; simpl.
  - apply Permutation_refl.
  - destruct (pop_at (hd 0 draws mod List.length l) l) as [[x l']|] eqn:E.
    + specialize (IH (tl draws) l').
      destruct (shuffle_list fuel (tl draws) l') as [r d]. simpl in *.
      eapply Permutation_trans.
      * eapply pop_at_Permutation. exact E.
      * apply perm_skip. exact IH.
    + apply Permutation_refl.
Qed.

(** Every permutation is the outcome of the shuffle for some draws. *)
Lemma pop_at_In : forall (x : Piece) l l',
  Permutation l (x :: l') ->
  exists i l'', i < List.length l /\ pop_at i l = Some (x, l'')
                /\ Permutation l'' l'.
Proof.
  intros x l l' H.
  assert (Hin : In x l).
  { eapply Permutation_in;
      [apply Permutation_sym; exact H | left; reflexivity]. }
  apply in_split in Hin. destruct Hin as [l1 [l2 ->]].
  exists (List.length l1), (l1 ++ l2). split; [|split].
  - rewrite length_app. simpl. lia.
  - clear H. induction l1 as [|y l1 IH]; simpl.
    + reflexivity.
    + rewrite IH. reflexivity.
  - apply Permutation_cons_inv with (a := x).
    eapply Permutation_trans; [| exact H].
    apply Permutation_middle.
Qed.

Lemma shuffle_list_complete : forall p l,
  Permutation l p ->
  exists draws, shuffle_list (List.length l) draws l = (p, []).
Proof.
  induction p as [|x p IH]; intros l H.
  - apply Permutation_sym, Permutation_nil in H. subst.
    exists []. reflexivity.
  - destruct (pop_at_In _ _ _ H) as [i [l'' [Hi [E Hp]]]].
    destruct (IH l'' Hp) as [draws Hd].
    exists (i :: draws).
    rewrite (pop_at_length _ _ _ _ _ E) at 1. simpl.
    rewrite Nat.mod_small by exact Hi.
    rewrite E. rewrite Hd. reflexivity.
Qed.

(** ** Lists updated by index *)

Lemma nth_error_update_nth_same : forall A i (f : A -> A) l x,
  nth_error l i = Some x -> nth_error (update_nth i f l) i = Some (f x).
Proof.
  induction i as [|i IH]; intros f l x H; destruct l as [|y l];
    simpl in *; try discriminate.
  - inversion H; reflexivity.
  - apply IH. exact H.
Qed.

Lemma nth_error_update_nth_other : forall A i j (f : A -> A) l,
  i <> j -> nth_error (update_nth i f l) j = nth_error l j.
Proof.
  induction i as [|i IH]; intros j f l H; destruct l as [|y l];
    destruct j as [|j]; simpl; try reflexivity; try lia.
  apply IH. lia.
Qed.

Lemma update_nth_update_nth : forall A i (f g : A -> A) l,
  update_nth i f (update_nth i g l) = update_nth i (fun x => f (g x)) l.
Proof.
  induction i as [|i IH]; intros f g l; destruct l as [|y l]; simpl;
    try reflexivity.
  rewrite IH. reflexivity.
Qed.

Lemma update_nth_ext : forall A i (f g : A -> A) l x,
  nth_error l i = Some x -> f x = g x -> update_nth i f l = update_nth i g l.
Proof.
  induction i as [|i IH]; intros f g l x H E; destruct l as [|y l];
    simpl in *; try discriminate.
  - inversion H; subst. rewrite E. reflexivity.
  - f_equal. eapply IH; eassumption.
Qed.

Lemma update_nth_length : forall A i (f : A -> A) l,
  List.length (update_nth i f l) = List.length l.
Proof.
  induction i as [|i IH]; intros f l; destruct l as [|y l]; simpl;
    try reflexivity.
  rewrite IH. reflexivity.
Qed.

(** ** Stepping through the monad *)

Lemma bind_ret : forall A B (a : A) (k : A -> M B) s,
  bind (ret a) k s = k a s.
Proof. reflexivity. Qed.

Lemma bind_get : forall B (k : State -> M B) s, bind get k s = k s s.
Proof. reflexivity. Qed.

Lemma bind_modify : forall B f (k : unit -> M B) s,
  bind (modify f) k s = k tt (f s).
Proof. reflexivity. Qed.

Lemma bind_bind : forall A B C (m : M A) (k : A -> M B) (h : B -> M C) s,
  bind (bind m k) h s = bind m (fun a => bind (k a) h) s.
Proof.
  intros. unfold bind. destruct (m s) as [[a|e|] s']; reflexivity.
Qed.

Lemma bind_Ok : forall A B (m : M A) (k : A -> M B) s a s',
  m s = (Ok a, s') -> bind m k s = k a s'.
Proof. intros. unfold bind. rewrite H. reflexivity. Qed.

Lemma bind_Raise : forall A B (m : M A) (k : A -> M B) s e s',
  m s = (Raise e, s') -> bind m k s = (Raise e, s').
Proof. intros. unfold bind. rewrite H. reflexivity. Qed.

Lemma store_zone_actor : forall a z l x s,
  nth_error (players s) a = Some x ->
  store_zone (zone_of a z) l s = put_actor a (set_actor_zone z l x) s.
Proof.
  intros. unfold store_zone, put_actor. f_equal.
  eapply update_nth_ext; [eassumption | reflexivity].
Qed.

Lemma players_put_actor : forall a x x0 s,
  nth_error (players s) a = Some x0 ->
  nth_error (players (put_actor a x s)) a = Some x.
Proof.
  intros. unfold put_actor. simpl.
  apply (nth_error_update_nth_same _ _ (fun _ => x) _ _ H).
Qed.

Lemma players_put_actor_other : forall a b x s,
  a <> b ->
  nth_error (players (put_actor a x s)) b = nth_error (players s) b.
Proof.
  intros. unfold put_actor. simpl.
  apply nth_error_update_nth_other. assumption.
Qed.

Lemma put_actor_put_actor : forall a x y s,
  put_actor a x (put_actor a y s) = put_actor a x s.
Proof.
  intros. unfold put_actor. simpl. rewrite update_nth_update_nth.
  reflexivity.
Qed.

Lemma put_actor_same : forall a x s,
  nth_error (players s) a = Some x -> put_actor a x s = s.
Proof.
  intros a x s H. unfold put_actor.
  assert (E : update_nth a (fun _ => x) (players s) = players s).
  { revert H. generalize (players s). clear s.
    induction a as [|a IH]; intros l H; destruct l as [|y l];
      simpl in *; try discriminate.
    - inversion H; reflexivity.
    - f_equal. apply IH. exact H. }
  rewrite E. destruct s; reflexivity.
Qed.

Lemma read_zone_actor : forall a z x s,
  nth_error (players s) a = Some x ->
  read_zone (zone_of a z) s = (Ok (actor_zone z x), s).
Proof.
  intros. unfold read_zone, lookup_zone. rewrite H. reflexivity.
Qed.

Lemma read_actor_Ok : forall a x s,
  nth_error (players s) a = Some x -> read_actor a s = (Ok x, s).
Proof.
  intros. unfold read_actor. rewrite H. reflexivity.
Qed.

Lemma write_zone_actor : forall a z l x s,
  nth_error (players s) a = Some x ->
  write_zone (zone_of a z) l s
  = (Ok tt, put_actor a (set_actor_zone z l x) s).
Proof.
  intros. unfold write_zone, modify. erewrite store_zone_actor by eassumption.
  reflexivity.
Qed.

Lemma players_set_np_random : forall d s,
  players (set_np_random d s) = players s.
Proof. reflexivity. Qed.

Lemma put_actor_set_np_random : forall a x d s,
  put_actor a x (set_np_random d s) = set_np_random d (put_actor a x s).
Proof. reflexivity. Qed.

Lemma piles_put_actor : forall a x s, piles (put_actor a x s) = piles s.
Proof. reflexivity. Qed.

Lemma TRASH_put_actor : forall a x s, TRASH (put_actor a x s) = TRASH s.
Proof. reflexivity. Qed.

Lemma read_pile : forall i l s,
  nth_error (piles s) i = Some l -> read_zone (pile_ref i) s = (Ok l, s).
Proof.
  intros. unfold read_zone, lookup_zone. rewrite H. reflexivity.
Qed.

Lemma read_TRASH : forall s, read_zone TRASH_ref s = (Ok (TRASH s), s).
Proof. reflexivity. Qed.

Lemma bind_write_zone : forall B r l (k : unit -> M B) s,
  bind (write_zone r l) k s = k tt (store_zone r l s).
Proof. reflexivity. Qed.

(** The setters that leave the players alone. *)
Ltac through_setters :=
  cbn [players piles TRASH set_piles set_TRASH set_n_action set_n_buy
       set_n_coin set_n_silver_played_this_turn set_merchant_silver_bonus
       set_need_action_phase set_need_treasure_phase set_need_buy_phase
       set_n_empty_piles set_province_pile_empty set_attack_immunity
       set_np_random].

(** The attribute values of an actor after the updates made so far. *)
Ltac solve_actor :=
  through_setters;
  first [ eassumption | eapply players_put_actor; solve_actor ].

(** The content of a Supply pile after the updates made so far. *)
Ltac solve_pile :=
  through_setters; repeat rewrite piles_put_actor; through_setters;
  first [ eassumption
        | eapply nth_error_update_nth_same; solve_pile ].

(** One step of a computation on the zones of an actor whose attribute
    values are known. *)
Ltac step :=
  first
    [ rewrite bind_ret
    | rewrite bind_get
    | rewrite bind_modify
    | erewrite bind_Ok by (eapply read_zone_actor; solve_actor);
      cbn [actor_zone set_actor_zone actor_name HAND DECK DISCARD PLAY ASIDE
             include exclude n_turns_played app]
    | erewrite bind_Ok by (eapply read_actor_Ok; solve_actor)
    | erewrite bind_Ok by (eapply write_zone_actor; solve_actor);
      rewrite ?put_actor_put_actor;
      cbn [actor_zone set_actor_zone actor_name HAND DECK DISCARD PLAY ASIDE
             include exclude n_turns_played app]
    | erewrite bind_Ok by (eapply read_pile; solve_pile)
    | erewrite bind_Ok by (eapply read_TRASH)
    | rewrite bind_write_zone; cbn [store_zone] ].

Ltac steps := repeat first [ rewrite bind_bind | step ].

(** ** Unfolding the application of effects *)

Section Unfolding.

Variable simple_effects : Piece -> option (list Effect).
Variable decision : Piece -> option Decision.
Variable select : nat -> list Consequence -> Decision -> State -> nat.

Let apply := apply_effect simple_effects decision select.

Let resolve_with := resolve_with simple_effects decision select.
Let resolve_effects_with :=
  resolve_effects_with simple_effects decision select.

Lemma apply_effect_Initiate : forall fuel actor d decider,
  apply (S fuel) (Initiate actor d decider)
  = resolve_with fuel actor d decider.
Proof. reflexivity. Qed.

Lemma apply_effect_resolve_effects : forall fuel actor piece,
  apply (S fuel) (Effect_resolve_effects actor piece)
  = resolve_effects_with fuel actor piece.
Proof. reflexivity. Qed.

Lemma apply_effect_play_piece : forall fuel actor piece source free,
  apply (S fuel) (Effect_play_piece actor piece source free)
  = ((if negb free
      then modify (fun s => set_n_action (n_action s - 1) s)
      else ret tt) ;;
     transfer_piece piece (zone_of actor ZPLAY)
       (default_zone actor ZHAND source) ;;
     resolve_effects_with fuel actor piece).
Proof. reflexivity. Qed.

Lemma apply_effect_play_treasures : forall fuel actor pieces,
  apply (S fuel) (Effect_play_treasures actor pieces)
  = (for_each pieces (fun piece =>
       transfer_piece piece (zone_of actor ZPLAY) (zone_of actor ZHAND) ;;
       resolve_effects_with fuel actor piece) ;;
     end_phase actor TREASURE_PHASE).
Proof. reflexivity. Qed.

Lemma apply_effect_Call : forall fuel process,
  apply (S fuel) (Call process)
  = (match setup_effect process with
     | Some e => apply fuel e
     | None => ret tt
     end ;;
     _ <- while_ fuel (antecedent process)
            (apply fuel (main_effect process)) ;;
     match teardown_effect process with
     | Some e => apply fuel e
     | None => ret tt
     end ;;
     clear_internal_state process).
Proof. reflexivity. Qed.

End Unfolding.

(** ** Counting instances through the updates of zones *)

Lemma cnt_app : forall p l1 l2, cnt p (l1 ++ l2) = cnt p l1 + cnt p l2.
Proof. intros. unfold cnt. apply count_occ_app. Qed.

Lemma cnt_nil : forall p, cnt p [] = 0.
Proof. reflexivity. Qed.

Lemma cnt_Permutation : forall p l1 l2,
  Permutation l1 l2 -> cnt p l1 = cnt p l2.
Proof.
  intros p l1 l2 H. unfold cnt.
  apply (proj1 (Permutation_count_occ Piece_eq_dec l1 l2) H).
Qed.

Lemma cnt_rev : forall p l, cnt p (rev l) = cnt p l.
Proof. intros. apply cnt_Permutation, Permutation_sym, Permutation_rev. Qed.

Lemma cnt_flat_map_update : forall A (f : A -> list Piece) (g : A -> A) p
    i l x,
  nth_error l i = Some x ->
  cnt p (flat_map f (update_nth i g l)) + cnt p (f x)
  = cnt p (flat_map f l) + cnt p (f (g x)).
Proof.
  intros A f g p. induction i as [|i IH]; intros l x H;
    destruct l as [|y l]; simpl in *; try discriminate.
  - inversion H; subst. rewrite !cnt_app. lia.
  - rewrite !cnt_app. specialize (IH l x H). lia.
Qed.

Lemma cnt_concat_update : forall p i (l : list Zone) x new,
  nth_error l i = Some x ->
  cnt p (List.concat (update_nth i (fun _ => new) l)) + cnt p x
  = cnt p (List.concat l) + cnt p new.
Proof.
  intros p. induction i as [|i IH]; intros l x new H;
    destruct l as [|y l]; simpl in *; try discriminate.
  - inversion H; subst. rewrite !cnt_app. lia.
  - rewrite !cnt_app. specialize (IH l x new H). lia.
Qed.

Lemma cnt_actor_pieces_set : forall p z new x,
  cnt p (actor_pieces (set_actor_zone z new x)) + cnt p (actor_zone z x)
  = cnt p (actor_pieces x) + cnt p new.
Proof.
  intros p z new x. unfold actor_pieces.
  destruct z; simpl; rewrite !cnt_app; lia.
Qed.

Lemma occ_put_actor : forall p a x y s,
  nth_error (players s) a = Some x ->
  occ p (put_actor a y s) + cnt p (actor_pieces x)
  = occ p s + cnt p (actor_pieces y).
Proof.
  intros p a x y s H. unfold occ, all_pieces, put_actor. simpl.
  rewrite !cnt_app.
  pose proof (cnt_flat_map_update _ actor_pieces (fun _ => y) p a _ _ H).
  simpl in H0. lia.
Qed.

Lemma occ_store : forall p r old new s,
  lookup_zone r s = Some old ->
  occ p (store_zone r new s) + cnt p old = occ p s + cnt p new.
Proof.
  intros p r old new s H. destruct r as [a z| |i]; simpl in H.
  - destruct (nth_error (players s) a) as [x|] eqn:E; [|discriminate].
    inversion H; subst. rewrite (store_zone_actor _ _ _ _ _ E).
    pose proof (occ_put_actor p a x (set_actor_zone z new x) s E).
    pose proof (cnt_actor_pieces_set p z new x). lia.
  - inversion H; subst. unfold occ, all_pieces. simpl. rewrite !cnt_app. lia.
  - unfold occ, all_pieces. simpl. rewrite !cnt_app.
    pose proof (cnt_concat_update p i _ _ new H). lia.
Qed.

Lemma lookup_store_same : forall r old new s,
  lookup_zone r s = Some old -> lookup_zone r (store_zone r new s) = Some new.
Proof.
  intros r old new s H. destruct r as [a z| |i]; simpl in *.
  - destruct (nth_error (players s) a) as [x|] eqn:E; [|discriminate].
    rewrite (nth_error_update_nth_same _ _ _ _ _ E). simpl.
    destruct z; reflexivity.
  - reflexivity.
  - apply (nth_error_update_nth_same _ _ (fun _ => new) _ _ H).
Qed.

Lemma lookup_store_other : forall r r' new s,
  r <> r' -> lookup_zone r' (store_zone r new s) = lookup_zone r' s.
Proof.
  intros r r' new s H. destruct r as [a z| |i]; destruct r' as [a' z'| |i'];
    simpl; try reflexivity.
  - destruct (Nat.eq_dec a a') as [<-|Hne].
    + destruct (nth_error (players s) a) as [x|] eqn:E.
      * rewrite (nth_error_update_nth_same _ _ _ _ _ E). simpl.
        destruct z, z'; try reflexivity; congruence.
      * assert (E' : nth_error (update_nth a (set_actor_zone z new)
                                  (players s)) a = None).
        { apply nth_error_None. rewrite update_nth_length.
          apply nth_error_None. exact E. }
        rewrite E'. reflexivity.
    + rewrite nth_error_update_nth_other by exact Hne. reflexivity.
  - congruence.
  - destruct (Nat.eq_dec i i') as [<-|Hne]; [congruence|].
    apply nth_error_update_nth_other. exact Hne.
Qed.

Lemma lookup_store_valid : forall r r' l new s,
  lookup_zone r' s = Some l ->
  exists l', lookup_zone r' (store_zone r new s) = Some l'.
Proof.
  intros r r' l new s H. destruct (ZoneRef_eq_dec r r') as [<-|Hne].
  - exists new. eapply lookup_store_same. exact H.
  - exists l. rewrite lookup_store_other by exact Hne. exact H.
Qed.
(** ** Phase end *)

(** C10. Applying a PassOption, that is [end_phase], for the Action phase
    clears [need_action_phase] and resets [n_action] to 0; for the Buy
    phase it clears [need_buy_phase] and resets [n_buy] to 0; for the
    Treasure phase it clears [need_treasure_phase] only; every other
    counter and flag and every zone of every player is unchanged. *)
Theorem PassOption_end_phase_frame :
  forall simple_effects decision select fuel actor s,
    let apply_pass phase :=
      enact simple_effects decision select (S fuel)
        (effects (PassOption actor phase)) s in
    effects (PassOption actor ACTION_PHASE)
      = [Effect_end_phase actor ACTION_PHASE]
    /\ apply_pass ACTION_PHASE
       = (Ok tt,
          mkState (players s) (piles s) (TRASH s) 0 (n_buy s) (n_coin s)
            (n_silver_played_this_turn s) (merchant_silver_bonus s)
            false (need_treasure_phase s) (need_buy_phase s)
            (n_empty_piles s) (province_pile_empty s) (current_player s)
            (n_total_turns_played s) (attack_immunity s) (np_random s))
    /\ apply_pass BUY_PHASE
       = (Ok tt,
          mkState (players s) (piles s) (TRASH s) (n_action s) 0 (n_coin s)
            (n_silver_played_this_turn s) (merchant_silver_bonus s)
            (need_action_phase s) (need_treasure_phase s) false
            (n_empty_piles s) (province_pile_empty s) (current_player s)
            (n_total_turns_played s) (attack_immunity s) (np_random s))
    /\ apply_pass TREASURE_PHASE
       = (Ok tt,
          mkState (players s) (piles s) (TRASH s) (n_action s) (n_buy s)
            (n_coin s)
            (n_silver_played_this_turn s) (merchant_silver_bonus s)
            (need_action_phase s) false (need_buy_phase s)
            (n_empty_piles s) (province_pile_empty s) (current_player s)
            (n_total_turns_played s) (attack_immunity s) (np_random s)).
Proof.
  intros. repeat split.
Qed.

(** ** Replenishing the deck *)

Lemma replenish_deck_run : forall actor x s,
  nth_error (players s) actor = Some x ->
  let sh := shuffle_list (List.length (DISCARD x)) (np_random s) (DISCARD x) in
  replenish_deck actor s
  = (Ok tt,
     set_np_random (snd sh)
       (put_actor actor
          (mkActor (actor_name x) (HAND x) (fst sh ++ DECK x) [] (PLAY x)
             (ASIDE x) (include x) (exclude x) (n_turns_played x)) s)).
Proof.
  intros actor x s H sh. unfold replenish_deck.
  step.
  rewrite pour_spec. simpl app.
  do 5 step. unfold shuffle. rewrite bind_bind. step.
  rewrite bind_bind. step.
  cbn [np_random put_actor set_players]. fold sh.
  destruct sh as [p draws].
  rewrite bind_bind. step.
  rewrite <- put_actor_set_np_random.
  step. step.
  rewrite pour_spec, rev_involutive.
  erewrite write_zone_actor by solve_actor.
  rewrite put_actor_put_actor. reflexivity.
Qed.

(** C9. [replenish_deck] leaves the cards that were in the deck on top of
    the deck (at the end of the list) in their order, puts the former
    discard pile beneath them as some permutation [under], and empties the
    discard pile; no other zone of any player, no Supply pile, the TRASH
    and no counter or flag of the State changes. *)
Theorem replenish_deck_spec : forall actor x s,
  nth_error (players s) actor = Some x ->
  exists under : list Piece,
    Permutation (DISCARD x) under
    /\ fst (replenish_deck actor s) = Ok tt
    /\ let s' := snd (replenish_deck actor s) in
       nth_error (players s') actor
       = Some (mkActor (actor_name x) (HAND x) (under ++ DECK x) []
                 (PLAY x) (ASIDE x) (include x) (exclude x)
                 (n_turns_played x))
       /\ (forall other, other <> actor ->
             nth_error (players s') other = nth_error (players s) other)
       /\ piles s' = piles s
       /\ TRASH s' = TRASH s
       /\ counters s' = counters s
       /\ attack_immunity s' = attack_immunity s.
Proof.
  intros actor x s H.
  exists (fst (shuffle_list (List.length (DISCARD x)) (np_random s)
                 (DISCARD x))).
  rewrite (replenish_deck_run _ _ _ H). cbn [fst snd].
  split; [apply shuffle_list_Permutation|].
  split; [reflexivity|].
  split; [|split].
  - rewrite players_set_np_random. eapply players_put_actor. exact H.
  - intros other Hne. rewrite players_set_np_random.
    apply players_put_actor_other. congruence.
  - repeat split.
Qed.

Lemma replenish_deck_spec_witness :
  nth_error (players Sample.solo) 0 = Some Sample.alice
  /\ exists under : list Piece,
    Permutation (DISCARD Sample.alice) under
    /\ fst (replenish_deck 0 Sample.solo) = Ok tt
    /\ let s' := snd (replenish_deck 0 Sample.solo) in
       nth_error (players s') 0
       = Some (mkActor (actor_name Sample.alice) (HAND Sample.alice)
                 (under ++ DECK Sample.alice) []
                 (PLAY Sample.alice) (ASIDE Sample.alice)
                 (include Sample.alice) (exclude Sample.alice)
                 (n_turns_played Sample.alice))
       /\ (forall other, other <> 0 ->
             nth_error (players s') other
             = nth_error (players Sample.solo) other)
       /\ piles s' = piles Sample.solo
       /\ TRASH s' = TRASH Sample.solo
       /\ counters s' = counters Sample.solo
       /\ attack_immunity s' = attack_immunity Sample.solo.
Proof.
  split; [reflexivity|].
  apply (replenish_deck_spec 0 Sample.alice Sample.solo). reflexivity.
Defined.

(** The shuffle of the sample: the Gold is drawn first, and the deck reads
    Gold, Silver, Copper from the bottom up. *)
Example replenish_deck_solo :
  option_map DECK (nth_error (players (snd (replenish_deck 0 Sample.solo))) 0)
  = Some [Sample.Gold 4; Sample.Silver 3; Sample.Copper 2].
Proof. reflexivity. Qed.

(** ** Drawing *)

Lemma transfer_top_piece_run : forall actor x s d t,
  nth_error (players s) actor = Some x ->
  DECK x = d ++ [t] ->
  transfer_top_piece (zone_of actor ZHAND) (zone_of actor ZDECK) s
  = (Ok tt,
     put_actor actor
       (mkActor (actor_name x) (HAND x ++ [t]) d (DISCARD x) (PLAY x)
          (ASIDE x) (include x) (exclude x) (n_turns_played x)) s).
Proof.
  intros actor x s d t H E. unfold transfer_top_piece.
  do 2 step. rewrite E, pop_app. do 2 step.
  erewrite write_zone_actor by solve_actor.
  rewrite put_actor_put_actor. reflexivity.
Qed.

Lemma draw_loop : forall k i actor x s,
  nth_error (players s) actor = Some x ->
  k <= List.length (DECK x) ->
  for_each (seq i k)
    (fun _ => transfer_top_piece (zone_of actor ZHAND) (zone_of actor ZDECK)) s
  = (Ok tt,
     put_actor actor
       (mkActor (actor_name x)
          (HAND x ++ rev (skipn (List.length (DECK x) - k) (DECK x)))
          (firstn (List.length (DECK x) - k) (DECK x))
          (DISCARD x) (PLAY x) (ASIDE x) (include x) (exclude x)
          (n_turns_played x)) s).
Proof.
  induction k as [|k IH]; intros i actor x s H Hk.
  - simpl. rewrite Nat.sub_0_r, skipn_all, firstn_all. simpl.
    rewrite app_nil_r. unfold ret. f_equal. symmetry.
    replace (mkActor _ _ _ _ _ _ _ _ _) with x by (destruct x; reflexivity).
    apply put_actor_same. exact H.
  - destruct (pop (DECK x)) as [[t d]|] eqn:E.
    + apply pop_Some in E.
      cbn [seq for_each].
      erewrite bind_Ok by (eapply transfer_top_piece_run; eassumption).
      erewrite IH; [| solve_actor |].
      * rewrite put_actor_put_actor.
        cbn [HAND DECK DISCARD PLAY ASIDE actor_name include exclude
             n_turns_played].
        rewrite E. rewrite length_app. simpl List.length.
        replace (List.length d + 1 - S k) with (List.length d - k) by lia.
        rewrite E, length_app in Hk. simpl in Hk.
        rewrite skipn_app, firstn_app.
        replace (List.length d - k - List.length d) with 0 by lia.
        simpl. rewrite app_nil_r. rewrite rev_app_distr. simpl.
        rewrite <- app_assoc. reflexivity.
      * cbn [DECK]. rewrite E, length_app in Hk. simpl in Hk. lia.
    + apply pop_None in E. rewrite E in Hk. simpl in Hk. lia.
Qed.

Lemma prepare_deck_run : forall actor x s n,
  nth_error (players s) actor = Some x ->
  prepare_deck actor n s
  = (Ok tt,
     if negb (Z.leb n (len (DECK x))) && negb (is_nil (DISCARD x))
     then snd (replenish_deck actor s) else s).
Proof.
  intros actor x s n H. unfold prepare_deck, validate_deck_size.
  rewrite bind_bind. step. step.
  destruct (Z.leb n (len (DECK x))); simpl.
  - reflexivity.
  - step. destruct (DISCARD x) eqn:E; simpl.
    + reflexivity.
    + rewrite (replenish_deck_run _ _ _ H). reflexivity.
Qed.

(** C8. For every actor and every requested count [n], [draw] does not
    fail, even when [n] exceeds the cards available: the deck is first
    replenished from the discard pile when it is short and the discard
    pile is not empty, then exactly [min(n, len(DECK))] cards (none when
    that is negative) go from the top of the deck to the hand, the top
    card first; asking for more than deck and discard hold draws what
    there is. *)
Theorem draw_never_fails : forall actor x s n,
  nth_error (players s) actor = Some x ->
  exists x1 s1,
    prepare_deck actor n s = (Ok tt, s1)
    /\ (if negb (Z.leb n (len (DECK x))) && negb (is_nil (DISCARD x))
        then replenish_deck actor s = (Ok tt, s1) else s1 = s)
    /\ nth_error (players s1) actor = Some x1
    /\ let true_n := Z.to_nat (Z.min n (len (DECK x1))) in
       let kept := List.length (DECK x1) - true_n in
       List.length (skipn kept (DECK x1)) = true_n
       /\ draw actor n s
          = (Ok tt,
             put_actor actor
               (mkActor (actor_name x1)
                  (HAND x1 ++ rev (skipn kept (DECK x1)))
                  (firstn kept (DECK x1))
                  (DISCARD x1) (PLAY x1) (ASIDE x1) (include x1)
                  (exclude x1) (n_turns_played x1)) s1).
Proof.
  intros actor x s n H.
  assert (P := prepare_deck_run actor x s n H).
  assert (exists x1, nth_error
            (players (if negb (Z.leb n (len (DECK x)))
                         && negb (is_nil (DISCARD x))
                      then snd (replenish_deck actor s) else s)) actor
          = Some x1) as [x1 H1].
  { destruct (negb (Z.leb n (len (DECK x))) && negb (is_nil (DISCARD x))).
    - rewrite (replenish_deck_run _ _ _ H). cbn [snd].
      eexists. solve_actor.
    - eauto. }
  exists x1. eexists. split; [exact P|]. split; [|split; [exact H1|]].
  - destruct (negb (Z.leb n (len (DECK x))) && negb (is_nil (DISCARD x))).
    + rewrite (replenish_deck_run _ _ _ H). reflexivity.
    + reflexivity.
  - assert (Hk : Z.to_nat (Z.min n (len (DECK x1))) <= List.length (DECK x1)).
    { unfold len. lia. }
    split.
    + rewrite length_skipn. lia.
    + unfold draw. erewrite bind_Ok by exact P.
      step.
      erewrite bind_Ok
        by (unfold range_len; eapply draw_loop; eassumption).
      step. cbn [HAND]. unfold peek. reflexivity.
Qed.

Lemma draw_never_fails_witness :
  nth_error (players Sample.solo) 0 = Some Sample.alice
  /\ exists x1 s1,
    prepare_deck 0 5 Sample.solo = (Ok tt, s1)
    /\ (if negb (Z.leb 5 (len (DECK Sample.alice)))
           && negb (is_nil (DISCARD Sample.alice))
        then replenish_deck 0 Sample.solo = (Ok tt, s1)
        else s1 = Sample.solo)
    /\ nth_error (players s1) 0 = Some x1
    /\ let true_n := Z.to_nat (Z.min 5 (len (DECK x1))) in
       let kept := List.length (DECK x1) - true_n in
       List.length (skipn kept (DECK x1)) = true_n
       /\ draw 0 5 Sample.solo
          = (Ok tt,
             put_actor 0
               (mkActor (actor_name x1)
                  (HAND x1 ++ rev (skipn kept (DECK x1)))
                  (firstn kept (DECK x1))
                  (DISCARD x1) (PLAY x1) (ASIDE x1) (include x1)
                  (exclude x1) (n_turns_played x1)) s1).
Proof.
  split; [reflexivity|].
  apply (draw_never_fails 0 Sample.alice Sample.solo 5). reflexivity.
Defined.

(** Five cards are asked of the sample player, who has three outside the
    hand: the three are drawn, the Copper that was on the deck first. *)
Example draw_solo :
  fst (draw 0 5 Sample.solo) = Ok tt
  /\ option_map HAND (nth_error (players (snd (draw 0 5 Sample.solo))) 0)
     = Some [Sample.Estate 1; Sample.Copper 2; Sample.Silver 3;
             Sample.Gold 4]
  /\ option_map DECK (nth_error (players (snd (draw 0 5 Sample.solo))) 0)
     = Some [].
Proof. repeat split. Qed.

(** ** The Buy phase *)

Lemma res_map_Purchase : forall actor buyables,
  res_map (Purchase actor) buyables = Ok (map (purchase_of actor) buyables).
Proof.
  induction buyables as [|p r IH]; simpl.
  - reflexivity.
  - rewrite IH. reflexivity.
Qed.

Lemma BuyChoices_generate_choices_run : forall actor s,
  BuyChoices_generate_choices actor s
  = (Ok (PassOption actor BUY_PHASE ::
         if Z.eqb (n_buy s) 0 then []
         else map (purchase_of actor)
                (filter_supply (fun x => Z.leb (cost x) (n_coin s)) s)),
     s).
Proof.
  intros actor s. unfold BuyChoices_generate_choices. step.
  destruct (Z.eqb (n_buy s) 0); simpl.
  - reflexivity.
  - unfold lift, bind. rewrite res_map_Purchase. reflexivity.
Qed.

Lemma filter_supply_In : forall predicate s piece,
  In piece (filter_supply predicate s) ->
  predicate piece = true
  /\ exists pile rest, In pile (piles s) /\ pile = rest ++ [piece].
Proof.
  intros predicate s piece H. unfold filter_supply in H.
  apply in_flat_map in H. destruct H as [pile [Hp H]].
  destruct (pop pile) as [[top rest]|] eqn:E; [|contradiction].
  destruct (predicate top) eqn:P; [|contradiction].
  destruct H as [H|[]]. subst top.
  split; [exact P|]. exists pile, rest. split; [exact Hp|].
  apply pop_Some. exact E.
Qed.

Lemma flat_map_empty_piles : forall (f : Zone -> list Piece) piles,
  f [] = [] ->
  (forall other, In other piles -> other = []) ->
  flat_map f piles = [].
Proof.
  intros f piles Hf. induction piles as [|p r IH]; intros H.
  - reflexivity.
  - simpl. rewrite (H p) by (left; reflexivity). rewrite Hf. simpl.
    apply IH. intros other Hin. apply H. right. exact Hin.
Qed.

(** The only non-empty pile is at [i]. *)
Lemma flat_map_single_pile : forall (f : Zone -> list Piece) piles i pile,
  f [] = [] ->
  nth_error piles i = Some pile ->
  (forall j other, nth_error piles j = Some other -> j <> i -> other = []) ->
  flat_map f piles = f pile.
Proof.
  intros f piles. induction piles as [|p r IH]; intros i pile Hf Hi Ho.
  - destruct i; discriminate.
  - destruct i as [|i]; simpl in *.
    + inversion Hi; subst.
      rewrite flat_map_empty_piles; [apply app_nil_r | exact Hf |].
      intros other Hin. apply In_nth_error in Hin. destruct Hin as [j Hj].
      apply (Ho (S j) other); [exact Hj | lia].
    + rewrite (Ho 0 p) by (auto; lia). rewrite Hf. simpl.
      apply (IH i); auto. intros j other Hj Hne.
      apply (Ho (S j) other); [exact Hj | lia].
Qed.

Lemma piece_is_refl : forall p, piece_is p p = true.
Proof. intros. unfold piece_is. apply Nat.eqb_refl. Qed.

(** C4. With [n_coin = 8], [n_buy = 1] and a Supply whose only non-empty
    pile is the Province pile, holding one card, the Buy decision offers
    exactly the PassOption followed by the Purchase of that Province;
    applying the Purchase takes 1 from [n_buy] and the Province's cost from
    [n_coin], moves the Province from its pile to the end of the actor's
    DISCARD, adds 1 to [n_empty_piles] and sets [province_pile_empty].
    In any State with [0 <= n_buy] the PassOption comes first, a Purchase
    is offered only when [0 < n_buy], and only for the top piece of a pile
    whose cost is at most [n_coin]. *)
Theorem buy_last_province : forall simple_effects decision select fuel
    actor x s province,
  nth_error (players s) actor = Some x ->
  n_coin s = 8%Z ->
  n_buy s = 1%Z ->
  is_province province = true ->
  (cost province <= 8)%Z ->
  nth_error (piles s) (total_order_index province) = Some [province] ->
  (forall i pile, nth_error (piles s) i = Some pile ->
                  i <> total_order_index province -> pile = []) ->
  let purchase := purchase_of actor province in
  BuyChoices_generate_choices actor s
  = (Ok [PassOption actor BUY_PHASE; purchase], s)
  /\ Purchase actor province = Ok purchase
  /\ enact simple_effects decision select (S fuel) (effects purchase) s
     = (Ok tt,
        mkState
          (update_nth actor
             (fun _ => mkActor (actor_name x) (HAND x) (DECK x)
                         (DISCARD x ++ [province]) (PLAY x) (ASIDE x)
                         (include x) (exclude x) (n_turns_played x))
             (players s))
          (update_nth (total_order_index province) (fun _ => []) (piles s))
          (TRASH s) (n_action s) (n_buy s - 1) (n_coin s - cost province)
          (n_silver_played_this_turn s) (merchant_silver_bonus s)
          (need_action_phase s) (need_treasure_phase s) (need_buy_phase s)
          (n_empty_piles s + 1) true (current_player s)
          (n_total_turns_played s) (attack_immunity s) (np_random s))
  /\ (forall s0, (0 <= n_buy s0)%Z ->
       exists purchases,
         BuyChoices_generate_choices actor s0
         = (Ok (PassOption actor BUY_PHASE :: purchases), s0)
         /\ (purchases <> [] -> (0 < n_buy s0)%Z)
         /\ Forall (fun c =>
                      exists piece pile rest,
                        c = purchase_of actor piece
                        /\ (cost piece <= n_coin s0)%Z
                        /\ In pile (piles s0)
                        /\ pile = rest ++ [piece]) purchases).
Proof.
  intros simple_effects decision select fuel actor x s province
    Hx Hcoin Hbuy Hprov Hcost Hpile Hothers purchase.
  split; [|split; [|split]].
  - rewrite BuyChoices_generate_choices_run. rewrite Hbuy. simpl.
    unfold filter_supply.
    rewrite (flat_map_single_pile _ _ _ _ eq_refl Hpile Hothers).
    simpl. rewrite Hcoin.
    destruct (Z.leb_spec (cost province) 8); [reflexivity | lia].
  - reflexivity.
  - unfold enact, purchase. cbn [effects purchase_of for_each apply_effect].
    unfold buy_piece, pay_cost, handle_acquisition.
    cbn [default_zone].
    steps.
    cbn [piles set_n_coin set_n_buy]. rewrite Hpile.
    unfold transfer_piece.
    steps.
    cbn [index]. rewrite piece_is_refl. cbn [pop_at].
    steps. rewrite Hprov. steps.
    reflexivity.
  - intros s0 Hnb. eexists. split; [apply BuyChoices_generate_choices_run|].
    destruct (Z.eqb_spec (n_buy s0) 0) as [E|E].
    + split; [congruence | constructor].
    + split; [lia|].
      apply Forall_forall. intros c Hc. apply in_map_iff in Hc.
      destruct Hc as [piece [<- Hin]].
      apply filter_supply_In in Hin.
      destruct Hin as [Hle [pile [rest [Hp Hr]]]].
      exists piece, pile, rest. repeat split; try assumption.
      apply Z.leb_le. exact Hle.
Qed.

Lemma buy_last_province_witness :
  let s := BuySample.last_province in
  let province := Sample.Province 9 in
  let purchase := purchase_of 0 province in
  (nth_error (players s) 0 = Some Sample.alice
   /\ n_coin s = 8%Z /\ n_buy s = 1%Z
   /\ is_province province = true
   /\ (cost province <= 8)%Z
   /\ nth_error (piles s) (total_order_index province) = Some [province])
  /\ BuyChoices_generate_choices 0 s
     = (Ok [PassOption 0 BUY_PHASE; purchase], s)
  /\ Purchase 0 province = Ok purchase
  /\ enact Sample.no_simple_effects Sample.no_decision Sample.first_choice
       1 (effects purchase) s
     = (Ok tt,
        mkState
          [Sample.new_actor "Alice" [Sample.Estate 1] [Sample.Copper 2]
             [Sample.Silver 3; Sample.Gold 4; province]]
          [[]; []; []; []]
          [] 1 0 0 0 0 true true true 1 true 0 0 [] []).
Proof.
  intros s province purchase.
  split; [repeat split; simpl; lia|].
  destruct (buy_last_province Sample.no_simple_effects Sample.no_decision
              Sample.first_choice 0 0 Sample.alice s province)
    as [H1 [H2 [H3 _]]].
  - reflexivity.
  - reflexivity.
  - reflexivity.
  - reflexivity.
  - simpl. lia.
  - reflexivity.
  - intros i pile Hi Hne.
    destruct i as [|[|[|[|i]]]]; simpl in Hi; try congruence.
    + exfalso. apply Hne. reflexivity.
    + destruct i; discriminate.
  - split; [exact H1 | split; [exact H2 | exact H3]].
Defined.

(** ** Attacks and the Moat *)

Lemma get_pieces_unique_head : forall predicate zone m,
  In m zone -> predicate m = true ->
  exists first rest,
    Combinatorics.get_pieces zone true (Some predicate) = first :: rest
    /\ In first zone /\ predicate first = true.
Proof.
  intros predicate zone m Hin Hp.
  unfold Combinatorics.get_pieces.
  assert (Hf : In m (filter predicate zone)) by (apply filter_In; auto).
  destruct (filter predicate zone) as [|y r] eqn:E; [contradiction|].
  exists y. simpl. eexists. split; [reflexivity|].
  assert (Hy : In y (filter predicate zone)) by (rewrite E; left; reflexivity).
  apply filter_In in Hy. exact Hy.
Qed.

Lemma ImmunityProcedure_with_Moat : forall actor self x s m,
  nth_error (players s) actor = Some x ->
  In m (HAND x) -> is_Moat m = true ->
  exists moat,
    In moat (HAND x) /\ is_Moat moat = true
    /\ generate_choices (ImmunityProcedure self) actor s
       = (Ok [reveal_Moat actor self moat], s).
Proof.
  intros actor self x s m Hx Hin Hm.
  destruct (get_pieces_unique_head is_Moat (HAND x) m Hin Hm)
    as [moat [rest [E [H1 H2]]]].
  exists moat. split; [exact H1 | split; [exact H2|]].
  cbn [generate_choices]. unfold ImmunityProcedure_generate_choices.
  step. fold is_Moat. rewrite E. reflexivity.
Qed.

Lemma read_immunity_Ok : forall self b s,
  nth_error (attack_immunity s) self = Some b ->
  read_immunity self s = (Ok b, s).
Proof. intros. unfold read_immunity. rewrite H. reflexivity. Qed.

Lemma write_immunity_Ok : forall self b b0 s,
  nth_error (attack_immunity s) self = Some b0 ->
  write_immunity self b s = (Ok tt, set_immunity self b s).
Proof.
  intros. unfold write_immunity.
  erewrite bind_Ok by (eapply read_immunity_Ok; eassumption).
  reflexivity.
Qed.

Lemma set_immunity_same : forall self b s,
  nth_error (attack_immunity s) self = Some b -> set_immunity self b s = s.
Proof.
  intros self b s H. unfold set_immunity.
  assert (E : update_nth self (fun _ => b) (attack_immunity s)
              = attack_immunity s).
  { revert H. generalize (attack_immunity s). clear s.
    induction self as [|i IH]; intros l H; destruct l as [|y l];
      simpl in *; try discriminate.
    - inversion H; reflexivity.
    - f_equal. apply IH. exact H. }
  rewrite E. destruct s; reflexivity.
Qed.

Lemma set_immunity_set_immunity : forall self b c s,
  set_immunity self b (set_immunity self c s) = set_immunity self b s.
Proof.
  intros. unfold set_immunity. simpl. rewrite update_nth_update_nth.
  reflexivity.
Qed.

Lemma immunity_set_immunity : forall self b b0 s,
  nth_error (attack_immunity s) self = Some b0 ->
  nth_error (attack_immunity (set_immunity self b s)) self = Some b.
Proof.
  intros. unfold set_immunity. simpl.
  apply (nth_error_update_nth_same _ _ (fun _ => b) _ _ H).
Qed.

(** C5. For every Attack process, when the victim holds a Moat the
    ImmunityProcedure offers exactly one Consequence, which reveals that
    card and marks the immunity of the Attack; after the setup the
    immunity is set and the antecedent of the Attack is false, so the main
    loop runs zero times; the teardown resets the immunity to false, and
    the State is as it was before the Attack. *)
Theorem Moat_stops_Attack : forall simple_effects decision select fuel
    process actor self x s m,
  In process (attacks actor self) ->
  nth_error (players s) actor = Some x ->
  nth_error (attack_immunity s) self = Some false ->
  In m (HAND x) -> is_Moat m = true ->
  exists moat,
    In moat (HAND x) /\ is_Moat moat = true
    /\ generate_choices (ImmunityProcedure self) actor s
       = (Ok [reveal_Moat actor self moat], s)
    /\ setup_effect process
       = Some (Initiate actor (ImmunityProcedure self) None)
    /\ apply_effect simple_effects decision select (S (S fuel))
         (Initiate actor (ImmunityProcedure self) None) s
       = (Ok tt, set_immunity self true s)
    /\ antecedent process (set_immunity self true s)
       = (Ok false, set_immunity self true s)
    /\ clear_internal_state process (set_immunity self true s)
       = (Ok tt, set_immunity self false s)
    /\ set_immunity self false s = s
    /\ Process_call simple_effects decision select (S (S fuel)) process s
       = (Ok 0, s)
    /\ apply_effect simple_effects decision select (S (S (S fuel)))
         (Call process) s
       = (Ok tt, s).
Proof.
  intros simple_effects decision select fuel process actor self x s m
    Hp Hx Himm Hin Hm.
  destruct (ImmunityProcedure_with_Moat actor self x s m Hx Hin Hm)
    as [moat [H1 [H2 H3]]].
  exists moat. split; [exact H1 | split; [exact H2 | split; [exact H3|]]].
  assert (Hsetup : apply_effect simple_effects decision select (S (S fuel))
         (Initiate actor (ImmunityProcedure self) None) s
       = (Ok tt, set_immunity self true s)).
  { cbn [apply_effect]. unfold request_input, expand_choices.
    rewrite bind_bind. erewrite bind_Ok by exact H3.
    steps. cbn [List.length]. rewrite Nat.mod_1_r. cbn [nth].
    cbn [effects reveal_Moat new_Consequence for_each apply_effect].
    unfold reveal, mark_immunity. steps.
    erewrite bind_Ok by (eapply write_immunity_Ok; exact Himm).
    reflexivity. }
  assert (Hant : antecedent process (set_immunity self true s)
       = (Ok false, set_immunity self true s)).
  { assert (R : read_immunity self (set_immunity self true s)
                = (Ok true, set_immunity self true s)).
    { apply read_immunity_Ok. eapply immunity_set_immunity. exact Himm. }
    destruct Hp as [<-|[<-|[<-|[<-|[]]]]]; cbn [antecedent];
      unfold Attack_antecedent; rewrite ?bind_bind;
      erewrite bind_Ok by exact R; reflexivity. }
  assert (Hsu : setup_effect process
                = Some (Initiate actor (ImmunityProcedure self) None)).
  { destruct Hp as [<-|[<-|[<-|[<-|[]]]]]; reflexivity. }
  assert (Htd : teardown_effect process = None).
  { destruct Hp as [<-|[<-|[<-|[<-|[]]]]]; reflexivity. }
  assert (Hcl : clear_internal_state process (set_immunity self true s)
                = (Ok tt, s)).
  { assert (W : write_immunity self false (set_immunity self true s)
                = (Ok tt, s)).
    { erewrite write_immunity_Ok
        by (eapply immunity_set_immunity; exact Himm).
      rewrite set_immunity_set_immunity.
      rewrite (set_immunity_same _ _ _ Himm). reflexivity. }
    destruct Hp as [<-|[<-|[<-|[<-|[]]]]]; exact W. }
  split; [exact Hsu|]. split; [exact Hsetup|]. split; [exact Hant|].
  split; [rewrite (set_immunity_same _ _ _ Himm); exact Hcl|].
  split; [apply set_immunity_same; exact Himm|].
  assert (Hcall : Process_call simple_effects decision select (S (S fuel))
                    process s = (Ok 0, s)).
  { unfold Process_call. rewrite Hsu, Htd.
    erewrite bind_Ok by exact Hsetup.
    cbn [while_]. rewrite bind_bind.
    erewrite bind_Ok by exact Hant. cbv beta iota.
    steps. erewrite bind_Ok by exact Hcl. reflexivity. }
  split; [exact Hcall|].
  cbn [apply_effect]. rewrite Hsu, Htd.
  erewrite bind_Ok by exact Hsetup.
  cbn [while_]. repeat rewrite bind_bind.
  erewrite bind_Ok by exact Hant. cbv beta iota.
  steps. exact Hcl.
Qed.

Lemma Moat_stops_Attack_witness :
  let s := AttackSample.moat_in_hand in
  let process := MilitiaAttack 1 0 in
  (In process (attacks 1 0)
   /\ nth_error (players s) 1 = Some AttackSample.bob
   /\ nth_error (attack_immunity s) 0 = Some false
   /\ In (Sample.Moat 11) (HAND AttackSample.bob)
   /\ is_Moat (Sample.Moat 11) = true)
  /\ exists moat,
    In moat (HAND AttackSample.bob) /\ is_Moat moat = true
    /\ generate_choices (ImmunityProcedure 0) 1 s
       = (Ok [reveal_Moat 1 0 moat], s)
    /\ setup_effect process = Some (Initiate 1 (ImmunityProcedure 0) None)
    /\ apply_effect Sample.no_simple_effects Sample.no_decision
         Sample.first_choice 2 (Initiate 1 (ImmunityProcedure 0) None) s
       = (Ok tt, set_immunity 0 true s)
    /\ antecedent process (set_immunity 0 true s)
       = (Ok false, set_immunity 0 true s)
    /\ clear_internal_state process (set_immunity 0 true s)
       = (Ok tt, set_immunity 0 false s)
    /\ set_immunity 0 false s = s
    /\ Process_call Sample.no_simple_effects Sample.no_decision
         Sample.first_choice 2 process s
       = (Ok 0, s)
    /\ apply_effect Sample.no_simple_effects Sample.no_decision
         Sample.first_choice 3 (Call process) s
       = (Ok tt, s).
Proof.
  intros s process.
  split.
  - repeat split; simpl; auto.
  - apply (Moat_stops_Attack Sample.no_simple_effects Sample.no_decision
             Sample.first_choice 0 process 1 0 AttackSample.bob s
             (Sample.Moat 11)).
    + left. reflexivity.
    + reflexivity.
    + reflexivity.
    + right. left. reflexivity.
    + reflexivity.
Defined.

(** ** Decisions that offer nothing *)

(** C1 (defect of the code). WitchProcedure and BureaucratProcedure use the
    local name [choices] without ever binding it: for every State and
    actor, [generate_choices] raises NameError instead of returning a list
    of Consequences, so the decision point has no legal move to offer;
    BureaucratAttack moreover hands the class BureaucratProcedure itself to
    the resolution loop, where the call fails with a TypeError. *)
Theorem procedures_raise_NameError : forall actor s,
  generate_choices WitchProcedure actor s = (Raise (NameError "choices"), s)
  /\ generate_choices BureaucratProcedure actor s
     = (Raise (match nth_error (players s) actor with
               | Some _ => NameError "choices"
               | None => DanglingReference
               end), s)
  /\ generate_choices BureaucratProcedure_class actor s = (Raise TypeError, s).
Proof.
  intros actor s. split; [|split].
  - cbn [generate_choices]. unfold WitchProcedure_generate_choices.
    step. destruct (filter_supply _ s); reflexivity.
  - cbn [generate_choices]. unfold BureaucratProcedure_generate_choices.
    unfold bind, read_actor.
    destruct (nth_error (players s) actor) as [x|]; [|reflexivity].
    destruct (Combinatorics.get_pieces (HAND x) true (Some is_victory));
      [destruct (HAND x)|]; reflexivity.
  - reflexivity.
Qed.


(** A Witch attack on a victim without a Moat ends in that NameError. *)
Example WitchAttack_no_moat :
  apply_effect Sample.no_simple_effects Sample.no_decision
    Sample.first_choice 5 (Call (WitchAttack 1 0)) WitchSample.no_moat
  = (Raise (NameError "choices"), WitchSample.no_moat).
Proof. reflexivity. Qed.

(** ** Sentry *)

Lemma prepare_deck_enough : forall actor x s n,
  nth_error (players s) actor = Some x ->
  (n <= len (DECK x))%Z ->
  prepare_deck actor n s = (Ok tt, s).
Proof.
  intros actor x s n H Hn. rewrite (prepare_deck_run _ _ _ _ H).
  destruct (Z.leb_spec n (len (DECK x))); [reflexivity | lia].
Qed.

Lemma pop_app2 : forall A (l : list A) (x y : A),
  pop (l ++ [x; y]) = Some (y, l ++ [x]).
Proof.
  intros. replace (l ++ [x; y]) with ((l ++ [x]) ++ [y])
    by (rewrite <- app_assoc; reflexivity).
  apply pop_app.
Qed.

Lemma SentryChoices_two_cards : forall global_discard actor x s rest second top,
  nth_error (players s) actor = Some x ->
  DECK x = rest ++ [second; top] ->
  SentryChoices_generate_choices_in global_discard actor s
  = (match global_discard with
     | None => Raise (NameError "discard")
     | Some discard =>
         Ok (if same_type top second
             then sentry_options_same_type discard actor top second
             else sentry_options discard actor top second)
     end, s).
Proof.
  intros global_discard actor x s rest second top Hx Hd.
  unfold SentryChoices_generate_choices_in.
  erewrite bind_Ok.
  2:{ eapply prepare_deck_enough; [exact Hx|].
      rewrite Hd. unfold len. rewrite length_app. simpl. lia. }
  step. rewrite Hd. rewrite pop_app2, pop_app.
  destruct global_discard as [discard|]; [|reflexivity].
  cbn [lookup_global]. step.
  unfold Combinatorics.get_pieces.
  cbn [Combinatorics.first_of_each_type existsb].
  unfold same_type. rewrite (Nat.eqb_sym (total_order_index second)).
  destruct (Nat.eqb (total_order_index top) (total_order_index second));
    reflexivity.
Qed.

Lemma sentry_options_NoDup : forall actor top second,
  top <> second ->
  NoDup (sentry_options Effect_discard_piece actor top second).
Proof.
  intros actor top second Hne.
  unfold sentry_options, new_Consequence, NullOption.
  repeat (apply NoDup_cons; [cbn [In]; intuition congruence|]).
  apply NoDup_nil.
Qed.

Lemma sentry_options_same_type_NoDup : forall actor top second,
  NoDup (sentry_options_same_type Effect_discard_piece actor top second).
Proof.
  intros actor top second.
  unfold sentry_options_same_type, new_Consequence, NullOption.
  repeat (apply NoDup_cons; [cbn [In]; intuition congruence|]).
  apply NoDup_nil.
Qed.

(** C7 (defect of the code). With two cards on top of the deck,
    SentryChoices builds [functions = [trash, discard]], and the module
    binds no name [discard]: [generate_choices] raises NameError and
    offers nothing.  Were [discard] bound to [discard_piece], the choices
    would be the ones the specification lists: for two distinct types, do
    nothing, trash both, discard both, swap, and for each of the two
    orders trash one and discard the other, trash one, discard the other;
    for one type, do nothing, trash both, discard both. *)
Theorem SentryChoices_NameError : forall actor x s rest second top,
  nth_error (players s) actor = Some x ->
  DECK x = rest ++ [second; top] ->
  generate_choices SentryChoices actor s = (Raise (NameError "discard"), s)
  /\ SentryChoices_generate_choices_in (Some Effect_discard_piece) actor s
     = (Ok (if same_type top second
            then sentry_options_same_type Effect_discard_piece actor
                   top second
            else sentry_options Effect_discard_piece actor top second), s).
Proof.
  intros actor x s rest second top Hx Hd. split.
  - cbn [generate_choices]. unfold SentryChoices_generate_choices.
    rewrite (SentryChoices_two_cards engine_discard _ _ _ _ _ _ Hx Hd).
    reflexivity.
  - exact (SentryChoices_two_cards (Some Effect_discard_piece)
             _ _ _ _ _ _ Hx Hd).
Qed.

Lemma SentryChoices_NameError_witness :
  let s := SentrySample.two_top_cards in
  let top := Sample.Gold 22 in
  let second := Sample.Silver 21 in
  (nth_error (players s) 0 = Some SentrySample.carol
   /\ DECK SentrySample.carol = [Sample.Copper 20] ++ [second; top])
  /\ generate_choices SentryChoices 0 s = (Raise (NameError "discard"), s)
  /\ SentryChoices_generate_choices_in (Some Effect_discard_piece) 0 s
     = (Ok (if same_type top second
            then sentry_options_same_type Effect_discard_piece 0 top second
            else sentry_options Effect_discard_piece 0 top second), s).
Proof.
  intros s top second. split; [split; reflexivity|].
  apply (SentryChoices_NameError 0 SentrySample.carol s [Sample.Copper 20]
           second top); reflexivity.
Defined.

(** ** Hypothetical evaluation *)

Lemma update_actor_Ok : forall a f x s,
  nth_error (players s) a = Some x ->
  update_actor a f s = (Ok tt, put_actor a (f x) s).
Proof.
  intros a f x s H. unfold update_actor. step. unfold modify, put_actor.
  f_equal. f_equal. eapply update_nth_ext; [exact H | reflexivity].
Qed.

Section ReadOnly.

Variable lt : Actor -> Actor -> Res bool.

Lemma actor_lt_readonly : forall a b s, snd (actor_lt lt a b s) = s.
Proof.
  intros a b s. unfold actor_lt, bind, read_actor, lift.
  destruct (nth_error (players s) a); [|reflexivity].
  destruct (nth_error (players s) b); [|reflexivity].
  destruct (lt _ _); reflexivity.
Qed.

Lemma would_defeat_readonly : forall a b s, snd (would_defeat lt a b s) = s.
Proof.
  intros a b s. unfold would_defeat, bind.
  pose proof (actor_lt_readonly b a s) as H1.
  destruct (actor_lt lt b a s) as [[[|]|e|] s1]; simpl in H1; subst s1;
    try reflexivity.
  pose proof (actor_lt_readonly a b s) as H2.
  destruct (actor_lt lt a b s) as [[c|e|] s2]; simpl in H2; subst s2;
    reflexivity.
Qed.

Lemma would_defeat_or_tie_readonly : forall a b s,
  snd (would_defeat_or_tie lt a b s) = s.
Proof.
  intros a b s. unfold would_defeat_or_tie, bind.
  pose proof (actor_lt_readonly a b s) as H2.
  destruct (actor_lt lt a b s) as [[c|e|] s2]; simpl in H2; subst s2;
    reflexivity.
Qed.

Lemma all_readonly : forall (test : nat -> M bool) xs,
  (forall x s, snd (test x s) = s) ->
  forall s, snd (all_ test xs s) = s.
Proof.
  intros test xs Ht. induction xs as [|x r IH]; intros s.
  - reflexivity.
  - simpl. unfold bind. pose proof (Ht x s) as H.
    destruct (test x s) as [[[|]|e|] s1]; simpl in H; subst s1;
      try reflexivity.
    apply IH.
Qed.

(** The scratch-then-revert pattern around a ranking test. *)
Lemma scratch_then_revert : forall (test : nat -> nat -> M bool)
    player x acquisition gained s,
  (forall a b s, snd (test a b s) = s) ->
  nth_error (players s) player = Some x ->
  gained_piece acquisition = Some gained ->
  let scratched :=
    put_actor player
      (set_scratch (include x ++ [gained])
         (match lost_piece acquisition with
          | Some lost => exclude x ++ [lost]
          | None => exclude x
          end) x) s in
  let run :=
    (modify_collection player acquisition ;;
     s <- get ;;
     result <- all_ (test player) (opponents player s) ;;
     revert_collection player ;;
     ret result) s in
  match fst (all_ (test player) (opponents player scratched) scratched) with
  | Ok b => run = (Ok b, put_actor player (set_scratch [] [] x) s)
  | Raise e => run = (Raise e, scratched)
  | OutOfFuel => run = (OutOfFuel, scratched)
  end.
Proof.
  intros test player x acquisition gained s Ht Hx Hg scratched run.
  assert (Hm : modify_collection player acquisition s = (Ok tt, scratched)).
  { unfold modify_collection. step. rewrite Hg.
    erewrite bind_Ok by (eapply update_actor_Ok; exact Hx).
    unfold scratched.
    destruct (lost_piece acquisition) as [lost|].
    - erewrite update_actor_Ok by solve_actor.
      rewrite put_actor_put_actor. reflexivity.
    - reflexivity. }
  subst run. erewrite bind_Ok by exact Hm. step.
  pose proof (all_readonly (test player) (opponents player scratched)
                (Ht player) scratched) as Hr.
  destruct (all_ (test player) (opponents player scratched) scratched)
    as [[b|e|] s1] eqn:E; simpl in Hr; subst s1; cbn [fst].
  - erewrite bind_Ok by exact E.
    unfold revert_collection. rewrite bind_bind.
    erewrite bind_Ok
      by (eapply update_actor_Ok; unfold scratched; solve_actor).
    erewrite bind_Ok
      by (eapply update_actor_Ok; unfold scratched; solve_actor).
    unfold scratched. rewrite !put_actor_put_actor. reflexivity.
  - unfold bind. rewrite E. reflexivity.
  - unfold bind. rewrite E. reflexivity.
Qed.

End ReadOnly.

Lemma zones_of_put_actor : forall a x y s,
  nth_error (players s) a = Some x ->
  zones_of y = zones_of x ->
  map zones_of (players (put_actor a y s)) = map zones_of (players s).
Proof.
  intros a x y s H E. unfold put_actor. simpl.
  revert a H. generalize (players s) as l.
  induction l as [|z l IH]; intros a H; destruct a as [|a]; simpl in *;
    try discriminate; try reflexivity.
  - inversion H; subst. rewrite E. reflexivity.
  - f_equal. apply IH. exact H.
Qed.

(** C3 (amended). For every player and every Acquisition, [would_win] and
    [would_win_outright] change no HAND, DECK, DISCARD, PLAY or ASIDE of
    any player, no Supply pile and not the TRASH, whether the ranking
    evaluation returns or raises; when it returns, the State afterwards is
    the State before with the player's [include] and [exclude] empty.
    The engine has no exception handling: nothing is promised about the
    scratch lists when the ranking evaluation raises. *)
Theorem would_win_isolation : forall lt player x acquisition gained s,
  nth_error (players s) player = Some x ->
  gained_piece acquisition = Some gained ->
  let isolated (run : Res bool * State) :=
    map zones_of (players (snd run)) = map zones_of (players s)
    /\ piles (snd run) = piles s
    /\ TRASH (snd run) = TRASH s
    /\ (forall b, fst run = Ok b ->
          snd run = put_actor player (set_scratch [] [] x) s
          /\ option_map include (nth_error (players (snd run)) player)
             = Some []
          /\ option_map exclude (nth_error (players (snd run)) player)
             = Some []) in
  isolated (would_win lt player acquisition s)
  /\ isolated (would_win_outright lt player acquisition s).
Proof.
  intros lt player x acquisition gained s Hx Hg isolated.
  assert (G : forall test : nat -> nat -> M bool,
             (forall a b s, snd (test a b s) = s) ->
             isolated
               ((modify_collection player acquisition ;;
                 s <- get ;;
                 result <- all_ (test player) (opponents player s) ;;
                 revert_collection player ;;
                 ret result) s)).
  { intros test Ht.
    pose proof (scratch_then_revert test player x acquisition gained s
                  Ht Hx Hg) as H.
    cbv zeta in H.
    destruct (fst (all_ (test player) _ _)) as [b|e|]; rewrite H;
      unfold isolated; cbn [fst snd].
    - split; [eapply zones_of_put_actor; [exact Hx | reflexivity]|].
      split; [reflexivity|]. split; [reflexivity|].
      intros b' _. split; [reflexivity|].
      erewrite players_put_actor by exact Hx. split; reflexivity.
    - split; [eapply zones_of_put_actor; [exact Hx | reflexivity]|].
      split; [reflexivity|]. split; [reflexivity|]. discriminate.
    - split; [eapply zones_of_put_actor; [exact Hx | reflexivity]|].
      split; [reflexivity|]. split; [reflexivity|]. discriminate. }
  split.
  - apply (G (would_defeat_or_tie lt)). apply would_defeat_or_tie_readonly.
  - apply (G (would_defeat lt)). apply would_defeat_readonly.
Qed.

Lemma would_win_isolation_witness :
  let lt := RankingSample.by_size in
  let s := RankingSample.two_players in
  let acquisition := RankingSample.buy_province in
  let isolated (run : Res bool * State) :=
    map zones_of (players (snd run)) = map zones_of (players s)
    /\ piles (snd run) = piles s
    /\ TRASH (snd run) = TRASH s
    /\ (forall b, fst run = Ok b ->
          snd run = put_actor 0 (set_scratch [] [] Sample.alice) s
          /\ option_map include (nth_error (players (snd run)) 0)
             = Some []
          /\ option_map exclude (nth_error (players (snd run)) 0)
             = Some []) in
  (nth_error (players s) 0 = Some Sample.alice
   /\ gained_piece acquisition = Some (Sample.Province 9))
  /\ isolated (would_win lt 0 acquisition s)
  /\ isolated (would_win_outright lt 0 acquisition s).
Proof.
  intros lt s acquisition isolated. split; [split; reflexivity|].
  apply (would_win_isolation lt 0 Sample.alice acquisition
           (Sample.Province 9) s); reflexivity.
Defined.

(** With the sample ranking the evaluation returns: holding the Province
    Alice would have five cards, as many as Bob, a tie. *)
Example would_win_sample :
  fst (would_win RankingSample.by_size 0 RankingSample.buy_province
         RankingSample.two_players) = Ok true
  /\ fst (would_win_outright RankingSample.by_size 0
            RankingSample.buy_province RankingSample.two_players)
     = Ok false.
Proof. split; reflexivity. Qed.

(** C3 as the specification states it fails: when the ranking evaluation
    raises, the revert does not run and the hypothetical Province stays in
    [include]. *)
Lemma would_win_skips_revert :
  let run := would_win RankingSample.failing_lt 0 RankingSample.buy_province
               RankingSample.two_players in
  fst run = Raise TypeError
  /\ option_map include (nth_error (players (snd run)) 0)
     = Some [Sample.Province 9]
  /\ option_map include (nth_error (players (snd run)) 0) <> Some [].
Proof. repeat split; discriminate. Qed.

(** ** Termination of Processes *)

(** A loop whose condition holds and whose body returns to a State where it
    holds again never returns. *)
Lemma while_never_returns : forall (Inv : State -> Prop) cond body,
  (forall s, Inv s -> cond s = (Ok true, s)) ->
  (forall s, Inv s ->
     (exists s', body s = (Ok tt, s') /\ Inv s')
     \/ (exists s', body s = (OutOfFuel, s'))) ->
  forall fuel s, Inv s -> fst (while_ fuel cond body s) = OutOfFuel.
Proof.
  intros Inv cond body Hc Hb. induction fuel as [|fuel IH]; intros s Hs.
  - reflexivity.
  - cbn [while_]. erewrite bind_Ok by (apply Hc; exact Hs). cbv beta iota.
    destruct (Hb s Hs) as [[s' [E Hs']]|[s' E]].
    + erewrite bind_Ok by exact E.
      unfold bind. specialize (IH s' Hs').
      destruct (while_ fuel cond body s') as [[n|e|] s'']; simpl in IH;
        try discriminate. reflexivity.
    + unfold bind. rewrite E. reflexivity.
Qed.

Section Bandit.

Variable simple_effects : Piece -> option (list Effect).
Variable decision : Piece -> option Decision.
Variable select : nat -> list Consequence -> Decision -> State -> nat.

Let main (fuel : nat) : M unit :=
  apply_effect simple_effects decision select fuel
    (main_effect (BanditAttack 1 0)).

Lemma Bandit_main_discards : forall fuel,
  main (S (S fuel)) BanditSample.two_coppers
  = (Ok tt, BanditSample.two_coppers_discarded).
Proof. intros. reflexivity. Qed.

Lemma Bandit_main_replenishes : forall fuel,
  main (S (S fuel)) BanditSample.two_coppers_discarded
  = (Ok tt, BanditSample.two_coppers_discarded).
Proof. intros. reflexivity. Qed.

(** C6 (defect of the code). BanditAttack, like WitchAttack and
    BureaucratAttack, defines no antecedent of its own: it inherits
    [not(self.immunity)], which nothing in the main loop changes.  Against
    a victim without a Moat whose deck is two Coppers the loop discards
    the two cards, replenishes the deck with them and starts again: for
    every amount of fuel, every decider and every card catalogue the
    application of the Process does not return. *)
Theorem BanditAttack_never_returns : forall fuel,
  fst (apply_effect simple_effects decision select fuel
         (Call (BanditAttack 1 0)) BanditSample.two_coppers)
  = OutOfFuel.
Proof.
  intros [|[|[|fuel]]]; try reflexivity.
  rewrite apply_effect_Call. cbn [setup_effect teardown_effect].
  erewrite bind_Ok with (s' := BanditSample.two_coppers) (a := tt)
    by reflexivity.
  match goal with |- fst (bind ?w _ _) = _ =>
    assert (H : fst (w BanditSample.two_coppers) = OutOfFuel) end.
  { apply while_never_returns
      with (Inv := fun s => s = BanditSample.two_coppers
                            \/ s = BanditSample.two_coppers_discarded).
    - intros s [-> | ->]; reflexivity.
    - intros s [-> | ->]; left;
        exists BanditSample.two_coppers_discarded;
        (split; [|right; reflexivity]).
      + apply Bandit_main_discards.
      + apply Bandit_main_replenishes.
    - left. reflexivity. }
  unfold bind at 1.
  match goal with |- fst (match ?w with _ => _ end) = _ =>
    destruct w as [[n|e|] s1] end; simpl in H; try discriminate.
  reflexivity.
Qed.

End Bandit.

(** ** Processes that do terminate *)

(** A loop whose body makes a measure decrease stops, within as many
    iterations as the measure allows. *)
Lemma while_terminates : forall (Inv : State -> Prop) (mu : State -> nat)
    cond body,
  (forall s, Inv s ->
     exists b, cond s = (Ok b, s) /\ (b = true -> 0 < mu s)) ->
  (forall s, Inv s -> cond s = (Ok true, s) ->
     exists s', body s = (Ok tt, s') /\ Inv s' /\ mu s' < mu s) ->
  forall fuel s, Inv s -> mu s < fuel ->
    exists n s', while_ fuel cond body s = (Ok n, s')
                 /\ Inv s' /\ cond s' = (Ok false, s') /\ n <= mu s.
Proof.
  intros Inv mu cond body Hc Hb.
  induction fuel as [|fuel IH]; intros s Hs Hf; [lia|].
  cbn [while_]. destruct (Hc s Hs) as [b [Ec Hpos]].
  erewrite bind_Ok by exact Ec. destruct b.
  - destruct (Hb s Hs Ec) as [s1 [Eb [Hs1 Hlt]]].
    erewrite bind_Ok by exact Eb.
    destruct (IH s1 Hs1) as [n [s' [Ew [Hs' [Ec' Hn]]]]]; [lia|].
    erewrite bind_Ok by exact Ew.
    exists (S n), s'. repeat split; try assumption. lia.
  - exists 0, s. repeat split; try assumption. lia.
Qed.

Lemma first_of_each_type_In : forall zone seen d,
  In d (Combinatorics.first_of_each_type seen zone) -> In d zone.
Proof.
  induction zone as [|x r IH]; intros seen d H; simpl in H.
  - contradiction.
  - destruct (existsb _ seen).
    + right. eapply IH. exact H.
    + destruct H as [<-|H]; [left; reflexivity|]. right. eapply IH. exact H.
Qed.

Lemma get_pieces_all_nonempty : forall x r,
  exists u us, Combinatorics.get_pieces (x :: r) true None = u :: us.
Proof. intros. simpl. eauto. Qed.

Lemma get_pieces_all_In : forall zone d,
  In d (Combinatorics.get_pieces zone true None) -> In d zone.
Proof. intros zone d H. eapply first_of_each_type_In. exact H. Qed.

Lemma partition_length : forall A (f : A -> bool) l yes no,
  Combinatorics.partition f l = (yes, no) ->
  List.length l = List.length yes + List.length no.
Proof.
  intros A f. induction l as [|x l IH]; intros yes no H; simpl in H.
  - inversion H; reflexivity.
  - destruct (Combinatorics.partition f l) as [y n].
    specialize (IH y n eq_refl).
    destruct (f x); inversion H; subst; simpl; lia.
Qed.

Lemma partition_In_yes : forall A (f : A -> bool) l yes no d,
  Combinatorics.partition f l = (yes, no) ->
  In d l -> f d = true -> yes <> [].
Proof.
  intros A f. induction l as [|x l IH]; intros yes no d H Hin Hd;
    simpl in H.
  - contradiction.
  - destruct (Combinatorics.partition f l) as [y n] eqn:E.
    destruct Hin as [->|Hin].
    + rewrite Hd in H. inversion H; subst. discriminate.
    + specialize (IH y n d eq_refl Hin Hd).
      destruct (f x); inversion H; subst; [discriminate | exact IH].
Qed.

Section Militia.

Variable simple_effects : Piece -> option (list Effect).
Variable decision : Piece -> option Decision.
Variable select : nat -> list Consequence -> Decision -> State -> nat.

(** The decider is handed the choices and returns one of them. *)
Lemma request_input_pick : forall actor d decider s s' choices,
  generate_choices d actor s = (Ok choices, s') ->
  choices <> [] ->
  exists c, In c choices
            /\ request_input select actor d decider s = (Ok c, s').
Proof.
  intros actor d decider s s' choices E Hne.
  unfold request_input, expand_choices.
  erewrite bind_Ok by exact E. step.
  destruct choices as [|c cs]; [congruence|].
  eexists. split; [|reflexivity].
  apply nth_In. apply Nat.mod_upper_bound. simpl. discriminate.
Qed.

(** One iteration of the Militia attack: the victim discards the pieces
    identical to one piece of the hand. *)
Lemma Militia_main : forall fuel actor x s,
  nth_error (players s) actor = Some x ->
  HAND x <> [] ->
  exists to_keep to_discard,
    List.length to_keep < List.length (HAND x)
    /\ apply_effect simple_effects decision select (S (S fuel))
         (Initiate actor MilitiaVictimProcedure None) s
       = (Ok tt,
          put_actor actor
            (mkActor (actor_name x) to_keep (DECK x)
               (DISCARD x ++ to_discard) (PLAY x) (ASIDE x) (include x)
               (exclude x) (n_turns_played x)) s).
Proof.
  intros fuel actor x s Hx Hne.
  rewrite apply_effect_Initiate. unfold resolve_with.
  destruct (HAND x) as [|h hs] eqn:Eh; [congruence|].
  destruct (get_pieces_all_nonempty h hs) as [u [us Eu]].
  assert (G : generate_choices MilitiaVictimProcedure actor s
              = (Ok (map (fun discardable =>
                            new_Consequence
                              [Effect_discard_piece actor discardable None]
                              None) (u :: us)), s)).
  { cbn [generate_choices]. unfold MilitiaVictimProcedure_generate_choices.
    step. rewrite Eh, Eu. reflexivity. }
  destruct (request_input_pick actor _ actor _ _ _ G) as [c [Hc Ec]];
    [discriminate|].
  erewrite bind_Ok by exact Ec.
  apply in_map_iff in Hc. destruct Hc as [d [<- Hd]].
  rewrite <- Eu in Hd. apply get_pieces_all_In in Hd.
  unfold enact. cbn [effects new_Consequence for_each apply_effect].
  unfold discard_piece. cbn [default_zone].
  steps. rewrite Eh.
  destruct (Combinatorics.partition (fun x0 => piece_is x0 d) (h :: hs))
    as [to_discard to_keep] eqn:Ep.
  steps.
  exists to_keep, to_discard. split.
  - pose proof (partition_length _ _ _ _ _ Ep) as L.
    pose proof (partition_In_yes _ _ _ _ _ d Ep Hd (piece_is_refl d)) as N.
    destruct to_discard; [congruence|]. simpl in *. lia.
  - reflexivity.
Qed.

Lemma Immunity_setup : forall fuel actor self x s,
  nth_error (players s) actor = Some x ->
  nth_error (attack_immunity s) self = Some false ->
  exists b,
    apply_effect simple_effects decision select (S (S fuel))
      (Initiate actor (ImmunityProcedure self) None) s
    = (Ok tt, set_immunity self b s).
Proof.
  intros fuel actor self x s Hx Hi.
  rewrite apply_effect_Initiate. unfold resolve_with, request_input.
  unfold expand_choices. cbn [generate_choices].
  unfold ImmunityProcedure_generate_choices. steps.
  destruct (Combinatorics.get_pieces (HAND x) true _) as [|moat0 ?].
  - exists false. steps. cbn [List.length]. rewrite Nat.mod_1_r. cbn [nth].
    unfold enact. cbn [effects NullOption for_each apply_effect].
    unfold do_nothing. steps.
    rewrite (set_immunity_same _ _ _ Hi). reflexivity.
  - exists true. steps. cbn [List.length]. rewrite Nat.mod_1_r. cbn [nth].
    unfold enact. cbn [effects new_Consequence for_each apply_effect].
    unfold reveal, mark_immunity. steps.
    erewrite bind_Ok by (eapply write_immunity_Ok; exact Hi).
    reflexivity.
Qed.

Lemma MilitiaAttack_antecedent : forall actor self y b s,
  nth_error (players s) actor = Some y ->
  nth_error (attack_immunity s) self = Some b ->
  antecedent (MilitiaAttack actor self) s
  = (Ok (negb b && Z.ltb 3 (len (HAND y))), s).
Proof.
  intros actor self y b s Hy Hb. cbn [antecedent]. unfold Attack_antecedent.
  rewrite bind_bind.
  erewrite bind_Ok by (eapply read_immunity_Ok; exact Hb).
  step. destruct b; cbn [negb andb].
  - reflexivity.
  - step. reflexivity.
Qed.

(** X1. MilitiaAttack terminates: applied to a victim who is not immune
    beforehand, the Process returns, after at most len(HAND) - 3
    iterations of its main loop; the hand of the victim shrinks at every
    iteration. *)
Lemma MilitiaAttack_terminates : forall fuel actor self x s,
  nth_error (players s) actor = Some x ->
  nth_error (attack_immunity s) self = Some false ->
  List.length (HAND x) <= fuel ->
  exists n s',
    Process_call simple_effects decision select (S (S fuel))
      (MilitiaAttack actor self) s = (Ok n, s')
    /\ n <= List.length (HAND x) - 3.
Proof.
  intros fuel actor self x s Hx Hi Hf.
  unfold Process_call. cbn [setup_effect teardown_effect main_effect].
  destruct (Immunity_setup fuel actor self x s Hx Hi) as [b0 Es].
  erewrite bind_Ok by exact Es.
  set (Inv := fun s' : State =>
         exists y b, nth_error (players s') actor = Some y
                     /\ nth_error (attack_immunity s') self = Some b).
  set (mu := fun s' : State =>
         match nth_error (players s') actor with
         | Some y => List.length (HAND y) - 3
         | None => 0
         end).
  destruct (while_terminates Inv mu
              (antecedent (MilitiaAttack actor self))
              (apply_effect simple_effects decision select (S (S fuel))
                 (Initiate actor MilitiaVictimProcedure None)))
    with (fuel := S (S fuel)) (s := set_immunity self b0 s)
    as [n [s' [Ew [[y [b [Hy Hb]]] [_ Hn]]]]].
  - intros s1 [y [b [Hy Hb]]]. eexists. split.
    + eapply MilitiaAttack_antecedent; eassumption.
    + intros E. unfold mu. rewrite Hy.
      apply andb_true_iff in E. destruct E as [_ E].
      apply Z.ltb_lt in E. unfold len in E. lia.
  - intros s1 [y [b [Hy Hb]]] Ec.
    rewrite (MilitiaAttack_antecedent _ _ _ _ _ Hy Hb) in Ec.
    inversion Ec as [E]. apply andb_true_iff in E. destruct E as [_ E].
    apply Z.ltb_lt in E. unfold len in E.
    destruct (Militia_main fuel actor y s1 Hy) as [k [d [Hk Em]]].
    { destruct (HAND y); [simpl in E; lia | discriminate]. }
    eexists. split; [exact Em|]. split.
    + unfold Inv. eexists. exists b. split; [solve_actor | exact Hb].
    + unfold mu. erewrite players_put_actor by exact Hy. rewrite Hy.
      cbn [HAND]. lia.
  - unfold Inv. exists x, b0. split; [exact Hx|].
    eapply immunity_set_immunity. exact Hi.
  - unfold mu. cbn [players set_immunity set_attack_immunity]. rewrite Hx.
    lia.
  - erewrite bind_Ok by exact Ew. steps.
    erewrite bind_Ok by (eapply write_immunity_Ok; exact Hb).
    eexists. eexists. split; [reflexivity|].
    unfold mu in Hn. cbn [players set_immunity set_attack_immunity] in Hn.
    rewrite Hx in Hn. exact Hn.
Qed.

End Militia.

(** Carol, with five cards in hand and no Moat, under a MilitiaAttack. *)
Lemma MilitiaAttack_terminates_witness :
  exists n s',
    Process_call CatalogueSample.simple_effects CatalogueSample.decision
      Sample.first_choice 7 (MilitiaAttack 2 0)
      (set_attack_immunity [false] CatalogueSample.three_players)
    = (Ok n, s')
    /\ n <= 2.
Proof.
  apply (MilitiaAttack_terminates CatalogueSample.simple_effects
           CatalogueSample.decision Sample.first_choice 5 2 0
           CatalogueSample.carol
           (set_attack_immunity [false] CatalogueSample.three_players)).
  - reflexivity.
  - reflexivity.
  - simpl. lia.
Defined.

Lemma index_In : forall p l,
  In p l -> exists i, index p l = Some i /\ i < List.length l.
Proof.
  intros p. induction l as [|x l IH]; intros H.
  - contradiction.
  - simpl. destruct (piece_is x p) eqn:E.
    + exists 0. split; [reflexivity | simpl; lia].
    + destruct H as [->|H]; [rewrite piece_is_refl in E; discriminate|].
      destruct (IH H) as [i [Ei Hi]]. rewrite Ei.
      exists (S i). split; [reflexivity | simpl; lia].
Qed.

Section Library.

Variable simple_effects : Piece -> option (list Effect).
Variable decision : Piece -> option Decision.
Variable select : nat -> list Consequence -> Decision -> State -> nat.

Lemma prepare_deck_one : forall actor x s,
  nth_error (players s) actor = Some x ->
  DECK x <> [] \/ DISCARD x <> [] ->
  exists s1 x1 rest topcard,
    prepare_deck actor 1 s = (Ok tt, s1)
    /\ nth_error (players s1) actor = Some x1
    /\ attack_immunity s1 = attack_immunity s
    /\ DECK x1 = rest ++ [topcard]
    /\ List.length (DECK x1) + List.length (DISCARD x1)
       = List.length (DECK x) + List.length (DISCARD x)
    /\ HAND x1 = HAND x.
Proof.
  intros actor x s Hx Hne.
  rewrite (prepare_deck_run _ _ _ _ Hx).
  destruct (DECK x) as [|c cs] eqn:Ed.
  - destruct Hne as [Hne|Hne]; [congruence|].
    destruct (DISCARD x) as [|c cs] eqn:Es; [congruence|].
    cbn [len List.length is_nil negb andb].
    replace (Z.leb 1 (Z.of_nat 0)) with false by reflexivity.
    cbn [negb andb].
    rewrite (replenish_deck_run _ _ _ Hx). cbn [snd]. rewrite Ed, Es.
    pose proof (shuffle_list_Permutation (List.length (c :: cs))
                  (np_random s) (c :: cs)) as P.
    destruct (shuffle_list _ _ _) as [sh draws]. cbn [fst snd] in *.
    rewrite app_nil_r.
    pose proof (Permutation_length P) as L.
    destruct (pop sh) as [[t r]|] eqn:Ep.
    + apply pop_Some in Ep.
      eexists. eexists. exists r, t. split; [reflexivity|].
      split; [solve_actor|]. split; [reflexivity|].
      cbn [DECK DISCARD HAND]. split; [exact Ep|]. split; [|reflexivity].
      simpl in *. lia.
    + apply pop_None in Ep. subst sh. simpl in L. lia.
  - assert (E : (1 <=? len (c :: cs))%Z = true).
    { apply Z.leb_le. unfold len. simpl List.length. lia. }
    rewrite E. cbn [negb andb].
    destruct (pop (c :: cs)) as [[t r]|] eqn:Ep.
    + apply pop_Some in Ep.
      exists s, x, r, t. rewrite Ed.
      repeat split; try assumption.
    + apply pop_None in Ep. discriminate.
Qed.

Lemma transfer_piece_off_DECK : forall actor x s piece z,
  nth_error (players s) actor = Some x ->
  In piece (DECK x) ->
  z = ZHAND \/ z = ZASIDE ->
  exists y,
    transfer_piece piece (zone_of actor z) (zone_of actor ZDECK) s
    = (Ok tt, put_actor actor y s)
    /\ List.length (DECK y) + 1 = List.length (DECK x)
    /\ DISCARD y = DISCARD x
    /\ List.length (HAND y) <= List.length (HAND x) + 1.
Proof.
  intros actor x s piece z Hx Hin Hz. unfold transfer_piece.
  destruct (index_In piece (DECK x) Hin) as [i [Ei Hi]].
  destruct (pop_at_lt _ i (DECK x) Hi) as [moved [deck' Ep]].
  pose proof (pop_at_length _ _ _ _ _ Ep) as L.
  destruct Hz as [-> | ->]; steps; rewrite Ei, Ep; steps;
    (erewrite write_zone_actor by solve_actor);
    rewrite put_actor_put_actor;
    cbn [actor_zone set_actor_zone actor_name HAND DECK DISCARD PLAY ASIDE
         include exclude n_turns_played];
    (eexists; split; [reflexivity|]);
    cbn [HAND DECK DISCARD]; rewrite ?length_app; simpl;
    repeat split; lia.
Qed.

(** One iteration of the Library: the top card of the deck goes to the
    hand or is set aside. *)
Lemma Library_main : forall fuel actor x s,
  nth_error (players s) actor = Some x ->
  DECK x <> [] \/ DISCARD x <> [] ->
  exists s' y,
    apply_effect simple_effects decision select (S (S fuel))
      (Initiate actor LibraryProcedure None) s = (Ok tt, s')
    /\ nth_error (players s') actor = Some y
    /\ List.length (DECK y) + List.length (DISCARD y) + 1
       = List.length (DECK x) + List.length (DISCARD x).
Proof.
  intros fuel actor x s Hx Hne.
  destruct (prepare_deck_one actor x s Hx Hne)
    as [s1 [x1 [rest [topcard [Ep [Hx1 [_ [Ed [Hl _]]]]]]]]].
  rewrite apply_effect_Initiate. unfold resolve_with.
  assert (G : exists choices,
             generate_choices LibraryProcedure actor s = (Ok choices, s1)
             /\ choices <> []
             /\ forall c, In c choices ->
                   effects c = [Effect_put actor topcard None None]
                   \/ effects c = [Effect_set_aside actor topcard
                                     (zone_of actor ZDECK)]).
  { cbn [generate_choices]. unfold LibraryProcedure_generate_choices.
    erewrite bind_Ok by exact Ep. step. rewrite Ed, pop_app.
    destruct (is_action topcard); eexists;
      (split; [reflexivity|]); (split; [discriminate|]);
      intros c Hc; simpl in Hc; intuition (subst; auto). }
  destruct G as [choices [G [Hn Hc]]].
  destruct (request_input_pick select actor _ actor _ _ _ G Hn)
    as [c [Hin Ec]].
  erewrite bind_Ok by exact Ec.
  assert (Ht : In topcard (DECK x1)).
  { rewrite Ed. apply in_or_app. right. left. reflexivity. }
  unfold enact.
  destruct (Hc c Hin) as [-> | ->]; cbn [for_each apply_effect].
  - unfold put. cbn [default_zone].
    destruct (transfer_piece_off_DECK actor x1 s1 topcard ZHAND Hx1 Ht)
      as [y [Et [L1 [L2 _]]]]; [left; reflexivity|].
    erewrite bind_Ok by exact Et.
    eexists. exists y. split; [reflexivity|]. split; [solve_actor|].
    rewrite L2. lia.
  - unfold set_aside.
    destruct (transfer_piece_off_DECK actor x1 s1 topcard ZASIDE Hx1 Ht)
      as [y [Et [L1 [L2 _]]]]; [right; reflexivity|].
    erewrite bind_Ok by exact Et.
    eexists. exists y. split; [reflexivity|]. split; [solve_actor|].
    rewrite L2. lia.
Qed.

Lemma Library_teardown : forall fuel actor x s,
  nth_error (players s) actor = Some x ->
  exists s',
    apply_effect simple_effects decision select (S (S fuel))
      (Initiate actor LibraryTeardown None) s = (Ok tt, s').
Proof.
  intros fuel actor x s Hx.
  rewrite apply_effect_Initiate. unfold resolve_with, request_input.
  unfold expand_choices. cbn [generate_choices].
  unfold LibraryTeardown_generate_choices. steps.
  destruct (ASIDE x) as [|a r] eqn:Ea; steps;
    cbn [List.length]; rewrite Nat.mod_1_r; cbn [nth]; unfold enact.
  - cbn [effects NullOption for_each apply_effect]. unfold do_nothing.
    steps. eexists. reflexivity.
  - cbn [effects new_Consequence for_each apply_effect].
    unfold discard_zone. steps. eexists. reflexivity.
Qed.

Lemma LibraryProcess_antecedent : forall actor y s,
  nth_error (players s) actor = Some y ->
  antecedent (LibraryProcess actor) s
  = (Ok (Z.ltb (len (HAND y)) 7
         && negb (Z.eqb (len (DECK y) + len (DISCARD y)) 0)), s).
Proof.
  intros actor y s Hy. cbn [antecedent]. steps. reflexivity.
Qed.

(** X2. LibraryProcess terminates: the Process returns after at most
    len(DECK) + len(DISCARD) iterations of its main loop; deck and discard
    pile together lose a card at every iteration. *)
Lemma LibraryProcess_terminates : forall fuel actor x s,
  nth_error (players s) actor = Some x ->
  List.length (DECK x) + List.length (DISCARD x) <= fuel ->
  exists n s',
    Process_call simple_effects decision select (S (S fuel))
      (LibraryProcess actor) s = (Ok n, s')
    /\ n <= List.length (DECK x) + List.length (DISCARD x).
Proof.
  intros fuel actor x s Hx Hf.
  unfold Process_call. cbn [setup_effect teardown_effect main_effect].
  step.
  set (Inv := fun s' : State =>
         exists y, nth_error (players s') actor = Some y).
  set (mu := fun s' : State =>
         match nth_error (players s') actor with
         | Some y => List.length (DECK y) + List.length (DISCARD y)
         | None => 0
         end).
  destruct (while_terminates Inv mu
              (antecedent (LibraryProcess actor))
              (apply_effect simple_effects decision select (S (S fuel))
                 (Initiate actor LibraryProcedure None)))
    with (fuel := S (S fuel)) (s := s)
    as [n [s' [Ew [[y Hy] [_ Hn]]]]].
  - intros s1 [y Hy]. eexists. split.
    + eapply LibraryProcess_antecedent; eassumption.
    + intros E. unfold mu. rewrite Hy.
      apply andb_true_iff in E. destruct E as [_ E].
      apply negb_true_iff, Z.eqb_neq in E. unfold len in E. lia.
  - intros s1 [y Hy] Ec.
    rewrite (LibraryProcess_antecedent _ _ _ Hy) in Ec.
    inversion Ec as [E]. apply andb_true_iff in E. destruct E as [_ E].
    apply negb_true_iff, Z.eqb_neq in E. unfold len in E.
    destruct (Library_main fuel actor y s1 Hy) as [s2 [y2 [Em [Hy2 L]]]].
    { destruct (DECK y); [|left; discriminate].
      destruct (DISCARD y); [simpl in E; lia | right; discriminate]. }
    exists s2. split; [exact Em|]. split.
    + exists y2. exact Hy2.
    + unfold mu. rewrite Hy2, Hy. lia.
  - exists x. exact Hx.
  - unfold mu. rewrite Hx. lia.
  - erewrite bind_Ok by exact Ew.
    destruct (Library_teardown fuel actor y s' Hy) as [s3 Et].
    erewrite bind_Ok by exact Et. steps.
    eexists. eexists. split; [reflexivity|].
    unfold mu in Hn. rewrite Hx in Hn. exact Hn.
Qed.

End Library.

(** Alice alone, with one card in her deck and two in her discard pile. *)
Lemma LibraryProcess_terminates_witness :
  exists n s',
    Process_call Sample.no_simple_effects Sample.no_decision
      Sample.first_choice 5 (LibraryProcess 0) Sample.solo = (Ok n, s')
    /\ n <= 3.
Proof.
  apply (LibraryProcess_terminates Sample.no_simple_effects
           Sample.no_decision Sample.first_choice 3 0 Sample.alice
           Sample.solo).
  - reflexivity.
  - simpl. lia.
Defined.

(** ** Computations that conserve the pieces *)

Lemma conserves_ret : forall A (a : A), conserves (ret a).
Proof. intros A a s p. reflexivity. Qed.

Lemma conserves_raise : forall A e, conserves (@raise A e).
Proof. intros A e s p. reflexivity. Qed.

Lemma conserves_out_of_fuel : forall A, conserves (@out_of_fuel A).
Proof. intros A s p. reflexivity. Qed.

Lemma conserves_lift : forall A (r : Res A), conserves (lift r).
Proof. intros A r s p. reflexivity. Qed.

Lemma conserves_get : conserves get.
Proof. intros s p. reflexivity. Qed.

Lemma conserves_read_zone : forall r, conserves (read_zone r).
Proof.
  intros r s p. unfold read_zone. destruct (lookup_zone r s); reflexivity.
Qed.

Lemma conserves_read_actor : forall a, conserves (read_actor a).
Proof.
  intros a s p. unfold read_actor.
  destruct (nth_error (players s) a); reflexivity.
Qed.

Lemma conserves_read_immunity : forall a, conserves (read_immunity a).
Proof.
  intros a s p. unfold read_immunity.
  destruct (nth_error (attack_immunity s) a); reflexivity.
Qed.

Lemma conserves_modify : forall f,
  (forall s, all_pieces (f s) = all_pieces s) -> conserves (modify f).
Proof. intros f H s p. unfold occ. simpl. rewrite H. reflexivity. Qed.

(** Sequencing, with what is known of the value the first part returns. *)
Lemma conserves_bind_post : forall A B (m : M A) (k : A -> M B)
    (Q : A -> Prop),
  conserves m ->
  (forall s a s', m s = (Ok a, s') -> Q a) ->
  (forall a, Q a -> conserves (k a)) ->
  conserves (bind m k).
Proof.
  intros A B m k Q Hm HQ Hk s p. unfold bind.
  specialize (Hm s p). destruct (m s) as [[a|e|] s'] eqn:E; simpl in *.
  - rewrite <- Hm. apply Hk. eapply HQ. exact E.
  - exact Hm.
  - exact Hm.
Qed.

Lemma conserves_bind : forall A B (m : M A) (k : A -> M B),
  conserves m -> (forall a, conserves (k a)) -> conserves (bind m k).
Proof.
  intros A B m k Hm Hk.
  apply conserves_bind_post with (Q := fun _ => True); auto.
Qed.

Lemma conserves_for_each : forall A (xs : list A) (body : A -> M unit),
  (forall x, In x xs -> conserves (body x)) -> conserves (for_each xs body).
Proof.
  intros A xs body. induction xs as [|x r IH]; intros H.
  - apply conserves_ret.
  - simpl. apply conserves_bind.
    + apply H. left. reflexivity.
    + intros _. apply IH. intros y Hy. apply H. right. exact Hy.
Qed.

Lemma conserves_while : forall fuel cond body,
  conserves cond -> conserves body -> conserves (while_ fuel cond body).
Proof.
  induction fuel as [|fuel IH]; intros cond body Hc Hb.
  - apply conserves_out_of_fuel.
  - simpl. apply conserves_bind; [exact Hc|]. intros [|].
    + apply conserves_bind; [exact Hb|]. intros _.
      apply conserves_bind; [apply IH; assumption|]. intros n.
      apply conserves_ret.
    + apply conserves_ret.
Qed.

(** The pieces of [source] are split into those that stay and those that
    move to the end of [destination]. *)
Lemma conserves_move : forall source destination src kept moved s p,
  lookup_zone source s = Some src ->
  (exists d, lookup_zone destination s = Some d) ->
  cnt p src = cnt p kept + cnt p moved ->
  occ p (snd ((write_zone source kept ;;
               dst <- read_zone destination ;;
               write_zone destination (dst ++ moved)) s))
  = occ p s.
Proof.
  intros source destination src kept moved s p Hs [d Hd] Hc.
  rewrite bind_write_zone.
  destruct (lookup_store_valid source destination d kept s Hd) as [d1 Hd1].
  unfold bind, read_zone. rewrite Hd1. unfold write_zone, modify. cbn [snd].
  pose proof (occ_store p source src kept s Hs).
  pose proof (occ_store p destination d1 (d1 ++ moved) _ Hd1).
  rewrite cnt_app in H0. lia.
Qed.

Lemma index_pop_at : forall piece l i x l',
  index piece l = Some i -> pop_at i l = Some (x, l') ->
  Permutation l (x :: l').
Proof. intros. eapply pop_at_Permutation. eassumption. Qed.

Lemma conserves_transfer_piece : forall piece destination source,
  conserves (transfer_piece piece destination source).
Proof.
  intros piece destination source s p. unfold transfer_piece.
  unfold bind at 1. unfold read_zone at 1.
  destruct (lookup_zone destination s) as [d|] eqn:Ed; [|reflexivity].
  unfold bind at 1. unfold read_zone at 1.
  destruct (lookup_zone source s) as [src|] eqn:Es; [|reflexivity].
  destruct (index piece src) as [i|]; [|reflexivity].
  destruct (pop_at i src) as [[x src']|] eqn:Ep; [|reflexivity].
  apply (conserves_move source destination src src' [x] s p Es).
  - eauto.
  - apply pop_at_Permutation in Ep.
    rewrite (cnt_Permutation p _ _ Ep).
    change (x :: src') with ([x] ++ src'). rewrite cnt_app. lia.
Qed.

Lemma conserves_transfer_top_piece : forall destination source,
  conserves (transfer_top_piece destination source).
Proof.
  intros destination source s p. unfold transfer_top_piece.
  unfold bind at 1. unfold read_zone at 1.
  destruct (lookup_zone destination s) as [d|] eqn:Ed; [|reflexivity].
  unfold bind at 1. unfold read_zone at 1.
  destruct (lookup_zone source s) as [src|] eqn:Es; [|reflexivity].
  destruct (pop src) as [[x src']|] eqn:Ep; [|reflexivity].
  apply (conserves_move source destination src src' [x] s p Es).
  - eauto.
  - apply pop_Some in Ep. subst src. rewrite cnt_app. lia.
Qed.

Lemma cnt_partition : forall p (f : Piece -> bool) l yes no,
  Combinatorics.partition f l = (yes, no) ->
  cnt p l = cnt p no + cnt p yes.
Proof.
  intros p f. induction l as [|x l IH]; intros yes no H; simpl in H.
  - inversion H; subst. reflexivity.
  - destruct (Combinatorics.partition f l) as [y n] eqn:E.
    specialize (IH y n eq_refl).
    change (x :: l) with ([x] ++ l). rewrite cnt_app, IH.
    destruct (f x); inversion H; subst.
    + change (x :: y) with ([x] ++ y). rewrite cnt_app. lia.
    + change (x :: n) with ([x] ++ n). rewrite cnt_app. lia.
Qed.

Lemma lookup_actor_zone : forall a z x s,
  nth_error (players s) a = Some x ->
  lookup_zone (zone_of a z) s = Some (actor_zone z x).
Proof. intros. simpl. rewrite H. reflexivity. Qed.

(** [source.clear(); source.extend(to_keep);
    actor.DISCARD.extend(to_discard)] *)
Lemma conserves_discard : forall actor source src to_keep to_discard s p x,
  nth_error (players s) actor = Some x ->
  lookup_zone source s = Some src ->
  cnt p src = cnt p to_keep + cnt p to_discard ->
  occ p (snd ((write_zone source [] ;;
               src <- read_zone source ;;
               write_zone source (src ++ to_keep) ;;
               d <- read_zone (zone_of actor ZDISCARD) ;;
               write_zone (zone_of actor ZDISCARD) (d ++ to_discard)) s))
  = occ p s.
Proof.
  intros actor source src to_keep to_discard s p x Hx Hs Hc.
  rewrite bind_write_zone.
  pose proof (lookup_store_same source src [] s Hs) as H1.
  unfold bind at 1. unfold read_zone at 1. rewrite H1.
  rewrite bind_write_zone. simpl app.
  set (s1 := store_zone source [] s) in *.
  set (s2 := store_zone source to_keep s1).
  destruct (lookup_store_valid source _ _ [] s
              (lookup_actor_zone actor ZDISCARD x s Hx)) as [d1 Hd1].
  destruct (lookup_store_valid source _ _ to_keep s1 Hd1) as [d Hd].
  fold s2 in Hd.
  unfold bind, read_zone. rewrite Hd. unfold write_zone, modify. cbn [snd].
  pose proof (occ_store p source src [] s Hs) as O1.
  pose proof (occ_store p source [] to_keep s1 H1) as O2.
  pose proof (occ_store p _ d (d ++ to_discard) s2 Hd) as O3.
  fold s1 in O1. fold s2 in O2. rewrite cnt_app in O3. rewrite cnt_nil in *.
  lia.
Qed.

Lemma conserves_discard_piece : forall actor piece source,
  conserves (discard_piece actor piece source).
Proof.
  intros actor piece source s p. unfold discard_piece.
  unfold bind at 1. unfold read_actor at 1.
  destruct (nth_error (players s) actor) as [x|] eqn:Ex; [|reflexivity].
  unfold bind at 1. unfold read_zone at 1.
  destruct (lookup_zone (default_zone actor ZHAND source) s) as [src|] eqn:Es;
    [|reflexivity].
  destruct (Combinatorics.partition _ src) as [to_discard to_keep] eqn:Ep.
  eapply conserves_discard; try eassumption.
  eapply cnt_partition. exact Ep.
Qed.

Lemma conserves_discard_pieces : forall actor pieces source,
  conserves (discard_pieces actor pieces source).
Proof.
  intros actor pieces source s p. unfold discard_pieces.
  unfold bind at 1. unfold read_actor at 1.
  destruct (nth_error (players s) actor) as [x|] eqn:Ex; [|reflexivity].
  unfold bind at 1. unfold read_zone at 1.
  destruct (lookup_zone (default_zone actor ZHAND source) s) as [src|] eqn:Es;
    [|reflexivity].
  destruct (Combinatorics.partition _ src) as [to_discard to_keep] eqn:Ep.
  eapply conserves_discard; try eassumption.
  eapply cnt_partition. exact Ep.
Qed.

Lemma conserves_discard_zone : forall actor source,
  source <> zone_of actor ZDISCARD ->
  conserves (discard_zone actor source).
Proof.
  intros actor source Hne s p. unfold discard_zone.
  unfold bind at 1. unfold read_actor at 1.
  destruct (nth_error (players s) actor) as [x|] eqn:Ex; [|reflexivity].
  unfold bind at 1. unfold read_zone at 1.
  destruct (lookup_zone source s) as [src|] eqn:Es; [|reflexivity].
  unfold bind at 1. unfold read_zone at 1.
  rewrite (lookup_actor_zone _ ZDISCARD _ _ Ex). cbn [actor_zone].
  rewrite bind_write_zone. unfold write_zone, modify. cbn [snd].
  pose proof (occ_store p _ _ (DISCARD x ++ src) s
                (lookup_actor_zone _ ZDISCARD _ _ Ex)) as O1.
  cbn [actor_zone] in O1.
  assert (H1 : lookup_zone source
                 (store_zone (zone_of actor ZDISCARD) (DISCARD x ++ src) s)
               = Some src).
  { rewrite lookup_store_other by congruence. exact Es. }
  pose proof (occ_store p _ _ [] _ H1) as O2.
  rewrite cnt_app in O1. rewrite cnt_nil in O2. lia.
Qed.

Lemma occ_set_np_random : forall p d s, occ p (set_np_random d s) = occ p s.
Proof. reflexivity. Qed.

Lemma conserves_replenish_deck : forall actor, conserves (replenish_deck actor).
Proof.
  intros actor s p.
  destruct (nth_error (players s) actor) as [x|] eqn:Ex.
  - rewrite (replenish_deck_run _ _ _ Ex). cbn [snd].
    rewrite occ_set_np_random.
    match goal with |- occ p (put_actor actor ?y s) = _ =>
      pose proof (occ_put_actor p actor x y s Ex) as O end.
    unfold actor_pieces in O. cbn [HAND DECK DISCARD PLAY ASIDE] in O.
    rewrite !cnt_app in O. rewrite cnt_nil in O.
    rewrite <- (cnt_Permutation p _ _
                  (shuffle_list_Permutation (List.length (DISCARD x))
                     (np_random s) (DISCARD x))) in O.
    lia.
  - unfold replenish_deck, bind, read_zone. simpl. rewrite Ex. reflexivity.
Qed.

Lemma conserves_prepare_deck : forall actor n, conserves (prepare_deck actor n).
Proof.
  intros actor n. unfold prepare_deck, validate_deck_size.
  apply conserves_bind.
  - apply conserves_bind; [apply conserves_read_zone|].
    intros. apply conserves_ret.
  - intros [|]; simpl.
    + apply conserves_ret.
    + apply conserves_bind; [apply conserves_read_zone|].
      intros [|? ?]; [apply conserves_ret | apply conserves_replenish_deck].
Qed.

Lemma conserves_draw : forall actor n, conserves (draw actor n).
Proof.
  intros actor n. unfold draw.
  apply conserves_bind; [apply conserves_prepare_deck|]. intros _.
  apply conserves_bind; [apply conserves_read_zone|]. intros deck.
  apply conserves_bind.
  - apply conserves_for_each. intros. apply conserves_transfer_top_piece.
  - intros _. apply conserves_bind; [apply conserves_read_zone|].
    intros. apply conserves_ret.
Qed.

Ltac conserve :=
  repeat first
    [ apply conserves_ret | apply conserves_raise
    | apply conserves_out_of_fuel | apply conserves_lift
    | apply conserves_get | apply conserves_read_zone
    | apply conserves_read_actor | apply conserves_read_immunity
    | apply conserves_transfer_piece | apply conserves_transfer_top_piece
    | apply conserves_discard_piece | apply conserves_discard_pieces
    | apply conserves_replenish_deck | apply conserves_prepare_deck
    | apply conserves_draw
    | apply conserves_modify; intros; reflexivity
    | apply conserves_for_each; intros
    | apply conserves_bind; [|intros ?]
    | match goal with
      | |- conserves (match ?x with _ => _ end) => destruct x
      end ].

Lemma conserves_end_phase : forall actor phase,
  conserves (end_phase actor phase).
Proof. intros actor phase. unfold end_phase. conserve. Qed.

Lemma conserves_add_silver : conserves add_silver.
Proof. unfold add_silver, add_coin. conserve. Qed.

Lemma conserves_handle_acquisition : forall player piece destination,
  conserves (handle_acquisition player piece destination).
Proof. intros. unfold handle_acquisition. conserve. Qed.

Lemma conserves_buy_piece : forall actor piece destination,
  conserves (buy_piece actor piece destination).
Proof.
  intros. unfold buy_piece, pay_cost. conserve.
Qed.

Lemma conserves_write_immunity : forall self b,
  conserves (write_immunity self b).
Proof. intros. unfold write_immunity. conserve. Qed.

Lemma conserves_antecedent : forall process, conserves (antecedent process).
Proof.
  intros process. destruct process; cbn [antecedent];
    unfold Attack_antecedent; conserve.
Qed.

Lemma conserves_clear_internal_state : forall process,
  conserves (clear_internal_state process).
Proof.
  intros process. destruct process; cbn [clear_internal_state];
    first [apply conserves_write_immunity | apply conserves_ret].
Qed.

Lemma conserves_add_attacks : forall attack victims c,
  conserves (add_attacks attack victims c).
Proof.
  intros attack victims. induction victims as [|v r IH]; intros c.
  - apply conserves_ret.
  - simpl. unfold new_attack. conserve. apply IH.
Qed.

Lemma conserves_generate_choices : forall d actor,
  conserves (generate_choices d actor).
Proof.
  intros d actor. destruct d; cbn [generate_choices].
  all: try (unfold Decision_generate_choices,
      ImmunityProcedure_generate_choices, ActionChoices_generate_choices,
      TreasureChoices_generate_choices, BuyChoices_generate_choices,
      MineChoices_generate_choices, CellarChoices_generate_choices,
      CellarChoices_generate_human_choices,
      CellarChoices_generate_heuristic_choices,
      RemodelChoices_generate_choices,
      MilitiaVictimProcedure_generate_choices,
      WorkshopChoices_generate_choices, ChapelChoices_generate_choices,
      HarbingerChoices_generate_choices, VassalChoices_generate_choices,
      BureaucratProcedure_generate_choices,
      BureaucratProcedure_class_generate_choices,
      MoneylenderChoices_generate_choices,
      PoacherProcedure_generate_choices, PoacherChoices_generate_choices,
      ThroneRoomChoices_generate_choices, BanditProcedure_generate_choices,
      CouncilRoomProcedure_generate_choices,
      CouncilRoomChoices_generate_choices,
      LibraryProcedure_generate_choices, LibraryTeardown_generate_choices,
      LibraryChoices_generate_choices, SentryChoices_generate_choices,
      SentryChoices_generate_choices_in, lookup_global, engine_discard,
      WitchProcedure_generate_choices, ArtisanChoices_generate_choices,
      ArtisanChoices_generate_choices_in, engine_get_cards;
      conserve; fail).
  all: unfold MilitiaChoices_generate_choices,
      BureaucratChoices_generate_choices, BanditChoices_generate_choices,
      WitchChoices_generate_choices.
  all: conserve.
  all: apply conserves_add_attacks.
Qed.

(** ** What the Decisions build, and the conservation of pieces *)

Lemma yields_ret : forall A (Q : A -> Prop) a, Q a -> yields Q (ret a).
Proof. intros A Q a H s a' s' E. inversion E; subst. exact H. Qed.

Lemma yields_raise : forall A (Q : A -> Prop) e, yields Q (raise e).
Proof. intros A Q e s a s' E. discriminate. Qed.

Lemma yields_lift : forall A (Q : A -> Prop) (r : Res A),
  (forall a, r = Ok a -> Q a) -> yields Q (lift r).
Proof. intros A Q r H s a s' E. inversion E; subst. apply H. reflexivity. Qed.

Lemma yields_bind_post : forall A B (P : A -> Prop) (Q : B -> Prop)
    (m : M A) (k : A -> M B),
  yields P m -> (forall a, P a -> yields Q (k a)) -> yields Q (bind m k).
Proof.
  intros A B P Q m k Hm Hk s b s' E. unfold bind in E.
  destruct (m s) as [[a|e|] s1] eqn:Em; try discriminate.
  eapply Hk; [eapply Hm; exact Em | exact E].
Qed.

Lemma yields_bind : forall A B (Q : B -> Prop) (m : M A) (k : A -> M B),
  (forall a, yields Q (k a)) -> yields Q (bind m k).
Proof.
  intros A B Q m k Hk.
  apply yields_bind_post with (P := fun _ => True).
  - intros s a s' _. exact I.
  - intros a _. apply Hk.
Qed.

Lemma yields_bind_raise : forall A B (Q : B -> Prop) e (k : A -> M B),
  yields Q (bind (raise e) k).
Proof. intros A B Q e k s b s' E. discriminate. Qed.

Lemma Forall_map_intro : forall A B (Q : B -> Prop) (f : A -> B) l,
  (forall x, Q (f x)) -> Forall Q (map f l).
Proof.
  intros A B Q f l H. induction l as [|x l IH]; simpl; constructor; auto.
Qed.

Lemma Forall_concat_intro : forall A (Q : A -> Prop) (ls : list (list A)),
  Forall (Forall Q) ls -> Forall Q (List.concat ls).
Proof.
  intros A Q ls H. induction H as [|l ls Hl Hls IH]; simpl.
  - constructor.
  - apply Forall_app. split; assumption.
Qed.

Lemma Forall_insert_sorted : forall A (Q : A -> Prop) le x l,
  Q x -> Forall Q l -> Forall Q (insert_sorted le x l).
Proof.
  intros A Q le x l Hx H. induction H as [|y l Hy Hl IH]; simpl.
  - constructor; [exact Hx | constructor].
  - destruct (le x y); repeat constructor; assumption.
Qed.

Lemma Forall_sorted : forall A (Q : A -> Prop) le l,
  Forall Q l -> Forall Q (sorted le l).
Proof.
  intros A Q le l H. induction H as [|y l Hy Hl IH]; simpl.
  - constructor.
  - apply Forall_insert_sorted; assumption.
Qed.

Lemma res_map_Forall : forall A B (Q : B -> Prop) (f : A -> Res B) xs ys,
  (forall x y, f x = Ok y -> Q y) ->
  res_map f xs = Ok ys -> Forall Q ys.
Proof.
  intros A B Q f xs. induction xs as [|x r IH]; intros ys Hf H; simpl in H.
  - inversion H; subst. constructor.
  - destruct (f x) as [y|e|] eqn:E; simpl in H; try discriminate.
    destruct (res_map f r) as [ys'|e|] eqn:Er; simpl in H;
      try discriminate.
    inversion H; subst. constructor.
    + eapply Hf. exact E.
    + apply IH; [exact Hf | reflexivity].
Qed.

Lemma Acquisition_as_effects : forall cls effs c,
  Acquisition_as cls effs = Ok c -> effects c = effs.
Proof.
  intros cls effs c H. unfold Acquisition_as in H.
  destruct (item_at 0 effs) as [e|?|]; simpl in H; try discriminate.
  destruct (kwargs_piece e) as [p|?|]; simpl in H; try discriminate.
  inversion H; subst. reflexivity.
Qed.

Lemma DependentAcquisition_effects : forall effs c,
  DependentAcquisition effs = Ok c -> effects c = effs.
Proof.
  intros effs c H. unfold DependentAcquisition in H.
  destruct (Acquisition_as _ effs) as [c0|?|]; simpl in H; try discriminate.
  destruct (item_at 1 effs) as [e1|?|]; simpl in H; try discriminate.
  destruct (kwargs_piece e1) as [p1|?|]; simpl in H; try discriminate.
  destruct (item_at 0 effs) as [e0|?|]; simpl in H; try discriminate.
  destruct (kwargs_piece e0) as [p0|?|]; simpl in H; try discriminate.
  inversion H; subst. reflexivity.
Qed.

Lemma wf_Acquisition_as : forall cls effs c,
  Forall wf_effect effs -> Acquisition_as cls effs = Ok c -> wf_consequence c.
Proof.
  intros cls effs c Hw H. unfold wf_consequence.
  rewrite (Acquisition_as_effects _ _ _ H). exact Hw.
Qed.

Lemma wf_DependentAcquisition : forall effs c,
  Forall wf_effect effs -> DependentAcquisition effs = Ok c ->
  wf_consequence c.
Proof.
  intros effs c Hw H. unfold wf_consequence.
  rewrite (DependentAcquisition_effects _ _ H). exact Hw.
Qed.

Lemma wf_trash_then_gain : forall actor trashable gainables cs,
  trash_then_gain actor trashable gainables = Ok cs ->
  Forall wf_consequence cs.
Proof.
  intros actor trashable gainables cs H. unfold trash_then_gain in H.
  destruct gainables as [|g r].
  - inversion H; subst. repeat constructor.
  - eapply res_map_Forall; [|exact H].
    intros x y E. eapply wf_DependentAcquisition; [|exact E].
    repeat constructor.
Qed.

Lemma yields_add_attacks : forall attack victims c,
  wf_consequence c ->
  yields wf_consequence (add_attacks attack victims c).
Proof.
  intros attack victims. induction victims as [|v r IH]; intros c Hc.
  - apply yields_ret. exact Hc.
  - simpl. apply yields_bind. intros self. apply IH.
    unfold wf_consequence, add. simpl. apply Forall_app. split.
    + exact Hc.
    + repeat constructor.
Qed.

(** The leaves: a list of Consequences built from effects that are
    well-formed by their shape. *)
Ltac wf_leaf :=
  repeat first
    [ assumption
    | apply Forall_nil
    | apply Forall_cons
    | apply Forall_app; split
    | apply Forall_map_intro; intros
    | apply Forall_sorted
    | match goal with
      | |- context [let '(_, _) := ?x in _] => destruct x
      | |- Forall _ (match ?x with _ => _ end) => destruct x
      end
    | progress (unfold wf_consequence;
                cbn [effects new_Consequence PassOption NullOption Act add
                     set_custom_message])
    | exact I
    | (cbn [wf_effect]; congruence) ].

Ltac yield :=
  repeat first
    [ apply yields_raise
    | apply yields_bind_raise
    | apply yields_ret; wf_leaf
    | match goal with
      | |- yields _ (match ?x with _ => _ end) => destruct x
      end
    | apply yields_bind; intros ? ].

Lemma yields_generate_choices : forall d actor,
  yields (Forall wf_consequence) (generate_choices d actor).
Proof.
  intros d actor. destruct d; cbn [generate_choices].
  all: try (unfold Decision_generate_choices,
      ImmunityProcedure_generate_choices, ActionChoices_generate_choices,
      TreasureChoices_generate_choices, 
      CellarChoices_generate_choices,
      CellarChoices_generate_human_choices,
      CellarChoices_generate_heuristic_choices,
      MilitiaVictimProcedure_generate_choices,
      ChapelChoices_generate_choices,
      HarbingerChoices_generate_choices, VassalChoices_generate_choices,
      BureaucratProcedure_generate_choices,
      BureaucratProcedure_class_generate_choices,
      MoneylenderChoices_generate_choices,
      PoacherProcedure_generate_choices, PoacherChoices_generate_choices,
      ThroneRoomChoices_generate_choices, BanditProcedure_generate_choices,
      CouncilRoomProcedure_generate_choices,
      CouncilRoomChoices_generate_choices,
      LibraryProcedure_generate_choices, LibraryTeardown_generate_choices,
      LibraryChoices_generate_choices, SentryChoices_generate_choices,
      SentryChoices_generate_choices_in, lookup_global, engine_discard,
      WitchProcedure_generate_choices, ArtisanChoices_generate_choices,
      ArtisanChoices_generate_choices_in, engine_get_cards;
      yield; fail).
  - (* BuyChoices *)
    unfold BuyChoices_generate_choices. apply yields_bind. intros s.
    destruct (negb (Z.eqb (n_buy s) 0)); [|yield].
    apply yields_bind_post with (P := Forall wf_consequence).
    + apply yields_lift. intros a E. eapply res_map_Forall; [|exact E].
      intros x y Ey. eapply wf_Acquisition_as; [|exact Ey]. wf_leaf.
    + intros a Ha. yield.
  - (* MineChoices *)
    unfold MineChoices_generate_choices. apply yields_bind. intros s.
    apply yields_bind. intros x.
    apply yields_bind_post with (P := Forall (Forall wf_consequence)).
    + apply yields_lift. intros a E. eapply res_map_Forall; [|exact E].
      intros t cs Et. eapply wf_trash_then_gain. exact Et.
    + intros more Hm. apply yields_ret. apply Forall_app. split.
      * wf_leaf.
      * apply Forall_concat_intro. exact Hm.
  - (* CellarChoices *)
    unfold CellarChoices_generate_choices. apply yields_bind. intros x.
    destruct (String.eqb (actor_name x) "You").
    + apply yields_bind_post with (P := Forall wf_consequence).
      * unfold CellarChoices_generate_human_choices. yield.
      * intros more Hm. yield.
    + apply yields_bind_post with (P := Forall wf_consequence).
      * unfold CellarChoices_generate_heuristic_choices. yield.
      * intros more Hm. yield.
  - (* RemodelChoices *)
    unfold RemodelChoices_generate_choices. apply yields_bind. intros s.
    apply yields_bind. intros x.
    destruct (Combinatorics.get_pieces (HAND x) true None); [yield|].
    apply yields_bind_post with (P := Forall (Forall wf_consequence)).
    + apply yields_lift. intros a E. eapply res_map_Forall; [|exact E].
      intros t cs Et. eapply wf_trash_then_gain. exact Et.
    + intros more Hm. apply yields_ret.
      apply Forall_concat_intro. exact Hm.
  - (* MilitiaChoices *)
    unfold MilitiaChoices_generate_choices. apply yields_bind. intros s.
    apply yields_bind. intros x.
    apply yields_bind_post with (P := wf_consequence).
    + apply yields_add_attacks. wf_leaf.
    + intros c Hc. apply yields_ret. constructor; [exact Hc | constructor].
  - (* WorkshopChoices *)
    unfold WorkshopChoices_generate_choices. apply yields_bind. intros s.
    destruct (filter_supply _ s); [yield|].
    apply yields_lift. intros a E. eapply res_map_Forall; [|exact E].
    intros x y Ey. eapply wf_Acquisition_as; [|exact Ey]. wf_leaf.
  - (* BureaucratChoices *)
    unfold BureaucratChoices_generate_choices. apply yields_bind. intros s.
    apply yields_bind. intros x.
    apply yields_bind_post with (P := wf_consequence).
    + destruct (filter_supply _ s) as [|g r].
      * apply yields_ret. wf_leaf.
      * apply yields_lift. intros c E.
        destruct (last_item (g :: r)) as [piece|?|]; simpl in E;
          try discriminate.
        eapply wf_Acquisition_as; [|exact E]. wf_leaf.
    + intros c Hc.
      apply yields_bind_post with (P := wf_consequence).
      * apply yields_add_attacks. exact Hc.
      * intros c' Hc'. apply yields_ret. constructor; [exact Hc'|constructor].
  - (* BanditChoices *)
    unfold BanditChoices_generate_choices. apply yields_bind. intros s.
    apply yields_bind. intros x.
    apply yields_bind_post with (P := wf_consequence).
    + destruct (filter_supply _ s) as [|g r].
      * apply yields_ret. wf_leaf.
      * apply yields_lift. intros c E.
        destruct (last_item (g :: r)) as [piece|?|]; simpl in E;
          try discriminate.
        eapply wf_Acquisition_as; [|exact E]. wf_leaf.
    + intros c Hc.
      apply yields_bind_post with (P := wf_consequence).
      * apply yields_add_attacks. exact Hc.
      * intros c' Hc'. apply yields_ret. constructor; [exact Hc'|constructor].
  - (* WitchChoices *)
    unfold WitchChoices_generate_choices. apply yields_bind. intros s.
    apply yields_bind. intros x.
    apply yields_bind_post with (P := wf_consequence).
    + apply yields_add_attacks. wf_leaf.
    + intros c Hc. apply yields_ret. constructor; [exact Hc | constructor].
Qed.

Section Conservation.

Variable simple_effects : Piece -> option (list Effect).
Variable decision : Piece -> option Decision.
Variable select : nat -> list Consequence -> Decision -> State -> nat.

Hypothesis catalogue_wf : forall piece es,
  simple_effects piece = Some es -> Forall wf_effect es.

Lemma conserves_request_input : forall actor d decider,
  conserves (request_input select actor d decider).
Proof.
  intros. unfold request_input, expand_choices.
  apply conserves_bind; [apply conserves_generate_choices|].
  intros choices. conserve.
Qed.

Lemma yields_request_input : forall actor d decider,
  yields wf_consequence (request_input select actor d decider).
Proof.
  intros. unfold request_input, expand_choices.
  apply yields_bind_post with (P := Forall wf_consequence);
    [apply yields_generate_choices|].
  intros choices Hc. apply yields_bind. intros s.
  destruct choices as [|c r]; [apply yields_raise|].
  apply yields_ret.
  apply (proj1 (Forall_forall _ _) Hc). apply nth_In.
  apply Nat.mod_upper_bound. simpl. discriminate.
Qed.

Lemma conserves_apply_effect : forall fuel e,
  wf_effect e ->
  conserves (apply_effect simple_effects decision select fuel e).
Proof.
  induction fuel as [|fuel IH]; intros e He.
  - apply conserves_out_of_fuel.
  - assert (Henact : forall es, Forall wf_effect es ->
              conserves (enact simple_effects decision select fuel es)).
    { intros es Hes. unfold enact. apply conserves_for_each.
      intros x Hx. apply IH. apply (proj1 (Forall_forall _ _) Hes x Hx). }
    assert (Hresolve : forall actor d decider,
              conserves (resolve_with simple_effects decision select fuel
                           actor d decider)).
    { intros. unfold resolve_with.
      apply conserves_bind_post with (Q := wf_consequence).
      - apply conserves_request_input.
      - apply yields_request_input.
      - intros c Hc. apply Henact. exact Hc. }
    assert (Hre : forall actor piece,
              conserves (resolve_effects_with simple_effects decision select
                           fuel actor piece)).
    { intros. unfold resolve_effects_with. apply conserves_bind.
      - destruct (simple_effects piece) as [es|] eqn:E.
        + apply Henact. eapply catalogue_wf. exact E.
        + apply conserves_ret.
      - intros _. destruct (decision piece); [apply Hresolve|].
        apply conserves_ret. }
    destruct e;
      try (cbn [apply_effect];
           first [ apply conserves_end_phase | apply conserves_add_silver
                 | apply conserves_buy_piece
                 | apply conserves_handle_acquisition
                 | apply conserves_write_immunity
                 | apply conserves_discard_zone; exact He
                 | unfold gain, trash, trash_pieces, reveal, put, set_aside,
                     topdeck, do_nothing, add_card, add_action, add_buy,
                     add_coin, add_merchant_silver_bonus; conserve ]; fail).
    + (* play_piece *)
      rewrite apply_effect_play_piece.
      apply conserves_bind; [destruct (negb free); conserve|]. intros _.
      apply conserves_bind; [apply conserves_transfer_piece|]. intros _.
      apply Hre.
    + (* play_treasures *)
      rewrite apply_effect_play_treasures.
      apply conserves_bind; [|intros _; apply conserves_end_phase].
      apply conserves_for_each. intros x _.
      apply conserves_bind; [apply conserves_transfer_piece|]. intros _.
      apply Hre.
    + (* swap *) destruct He.
    + (* resolve_effects *)
      rewrite apply_effect_resolve_effects. apply Hre.
    + (* Initiate *)
      rewrite apply_effect_Initiate. apply Hresolve.
    + (* Process *)
      rewrite apply_effect_Call.
      assert (Hi : forall e, (exists a d, e = Initiate a d None) ->
                conserves (apply_effect simple_effects decision select
                             fuel e)).
      { intros e [a [d ->]]. apply IH. exact I. }
      apply conserves_bind.
      * destruct process; cbn [setup_effect];
          first [apply Hi; eauto | apply conserves_ret].
      * intros _. apply conserves_bind.
        -- apply conserves_while; [apply conserves_antecedent|].
           apply Hi. destruct process; cbn [main_effect]; eauto.
        -- intros _. apply conserves_bind.
           ++ destruct process; cbn [teardown_effect];
                first [apply Hi; eauto | apply conserves_ret].
           ++ intros _. apply conserves_clear_internal_state.
Qed.

End Conservation.

(** ** Attacks without an antecedent of their own *)

Lemma keeps_ret : forall A (a : A), keeps_immunity (ret a).
Proof. intros A a s. reflexivity. Qed.

Lemma keeps_raise : forall A e, keeps_immunity (@raise A e).
Proof. intros A e s. reflexivity. Qed.

Lemma keeps_out_of_fuel : forall A, keeps_immunity (@out_of_fuel A).
Proof. intros A s. reflexivity. Qed.

Lemma keeps_get : keeps_immunity get.
Proof. intros s. reflexivity. Qed.

Lemma keeps_read_zone : forall r, keeps_immunity (read_zone r).
Proof.
  intros r s. unfold read_zone. destruct (lookup_zone r s); reflexivity.
Qed.

Lemma keeps_read_actor : forall a, keeps_immunity (read_actor a).
Proof.
  intros a s. unfold read_actor.
  destruct (nth_error (players s) a); reflexivity.
Qed.

Lemma keeps_write_zone : forall r l, keeps_immunity (write_zone r l).
Proof. intros r l s. destruct r; reflexivity. Qed.

Lemma keeps_modify : forall f,
  (forall s, attack_immunity (f s) = attack_immunity s) ->
  keeps_immunity (modify f).
Proof. intros f H s. simpl. apply H. Qed.

Lemma keeps_bind : forall A B (m : M A) (k : A -> M B),
  keeps_immunity m -> (forall a, keeps_immunity (k a)) ->
  keeps_immunity (bind m k).
Proof.
  intros A B m k Hm Hk s. unfold bind. specialize (Hm s).
  destruct (m s) as [[a|e|] s']; simpl in *; try exact Hm.
  rewrite <- Hm. apply Hk.
Qed.

Lemma keeps_bind_post : forall A B (m : M A) (k : A -> M B) (Q : A -> Prop),
  keeps_immunity m -> yields Q m ->
  (forall a, Q a -> keeps_immunity (k a)) ->
  keeps_immunity (bind m k).
Proof.
  intros A B m k Q Hm HQ Hk s. unfold bind. specialize (Hm s).
  destruct (m s) as [[a|e|] s'] eqn:E; simpl in *; try exact Hm.
  rewrite <- Hm. apply Hk. eapply HQ. exact E.
Qed.

Lemma keeps_for_each : forall A (xs : list A) (body : A -> M unit),
  (forall x, In x xs -> keeps_immunity (body x)) ->
  keeps_immunity (for_each xs body).
Proof.
  intros A xs body. induction xs as [|x r IH]; intros H.
  - apply keeps_ret.
  - simpl. apply keeps_bind.
    + apply H. left. reflexivity.
    + intros _. apply IH. intros y Hy. apply H. right. exact Hy.
Qed.

Ltac keep :=
  repeat first
    [ apply keeps_ret | apply keeps_raise | apply keeps_out_of_fuel
    | apply keeps_get | apply keeps_read_zone | apply keeps_read_actor
    | apply keeps_write_zone
    | apply keeps_modify; intros; reflexivity
    | apply keeps_for_each; intros
    | apply keeps_bind; [|intros ?]
    | match goal with
      | |- keeps_immunity (match ?x with _ => _ end) => destruct x
      end ].

Lemma keeps_prepare_deck : forall actor n,
  keeps_immunity (prepare_deck actor n).
Proof.
  intros. unfold prepare_deck, validate_deck_size, replenish_deck, shuffle.
  keep.
Qed.

Lemma keeps_transfer_piece : forall piece destination source,
  keeps_immunity (transfer_piece piece destination source).
Proof. intros. unfold transfer_piece. keep. Qed.

Lemma keeps_discard_piece : forall actor piece source,
  keeps_immunity (discard_piece actor piece source).
Proof. intros. unfold discard_piece. keep. Qed.

Lemma keeps_discard_pieces : forall actor pieces source,
  keeps_immunity (discard_pieces actor pieces source).
Proof. intros. unfold discard_pieces. keep. Qed.

(** A loop whose condition holds wherever its body leaves the State does
    not return. *)
Lemma while_never_Ok : forall (Inv : State -> Prop) cond body,
  (forall s, Inv s -> cond s = (Ok true, s)) ->
  (forall s, Inv s -> Inv (snd (body s))) ->
  forall fuel s n, Inv s -> fst (while_ fuel cond body s) <> Ok n.
Proof.
  intros Inv cond body Hc Hb. induction fuel as [|fuel IH]; intros s n Hs.
  - discriminate.
  - cbn [while_]. erewrite bind_Ok by (apply Hc; exact Hs). cbv beta iota.
    unfold bind at 1. pose proof (Hb s Hs) as Hs1.
    destruct (body s) as [[[]|e|] s1]; cbn [snd] in Hs1; try discriminate.
    unfold bind. specialize (IH s1).
    destruct (while_ fuel cond body s1) as [[k|e|] s2]; try discriminate.
    exfalso. apply (IH k Hs1). reflexivity.
Qed.

Section PlainAttacks.

Variable simple_effects : Piece -> option (list Effect).
Variable decision : Piece -> option Decision.
Variable select : nat -> list Consequence -> Decision -> State -> nat.

Lemma keeps_reveal_trash_or_discard : forall fuel e,
  reveal_trash_or_discard e ->
  keeps_immunity (apply_effect simple_effects decision select fuel e).
Proof.
  intros [|fuel] e He; [apply keeps_out_of_fuel|].
  destruct e; try contradiction; cbn [apply_effect].
  - apply keeps_ret.
  - unfold trash. apply keeps_transfer_piece.
  - apply keeps_ret.
  - apply keeps_discard_piece.
  - apply keeps_discard_pieces.
Qed.

Lemma yields_BanditProcedure : forall actor,
  yields (Forall (fun c => Forall reveal_trash_or_discard (effects c)))
    (generate_choices BanditProcedure actor).
Proof.
  intros actor. cbn [generate_choices].
  unfold BanditProcedure_generate_choices.
  repeat first
    [ apply yields_raise
    | match goal with
      | |- yields _ (match ?x with _ => _ end) => destruct x
      end
    | apply yields_bind; intros ?
    | apply yields_ret;
      repeat first
        [ apply Forall_nil | apply Forall_cons | apply Forall_app; split
        | apply Forall_map_intro; intros
        | match goal with
          | |- context [let '(_, _) := ?x in _] => destruct x
          end
        | progress cbn [effects new_Consequence NullOption add]
        | exact I ] ].
Qed.

(** The main effect of a plain attack leaves the immunity as it is. *)
Lemma keeps_plain_attack_main : forall fuel process actor self,
  In process (plain_attacks actor self) ->
  keeps_immunity
    (apply_effect simple_effects decision select fuel (main_effect process)).
Proof.
  intros [|fuel] process actor self Hp; [apply keeps_out_of_fuel|].
  destruct Hp as [<-|[<-|[<-|[]]]]; cbn [main_effect];
    rewrite apply_effect_Initiate; unfold resolve_with, request_input,
      expand_choices.
  - (* Bureaucrat: the class is not a Decision object *)
    cbn [generate_choices].
    unfold BureaucratProcedure_class_generate_choices.
    apply keeps_bind_post with (Q := fun _ => False).
    + keep.
    + apply yields_bind_raise.
    + intros c [].
  - (* Bandit *)
    apply keeps_bind_post
      with (Q := fun c => Forall reveal_trash_or_discard (effects c)).
    + apply keeps_bind.
      * cbn [generate_choices]. unfold BanditProcedure_generate_choices.
        apply keeps_bind; [apply keeps_prepare_deck|]. intros _. keep.
      * intros choices. keep.
    + apply yields_bind_post
        with (P := Forall (fun c =>
                             Forall reveal_trash_or_discard (effects c))).
      * apply yields_BanditProcedure.
      * intros choices Hc. apply yields_bind. intros s.
        destruct choices as [|c r]; [apply yields_raise|].
        apply yields_ret.
        apply (proj1 (Forall_forall _ _) Hc). apply nth_In.
        apply Nat.mod_upper_bound. simpl. discriminate.
    + intros c Hc. unfold enact. apply keeps_for_each.
      intros e He. apply keeps_reveal_trash_or_discard.
      apply (proj1 (Forall_forall _ _) Hc e He).
  - (* Witch *)
    cbn [generate_choices]. unfold WitchProcedure_generate_choices.
    apply keeps_bind_post with (Q := fun _ => False).
    + keep.
    + apply yields_bind_post with (P := fun _ => False).
      * apply yields_bind. intros s.
        destruct (filter_supply _ s); apply yields_raise.
      * intros choices [].
    + intros c [].
Qed.

Lemma setup_without_Moat : forall fuel actor self x s,
  nth_error (players s) actor = Some x ->
  Combinatorics.get_pieces (HAND x) true (Some is_Moat) = [] ->
  snd (apply_effect simple_effects decision select fuel
         (Initiate actor (ImmunityProcedure self) None) s) = s.
Proof.
  intros [|fuel] actor self x s Hx Hm; [reflexivity|].
  rewrite apply_effect_Initiate. unfold resolve_with, request_input.
  unfold expand_choices. cbn [generate_choices].
  unfold ImmunityProcedure_generate_choices. steps.
  fold is_Moat. rewrite Hm. steps.
  cbn [List.length]. rewrite Nat.mod_1_r. cbn [nth].
  unfold enact. cbn [effects NullOption for_each].
  destruct fuel; reflexivity.
Qed.

(** X3. An attack of a class without an antecedent of its own
    (BureaucratAttack, BanditAttack, WitchAttack), on a victim who holds
    no Moat, never returns: the only ways out of its loop are an
    exception and the exhaustion of the fuel. *)
Lemma plain_attack_never_returns : forall fuel process actor self x s u,
  In process (plain_attacks actor self) ->
  nth_error (players s) actor = Some x ->
  nth_error (attack_immunity s) self = Some false ->
  Combinatorics.get_pieces (HAND x) true (Some is_Moat) = [] ->
  fst (apply_effect simple_effects decision select fuel (Call process) s)
  <> Ok u.
Proof.
  intros [|fuel] process actor self x s u Hp Hx Hi Hm; [discriminate|].
  rewrite apply_effect_Call.
  assert (Hs : setup_effect process
               = Some (Initiate actor (ImmunityProcedure self) None)).
  { destruct Hp as [<-|[<-|[<-|[]]]]; reflexivity. }
  rewrite Hs. unfold bind at 1.
  pose proof (setup_without_Moat fuel actor self x s Hx Hm) as E.
  destruct (apply_effect simple_effects decision select fuel
              (Initiate actor (ImmunityProcedure self) None) s)
    as [[[]|e|] s1]; cbn [snd] in E; subst s1; try discriminate.
  assert (Hc : forall s', nth_error (attack_immunity s') self = Some false ->
                 antecedent process s' = (Ok true, s')).
  { intros s' H. destruct Hp as [<-|[<-|[<-|[]]]]; cbn [antecedent];
      unfold Attack_antecedent;
      erewrite bind_Ok by (eapply read_immunity_Ok; exact H); reflexivity. }
  assert (Hb : forall s', nth_error (attack_immunity s') self = Some false ->
                 nth_error
                   (attack_immunity
                      (snd (apply_effect simple_effects decision select fuel
                              (main_effect process) s'))) self
                 = Some false).
  { intros s' H.
    rewrite (keeps_plain_attack_main fuel process actor self Hp s').
    exact H. }
  pose proof (while_never_Ok
                (fun s' => nth_error (attack_immunity s') self = Some false)
                (antecedent process)
                (apply_effect simple_effects decision select fuel
                   (main_effect process)) Hc Hb fuel s) as W.
  unfold bind at 1.
  destruct (while_ fuel (antecedent process)
              (apply_effect simple_effects decision select fuel
                 (main_effect process)) s) as [[n|e|] s2];
    try discriminate.
  exfalso. apply (W n Hi). reflexivity.
Qed.

End PlainAttacks.

(** Bob, without a Moat, under a WitchAttack. *)
Lemma plain_attack_never_returns_witness :
  In (WitchAttack 1 0) (plain_attacks 1 0)
  /\ fst (apply_effect Sample.no_simple_effects Sample.no_decision
            Sample.first_choice 9 (Call (WitchAttack 1 0))
            WitchSample.no_moat) <> Ok tt.
Proof.
  split.
  - right. right. left. reflexivity.
  - apply (plain_attack_never_returns Sample.no_simple_effects
             Sample.no_decision Sample.first_choice 9 (WitchAttack 1 0) 1 0
             WitchSample.bob WitchSample.no_moat tt).
    + right. right. left. reflexivity.
    + reflexivity.
    + reflexivity.
    + reflexivity.
Defined.

(** ** Decisions that do offer a choice *)

Lemma res_map_nonempty : forall A B (f : A -> Res B) x r ys,
  res_map f (x :: r) = Ok ys -> ys <> [].
Proof.
  intros A B f x r ys H. simpl in H.
  destruct (f x); simpl in H; try discriminate.
  destruct (res_map f r); simpl in H; try discriminate.
  inversion H. discriminate.
Qed.

Lemma trash_then_gain_nonempty : forall actor trashable gainables cs,
  trash_then_gain actor trashable gainables = Ok cs -> cs <> [].
Proof.
  intros actor trashable gainables cs H. unfold trash_then_gain in H.
  destruct gainables as [|g r].
  - inversion H. discriminate.
  - eapply res_map_nonempty. exact H.
Qed.

Lemma concat_res_map_nonempty : forall A B (f : A -> Res (list B)) x r ys,
  (forall a bs, f a = Ok bs -> bs <> []) ->
  res_map f (x :: r) = Ok ys -> List.concat ys <> [].
Proof.
  intros A B f x r ys Hf H. simpl in H.
  destruct (f x) as [bs|?|] eqn:E; simpl in H; try discriminate.
  destruct (res_map f r); simpl in H; try discriminate.
  inversion H; subst. simpl. apply Hf in E.
  destruct bs; [congruence | discriminate].
Qed.

Lemma yields_add_attacks_any : forall attack victims c,
  yields (fun _ => True) (add_attacks attack victims c).
Proof. intros attack victims c s a s' _. exact I. Qed.

Ltac nonempty_leaf :=
  first [ discriminate
        | cbn [app map]; discriminate ].

Ltac nonempty :=
  repeat first
    [ apply yields_raise
    | apply yields_bind_raise
    | apply yields_ret; nonempty_leaf
    | match goal with
      | |- yields _ (match ?x with _ => _ end) => destruct x
      end
    | apply yields_bind; intros ? ].

(** X5. No Decision other than the base class and MilitiaVictimProcedure
    ever returns an empty list of choices: whenever generate_choices
    returns, it offers a choice. *)
Lemma generate_choices_nonempty : forall d actor,
  d <> Decision_base -> d <> MilitiaVictimProcedure ->
  yields (fun choices => choices <> []) (generate_choices d actor).
Proof.
  intros d actor H1 H2. destruct d; try congruence; cbn [generate_choices].
  all: try (unfold 
      ImmunityProcedure_generate_choices, ActionChoices_generate_choices,
      TreasureChoices_generate_choices, BuyChoices_generate_choices,
      MineChoices_generate_choices,
      CellarChoices_generate_choices,
      MilitiaChoices_generate_choices,
      ChapelChoices_generate_choices,
      HarbingerChoices_generate_choices, VassalChoices_generate_choices,
      BureaucratProcedure_generate_choices,
      BureaucratProcedure_class_generate_choices,
      BureaucratChoices_generate_choices,
      MoneylenderChoices_generate_choices,
      PoacherProcedure_generate_choices, PoacherChoices_generate_choices,
      ThroneRoomChoices_generate_choices, BanditProcedure_generate_choices,
      BanditChoices_generate_choices,
      CouncilRoomProcedure_generate_choices,
      CouncilRoomChoices_generate_choices,
      LibraryProcedure_generate_choices, LibraryTeardown_generate_choices,
      LibraryChoices_generate_choices, SentryChoices_generate_choices,
      SentryChoices_generate_choices_in, lookup_global, engine_discard,
      WitchProcedure_generate_choices, WitchChoices_generate_choices,
      ArtisanChoices_generate_choices,
      ArtisanChoices_generate_choices_in, engine_get_cards;
      nonempty; fail).
  - (* RemodelChoices *)
    unfold RemodelChoices_generate_choices. apply yields_bind. intros s.
    apply yields_bind. intros x.
    destruct (Combinatorics.get_pieces (HAND x) true None) as [|t ts];
      [nonempty|].
    apply yields_bind_post with (P := fun more => List.concat more <> []).
    + apply yields_lift. intros more E.
      eapply concat_res_map_nonempty; [|exact E].
      intros a bs Ea. eapply trash_then_gain_nonempty. exact Ea.
    + intros more Hm. apply yields_ret. exact Hm.
  - (* WorkshopChoices *)
    unfold WorkshopChoices_generate_choices. apply yields_bind. intros s.
    destruct (filter_supply _ s) as [|g r]; [nonempty|].
    apply yields_lift. intros cs E. eapply res_map_nonempty. exact E.
Qed.

Lemma generate_choices_nonempty_witness :
  CellarChoices <> Decision_base
  /\ CellarChoices <> MilitiaVictimProcedure
  /\ yields (fun choices => choices <> []) (generate_choices CellarChoices 0).
Proof.
  repeat split; try discriminate.
  apply (generate_choices_nonempty CellarChoices 0); discriminate.
Defined.

(** X4. MilitiaVictimProcedure returns a non-empty list of choices, and
    leaves the State as it is, when the hand is not empty, as it is
    whenever MilitiaAttack asks. *)
Lemma MilitiaVictimProcedure_nonempty : forall actor x s,
  nth_error (players s) actor = Some x ->
  HAND x <> [] ->
  exists c choices,
    generate_choices MilitiaVictimProcedure actor s = (Ok (c :: choices), s).
Proof.
  intros actor x s Hx Hne. cbn [generate_choices].
  unfold MilitiaVictimProcedure_generate_choices. step.
  destruct (HAND x) as [|h hs]; [congruence|].
  destruct (get_pieces_all_nonempty h hs) as [u [us Eu]]. rewrite Eu.
  eexists. eexists. reflexivity.
Qed.

Lemma MilitiaVictimProcedure_nonempty_witness :
  exists c choices,
    generate_choices MilitiaVictimProcedure 2 CatalogueSample.three_players
    = (Ok (c :: choices), CatalogueSample.three_players).
Proof.
  apply (MilitiaVictimProcedure_nonempty 2 CatalogueSample.carol
           CatalogueSample.three_players).
  - reflexivity.
  - discriminate.
Defined.

(** ** Conservation *)

Lemma Permutation_of_occ : forall s s',
  (forall p, occ p s' = occ p s) -> Permutation (all_pieces s') (all_pieces s).
Proof.
  intros s s' H. apply (Permutation_count_occ Piece_eq_dec). intros p.
  apply H.
Qed.

(** The swap of the two top cards, which SentryChoices builds for a deck
    of at least two cards, conserves the pieces of such a deck. *)
Lemma conserves_swap_top_cards_of_deck : forall actor x s rest second top,
  nth_error (players s) actor = Some x ->
  DECK x = rest ++ [second; top] ->
  swap_top_cards_of_deck actor s
  = (Ok tt,
     put_actor actor (set_actor_zone ZDECK (rest ++ [top; second]) x) s).
Proof.
  intros actor x s rest second top Hx Hd. unfold swap_top_cards_of_deck.
  step. rewrite Hd, pop_app2. do 2 step. rewrite pop_app. step. step.
  erewrite write_zone_actor by solve_actor.
  rewrite !put_actor_put_actor. reflexivity.
Qed.

(** On a deck of one card the card has left the deck when the second pop
    raises. *)
Lemma swap_top_cards_of_deck_one : forall actor x s c,
  nth_error (players s) actor = Some x ->
  DECK x = [c] ->
  swap_top_cards_of_deck actor s
  = (Raise IndexError, put_actor actor (set_actor_zone ZDECK [] x) s).
Proof.
  intros actor x s c Hx Hd. unfold swap_top_cards_of_deck.
  step. rewrite Hd. change (pop [c]) with (Some (c, @nil Piece)).
  cbv iota beta. steps. reflexivity.
Qed.

Lemma two_last : forall A (l : list A),
  2 <= List.length l -> exists rest a b, l = rest ++ [a; b].
Proof.
  intros A l H.
  destruct (@exists_last A l) as [l1 [b E1]].
  { intros E. subst l. simpl in H. lia. }
  subst l. rewrite length_app in H. simpl in H.
  destruct (@exists_last A l1) as [rest [a E2]].
  { intros E. subst l1. simpl in H. lia. }
  subst l1. exists rest, a, b. rewrite <- app_assoc. reflexivity.
Qed.

Lemma conserves_swap_at : forall actor s,
  conserving (Effect_swap_top_cards_of_deck actor) s = true ->
  forall p, occ p (snd (swap_top_cards_of_deck actor s)) = occ p s.
Proof.
  intros actor s H p. cbn [conserving] in H.
  destruct (nth_error (players s) actor) as [x|] eqn:Ex.
  - destruct (DECK x) as [|c [|c' r]] eqn:Ed.
    + unfold swap_top_cards_of_deck. step. rewrite Ed. reflexivity.
    + discriminate H.
    + destruct (two_last _ (c :: c' :: r)) as [rest [a [b E]]];
        [simpl; lia|].
      rewrite E in Ed.
      rewrite (conserves_swap_top_cards_of_deck _ _ _ _ _ _ Ex Ed).
      cbn [snd].
      pose proof (occ_put_actor p actor x
                    (set_actor_zone ZDECK (rest ++ [b; a]) x) s Ex) as O.
      pose proof (cnt_actor_pieces_set p ZDECK (rest ++ [b; a]) x) as C.
      cbn [actor_zone] in C. rewrite Ed in C.
      assert (P : cnt p (rest ++ [a; b]) = cnt p (rest ++ [b; a])).
      { apply cnt_Permutation. apply Permutation_app_head. constructor. }
      lia.
  - unfold swap_top_cards_of_deck, bind, read_zone. simpl. rewrite Ex.
    reflexivity.
Qed.

(** The discard pile that [discard_zone] has discarded into itself is
    empty. *)
Lemma discard_zone_own_occ : forall actor x s p,
  nth_error (players s) actor = Some x ->
  occ p (snd (discard_zone actor (zone_of actor ZDISCARD) s))
  + cnt p (DISCARD x)
  = occ p s.
Proof.
  intros actor x s p Hx. unfold discard_zone.
  pose proof (lookup_actor_zone actor ZDISCARD x s Hx) as L.
  cbn [actor_zone] in L.
  do 3 step. rewrite bind_write_zone. unfold write_zone, modify. cbn [snd].
  pose proof (occ_store p _ _ (DISCARD x ++ DISCARD x) s L) as O1.
  pose proof (lookup_store_same _ _ (DISCARD x ++ DISCARD x) s L) as L1.
  pose proof (occ_store p _ _ [] _ L1) as O2.
  rewrite cnt_app in O1, O2. rewrite cnt_nil in O2.
  unfold store_zone in O1, O2 |- *. lia.
Qed.

Lemma wf_effect_conserving : forall e s, wf_effect e -> conserving e s = true.
Proof.
  intros e s H. destruct e; try reflexivity.
  - cbn [conserving]. cbn [wf_effect] in H.
    destruct (ZoneRef_eq_dec source (zone_of actor ZDISCARD));
      [contradiction | reflexivity].
  - destruct H.
Qed.

Section ConservationAt.

Variable simple_effects : Piece -> option (list Effect).
Variable decision : Piece -> option Decision.
Variable select : nat -> list Consequence -> Decision -> State -> nat.

Hypothesis catalogue_wf : forall piece es,
  simple_effects piece = Some es -> Forall wf_effect es.

Lemma conserving_apply_effect : forall fuel e s,
  conserving e s = true ->
  forall p,
    occ p (snd (apply_effect simple_effects decision select fuel e s))
    = occ p s.
Proof.
  intros fuel e s H p. destruct fuel as [|fuel]; [reflexivity|].
  assert (W : wf_effect e ->
              occ p (snd (apply_effect simple_effects decision select
                            (S fuel) e s)) = occ p s).
  { intros He.
    apply (conserves_apply_effect simple_effects decision select
             catalogue_wf (S fuel) e He s p). }
  destruct e; try (apply W; exact I).
  - (* discard_zone *)
    destruct (ZoneRef_eq_dec source (zone_of actor ZDISCARD)) as [->|Hne];
      [|apply W; exact Hne].
    cbn [apply_effect]. cbn [conserving] in H.
    destruct (ZoneRef_eq_dec (zone_of actor ZDISCARD)
                (zone_of actor ZDISCARD)) as [_|N]; [|congruence].
    destruct (nth_error (players s) actor) as [x|] eqn:Ex.
    + pose proof (discard_zone_own_occ actor x s p Ex) as O.
      destruct (DISCARD x); [|discriminate]. rewrite cnt_nil in O. lia.
    + unfold discard_zone, bind, read_actor. rewrite Ex. reflexivity.
  - (* swap_top_cards_of_deck *)
    cbn [apply_effect]. apply conserves_swap_at. exact H.
Qed.

Lemma conserving_all_enact : forall fuel es s,
  conserving_all simple_effects decision select fuel es s = true ->
  forall p,
    occ p (snd (enact simple_effects decision select fuel es s)) = occ p s.
Proof.
  intros fuel es. unfold enact.
  induction es as [|e r IH]; intros s H p; [reflexivity|].
  cbn [conserving_all] in H. apply andb_true_iff in H. destruct H as [He Hr].
  pose proof (conserving_apply_effect fuel e s He p) as O.
  cbn [for_each]. unfold bind.
  destruct (apply_effect simple_effects decision select fuel e s)
    as [[[]|x|] s1]; cbn [snd] in O |- *; try exact O.
  rewrite <- O. apply IH. exact Hr.
Qed.

Lemma wf_conserving_all : forall fuel es s,
  Forall wf_effect es ->
  conserving_all simple_effects decision select fuel es s = true.
Proof.
  intros fuel es s H. revert s.
  induction H as [|e r He Hr IH]; intros s; [reflexivity|].
  cbn [conserving_all]. rewrite (wf_effect_conserving e s He).
  cbn [andb].
  destruct (apply_effect simple_effects decision select fuel e s)
    as [[[]|x|] s1]; auto.
Qed.

(** Where an effect does not conserve, a piece is destroyed. *)
Lemma not_conserving_destroys : forall fuel e s,
  conserving e s = false ->
  exists p,
    occ p (snd (apply_effect simple_effects decision select (S fuel) e s))
    < occ p s.
Proof.
  intros fuel e s H. destruct e; try discriminate; cbn [conserving] in H.
  - (* discard_zone *)
    destruct (ZoneRef_eq_dec source (zone_of actor ZDISCARD)) as [->|];
      [|discriminate].
    destruct (nth_error (players s) actor) as [x|] eqn:Ex; [|discriminate].
    destruct (DISCARD x) as [|c r] eqn:Ed; [discriminate|].
    exists c. cbn [apply_effect].
    pose proof (discard_zone_own_occ actor x s c Ex) as O.
    rewrite Ed in O. unfold cnt in O. rewrite count_occ_cons_eq in O
      by reflexivity.
    lia.
  - (* swap_top_cards_of_deck *)
    destruct (nth_error (players s) actor) as [x|] eqn:Ex; [|discriminate].
    destruct (DECK x) as [|c [|c' r]] eqn:Ed; try discriminate.
    exists c. cbn [apply_effect].
    rewrite (swap_top_cards_of_deck_one _ _ _ _ Ex Ed). cbn [snd].
    pose proof (occ_put_actor c actor x (set_actor_zone ZDECK [] x) s Ex)
      as O.
    pose proof (cnt_actor_pieces_set c ZDECK [] x) as C.
    cbn [actor_zone] in C. rewrite Ed in C.
    assert (E1 : cnt c [c] = 1).
    { unfold cnt. rewrite count_occ_cons_eq by reflexivity. reflexivity. }
    rewrite E1, cnt_nil in C. lia.
Qed.

End ConservationAt.


Lemma catalogue_sample_wf : forall piece es,
  CatalogueSample.simple_effects piece = Some es -> Forall wf_effect es.
Proof.
  intros piece es. unfold CatalogueSample.simple_effects.
  destruct (String.eqb (name piece) "Village");
    [intros E; inversion E; repeat constructor|].
  destruct (String.eqb (name piece) "Moat");
    [intros E; inversion E; repeat constructor|].
  destruct (String.eqb (name piece) "Militia");
    [intros E; inversion E; repeat constructor|].
  discriminate.
Defined.




(** Alice plays her Militia: Bob reveals his Moat and keeps his hand,
    Carol discards two Coppers and is left with three cards;
    the same pieces are in circulation. *)
Example play_Militia :
  let run :=
    apply_effect CatalogueSample.simple_effects CatalogueSample.decision
      Sample.first_choice 6
      (Effect_play_piece 0 (CatalogueSample.Militia 5) None false)
      CatalogueSample.three_players in
  fst run = Ok tt
  /\ option_map zones_of (nth_error (players (snd run)) 0)
     = Some ([Sample.Estate 1], [Sample.Copper 2],
             [Sample.Silver 3; Sample.Gold 4], [CatalogueSample.Militia 5],
             [])
  /\ option_map zones_of (nth_error (players (snd run)) 1)
     = Some (zones_of AttackSample.bob)
  /\ option_map zones_of (nth_error (players (snd run)) 2)
     = Some ([Sample.Estate 22; Sample.Silver 23; Sample.Village 24],
             [Sample.Copper 25], [Sample.Copper 20; Sample.Copper 21],
             [], [])
  /\ n_coin (snd run) = 2%Z
  /\ attack_immunity (snd run) = [false; false].
Proof. repeat split. Qed.

(** * Further properties of the engine *)

(** ** Moving one piece *)

Lemma take_piece_index : forall piece l,
  match index piece l with
  | Some i => pop_at i l
  | None => None
  end = take_piece piece l
  /\ (index piece l = None -> take_piece piece l = None).
Proof.
  intros piece l. induction l as [|x r [IH1 IH2]]; simpl.
  - split; reflexivity.
  - destruct (piece_is x piece).
    + split; [reflexivity | discriminate].
    + destruct (index piece r) as [i|].
      * simpl. rewrite IH1. split; [reflexivity | discriminate].
      * rewrite IH2 by reflexivity. split; reflexivity.
Qed.

Lemma index_Some_pop_at : forall piece l i,
  index piece l = Some i -> pop_at i l <> None.
Proof.
  intros piece l. induction l as [|x r IH]; simpl; intros i H.
  - discriminate.
  - destruct (piece_is x piece).
    + inversion H. simpl. discriminate.
    + destruct (index piece r) as [j|] eqn:E; [|discriminate].
      inversion H. specialize (IH j eq_refl). simpl.
      destruct (pop_at j r) as [[y r']|]; [discriminate | congruence].
Qed.

Lemma take_piece_split : forall piece l x rest,
  take_piece piece l = Some (x, rest) ->
  exists before after,
    l = before ++ x :: after /\ rest = before ++ after
    /\ piece_is x piece = true
    /\ Forall (fun y => piece_is y piece = false) before.
Proof.
  intros piece l. induction l as [|y r IH]; simpl; intros x rest H.
  - discriminate.
  - destruct (piece_is y piece) eqn:E.
    + inversion H; subst. exists [], rest. repeat split; auto.
    + destruct (take_piece piece r) as [[x' r']|]; [|discriminate].
      inversion H; subst.
      destruct (IH x r' eq_refl) as [b [a [H1 [H2 [H3 H4]]]]].
      exists (y :: b), a. subst. repeat split; auto.
Qed.

Lemma take_piece_None : forall piece l,
  take_piece piece l = None <-> Forall (fun y => piece_is y piece = false) l.
Proof.
  intros piece l. induction l as [|y r IH]; simpl.
  - split; auto.
  - destruct (piece_is y piece) eqn:E.
    + split; [discriminate|]. intros H. inversion H. congruence.
    + destruct (take_piece piece r) as [[x' r']|].
      * split; [discriminate|]. intros H. inversion H; subst.
        apply IH in H3. discriminate.
      * split; auto. intros _. constructor; [exact E | apply IH; reflexivity].
Qed.

Lemma take_piece_In : forall piece l,
  In piece l -> exists x rest, take_piece piece l = Some (x, rest).
Proof.
  intros piece l H.
  destruct (take_piece piece l) as [[x rest]|] eqn:E; [eauto|].
  apply take_piece_None in E. rewrite Forall_forall in E.
  specialize (E piece H). rewrite piece_is_refl in E. discriminate.
Qed.

Lemma transfer_piece_run : forall piece destination source s src dst,
  lookup_zone source s = Some src ->
  lookup_zone destination s = Some dst ->
  transfer_piece piece destination source s
  = match take_piece piece src with
    | None => (Raise ValueError, s)
    | Some (x, rest) =>
        (Ok tt,
         store_zone destination
           ((if ZoneRef_eq_dec source destination then rest else dst) ++ [x])
           (store_zone source rest s))
    end.
Proof.
  intros piece destination source s src dst Hs Hd.
  unfold transfer_piece.
  unfold bind at 1. unfold read_zone at 1. rewrite Hd.
  unfold bind at 1. unfold read_zone at 1. rewrite Hs.
  destruct (take_piece_index piece src) as [E1 E2].
  destruct (index piece src) as [i|] eqn:Ei.
  - rewrite <- E1. pose proof (index_Some_pop_at _ _ _ Ei) as Hn.
    destruct (pop_at i src) as [[x rest]|]; [|congruence].
    rewrite bind_write_zone.
    destruct (ZoneRef_eq_dec source destination) as [->|Hne].
    + unfold bind, read_zone.
      rewrite (lookup_store_same _ _ rest _ Hs). reflexivity.
    + unfold bind, read_zone.
      rewrite (lookup_store_other _ _ rest s Hne), Hd. reflexivity.
  - rewrite E2 by reflexivity. reflexivity.
Qed.

(** X6. transfer_piece moves the first instance of the source identical
    to the piece to the end of the destination and touches nothing else;
    when the source holds no such instance it raises ValueError and leaves
    the State as it is; when source and destination are the same list,
    the instance moves to the end of that list. *)
Theorem transfer_piece_spec : forall piece destination source s src dst,
  lookup_zone source s = Some src ->
  lookup_zone destination s = Some dst ->
  (Forall (fun y => piece_is y piece = false) src
   /\ transfer_piece piece destination source s = (Raise ValueError, s))
  \/ (exists before x after,
        src = before ++ x :: after
        /\ piece_is x piece = true
        /\ Forall (fun y => piece_is y piece = false) before
        /\ transfer_piece piece destination source s
           = (Ok tt,
              store_zone destination
                ((if ZoneRef_eq_dec source destination
                  then before ++ after else dst) ++ [x])
                (store_zone source (before ++ after) s))).
Proof.
  intros piece destination source s src dst Hs Hd.
  rewrite (transfer_piece_run piece destination source s src dst Hs Hd).
  destruct (take_piece piece src) as [[x rest]|] eqn:E.
  - right. destruct (take_piece_split _ _ _ _ E)
      as [before [after [E1 [E2 [E3 E4]]]]].
    exists before, x, after. subst rest. repeat split; assumption.
  - left. split; [|reflexivity]. apply take_piece_None. exact E.
Qed.

(** Alice puts the Gold of her discard pile into her hand; there is no
    Gold in her deck to take. *)
Lemma transfer_piece_spec_witness :
  ((Forall (fun y => piece_is y (Sample.Gold 4) = false)
      [Sample.Silver 3; Sample.Gold 4]
    /\ transfer_piece (Sample.Gold 4) (zone_of 0 ZHAND) (zone_of 0 ZDISCARD)
         Sample.solo = (Raise ValueError, Sample.solo))
   \/ (exists before x after,
         [Sample.Silver 3; Sample.Gold 4] = before ++ x :: after
         /\ piece_is x (Sample.Gold 4) = true
         /\ Forall (fun y => piece_is y (Sample.Gold 4) = false) before
         /\ transfer_piece (Sample.Gold 4) (zone_of 0 ZHAND)
              (zone_of 0 ZDISCARD) Sample.solo
            = (Ok tt,
               store_zone (zone_of 0 ZHAND)
                 ((if ZoneRef_eq_dec (zone_of 0 ZDISCARD) (zone_of 0 ZHAND)
                   then before ++ after else [Sample.Estate 1]) ++ [x])
                 (store_zone (zone_of 0 ZDISCARD) (before ++ after)
                    Sample.solo))))
  /\ transfer_piece (Sample.Gold 4) (zone_of 0 ZHAND) (zone_of 0 ZDISCARD)
       Sample.solo
     = (Ok tt,
        store_zone (zone_of 0 ZHAND) [Sample.Estate 1; Sample.Gold 4]
          (store_zone (zone_of 0 ZDISCARD) [Sample.Silver 3] Sample.solo)).
Proof.
  split; [|reflexivity].
  apply (transfer_piece_spec (Sample.Gold 4) (zone_of 0 ZHAND)
           (zone_of 0 ZDISCARD) Sample.solo
           [Sample.Silver 3; Sample.Gold 4] [Sample.Estate 1]);
    reflexivity.
Defined.

(** ** Swapping the two top cards of a deck *)

(** X7. swap_top_cards_of_deck exchanges the two top cards of a deck of
    at least two cards, so that swapping twice restores the State; on a
    deck of one card it raises IndexError after the card has left the
    deck, which is then empty; on an empty deck it raises IndexError and
    leaves the State as it is. *)
Theorem swap_top_cards_of_deck_spec : forall actor x s,
  nth_error (players s) actor = Some x ->
  swap_top_cards_of_deck actor s
  = match pop (DECK x) with
    | None => (Raise IndexError, s)
    | Some (top, below) =>
        match pop below with
        | None =>
            (Raise IndexError, put_actor actor (set_actor_zone ZDECK [] x) s)
        | Some (second, rest) =>
            (Ok tt,
             put_actor actor
               (set_actor_zone ZDECK (rest ++ [top; second]) x) s)
        end
    end
  /\ (2 <= List.length (DECK x) ->
      (swap_top_cards_of_deck actor ;; swap_top_cards_of_deck actor) s
      = (Ok tt, s)).
Proof.
  intros actor x s Hx. split.
  - unfold swap_top_cards_of_deck. step.
    destruct (pop (DECK x)) as [[top below]|] eqn:E1; [|reflexivity].
    steps. destruct (pop below) as [[second rest]|] eqn:E2.
    + steps. erewrite write_zone_actor by solve_actor.
      rewrite put_actor_put_actor. reflexivity.
    + apply pop_None in E2. subst below. reflexivity.
  - intros H2.
    destruct (pop (DECK x)) as [[top below]|] eqn:E1.
    2:{ apply pop_None in E1. rewrite E1 in H2. simpl in H2. lia. }
    apply pop_Some in E1.
    destruct (pop below) as [[second rest]|] eqn:E2.
    2:{ apply pop_None in E2. subst below. rewrite E1 in H2.
        simpl in H2. lia. }
    apply pop_Some in E2. subst below.
    rewrite <- app_assoc in E1. cbn [app] in E1.
    erewrite bind_Ok
      by (eapply conserves_swap_top_cards_of_deck; eassumption).
    erewrite conserves_swap_top_cards_of_deck;
      [| solve_actor | reflexivity].
    rewrite put_actor_put_actor. f_equal.
    transitivity (put_actor actor x s); [|apply put_actor_same; exact Hx].
    f_equal. clear Hx H2. destruct x. cbn in *. subst. reflexivity.
Qed.

(** Carol swaps the Gold and the Silver on top of her deck; Alice, whose
    deck is one Copper, loses it. *)
Lemma swap_top_cards_of_deck_spec_witness :
  (swap_top_cards_of_deck 0 SentrySample.two_top_cards
   = (Ok tt,
      put_actor 0
        (set_actor_zone ZDECK
           [Sample.Copper 20; Sample.Gold 22; Sample.Silver 21]
           SentrySample.carol) SentrySample.two_top_cards)
   /\ (swap_top_cards_of_deck 0 ;; swap_top_cards_of_deck 0)
        SentrySample.two_top_cards
      = (Ok tt, SentrySample.two_top_cards))
  /\ swap_top_cards_of_deck 0 Sample.solo
     = (Raise IndexError,
        put_actor 0 (set_actor_zone ZDECK [] Sample.alice) Sample.solo).
Proof.
  split.
  - destruct (swap_top_cards_of_deck_spec 0 SentrySample.carol
                SentrySample.two_top_cards eq_refl) as [H1 H2].
    split; [exact H1 | apply H2; simpl; lia].
  - apply (swap_top_cards_of_deck_spec 0 Sample.alice Sample.solo eq_refl).
Defined.

(** ** Discarding *)

Lemma partition_filter : forall A (f : A -> bool) l,
  Combinatorics.partition f l = (filter f l, filter (fun y => negb (f y)) l).
Proof.
  intros A f l. induction l as [|x r IH]; simpl.
  - reflexivity.
  - rewrite IH. destruct (f x); reflexivity.
Qed.

Lemma partition_ext : forall A (f g : A -> bool) l,
  (forall x, f x = g x) ->
  Combinatorics.partition f l = Combinatorics.partition g l.
Proof.
  intros A f g l H. induction l as [|x r IH]; simpl.
  - reflexivity.
  - rewrite IH, H. reflexivity.
Qed.

Lemma bind_ext : forall A B (m : M A) (k k' : A -> M B) s,
  (forall a s', k a s' = k' a s') -> bind m k s = bind m k' s.
Proof.
  intros A B m k k' s H. unfold bind.
  destruct (m s) as [[a|e|] s']; auto.
Qed.

Lemma piece_is_sym : forall x y, piece_is x y = piece_is y x.
Proof. intros x y. unfold piece_is. apply Nat.eqb_sym. Qed.

Lemma filter_none : forall A (f : A -> bool) l,
  filter f l = [] -> filter (fun y => negb (f y)) l = l.
Proof.
  intros A f l. induction l as [|x r IH]; simpl; intros H.
  - reflexivity.
  - destruct (f x); simpl in *; [discriminate|]. rewrite IH by exact H.
    reflexivity.
Qed.

Lemma set_actor_zone_same : forall z x,
  set_actor_zone z (actor_zone z x) x = x.
Proof. intros z x. destruct z, x; reflexivity. Qed.

Lemma discard_piece_run : forall actor x s piece z,
  nth_error (players s) actor = Some x ->
  discard_piece actor piece (Some (zone_of actor z)) s
  = (Ok tt,
     put_actor actor
       match z with
       | ZDISCARD =>
           set_actor_zone ZDISCARD
             (filter (fun y => negb (piece_is y piece)) (DISCARD x)
              ++ filter (fun y => piece_is y piece) (DISCARD x)) x
       | _ =>
           set_actor_zone ZDISCARD
             (DISCARD x ++ filter (fun y => piece_is y piece) (actor_zone z x))
             (set_actor_zone z
                (filter (fun y => negb (piece_is y piece)) (actor_zone z x))
                x)
       end s).
Proof.
  intros actor x s piece z Hx.
  unfold discard_piece. cbn [default_zone]. step. step.
  rewrite partition_filter.
  destruct z; steps; erewrite write_zone_actor by solve_actor;
    rewrite ?put_actor_put_actor; reflexivity.
Qed.

(** X8. discard_piece never raises: it moves every instance of the source
    identical to the piece to the end of the discard pile, keeping the
    order of the others; when the source holds no such instance it does
    nothing, where transfer_piece would raise.  The source defaults to the
    hand, and discard_pieces of the list of one piece does the same as
    discard_piece. *)
Theorem discard_piece_spec : forall actor x s piece z,
  nth_error (players s) actor = Some x ->
  let source := Some (zone_of actor z) in
  let gone := filter (fun y => piece_is y piece) (actor_zone z x) in
  let kept := filter (fun y => negb (piece_is y piece)) (actor_zone z x) in
  discard_piece actor piece source s
  = (Ok tt,
     put_actor actor
       match z with
       | ZDISCARD => set_actor_zone ZDISCARD (kept ++ gone) x
       | _ => set_actor_zone ZDISCARD (DISCARD x ++ gone)
                (set_actor_zone z kept x)
       end s)
  /\ (gone = [] -> discard_piece actor piece source s = (Ok tt, s))
  /\ discard_piece actor piece None s
     = discard_piece actor piece (Some (zone_of actor ZHAND)) s
  /\ (forall any_source,
        discard_pieces actor [piece] any_source s
        = discard_piece actor piece any_source s).
Proof.
  intros actor x s piece z Hx source gone kept.
  assert (E : discard_piece actor piece source s
              = (Ok tt,
                 put_actor actor
                   match z with
                   | ZDISCARD => set_actor_zone ZDISCARD (kept ++ gone) x
                   | _ => set_actor_zone ZDISCARD (DISCARD x ++ gone)
                            (set_actor_zone z kept x)
                   end s)).
  { unfold source. rewrite (discard_piece_run actor x s piece z Hx).
    destruct z; reflexivity. }
  split; [exact E|]. split; [|split].
  - intros Hg. rewrite E. f_equal. subst gone kept.
    rewrite (filter_none _ _ _ Hg), Hg.
    destruct z; rewrite ?app_nil_r; cbn [app];
      rewrite ?set_actor_zone_same;
      try (change (DISCARD x) with (actor_zone ZDISCARD x);
           rewrite set_actor_zone_same);
      apply put_actor_same; exact Hx.
  - reflexivity.
  - intros any_source. unfold discard_pieces, discard_piece.
    apply bind_ext. intros _ s1. apply bind_ext. intros src s2.
    rewrite (partition_ext _
               (fun piece0 : Piece =>
                  existsb (fun piece_to_discard : Piece =>
                             piece_is piece_to_discard piece0) [piece])
               (fun x0 : Piece => piece_is x0 piece)); [reflexivity|].
    intros y. cbn [existsb]. rewrite orb_false_r. apply piece_is_sym.
Qed.

(** Carol discards her Estate; discarding a card she does not hold does
    nothing. *)
Lemma discard_piece_spec_witness :
  discard_piece 2 (Sample.Estate 22) (Some (zone_of 2 ZHAND))
    CatalogueSample.three_players
  = (Ok tt,
     put_actor 2
       (Sample.new_actor "Carol"
          [Sample.Copper 20; Sample.Copper 21; Sample.Silver 23;
           Sample.Village 24] [Sample.Copper 25] [Sample.Estate 22])
       CatalogueSample.three_players)
  /\ discard_piece 2 (Sample.Gold 4) (Some (zone_of 2 ZHAND))
       CatalogueSample.three_players
     = (Ok tt, CatalogueSample.three_players).
Proof.
  split.
  - apply (discard_piece_spec 2 CatalogueSample.carol
             CatalogueSample.three_players (Sample.Estate 22) ZHAND eq_refl).
  - destruct (discard_piece_spec 2 CatalogueSample.carol
                CatalogueSample.three_players (Sample.Gold 4) ZHAND eq_refl)
      as [_ [H _]].
    apply H. reflexivity.
Defined.

(** X9. discard_zone appends the source to the discard pile and empties
    the source; called on the discard pile itself it empties the discard
    pile, whose pieces are then in no zone at all. *)
Theorem discard_zone_spec : forall actor x s z,
  nth_error (players s) actor = Some x ->
  discard_zone actor (zone_of actor z) s
  = (Ok tt,
     put_actor actor
       match z with
       | ZDISCARD => set_actor_zone ZDISCARD [] x
       | _ => set_actor_zone z []
                (set_actor_zone ZDISCARD (DISCARD x ++ actor_zone z x) x)
       end s).
Proof.
  intros actor x s z Hx. unfold discard_zone. step. step. step.
  destruct z; steps; erewrite write_zone_actor by solve_actor;
    rewrite ?put_actor_put_actor; reflexivity.
Qed.

(** Alice discards her hand, then her discard pile. *)
Lemma discard_zone_spec_witness :
  discard_zone 0 (zone_of 0 ZHAND) Sample.solo
  = (Ok tt,
     put_actor 0
       (Sample.new_actor "Alice" [] [Sample.Copper 2]
          [Sample.Silver 3; Sample.Gold 4; Sample.Estate 1]) Sample.solo)
  /\ discard_zone 0 (zone_of 0 ZDISCARD) Sample.solo
     = (Ok tt,
        put_actor 0
          (Sample.new_actor "Alice" [Sample.Estate 1] [Sample.Copper 2] [])
          Sample.solo).
Proof.
  split.
  - apply (discard_zone_spec 0 Sample.alice Sample.solo ZHAND eq_refl).
  - apply (discard_zone_spec 0 Sample.alice Sample.solo ZDISCARD eq_refl).
Defined.

(** ** Coins: Silver and the Merchant bonus *)

(** X10. Playing n Silvers in a row adds 2 coins each, plus the Merchant
    bonus once, with the Silver that brings the number of Silvers played
    this turn to one: a bonus registered after the first Silver of the
    turn is never paid. *)
Theorem add_silver_n : forall n i s,
  for_each (seq i n) (fun _ => add_silver) s
  = (Ok tt,
     set_n_silver_played_this_turn
       (n_silver_played_this_turn s + Z.of_nat n)
       (set_n_coin
          (n_coin s + 2 * Z.of_nat n
           + (if Z.ltb (n_silver_played_this_turn s) 1
                 && Z.leb 1 (n_silver_played_this_turn s + Z.of_nat n)
              then merchant_silver_bonus s else 0)) s)).
Proof.
  induction n as [|n IH]; intros i s.
  - cbn [seq for_each]. unfold ret. f_equal.
    replace (Z.ltb (n_silver_played_this_turn s) 1
             && Z.leb 1 (n_silver_played_this_turn s + Z.of_nat 0))
      with false
      by (symmetry; apply andb_false_iff;
          destruct (Z.ltb_spec (n_silver_played_this_turn s) 1);
          [right; apply Z.leb_gt; lia | left; reflexivity]).
    destruct s. unfold set_n_silver_played_this_turn, set_n_coin.
    cbn. f_equal; lia.
  - cbn [seq for_each]. unfold add_silver at 1. unfold add_coin at 1.
    steps.
    destruct s as [ps pl tr na nb nc c b f1 f2 f3 ne pe cp nt ai rn].
    cbn [n_silver_played_this_turn set_n_silver_played_this_turn set_n_coin
         n_coin merchant_silver_bonus].
    rewrite Nat2Z.inj_succ.
    destruct (Z.eqb_spec (c + 1) 1) as [E|E].
    + unfold add_coin. step. rewrite IH.
      unfold set_n_silver_played_this_turn, set_n_coin.
      cbn [players piles TRASH n_action n_buy n_coin
           n_silver_played_this_turn merchant_silver_bonus need_action_phase
           need_treasure_phase need_buy_phase n_empty_piles
           province_pile_empty current_player n_total_turns_played
           attack_immunity np_random].
      replace (Z.ltb (c + 1) 1) with false by (symmetry; apply Z.ltb_ge; lia).
      replace (Z.ltb c 1) with true by (symmetry; apply Z.ltb_lt; lia).
      replace (Z.leb 1 (c + Z.succ (Z.of_nat n))) with true
        by (symmetry; apply Z.leb_le; lia).
      cbn [andb]. f_equal. f_equal; lia.
    + step. rewrite IH.
      unfold set_n_silver_played_this_turn, set_n_coin.
      cbn [players piles TRASH n_action n_buy n_coin
           n_silver_played_this_turn merchant_silver_bonus need_action_phase
           need_treasure_phase need_buy_phase n_empty_piles
           province_pile_empty current_player n_total_turns_played
           attack_immunity np_random].
      replace (Z.ltb (c + 1) 1 && Z.leb 1 (c + 1 + Z.of_nat n))
        with (Z.ltb c 1 && Z.leb 1 (c + Z.succ (Z.of_nat n))).
      * f_equal. f_equal; lia.
      * destruct (Z.ltb_spec (c + 1) 1), (Z.ltb_spec c 1),
          (Z.leb_spec 1 (c + 1 + Z.of_nat n)),
          (Z.leb_spec 1 (c + Z.succ (Z.of_nat n)));
          cbn [andb]; try reflexivity; lia.
Qed.

(** ** Gaining and buying *)

Lemma read_zone_Ok : forall r l s,
  lookup_zone r s = Some l -> read_zone r s = (Ok l, s).
Proof. intros r l s H. unfold read_zone. rewrite H. reflexivity. Qed.

Lemma handle_acquisition_run : forall player actor x piece z s pile g rest,
  nth_error (players s) actor = Some x ->
  nth_error (piles s) (total_order_index piece) = Some pile ->
  take_piece piece pile = Some (g, rest) ->
  handle_acquisition player piece (zone_of actor z) s
  = (Ok tt,
     let moved :=
       put_actor actor (set_actor_zone z (actor_zone z x ++ [g]) x)
         (set_piles (update_nth (total_order_index piece) (fun _ => rest)
                       (piles s)) s) in
     match rest with
     | [] =>
         set_province_pile_empty
           (is_province piece || province_pile_empty s)
           (set_n_empty_piles (n_empty_piles s + 1) moved)
     | _ :: _ => moved
     end).
Proof.
  intros player actor x piece z s pile g rest Hx Hp Ht.
  unfold handle_acquisition. step. rewrite Hp.
  erewrite bind_Ok.
  2:{ erewrite transfer_piece_run;
        [| cbn [lookup_zone]; exact Hp
         | apply lookup_actor_zone; exact Hx].
      rewrite Ht.
      destruct (ZoneRef_eq_dec (pile_ref (total_order_index piece))
                  (zone_of actor z)); [discriminate|].
      reflexivity. }
  cbn [store_zone].
  erewrite bind_Ok.
  2:{ apply read_zone_Ok. cbn [lookup_zone]. through_setters.
      eapply nth_error_update_nth_same. exact Hp. }
  assert (E : set_players
                (update_nth actor
                   (set_actor_zone z (actor_zone z x ++ [g]))
                   (players
                      (set_piles
                         (update_nth (total_order_index piece)
                            (fun _ : Zone => rest) (piles s)) s)))
                (set_piles
                   (update_nth (total_order_index piece)
                      (fun _ : Zone => rest) (piles s)) s)
              = put_actor actor
                  (set_actor_zone z (actor_zone z x ++ [g]) x)
                  (set_piles
                     (update_nth (total_order_index piece)
                        (fun _ : Zone => rest) (piles s)) s)).
  { unfold put_actor. f_equal. through_setters.
    eapply update_nth_ext; [exact Hx | reflexivity]. }
  rewrite E. destruct rest as [|r0 rest].
  - steps. destruct (is_province piece); cbn [orb].
    + unfold modify. reflexivity.
    + reflexivity.
  - reflexivity.
Qed.

(** X11. gain moves the first instance of the Supply pile of the piece's
    type identical to the piece to the end of the destination (the discard
    pile by default); when that leaves the pile empty it adds one to
    n_empty_piles and, for a Province, sets province_pile_empty, which
    is never reset.  buy_piece does the same after taking one buy and
    the cost of the piece in coins, without checking either. *)
Theorem gain_and_buy_spec : forall actor x piece s before g after,
  nth_error (players s) actor = Some x ->
  nth_error (piles s) (total_order_index piece)
  = Some (before ++ g :: after) ->
  piece_is g piece = true ->
  Forall (fun y => piece_is y piece = false) before ->
  let acquired (s : State) :=
    let moved :=
      put_actor actor (set_actor_zone ZDISCARD (DISCARD x ++ [g]) x)
        (set_piles (update_nth (total_order_index piece)
                      (fun _ => before ++ after) (piles s)) s) in
    match before ++ after with
    | [] =>
        set_province_pile_empty
          (is_province piece || province_pile_empty s)
          (set_n_empty_piles (n_empty_piles s + 1) moved)
    | _ :: _ => moved
    end in
  gain actor piece None s = (Ok tt, acquired s)
  /\ buy_piece actor piece None s
     = (Ok tt,
        acquired (set_n_coin (n_coin s - cost piece)
                    (set_n_buy (n_buy s - 1) s))).
Proof.
  intros actor x piece s before g after Hx Hp Hg Hb acquired.
  assert (Ht : take_piece piece (before ++ g :: after)
               = Some (g, before ++ after)).
  { clear Hp. induction before as [|y r IH]; cbn [app take_piece].
    - rewrite Hg. reflexivity.
    - inversion Hb as [|? ? Hy Hr]; subst. rewrite Hy, (IH Hr).
      reflexivity. }
  split.
  - unfold gain. cbn [default_zone].
    apply (handle_acquisition_run actor actor x piece ZDISCARD s _ g _
             Hx Hp Ht).
  - unfold buy_piece, pay_cost. cbn [default_zone]. steps.
    erewrite handle_acquisition_run
      with (x := x) (g := g) (rest := before ++ after);
      [reflexivity | exact Hx | exact Hp | exact Ht].
Qed.

(** Alice gains, then buys, the last Province. *)
Lemma gain_and_buy_spec_witness :
  gain 0 (Sample.Province 9) None BuySample.last_province
  = (Ok tt,
     mkState
       [Sample.new_actor "Alice" [Sample.Estate 1] [Sample.Copper 2]
          [Sample.Silver 3; Sample.Gold 4; Sample.Province 9]]
       [[]; []; []; []] [] 1 1 8 0 0 true true true 1 true 0 0 [] [])
  /\ buy_piece 0 (Sample.Province 9) None BuySample.last_province
     = (Ok tt,
        mkState
          [Sample.new_actor "Alice" [Sample.Estate 1] [Sample.Copper 2]
             [Sample.Silver 3; Sample.Gold 4; Sample.Province 9]]
          [[]; []; []; []] [] 1 0 0 0 0 true true true 1 true 0 0 [] []).
Proof.
  apply (gain_and_buy_spec 0 Sample.alice (Sample.Province 9)
           BuySample.last_province [] (Sample.Province 9) []);
    try reflexivity.
  constructor.
Defined.

(** X12. When the Supply has no pile of the piece's type, or that pile
    holds no instance identical to the piece (an empty pile, for one),
    gain raises (IndexError, ValueError) and leaves the State as it is,
    and buy_piece raises the same exception after the buy and the coins
    have been taken: the payment is not undone. *)
Theorem buy_piece_pays_first : forall actor x piece s,
  nth_error (players s) actor = Some x ->
  match nth_error (piles s) (total_order_index piece) with
  | Some pile => Forall (fun y => piece_is y piece = false) pile
  | None => True
  end ->
  let e := match nth_error (piles s) (total_order_index piece) with
           | Some _ => ValueError
           | None => IndexError
           end in
  gain actor piece None s = (Raise e, s)
  /\ buy_piece actor piece None s
     = (Raise e,
        set_n_coin (n_coin s - cost piece) (set_n_buy (n_buy s - 1) s)).
Proof.
  intros actor x piece s Hx Hp e.
  assert (H : forall s', players s' = players s -> piles s' = piles s ->
                handle_acquisition actor piece (zone_of actor ZDISCARD) s'
                = (Raise e, s')).
  { intros s' E1 E2. unfold handle_acquisition. step. rewrite E2. subst e.
    destruct (nth_error (piles s) (total_order_index piece)) as [pile|] eqn:E;
      [|reflexivity].
    erewrite bind_Raise; [reflexivity|].
    erewrite transfer_piece_run;
      [| cbn [lookup_zone]; rewrite E2; exact E
       | apply lookup_actor_zone; rewrite E1; exact Hx].
    apply take_piece_None in Hp. rewrite Hp. reflexivity. }
  split.
  - unfold gain. cbn [default_zone]. apply H; reflexivity.
  - unfold buy_piece, pay_cost. cbn [default_zone]. steps.
    apply H; reflexivity.
Qed.

(** Alice buys a second Province from the pile that holds one Province. *)
Lemma buy_piece_pays_first_witness :
  gain 0 (Sample.Province 8) None BuySample.last_province
  = (Raise ValueError, BuySample.last_province)
  /\ buy_piece 0 (Sample.Province 8) None BuySample.last_province
     = (Raise ValueError,
        set_n_coin 0 (set_n_buy 0 BuySample.last_province)).
Proof.
  apply (buy_piece_pays_first 0 Sample.alice (Sample.Province 8)
           BuySample.last_province); [reflexivity|].
  repeat constructor.
Defined.

(** ** Drawing in several steps *)

Lemma draw_cards_draw_cards : forall j k x,
  j + k <= List.length (DECK x) ->
  draw_cards k (draw_cards j x) = draw_cards (j + k) x.
Proof.
  intros j k x H. unfold draw_cards.
  cbn [HAND DECK DISCARD PLAY ASIDE actor_name include exclude
       n_turns_played].
  set (d := DECK x) in *. set (L := List.length d) in *.
  rewrite length_firstn. fold L.
  replace (Nat.min (L - j) L) with (L - j) by lia.
  replace (L - j - k) with (L - (j + k)) by lia.
  f_equal.
  - rewrite <- app_assoc. f_equal. rewrite <- rev_app_distr. f_equal.
    rewrite <- (firstn_skipn (L - j) d) at 3.
    rewrite skipn_app, length_firstn. fold L.
    replace (L - (j + k) - Nat.min (L - j) L) with 0 by lia.
    reflexivity.
  - rewrite firstn_firstn. f_equal. lia.
Qed.

Lemma draw_cards_replenished : forall j k under x,
  j <= List.length (DECK x) ->
  j + k <= List.length under + List.length (DECK x) ->
  draw_cards k (replenished under (draw_cards j x))
  = draw_cards (j + k) (replenished under x).
Proof.
  intros j k u x Hj Hk. unfold draw_cards, replenished.
  cbn [HAND DECK DISCARD PLAY ASIDE actor_name include exclude
       n_turns_played].
  set (d := DECK x) in *. set (L := List.length d) in *.
  rewrite !length_app, length_firstn. fold L.
  set (S := List.length u) in *.
  replace (Nat.min (L - j) L) with (L - j) by lia.
  replace (S + L - (j + k)) with (S + (L - j) - k) by lia.
  set (m := S + (L - j) - k).
  assert (Hm : m <= S + (L - j)) by (subst m; lia).
  f_equal.
  - rewrite <- app_assoc. f_equal. rewrite <- rev_app_distr. f_equal.
    rewrite <- (firstn_skipn (L - j) d) at 3.
    rewrite app_assoc.
    rewrite (skipn_app m (u ++ firstn (L - j) d)).
    rewrite length_app, length_firstn. fold L S.
    replace (m - (S + Nat.min (L - j) L)) with 0 by lia.
    reflexivity.
  - rewrite <- (firstn_skipn (L - j) d) at 2.
    rewrite app_assoc.
    rewrite (firstn_app m (u ++ firstn (L - j) d)).
    rewrite length_app, length_firstn. fold L S.
    replace (m - (S + Nat.min (L - j) L)) with 0 by lia.
    cbn [firstn]. rewrite app_nil_r. reflexivity.
Qed.

Lemma draw_plain : forall actor x s n,
  nth_error (players s) actor = Some x ->
  (n <= len (DECK x))%Z \/ DISCARD x = [] ->
  draw actor n s
  = (Ok tt,
     put_actor actor
       (draw_cards (Z.to_nat (Z.min n (len (DECK x)))) x) s).
Proof.
  intros actor x s n Hx H. unfold draw.
  erewrite bind_Ok.
  2:{ rewrite (prepare_deck_run actor x s n Hx).
      replace (negb (Z.leb n (len (DECK x))) && negb (is_nil (DISCARD x)))
        with false; [reflexivity|].
      symmetry. destruct H as [H|H].
      - apply Z.leb_le in H. rewrite H. reflexivity.
      - rewrite H. apply andb_false_r. }
  step.
  erewrite bind_Ok
    by (unfold range_len; eapply draw_loop;
        [exact Hx | unfold len; lia]).
  step. reflexivity.
Qed.

Lemma replenish_deck_replenished : forall actor x s,
  nth_error (players s) actor = Some x ->
  let sh := shuffle_list (List.length (DISCARD x)) (np_random s)
              (DISCARD x) in
  replenish_deck actor s
  = (Ok tt,
     set_np_random (snd sh) (put_actor actor (replenished (fst sh) x) s)).
Proof. intros actor x s Hx. apply replenish_deck_run. exact Hx. Qed.

Lemma draw_short : forall actor x s n,
  nth_error (players s) actor = Some x ->
  (len (DECK x) < n)%Z -> DISCARD x <> [] ->
  let sh := shuffle_list (List.length (DISCARD x)) (np_random s)
              (DISCARD x) in
  let x1 := replenished (fst sh) x in
  draw actor n s
  = (Ok tt,
     set_np_random (snd sh)
       (put_actor actor
          (draw_cards (Z.to_nat (Z.min n (len (DECK x1)))) x1) s)).
Proof.
  intros actor x s n Hx Hn Hd sh x1. unfold draw.
  erewrite bind_Ok.
  2:{ rewrite (prepare_deck_run actor x s n Hx).
      replace (negb (Z.leb n (len (DECK x))) && negb (is_nil (DISCARD x)))
        with true.
      - rewrite (replenish_deck_replenished actor x s Hx). reflexivity.
      - symmetry. apply andb_true_iff. split.
        + apply negb_true_iff. apply Z.leb_gt. exact Hn.
        + destruct (DISCARD x); [congruence | reflexivity]. }
  fold sh. fold x1.
  assert (H1 : nth_error
                 (players (set_np_random (snd sh) (put_actor actor x1 s)))
                 actor = Some x1) by solve_actor.
  erewrite bind_Ok by (eapply read_zone_actor; exact H1).
  cbn [actor_zone].
  erewrite bind_Ok
    by (unfold range_len; eapply draw_loop;
        [exact H1 | unfold len; lia]).
  erewrite bind_Ok by (eapply read_zone_actor; solve_actor).
  unfold peek, ret. f_equal. cbn [snd].
  rewrite put_actor_set_np_random, put_actor_put_actor. reflexivity.
Qed.

(** X13. Drawing a cards and then b cards leaves the same State as
    drawing a + b cards at once, whatever the deck and the discard pile
    hold: the deck is replenished at the same point of the sequence of
    cards drawn, from the same discard pile and with the same shuffle. *)
Theorem draw_draw : forall actor x s a b,
  nth_error (players s) actor = Some x ->
  (0 <= a)%Z -> (0 <= b)%Z ->
  (draw actor a ;; draw actor b) s = draw actor (a + b) s.
Proof.
  intros actor x s a b Hx Ha Hb.
  assert (Plain : forall y t,
            nth_error (players t) actor = Some y ->
            (a + b <= len (DECK y))%Z \/ DISCARD y = [] ->
            (draw actor a ;; draw actor b) t
            = (Ok tt,
               put_actor actor
                 (draw_cards (Z.to_nat (Z.min (a + b) (len (DECK y)))) y)
                 t)).
  { intros y t Hy H.
    erewrite bind_Ok
      by (apply draw_plain; [exact Hy | destruct H; [left; lia | now right]]).
    erewrite draw_plain; [| solve_actor |].
    - rewrite put_actor_put_actor.
      rewrite draw_cards_draw_cards
        by (unfold draw_cards, len; cbn [DECK]; rewrite length_firstn; lia).
      do 3 f_equal. unfold draw_cards, len. cbn [DECK].
      rewrite length_firstn. lia.
    - unfold draw_cards, len. cbn [DECK DISCARD].
      rewrite length_firstn. destruct H as [H|H]; [left | now right].
      unfold len in H. lia. }
  destruct (Z_le_gt_dec (a + b) (len (DECK x))) as [H|H].
  { rewrite (Plain x s Hx) by (left; exact H).
    symmetry. apply draw_plain; [exact Hx | left; exact H]. }
  destruct (DISCARD x) as [|d0 ds] eqn:Ed.
  { rewrite (Plain x s Hx) by (right; exact Ed).
    symmetry. apply draw_plain; [exact Hx | right; exact Ed]. }
  assert (Hd : DISCARD x <> []) by (rewrite Ed; discriminate).
  rewrite (draw_short actor x s (a + b) Hx) by (try lia; exact Hd).
  set (sh := shuffle_list (List.length (DISCARD x)) (np_random s)
               (DISCARD x)).
  set (x1 := replenished (fst sh) x).
  destruct (Z_le_gt_dec a (len (DECK x))) as [Hs|Hs].
  - erewrite bind_Ok by (apply draw_plain; [exact Hx | left; exact Hs]).
    set (y := draw_cards (Z.to_nat (Z.min a (len (DECK x)))) x).
    assert (Hy : nth_error (players (put_actor actor y s)) actor = Some y)
      by solve_actor.
    rewrite (draw_short actor y _ b Hy).
    + change (np_random (put_actor actor y s)) with (np_random s).
      change (DISCARD y) with (DISCARD x). fold sh.
      rewrite put_actor_put_actor. do 3 f_equal.
      subst y x1. unfold len in *.
      replace (Z.to_nat (Z.min a (Z.of_nat (List.length (DECK x)))))
        with (Z.to_nat a) by lia.
      rewrite draw_cards_replenished.
      * f_equal. unfold replenished, draw_cards. cbn [DECK].
        rewrite !length_app, length_firstn. lia.
      * lia.
      * unfold replenished, draw_cards. cbn [DECK].
        rewrite !length_app, length_firstn. lia.
    + subst y. unfold draw_cards, len. cbn [DECK].
      rewrite length_firstn. unfold len in H, Hs. lia.
    + subst y. unfold draw_cards. cbn [DISCARD]. exact Hd.
  - erewrite bind_Ok
      by (apply (draw_short actor x s a Hx); [lia | exact Hd]).
    fold sh. fold x1.
    set (y := draw_cards (Z.to_nat (Z.min a (len (DECK x1)))) x1).
    assert (Hy : nth_error
                   (players (set_np_random (snd sh) (put_actor actor y s)))
                   actor = Some y) by solve_actor.
    rewrite (draw_plain actor y _ b Hy) by (now right).
    rewrite put_actor_set_np_random, put_actor_put_actor.
    subst y. rewrite draw_cards_draw_cards
      by (unfold draw_cards, len; cbn [DECK]; rewrite length_firstn; lia).
    do 4 f_equal. unfold draw_cards, len. cbn [DECK].
    rewrite length_firstn. lia.
Qed.

(** Alice draws one card, then two more, or three at once. *)
Lemma draw_draw_witness :
  (draw 0 1 ;; draw 0 2) Sample.solo = draw 0 (1 + 2) Sample.solo.
Proof.
  apply (draw_draw 0 Sample.alice Sample.solo 1 2); [reflexivity | lia | lia].
Defined.

(** ** What the Militia attack leaves *)

(** A loop whose body makes a measure decrease by one runs as many times
    as the measure falls. *)
Lemma while_counts : forall (Inv : State -> Prop) (mu : State -> nat)
    cond body,
  (forall s, Inv s ->
     exists b, cond s = (Ok b, s) /\ (b = true -> 0 < mu s)) ->
  (forall s, Inv s -> cond s = (Ok true, s) ->
     exists s', body s = (Ok tt, s') /\ Inv s' /\ mu s' + 1 = mu s) ->
  forall fuel s, Inv s -> mu s < fuel ->
    exists n s', while_ fuel cond body s = (Ok n, s')
                 /\ Inv s' /\ cond s' = (Ok false, s') /\ n + mu s' = mu s.
Proof.
  intros Inv mu cond body Hc Hb.
  induction fuel as [|fuel IH]; intros s Hs Hf; [lia|].
  cbn [while_]. destruct (Hc s Hs) as [b [Ec Hpos]].
  erewrite bind_Ok by exact Ec. destruct b.
  - destruct (Hb s Hs Ec) as [s1 [Eb [Hs1 Hlt]]].
    erewrite bind_Ok by exact Eb.
    destruct (IH s1 Hs1) as [n [s' [Ew [Hs' [Ec' Hn]]]]]; [lia|].
    erewrite bind_Ok by exact Ew.
    exists (S n), s'. repeat split; try assumption. lia.
  - exists 0, s. repeat split; try assumption.
Qed.

Lemma get_pieces_none : forall predicate zone,
  Forall (fun p => predicate p = false) zone ->
  Combinatorics.get_pieces zone true (Some predicate) = [].
Proof.
  intros predicate zone H. unfold Combinatorics.get_pieces.
  replace (filter predicate zone) with (@nil Piece); [reflexivity|].
  symmetry. induction H as [|p l Hp _ IH]; simpl.
  - reflexivity.
  - rewrite Hp. exact IH.
Qed.

(** Among pieces that are distinct objects, the instances identical to
    one of them are that one alone. *)
Lemma filter_piece_is_NoDup : forall d l,
  NoDup (map uid l) -> In d l ->
  filter (fun y => piece_is y d) l = [d]
  /\ Permutation l (filter (fun y => negb (piece_is y d)) l ++ [d])
  /\ List.length (filter (fun y => negb (piece_is y d)) l) + 1
     = List.length l.
Proof.
  intros d. induction l as [|y l IH]; intros Hn Hin.
  - contradiction.
  - simpl in Hn. inversion Hn as [|? ? Hy Hn']; subst.
    cbn [filter]. destruct Hin as [->|Hin].
    + rewrite piece_is_refl. cbn [negb].
      assert (E : forall l', ~ In (uid d) (map uid l') ->
                    filter (fun y => piece_is y d) l' = []
                    /\ filter (fun y => negb (piece_is y d)) l' = l').
      { induction l' as [|z l' IH']; intros H; [split; reflexivity|].
        cbn [filter]. simpl in H.
        assert (Ez : piece_is z d = false).
        { unfold piece_is. apply Nat.eqb_neq. intros C. apply H. left.
          exact C. }
        rewrite Ez. cbn [negb].
        destruct IH' as [E1 E2]; [intros C; apply H; right; exact C|].
        rewrite E1, E2. split; reflexivity. }
      destruct (E l Hy) as [E1 E2]. rewrite E1, E2.
      repeat split.
      * apply Permutation_cons_append.
      * simpl. lia.
    + destruct (IH Hn' Hin) as [E1 [E2 E3]].
      assert (Ey : piece_is y d = false).
      { unfold piece_is. apply Nat.eqb_neq. intros C. apply Hy.
        rewrite C. apply in_map. exact Hin. }
      rewrite Ey. cbn [negb]. rewrite E1. repeat split.
      * cbn [app]. apply perm_skip. exact E2.
      * simpl. lia.
Qed.

Lemma NoDup_map_filter : forall A B (f : A -> B) (g : A -> bool) l,
  NoDup (map f l) -> NoDup (map f (filter g l)).
Proof.
  intros A B f g. induction l as [|x l IH]; intros H; simpl.
  - constructor.
  - simpl in H. inversion H as [|? ? Hx Hl]; subst.
    destruct (g x); simpl; [constructor|]; auto.
    intros C. apply Hx. apply in_map_iff in C.
    destruct C as [y [Ey Hy]]. apply filter_In in Hy.
    rewrite <- Ey. apply in_map. tauto.
Qed.

Section MilitiaResult.

Variable simple_effects : Piece -> option (list Effect).
Variable decision : Piece -> option Decision.
Variable select : nat -> list Consequence -> Decision -> State -> nat.

(** One iteration of the attack on a hand of distinct objects: one card,
    of the victim's choice, goes to the discard pile. *)
Lemma Militia_main_one : forall fuel actor x s,
  nth_error (players s) actor = Some x ->
  HAND x <> [] ->
  NoDup (map uid (HAND x)) ->
  exists d to_keep,
    In d (HAND x)
    /\ Permutation (HAND x) (to_keep ++ [d])
    /\ NoDup (map uid to_keep)
    /\ List.length to_keep + 1 = List.length (HAND x)
    /\ apply_effect simple_effects decision select (S (S fuel))
         (Initiate actor MilitiaVictimProcedure None) s
       = (Ok tt,
          put_actor actor
            (mkActor (actor_name x) to_keep (DECK x)
               (DISCARD x ++ [d]) (PLAY x) (ASIDE x) (include x)
               (exclude x) (n_turns_played x)) s).
Proof.
  intros fuel actor x s Hx Hne Hnd.
  rewrite apply_effect_Initiate. unfold resolve_with.
  destruct (HAND x) as [|h hs] eqn:Eh; [congruence|].
  destruct (get_pieces_all_nonempty h hs) as [u [us Eu]].
  assert (G : generate_choices MilitiaVictimProcedure actor s
              = (Ok (map (fun discardable =>
                            new_Consequence
                              [Effect_discard_piece actor discardable None]
                              None) (u :: us)), s)).
  { cbn [generate_choices]. unfold MilitiaVictimProcedure_generate_choices.
    step. rewrite Eh, Eu. reflexivity. }
  destruct (request_input_pick select actor _ actor _ _ _ G) as [c [Hc Ec]];
    [discriminate|].
  erewrite bind_Ok by exact Ec.
  apply in_map_iff in Hc. destruct Hc as [d [<- Hd]].
  rewrite <- Eu in Hd. apply get_pieces_all_In in Hd.
  unfold enact. cbn [effects new_Consequence for_each apply_effect].
  assert (E' : discard_piece actor d None s
               = discard_piece actor d (Some (zone_of actor ZHAND)) s)
    by reflexivity.
  erewrite bind_Ok
    by (rewrite E'; apply (discard_piece_run actor x s d ZHAND Hx)).
  cbn [actor_zone set_actor_zone actor_name HAND DECK DISCARD PLAY ASIDE
       include exclude n_turns_played].
  rewrite Eh.
  destruct (filter_piece_is_NoDup d (h :: hs) Hnd Hd) as [F1 [F2 F3]].
  rewrite F1.
  exists d, (filter (fun y => negb (piece_is y d)) (h :: hs)).
  repeat split; try assumption.
  apply NoDup_map_filter. exact Hnd.
Qed.

(** X14. A MilitiaAttack on a victim who holds no Moat, in a hand of
    distinct card objects, returns after len(HAND) - 3 iterations: the
    victim is left with exactly 3 cards of the hand (with the whole hand
    when it held 3 cards or fewer), the others have been appended to
    the discard pile, and nothing else in the State has changed. *)
Theorem MilitiaAttack_leaves_three : forall fuel actor self x s,
  nth_error (players s) actor = Some x ->
  nth_error (attack_immunity s) self = Some false ->
  Forall (fun p => is_Moat p = false) (HAND x) ->
  NoDup (map uid (HAND x)) ->
  List.length (HAND x) <= fuel ->
  exists kept discarded,
    Process_call simple_effects decision select (S (S fuel))
      (MilitiaAttack actor self) s
    = (Ok (List.length (HAND x) - 3),
       put_actor actor
         (mkActor (actor_name x) kept (DECK x) (DISCARD x ++ discarded)
            (PLAY x) (ASIDE x) (include x) (exclude x) (n_turns_played x))
         s)
    /\ Permutation (HAND x) (kept ++ discarded)
    /\ List.length kept = Nat.min 3 (List.length (HAND x)).
Proof.
  intros fuel actor self x s Hx Hi Hm Hnd Hf.
  unfold Process_call. cbn [setup_effect teardown_effect main_effect].
  assert (Es : apply_effect simple_effects decision select (S (S fuel))
                 (Initiate actor (ImmunityProcedure self) None) s
               = (Ok tt, s)).
  { destruct (Immunity_setup simple_effects decision select fuel actor self
                x s Hx Hi) as [b0 Es].
    pose proof (setup_without_Moat simple_effects decision select
                  (S (S fuel)) actor self x s Hx
                  (get_pieces_none _ _ Hm)) as E.
    rewrite Es in E. cbn [snd] in E. rewrite Es, E. reflexivity. }
  erewrite bind_Ok by exact Es.
  set (shape := fun (kept discarded : list Piece) =>
         mkActor (actor_name x) kept (DECK x) (DISCARD x ++ discarded)
           (PLAY x) (ASIDE x) (include x) (exclude x) (n_turns_played x)).
  set (Inv := fun s' : State =>
         exists kept discarded,
           s' = put_actor actor (shape kept discarded) s
           /\ Permutation (HAND x) (kept ++ discarded)
           /\ NoDup (map uid kept)
           /\ Nat.min 3 (List.length (HAND x)) <= List.length kept).
  set (mu := fun s' : State =>
         match nth_error (players s') actor with
         | Some y => List.length (HAND y) - 3
         | None => 0
         end).
  assert (Hi' : forall y, nth_error (attack_immunity (put_actor actor y s))
                            self = Some false) by (intros y; exact Hi).
  destruct (while_counts Inv mu
              (antecedent (MilitiaAttack actor self))
              (apply_effect simple_effects decision select (S (S fuel))
                 (Initiate actor MilitiaVictimProcedure None)))
    with (fuel := S (S fuel)) (s := s)
    as [n [s' [Ew [[kept [discarded [-> [P [Hk Hl]]]]] [Ec Hn]]]]].
  - intros s1 [kept [discarded [-> _]]]. eexists. split.
    + eapply MilitiaAttack_antecedent; [solve_actor | apply Hi'].
    + intros E. unfold mu. erewrite players_put_actor by exact Hx.
      cbn [negb andb] in E. apply Z.ltb_lt in E. unfold len in E. lia.
  - intros s1 [kept [discarded [-> [P [Hk Hl]]]]] Ec.
    assert (Hy : nth_error
                   (players (put_actor actor (shape kept discarded) s))
                   actor = Some (shape kept discarded)) by solve_actor.
    rewrite (MilitiaAttack_antecedent _ _ _ _ _ Hy (Hi' _)) in Ec.
    inversion Ec as [E]. cbn [negb andb] in E.
    apply Z.ltb_lt in E. unfold len, shape in E. cbn [HAND] in E.
    destruct (Militia_main_one fuel actor _ _ Hy)
      as [d [to_keep [Hd [Pd [Nd [Ld Em]]]]]].
    { cbn [shape HAND]. destruct kept; [simpl in E; lia | discriminate]. }
    { exact Hk. }
    cbn [shape HAND DECK DISCARD PLAY ASIDE actor_name include exclude
         n_turns_played] in *.
    eexists. split; [exact Em|]. split.
    + exists to_keep, (discarded ++ [d]).
      rewrite put_actor_put_actor. unfold shape. rewrite app_assoc.
      split; [reflexivity|]. split; [|split; [exact Nd | lia]].
      rewrite app_assoc. eapply Permutation_trans; [exact P|].
      eapply Permutation_trans;
        [apply Permutation_app_tail; exact Pd|].
      rewrite <- !app_assoc. apply Permutation_app_head.
      apply Permutation_app_comm.
    + unfold mu. rewrite put_actor_put_actor.
      erewrite !players_put_actor by exact Hx. unfold shape.
      cbn [HAND]. lia.
  - exists (HAND x), []. rewrite app_nil_r.
    split; [|split; [reflexivity | split; [exact Hnd | lia]]].
    unfold shape. rewrite app_nil_r. symmetry.
    replace (mkActor _ _ _ _ _ _ _ _ _) with x by (destruct x; reflexivity).
    apply put_actor_same. exact Hx.
  - unfold mu. rewrite Hx. lia.
  - erewrite bind_Ok by exact Ew. steps.
    erewrite bind_Ok by (eapply write_immunity_Ok; apply Hi').
    rewrite (set_immunity_same _ _ _ (Hi' _)).
    assert (Hy : nth_error
                   (players (put_actor actor (shape kept discarded) s))
                   actor = Some (shape kept discarded)) by solve_actor.
    rewrite (MilitiaAttack_antecedent _ _ _ _ _ Hy (Hi' _)) in Ec.
    inversion Ec as [E]. cbn [negb andb] in E.
    apply Z.ltb_ge in E. unfold len, shape in E. cbn [HAND] in E.
    unfold mu in Hn. rewrite Hy, Hx in Hn. unfold shape in Hn.
    cbn [HAND] in Hn.
    pose proof (Permutation_length P) as PL. rewrite length_app in PL.
    exists kept, discarded. split; [|split; [exact P | lia]].
    unfold ret. f_equal. f_equal. lia.
Qed.

End MilitiaResult.

(** Carol, with five cards in hand and no Moat, discards two of them. *)
Lemma MilitiaAttack_leaves_three_witness :
  exists kept discarded,
    Process_call CatalogueSample.simple_effects CatalogueSample.decision
      Sample.first_choice 7 (MilitiaAttack 2 0)
      (set_attack_immunity [false] CatalogueSample.three_players)
    = (Ok 2,
       put_actor 2
         (Sample.new_actor "Carol" kept [Sample.Copper 25] discarded)
         (set_attack_immunity [false] CatalogueSample.three_players))
    /\ Permutation (HAND CatalogueSample.carol) (kept ++ discarded)
    /\ List.length kept = 3.
Proof.
  apply (MilitiaAttack_leaves_three CatalogueSample.simple_effects
           CatalogueSample.decision Sample.first_choice 5 2 0
           CatalogueSample.carol
           (set_attack_immunity [false] CatalogueSample.three_players)).
  - reflexivity.
  - reflexivity.
  - repeat constructor.
  - repeat constructor; simpl; intuition discriminate.
  - simpl. lia.
Defined.

(** ** Preparing the deck *)

Lemma prepare_deck_cases : forall actor x s n,
  nth_error (players s) actor = Some x ->
  (((n <= len (DECK x))%Z \/ DISCARD x = [])
   /\ prepare_deck actor n s = (Ok tt, s))
  \/ ((len (DECK x) < n)%Z /\ DISCARD x <> []
      /\ let sh := shuffle_list (List.length (DISCARD x)) (np_random s)
                     (DISCARD x) in
         Permutation (DISCARD x) (fst sh)
         /\ prepare_deck actor n s
            = (Ok tt,
               set_np_random (snd sh)
                 (put_actor actor (replenished (fst sh) x) s))).
Proof.
  intros actor x s n Hx. rewrite (prepare_deck_run actor x s n Hx).
  destruct (Z.leb_spec n (len (DECK x))) as [H|H]; cbn [negb andb].
  - left. split; [left; exact H | reflexivity].
  - destruct (DISCARD x) as [|d ds] eqn:Ed; cbn [is_nil negb].
    + left. split; [right; reflexivity | reflexivity].
    + right. split; [exact H|]. split; [discriminate|].
      rewrite <- Ed. cbv zeta. split.
      * apply shuffle_list_Permutation.
      * rewrite (replenish_deck_replenished actor x s Hx). reflexivity.
Qed.

(** X15. prepare_deck never raises.  It leaves the State as it is when
    the deck holds n cards or the discard pile is empty; otherwise the
    discard pile goes, shuffled, under the deck.  Either way the cards of
    the deck stay on top in their order, deck and discard pile together
    hold the same cards, and afterwards the deck holds at least n cards
    or all the cards of deck and discard pile. *)
Theorem prepare_deck_spec : forall actor x s n,
  nth_error (players s) actor = Some x ->
  exists under rest draws,
    prepare_deck actor n s
    = (Ok tt,
       set_np_random draws
         (put_actor actor
            (mkActor (actor_name x) (HAND x) (under ++ DECK x) rest
               (PLAY x) (ASIDE x) (include x) (exclude x)
               (n_turns_played x)) s))
    /\ Permutation (DISCARD x) (under ++ rest)
    /\ (under = [] \/ rest = [])
    /\ (Z.min n (len (DECK x) + len (DISCARD x)) <= len (under ++ DECK x))%Z.
Proof.
  intros actor x s n Hx.
  destruct (prepare_deck_cases actor x s n Hx)
    as [[H E] | [H1 [H2 [P E]]]].
  - exists [], (DISCARD x), (np_random s). rewrite E. cbn [app].
    split; [|split; [apply Permutation_refl | split; [left; reflexivity|]]].
    + f_equal.
      replace (mkActor _ _ _ _ _ _ _ _ _) with x by (destruct x; reflexivity).
      rewrite (put_actor_same _ _ _ Hx). destruct s; reflexivity.
    + destruct H as [H|H]; [lia|]. rewrite H. unfold len. simpl. lia.
  - cbv zeta in E.
    exists (fst (shuffle_list (List.length (DISCARD x)) (np_random s)
                   (DISCARD x))), [], 
           (snd (shuffle_list (List.length (DISCARD x)) (np_random s)
                   (DISCARD x))).
    rewrite E. rewrite app_nil_r.
    split; [reflexivity|]. split; [exact P|].
    split; [right; reflexivity|].
    unfold len. rewrite length_app.
    rewrite <- (Permutation_length P). lia.
Qed.

(** Alice, with one card in her deck, prepares it for two cards. *)
Lemma prepare_deck_spec_witness :
  exists under rest draws,
    prepare_deck 0 2 Sample.solo
    = (Ok tt,
       set_np_random draws
         (put_actor 0
            (Sample.new_actor "Alice" [Sample.Estate 1]
               (under ++ [Sample.Copper 2]) rest) Sample.solo))
    /\ Permutation [Sample.Silver 3; Sample.Gold 4] (under ++ rest)
    /\ (under = [] \/ rest = [])
    /\ (Z.min 2 (1 + 2) <= len (under ++ [Sample.Copper 2]))%Z.
Proof.
  apply (prepare_deck_spec 0 Sample.alice Sample.solo 2). reflexivity.
Defined.

(** ** What the Library leaves *)

Lemma take_piece_length : forall piece l x rest,
  take_piece piece l = Some (x, rest) ->
  List.length rest + 1 = List.length l.
Proof.
  intros piece l x rest H.
  destruct (take_piece_split _ _ _ _ H) as [b [a [-> [-> _]]]].
  rewrite !length_app. simpl. lia.
Qed.

Section LibraryResult.

Variable simple_effects : Piece -> option (list Effect).
Variable decision : Piece -> option Decision.
Variable select : nat -> list Consequence -> Decision -> State -> nat.

(** One iteration of the Library: the deck is replenished if it is
    empty, then one card leaves it for the hand or for the cards set
    aside. *)
Lemma Library_main_step : forall fuel actor x s,
  nth_error (players s) actor = Some x ->
  DECK x <> [] \/ DISCARD x <> [] ->
  exists s' y c,
    apply_effect simple_effects decision select (S (S fuel))
      (Initiate actor LibraryProcedure None) s = (Ok tt, s')
    /\ nth_error (players s') actor = Some y
    /\ PLAY y = PLAY x
    /\ List.length (DECK y) + List.length (DISCARD y) + 1
       = List.length (DECK x) + List.length (DISCARD x)
    /\ ((HAND y = HAND x ++ [c] /\ ASIDE y = ASIDE x)
        \/ (HAND y = HAND x /\ ASIDE y = ASIDE x ++ [c])).
Proof.
  intros fuel actor x s Hx Hne.
  assert (Hp : exists s1 x1 rest topcard,
             prepare_deck actor 1 s = (Ok tt, s1)
             /\ nth_error (players s1) actor = Some x1
             /\ DECK x1 = rest ++ [topcard]
             /\ List.length (DECK x1) + List.length (DISCARD x1)
                = List.length (DECK x) + List.length (DISCARD x)
             /\ HAND x1 = HAND x /\ ASIDE x1 = ASIDE x
             /\ PLAY x1 = PLAY x).
  { destruct (prepare_deck_cases actor x s 1 Hx)
      as [[H E] | [H1 [H2 [P E]]]].
    - destruct (pop (DECK x)) as [[t r]|] eqn:Ep.
      + apply pop_Some in Ep. exists s, x, r, t. repeat split; assumption.
      + apply pop_None in Ep. rewrite Ep in *. unfold len in H.
        simpl in H. destruct H as [H|H]; [lia|].
        destruct Hne; congruence.
    - cbv zeta in *.
      destruct (shuffle_list _ _ _) as [sh draws]. cbn [fst snd] in *.
      assert (Ed : DECK x = []).
      { unfold len in H1. destruct (DECK x); [reflexivity|].
        simpl in H1. lia. }
      pose proof (Permutation_length P) as L.
      destruct (pop sh) as [[t r]|] eqn:Ep.
      + apply pop_Some in Ep.
        eexists. eexists. exists r, t. split; [exact E|].
        split; [solve_actor|].
        unfold replenished. cbn [DECK DISCARD HAND ASIDE PLAY].
        rewrite Ed, app_nil_r.
        repeat split; try assumption. simpl. lia.
      + apply pop_None in Ep. subst sh.
        destruct (DISCARD x); [congruence | simpl in L; lia]. }
  destruct Hp as [s1 [x1 [rest [topcard [Ep [Hx1 [Ed [Hl [Hh [Ha Hpl]]]]]]]]]].
  rewrite apply_effect_Initiate. unfold resolve_with.
  assert (G : exists choices,
             generate_choices LibraryProcedure actor s = (Ok choices, s1)
             /\ choices <> []
             /\ forall c, In c choices ->
                   effects c = [Effect_put actor topcard None None]
                   \/ effects c = [Effect_set_aside actor topcard
                                     (zone_of actor ZDECK)]).
  { cbn [generate_choices]. unfold LibraryProcedure_generate_choices.
    erewrite bind_Ok by exact Ep. step. rewrite Ed, pop_app.
    destruct (is_action topcard); eexists;
      (split; [reflexivity|]); (split; [discriminate|]);
      intros c Hc; simpl in Hc; intuition (subst; auto). }
  destruct G as [choices [G [Hn Hc]]].
  destruct (request_input_pick select actor _ actor _ _ _ G Hn)
    as [c [Hin Ec]].
  erewrite bind_Ok by exact Ec.
  assert (Ht : In topcard (DECK x1)).
  { rewrite Ed. apply in_or_app. right. left. reflexivity. }
  destruct (take_piece_In _ _ Ht) as [g [deck' Et]].
  pose proof (take_piece_length _ _ _ _ Et) as Lt.
  assert (T : forall z, z = ZHAND \/ z = ZASIDE ->
            transfer_piece topcard (zone_of actor z) (zone_of actor ZDECK) s1
            = (Ok tt,
               put_actor actor
                 (set_actor_zone z (actor_zone z x1 ++ [g])
                    (set_actor_zone ZDECK deck' x1)) s1)).
  { intros z Hz.
    rewrite (transfer_piece_run topcard (zone_of actor z)
               (zone_of actor ZDECK) s1 (DECK x1) (actor_zone z x1)
               (lookup_actor_zone actor ZDECK x1 s1 Hx1)
               (lookup_actor_zone actor z x1 s1 Hx1)).
    rewrite Et.
    destruct (ZoneRef_eq_dec (zone_of actor ZDECK) (zone_of actor z))
      as [C|_]; [destruct Hz; subst; discriminate|].
    f_equal.
    rewrite (store_zone_actor actor ZDECK deck' x1 s1 Hx1).
    erewrite store_zone_actor by solve_actor.
    rewrite put_actor_put_actor. reflexivity. }
  unfold enact.
  destruct (Hc c Hin) as [-> | ->]; cbn [for_each apply_effect].
  - unfold put. cbn [default_zone].
    erewrite bind_Ok by (apply T; left; reflexivity).
    eexists. eexists. exists g. split; [reflexivity|].
    split; [solve_actor|].
    cbn [set_actor_zone actor_zone HAND DECK DISCARD PLAY ASIDE].
    split; [exact Hpl|]. split; [lia|]. left. rewrite Hh, Ha. tauto.
  - unfold set_aside.
    erewrite bind_Ok by (apply T; right; reflexivity).
    eexists. eexists. exists g. split; [reflexivity|].
    split; [solve_actor|].
    cbn [set_actor_zone actor_zone HAND DECK DISCARD PLAY ASIDE].
    split; [exact Hpl|]. split; [lia|]. right. rewrite Hh, Ha. tauto.
Qed.

(** The teardown of the Library: the cards set aside go to the discard
    pile. *)
Lemma Library_teardown_run : forall fuel actor x s,
  nth_error (players s) actor = Some x ->
  apply_effect simple_effects decision select (S (S fuel))
    (Initiate actor LibraryTeardown None) s
  = (Ok tt,
     put_actor actor
       (set_actor_zone ZASIDE []
          (set_actor_zone ZDISCARD (DISCARD x ++ ASIDE x) x)) s).
Proof.
  intros fuel actor x s Hx.
  rewrite apply_effect_Initiate. unfold resolve_with, request_input.
  unfold expand_choices. cbn [generate_choices].
  unfold LibraryTeardown_generate_choices. steps.
  destruct (ASIDE x) as [|a r] eqn:Ea; steps;
    cbn [List.length]; rewrite Nat.mod_1_r; cbn [nth]; unfold enact.
  - cbn [effects NullOption for_each apply_effect]. unfold do_nothing.
    steps. unfold ret. f_equal. symmetry. rewrite app_nil_r.
    transitivity (put_actor actor x s); [|apply put_actor_same; exact Hx].
    f_equal. destruct x; cbn in *. subst. reflexivity.
  - cbn [effects new_Consequence for_each apply_effect].
    unfold discard_zone. steps. rewrite Ea. reflexivity.
Qed.

(** X16. A LibraryProcess returns, whatever the actor chooses: the hand
    has gained cards at its end and holds at most 7 cards (or as many as
    it held), no card is left set aside, the actor holds as many cards as
    before, and when the hand is left with fewer than 7 cards the deck is
    empty. *)
Theorem LibraryProcess_result : forall fuel actor x s,
  nth_error (players s) actor = Some x ->
  List.length (DECK x) + List.length (DISCARD x) <= fuel ->
  exists n s' y drawn,
    Process_call simple_effects decision select (S (S fuel))
      (LibraryProcess actor) s = (Ok n, s')
    /\ nth_error (players s') actor = Some y
    /\ HAND y = HAND x ++ drawn
    /\ List.length drawn <= n
    /\ List.length (HAND y) <= Nat.max 7 (List.length (HAND x))
    /\ ASIDE y = []
    /\ PLAY y = PLAY x
    /\ List.length (actor_pieces y) = List.length (actor_pieces x)
    /\ (List.length (HAND y) < 7 -> DECK y = []).
Proof.
  intros fuel actor x s Hx Hf.
  unfold Process_call. cbn [setup_effect teardown_effect main_effect].
  step.
  set (Inv := fun s' : State =>
         exists y drawn skipped,
           nth_error (players s') actor = Some y
           /\ HAND y = HAND x ++ drawn
           /\ ASIDE y = ASIDE x ++ skipped
           /\ PLAY y = PLAY x
           /\ List.length drawn + List.length skipped
              + List.length (DECK y) + List.length (DISCARD y)
              = List.length (DECK x) + List.length (DISCARD x)
           /\ List.length (HAND y) <= Nat.max 7 (List.length (HAND x))).
  set (mu := fun s' : State =>
         match nth_error (players s') actor with
         | Some y => List.length (DECK y) + List.length (DISCARD y)
         | None => 0
         end).
  destruct (while_counts Inv mu
              (antecedent (LibraryProcess actor))
              (apply_effect simple_effects decision select (S (S fuel))
                 (Initiate actor LibraryProcedure None)))
    with (fuel := S (S fuel)) (s := s)
    as [n [s' [Ew [[y [drawn [skipped [Hy [Eh [Ea [Epl [Ec Eb]]]]]]]]
                     [Ex Hn]]]]].
  - intros s1 [y [drawn [skipped [Hy _]]]]. eexists. split.
    + eapply LibraryProcess_antecedent; eassumption.
    + intros E. unfold mu. rewrite Hy.
      apply andb_true_iff in E. destruct E as [_ E].
      apply negb_true_iff, Z.eqb_neq in E. unfold len in E. lia.
  - intros s1 [y [drawn [skipped [Hy [Eh [Ea [Epl [Ec Eb]]]]]]]] Et.
    rewrite (LibraryProcess_antecedent _ _ _ Hy) in Et.
    inversion Et as [E]. apply andb_true_iff in E. destruct E as [E7 E].
    apply negb_true_iff, Z.eqb_neq in E. unfold len in E.
    apply Z.ltb_lt in E7. unfold len in E7.
    destruct (Library_main_step fuel actor y s1 Hy)
      as [s2 [y2 [c [Em [Hy2 [P2 [L2 D2]]]]]]].
    { destruct (DECK y); [|left; discriminate].
      destruct (DISCARD y); [simpl in E; lia | right; discriminate]. }
    exists s2. split; [exact Em|]. split.
    + destruct D2 as [[Dh Da] | [Dh Da]].
      * exists y2, (drawn ++ [c]), skipped.
        rewrite Dh, Da, Eh, Ea, P2, Epl, <- app_assoc.
        repeat split; try assumption.
        -- rewrite length_app. cbn [List.length]. lia.
        -- rewrite Eh in E7. rewrite !length_app in *.
           cbn [List.length]. lia.
      * exists y2, drawn, (skipped ++ [c]).
        rewrite Dh, Da, Eh, Ea, P2, Epl, <- app_assoc.
        repeat split; try assumption.
        -- rewrite length_app. cbn [List.length]. lia.
        -- rewrite <- Eh. exact Eb.
    + unfold mu. rewrite Hy2, Hy. lia.
  - exists x, [], []. rewrite !app_nil_r.
    repeat split; try assumption; cbn [List.length]; lia.
  - unfold mu. rewrite Hx. lia.
  - erewrite bind_Ok by exact Ew.
    erewrite bind_Ok by (apply (Library_teardown_run fuel actor y s' Hy)).
    steps.
    rewrite (LibraryProcess_antecedent _ _ _ Hy) in Ex.
    inversion Ex as [E]. unfold mu in Hn. rewrite Hy, Hx in Hn.
    eexists. eexists. eexists. exists drawn.
    split; [reflexivity|]. split; [solve_actor|].
    cbn [set_actor_zone HAND DECK DISCARD PLAY ASIDE].
    split; [exact Eh|]. split; [lia|]. split; [exact Eb|].
    split; [reflexivity|]. split; [exact Epl|]. split.
    + unfold actor_pieces.
      cbn [HAND DECK DISCARD PLAY ASIDE].
      rewrite !length_app, Eh, Ea, Epl, !length_app.
      cbn [List.length]. lia.
    + intros H7. apply andb_false_iff in E. destruct E as [E|E].
      * apply Z.ltb_ge in E. unfold len in E. lia.
      * apply negb_false_iff, Z.eqb_eq in E. unfold len in E.
        destruct (DECK y); [reflexivity | cbn [List.length] in E; lia].
Qed.

End LibraryResult.

(** Alice, alone, resolves the Library with one card in hand. *)
Lemma LibraryProcess_result_witness :
  exists n s' y drawn,
    Process_call Sample.no_simple_effects Sample.no_decision
      Sample.first_choice 5 (LibraryProcess 0) Sample.solo = (Ok n, s')
    /\ nth_error (players s') 0 = Some y
    /\ HAND y = [Sample.Estate 1] ++ drawn
    /\ List.length drawn <= n
    /\ List.length (HAND y) <= Nat.max 7 1
    /\ ASIDE y = []
    /\ PLAY y = []
    /\ List.length (actor_pieces y) = 4
    /\ (List.length (HAND y) < 7 -> DECK y = []).
Proof.
  apply (LibraryProcess_result Sample.no_simple_effects Sample.no_decision
           Sample.first_choice 3 0 Sample.alice Sample.solo).
  - reflexivity.
  - simpl. lia.
Defined.

(** ** Winning outright and winning *)

Section Ranking.

Variable lt : Actor -> Actor -> Res bool.

Lemma would_defeat_then_tie : forall player opponent s s',
  would_defeat lt player opponent s = (Ok true, s') ->
  would_defeat_or_tie lt player opponent s = (Ok true, s').
Proof.
  intros player opponent s s' H.
  unfold would_defeat, would_defeat_or_tie in *. unfold bind in *.
  pose proof (actor_lt_readonly lt opponent player s) as R1.
  destruct (actor_lt lt opponent player s) as [[[|]|e|] s1];
    cbn [snd] in R1; subst; try discriminate.
  pose proof (actor_lt_readonly lt player opponent s) as R2.
  destruct (actor_lt lt player opponent s) as [[[|]|e|] s2];
    cbn [snd] in R2; subst; try discriminate; exact H.
Qed.

Lemma all_would_defeat_then_tie : forall player opponents s s',
  all_ (would_defeat lt player) opponents s = (Ok true, s') ->
  all_ (would_defeat_or_tie lt player) opponents s = (Ok true, s').
Proof.
  intros player opponents. induction opponents as [|o r IH]; intros s s' H.
  - exact H.
  - cbn [all_] in *. unfold bind in H |- *.
    destruct (would_defeat lt player o s) as [[[|]|e|] s1] eqn:E;
      try discriminate.
    rewrite (would_defeat_then_tie _ _ _ _ E). apply IH. exact H.
Qed.

(** X17. An acquisition with which the player would win outright is one
    with which the player would win: whenever would_win_outright returns
    True, would_win returns True too, and leaves the same State. *)
Theorem would_win_outright_would_win : forall player acquisition s s',
  would_win_outright lt player acquisition s = (Ok true, s') ->
  would_win lt player acquisition s = (Ok true, s').
Proof.
  intros player acquisition s s' H.
  unfold would_win_outright, would_win in *. unfold bind at 1 in H.
  unfold bind at 1.
  destruct (modify_collection player acquisition s) as [[[]|e|] s1];
    try discriminate.
  rewrite bind_get in H. rewrite bind_get.
  unfold bind at 1 in H. unfold bind at 1.
  destruct (all_ (would_defeat lt player) (opponents player s1) s1)
    as [[b|e|] s2] eqn:E; try discriminate.
  assert (Hb : b = true).
  { unfold bind in H.
    destruct (revert_collection player s2) as [[[]|e|] s3];
      try discriminate.
    unfold ret in H. inversion H. reflexivity. }
  subst b. rewrite (all_would_defeat_then_tie _ _ _ _ E). exact H.
Qed.

End Ranking.

(** Alice, with a fifth card, would hold more cards than Bob, who holds
    two. *)
Lemma would_win_outright_would_win_witness :
  exists s',
    would_win_outright RankingSample.by_size 0 RankingSample.buy_province
      (Sample.new_state [Sample.alice; WitchSample.bob] [])
    = (Ok true, s')
    /\ would_win RankingSample.by_size 0 RankingSample.buy_province
         (Sample.new_state [Sample.alice; WitchSample.bob] [])
       = (Ok true, s').
Proof.
  eexists. split; [reflexivity|].
  apply (would_win_outright_would_win RankingSample.by_size 0
           RankingSample.buy_province
           (Sample.new_state [Sample.alice; WitchSample.bob] [])).
  reflexivity.
Defined.

(** ** Generating choices changes nothing in the game *)

Lemma with_new_attacks_0 : forall s, with_new_attacks 0 s = s.
Proof.
  intros s. unfold with_new_attacks. cbn [repeat]. rewrite app_nil_r.
  destruct s; reflexivity.
Qed.

Lemma with_new_attacks_add : forall j k s,
  with_new_attacks k (with_new_attacks j s) = with_new_attacks (j + k) s.
Proof.
  intros j k s. unfold with_new_attacks.
  cbn [attack_immunity set_attack_immunity].
  rewrite <- app_assoc, <- repeat_app. reflexivity.
Qed.

Lemma creates_pure : forall A (m : M A),
  (forall s, snd (m s) = s) -> creates_attacks m.
Proof.
  intros A m H s. exists 0. rewrite H. symmetry. apply with_new_attacks_0.
Qed.

Lemma creates_ret : forall A (a : A), creates_attacks (ret a).
Proof. intros. apply creates_pure. reflexivity. Qed.

Lemma creates_raise : forall A e, creates_attacks (@raise A e).
Proof. intros. apply creates_pure. reflexivity. Qed.

Lemma creates_lift : forall A (r : Res A), creates_attacks (lift r).
Proof. intros. apply creates_pure. reflexivity. Qed.

Lemma creates_get : creates_attacks get.
Proof. apply creates_pure. reflexivity. Qed.

Lemma creates_read_actor : forall a, creates_attacks (read_actor a).
Proof.
  intros a. apply creates_pure. intros s. unfold read_actor.
  destruct (nth_error (players s) a); reflexivity.
Qed.

Lemma creates_read_zone : forall r, creates_attacks (read_zone r).
Proof.
  intros r. apply creates_pure. intros s. unfold read_zone.
  destruct (lookup_zone r s); reflexivity.
Qed.

Lemma creates_bind : forall A B (m : M A) (k : A -> M B),
  creates_attacks m -> (forall a, creates_attacks (k a)) ->
  creates_attacks (bind m k).
Proof.
  intros A B m k Hm Hk s. unfold bind.
  destruct (Hm s) as [j Ej].
  destruct (m s) as [[a|e|] s1]; cbn [snd] in *; subst s1.
  - destruct (Hk a (with_new_attacks j s)) as [k' Ek].
    exists (j + k'). rewrite Ek. apply with_new_attacks_add.
  - exists j. reflexivity.
  - exists j. reflexivity.
Qed.

Lemma creates_new_attack : creates_attacks new_attack.
Proof. intros s. exists 1. reflexivity. Qed.

Ltac create :=
  repeat first
    [ apply creates_ret | apply creates_raise | apply creates_lift
    | apply creates_get | apply creates_read_actor
    | apply creates_read_zone | apply creates_new_attack
    | apply creates_bind; [|intros ?]
    | match goal with
      | |- creates_attacks (match ?x with _ => _ end) => destruct x
      | |- creates_attacks (if ?x then _ else _) => destruct x
      end ].

Lemma creates_add_attacks : forall attack victims c,
  creates_attacks (add_attacks attack victims c).
Proof.
  intros attack victims. induction victims as [|v r IH]; intros c.
  - apply creates_ret.
  - cbn [add_attacks]. apply creates_bind; [apply creates_new_attack|].
    intros self. apply IH.
Qed.

Lemma creates_antecedent_Library : forall actor,
  creates_attacks (antecedent (LibraryProcess actor)).
Proof. intros actor. cbn [antecedent]. create. Qed.

(** What follows the preparation of the deck changes nothing. *)
Lemma bind_pure_snd : forall A B (m : M A) (k : A -> M B) s,
  (forall a t, snd (k a t) = t) -> snd (bind m k s) = snd (m s).
Proof.
  intros A B m k s H. unfold bind.
  destruct (m s) as [[a|e|] s1]; cbn [snd]; auto.
Qed.

Lemma pure_read_actor : forall B a (k : Actor -> M B),
  (forall x t, snd (k x t) = t) -> forall t, snd (bind (read_actor a) k t) = t.
Proof.
  intros B a k H t. unfold bind, read_actor.
  destruct (nth_error (players t) a); [apply H | reflexivity].
Qed.

(** X18. Generating the choices of a Decision moves no card and changes
    no counter of the game, whatever the outcome, with two exceptions:
    the four Decisions that look at the top of the deck (Vassal, Library,
    Bandit, Sentry) leave the State that prepare_deck leaves, and the
    others leave the State as it is but for the Attack objects that the
    attack cards create, one flag each, not immune. *)
Theorem generate_choices_frame : forall d actor s,
  let s' := snd (generate_choices d actor s) in
  if prepares_deck d
  then exists n, s' = snd (prepare_deck actor n s)
  else exists k, s' = with_new_attacks k s.
Proof.
  intros d actor s.
  assert (C : prepares_deck d = false ->
              creates_attacks (generate_choices d actor)).
  { intros Hd. destruct d; try discriminate; cbn [generate_choices];
      unfold Decision_generate_choices, ImmunityProcedure_generate_choices,
        ActionChoices_generate_choices, TreasureChoices_generate_choices,
        BuyChoices_generate_choices, MineChoices_generate_choices,
        CellarChoices_generate_choices,
        CellarChoices_generate_human_choices,
        CellarChoices_generate_heuristic_choices,
        RemodelChoices_generate_choices,
        MilitiaVictimProcedure_generate_choices,
        MilitiaChoices_generate_choices, WorkshopChoices_generate_choices,
        ChapelChoices_generate_choices, HarbingerChoices_generate_choices,
        BureaucratProcedure_generate_choices,
        BureaucratProcedure_class_generate_choices,
        BureaucratChoices_generate_choices,
        MoneylenderChoices_generate_choices,
        PoacherProcedure_generate_choices, PoacherChoices_generate_choices,
        ThroneRoomChoices_generate_choices, BanditChoices_generate_choices,
        CouncilRoomProcedure_generate_choices,
        CouncilRoomChoices_generate_choices,
        LibraryTeardown_generate_choices, LibraryChoices_generate_choices,
        WitchProcedure_generate_choices, WitchChoices_generate_choices,
        ArtisanChoices_generate_choices,
        ArtisanChoices_generate_choices_in, lookup_global, engine_get_cards;
      repeat first
        [ apply creates_add_attacks
        | apply creates_antecedent_Library
        | progress create ]. }
  cbv zeta. destruct (prepares_deck d) eqn:Hd.
  - destruct d; try discriminate; cbn [generate_choices];
      unfold VassalChoices_generate_choices,
        BanditProcedure_generate_choices, LibraryProcedure_generate_choices,
        SentryChoices_generate_choices, SentryChoices_generate_choices_in;
      eexists; apply bind_pure_snd; intros _ t;
      apply pure_read_actor; intros x u.
    + destruct (pop (DECK x)) as [[top rest]|]; [|reflexivity].
      destruct (is_action top); reflexivity.
    + destruct (pop (DECK x)) as [[top rest]|]; [|reflexivity].
      destruct (pop rest) as [[second rest']|]; [|reflexivity].
      destruct (Combinatorics.partition could_trash [top; second])
        as [trashables discardables].
      destruct (Combinatorics.get_pieces trashables true None)
        as [|u0 [|u1 [|u2 us]]]; try reflexivity.
      destruct discardables; reflexivity.
    + destruct (pop (DECK x)) as [[top rest]|]; [|reflexivity].
      destruct (is_action top); reflexivity.
    + destruct (pop (DECK x)) as [[top rest]|]; reflexivity.
  - destruct (C eq_refl s) as [k Ek]. exists k. exact Ek.
Qed.

(** ** Attack cards: one Attack object per opponent *)

Lemma add_attacks_run : forall attack victims c s,
  add_attacks attack victims c s
  = (Ok (mkConsequence (class_of c)
           (effects c
            ++ attacks_on attack (List.length (attack_immunity s)) victims)
           (custom_message c) (action c) (gained_piece c) (lost_piece c)),
     with_new_attacks (List.length victims) s).
Proof.
  intros attack victims. induction victims as [|v r IH]; intros c s.
  - cbn [add_attacks attacks_on List.length]. rewrite app_nil_r.
    rewrite with_new_attacks_0. destruct c; reflexivity.
  - cbn [add_attacks attacks_on List.length]. unfold new_attack.
    steps. rewrite IH. cbn [add effects class_of custom_message action
                              gained_piece lost_piece attack_immunity
                              set_attack_immunity].
    rewrite length_app, <- app_assoc. cbn [List.length app].
    rewrite Nat.add_1_r. f_equal.
    change (set_attack_immunity (attack_immunity s ++ [false]) s)
      with (with_new_attacks 1 s).
    apply with_new_attacks_add.
Qed.

(** X19. An attack card (Militia, Bureaucrat, Bandit, Witch) offers one
    Consequence: after the gain that comes with the card, if any, it
    calls one Attack per opponent, in the order of the opponents, each
    call on an Attack object of its own, created not immune; so the Moat
    of one victim protects no other victim. *)
Theorem attack_card_choices : forall d attack actor x s,
  attack_class d = Some attack ->
  nth_error (players s) actor = Some x ->
  exists c gains,
    generate_choices d actor s
    = (Ok [c], with_new_attacks (List.length (opponents actor s)) s)
    /\ effects c
       = gains ++ attacks_on attack (List.length (attack_immunity s))
                    (opponents actor s)
    /\ List.length gains <= 1
    /\ Forall (fun e => match e with
                        | Effect_gain a _ _ => a = actor
                        | Effect_do_nothing a => a = actor
                        | _ => False
                        end) gains.
Proof.
  intros d attack actor x s Hd Hx.
  destruct d; try discriminate; inversion Hd; subst attack;
    cbn [generate_choices].
  - (* Militia *)
    unfold MilitiaChoices_generate_choices. steps.
    erewrite bind_Ok by apply add_attacks_run.
    eexists. exists []. split; [reflexivity|].
    repeat split; [simpl; lia | constructor].
  - (* Bureaucrat *)
    unfold BureaucratChoices_generate_choices. steps.
    destruct (filter_supply _ s) as [|g r] eqn:Es.
    + steps. erewrite bind_Ok by apply add_attacks_run.
      eexists. exists []. split; [reflexivity|].
      repeat split; [simpl; lia | constructor].
    + unfold last_item.
      destruct (pop (g :: r)) as [[top rest]|] eqn:Ep.
      2:{ apply pop_None in Ep. discriminate. }
      cbn [res_bind Acquisition Acquisition_as item_at nth_error
           kwargs_piece lift].
      unfold bind at 1. unfold lift.
      erewrite bind_Ok by apply add_attacks_run.
      eexists. eexists [_]. split; [reflexivity|].
      repeat split; [simpl; lia | repeat constructor].
  - (* Bandit *)
    unfold BanditChoices_generate_choices. steps.
    destruct (filter_supply _ s) as [|g r] eqn:Es.
    + steps. erewrite bind_Ok by apply add_attacks_run.
      eexists. eexists [_]. split; [reflexivity|].
      repeat split; [simpl; lia | repeat constructor].
    + unfold last_item.
      destruct (pop (g :: r)) as [[top rest]|] eqn:Ep.
      2:{ apply pop_None in Ep. discriminate. }
      cbn [res_bind Acquisition Acquisition_as item_at nth_error
           kwargs_piece lift].
      unfold bind at 1. unfold lift.
      erewrite bind_Ok by apply add_attacks_run.
      eexists. eexists [_]. split; [reflexivity|].
      repeat split; [simpl; lia | repeat constructor].
  - (* Witch *)
    unfold WitchChoices_generate_choices. steps.
    erewrite bind_Ok by apply add_attacks_run.
    eexists. exists []. split; [reflexivity|].
    repeat split; [simpl; lia | constructor].
Qed.

(** Alice plays Militia against Bob and Carol. *)
Lemma attack_card_choices_witness :
  exists c gains,
    generate_choices MilitiaChoices 0 CatalogueSample.three_players
    = (Ok [c], with_new_attacks 2 CatalogueSample.three_players)
    /\ effects c
       = gains ++ [Call (MilitiaAttack 1 0); Call (MilitiaAttack 2 1)]
    /\ List.length gains <= 1
    /\ Forall (fun e => match e with
                        | Effect_gain a _ _ => a = 0
                        | Effect_do_nothing a => a = 0
                        | _ => False
                        end) gains.
Proof.
  apply (attack_card_choices MilitiaChoices MilitiaAttack 0
           CatalogueSample.alice CatalogueSample.three_players);
    reflexivity.
Defined.

(** ** Mine and Remodel *)

Lemma res_map_Ok : forall A B (f : A -> Res B) (g : A -> B) xs,
  (forall x, In x xs -> f x = Ok (g x)) -> res_map f xs = Ok (map g xs).
Proof.
  intros A B f g xs. induction xs as [|x r IH]; intros H.
  - reflexivity.
  - cbn [res_map map]. rewrite H by (left; reflexivity).
    cbn [res_bind]. rewrite IH by (intros y Hy; apply H; right; exact Hy).
    reflexivity.
Qed.

Lemma trash_then_gain_run : forall actor t gainables,
  trash_then_gain actor t gainables
  = Ok (match gainables with
        | [] => [new_Consequence [Effect_trash actor t None] None]
        | _ :: _ => map (trash_to_gain actor t) gainables
        end).
Proof.
  intros actor t gainables. unfold trash_then_gain.
  destruct gainables as [|g r]; [reflexivity|].
  apply res_map_Ok. intros x _. reflexivity.
Qed.

Lemma get_pieces_In : forall zone unique predicate d,
  In d (Combinatorics.get_pieces zone unique (Some predicate)) ->
  In d zone /\ predicate d = true.
Proof.
  intros zone unique predicate d H. unfold Combinatorics.get_pieces in H.
  destruct unique; [apply first_of_each_type_In in H|];
    apply filter_In in H; exact H.
Qed.

Lemma trash_then_gain_offers : forall gainable actor s trashables,
  exists offers,
    res_map (fun t => trash_then_gain actor t
                        (filter_supply (gainable t) s)) trashables
    = Ok offers
    /\ (trashables <> [] -> List.concat offers <> [])
    /\ Forall (fun c => exists t, In t trashables
                                  /\ trash_offer gainable actor s t c)
         (List.concat offers).
Proof.
  intros gainable actor s trashables.
  set (f := fun t => match filter_supply (gainable t) s with
                     | [] => [new_Consequence [Effect_trash actor t None]
                                None]
                     | _ :: _ => map (trash_to_gain actor t)
                                   (filter_supply (gainable t) s)
                     end).
  exists (map f trashables).
  split; [|split].
  - apply res_map_Ok. intros t _. apply trash_then_gain_run.
  - destruct trashables as [|t r]; [congruence|]. intros _.
    cbn [map List.concat]. unfold f at 1.
    destruct (filter_supply (gainable t) s); discriminate.
  - apply Forall_forall. intros c Hc. apply in_concat in Hc.
    destruct Hc as [cs [Hcs Hc]]. apply in_map_iff in Hcs.
    destruct Hcs as [t [<- Ht]]. exists t. split; [exact Ht|].
    unfold f in Hc.
    destruct (filter_supply (gainable t) s) as [|g gs] eqn:E.
    + destruct Hc as [<-|[]]. left. split; [exact E | reflexivity].
    + apply in_map_iff in Hc. destruct Hc as [g' [<- Hg]].
      right. exists g'. rewrite E. split; [exact Hg | reflexivity].
Qed.

Lemma Mine_offers : forall actor x s,
  nth_error (players s) actor = Some x ->
  exists choices,
    generate_choices MineChoices actor s
    = (Ok (NullOption actor None :: choices), s).
Proof.
  intros actor x s Hx.
  destruct (trash_then_gain_offers mine_gainable actor s
              (Combinatorics.get_pieces (HAND x) true (Some is_treasure)))
    as [offers [E _]].
  exists (List.concat offers).
  cbn [generate_choices]. unfold MineChoices_generate_choices.
  steps. unfold mine_gainable in E.
  unfold bind, lift. rewrite E. reflexivity.
Qed.

Lemma Remodel_offers : forall actor x s,
  nth_error (players s) actor = Some x ->
  exists choices, generate_choices RemodelChoices actor s = (Ok choices, s).
Proof.
  intros actor x s Hx.
  cbn [generate_choices]. unfold RemodelChoices_generate_choices. steps.
  destruct (Combinatorics.get_pieces (HAND x) true None) as [|t0 ts].
  - eexists. reflexivity.
  - destruct (trash_then_gain_offers remodel_gainable actor s (t0 :: ts))
      as [offers [E _]].
    unfold remodel_gainable in E. unfold bind, lift. rewrite E.
    eexists. reflexivity.
Qed.

(** X20. Mine offers to do nothing and, for every choice after that, a
    treasure of the hand is trashed and a treasure on top of a Supply
    pile costing at most 3 more is gained; Remodel does the same for any
    card of the hand and any card costing at most 2 more, and offers to
    do nothing only when the hand is empty.  When the Supply holds
    nothing to gain for a card, the choice offered for it is to trash it
    for nothing.  The effects of a choice name no zone: enacting it
    trashes from the hand and gains to the discard pile, for Mine as for
    Remodel. *)
Theorem Mine_and_Remodel_choices : forall actor x s,
  nth_error (players s) actor = Some x ->
  (exists choices,
     generate_choices MineChoices actor s
     = (Ok (NullOption actor None :: choices), s)
     /\ Forall (fun c => exists t,
                   In t (HAND x) /\ is_treasure t = true
                   /\ trash_offer mine_gainable actor s t c) choices)
  /\ (exists choices,
        generate_choices RemodelChoices actor s = (Ok choices, s)
        /\ choices <> []
        /\ (HAND x = [] -> choices = [NullOption actor None])
        /\ (HAND x <> [] ->
            Forall (fun c => exists t,
                      In t (HAND x)
                      /\ trash_offer remodel_gainable actor s t c)
              choices))
  /\ (forall simple_effects decision select fuel t g s0,
        enact simple_effects decision select (S fuel)
          (effects (trash_to_gain actor t g)) s0
        = (trash actor t (Some (zone_of actor ZHAND)) ;;
           gain actor g (Some (zone_of actor ZDISCARD))) s0).
Proof.
  intros actor x s Hx. split; [|split].
  - destruct (trash_then_gain_offers mine_gainable actor s
                (Combinatorics.get_pieces (HAND x) true (Some is_treasure)))
      as [offers [E [_ F]]].
    exists (List.concat offers). split.
    + cbn [generate_choices]. unfold MineChoices_generate_choices.
      steps. unfold mine_gainable in E.
      unfold bind, lift. rewrite E. reflexivity.
    + eapply Forall_impl; [|exact F].
      intros c [t [Ht Ho]]. apply get_pieces_In in Ht.
      exists t. tauto.
  - cbn [generate_choices]. unfold RemodelChoices_generate_choices. steps.
    destruct (Combinatorics.get_pieces (HAND x) true None)
      as [|t0 ts] eqn:Eg.
    + exists [NullOption actor None]. split; [reflexivity|].
      split; [discriminate|]. split; [reflexivity|].
      intros Hne. destruct (HAND x) as [|h hs]; [congruence|].
      destruct (get_pieces_all_nonempty h hs) as [u [us Eu]]. congruence.
    + destruct (trash_then_gain_offers remodel_gainable actor s (t0 :: ts))
        as [offers [E [N F]]].
      exists (List.concat offers). split; [|split; [|split]].
      * unfold remodel_gainable in E. unfold bind, lift. rewrite E.
        reflexivity.
      * apply N. discriminate.
      * intros Hh. rewrite Hh in Eg. discriminate.
      * intros _. eapply Forall_impl; [|exact F].
        intros c [t [Ht Ho]]. rewrite <- Eg in Ht.
        apply get_pieces_all_In in Ht. exists t. tauto.
  - intros simple_effects decision select fuel t g s0. unfold enact.
    cbn [effects trash_to_gain for_each apply_effect].
    change (trash actor t None)
      with (trash actor t (Some (zone_of actor ZHAND))).
    change (gain actor g None)
      with (gain actor g (Some (zone_of actor ZDISCARD))).
    unfold bind.
    destruct (trash actor t (Some (zone_of actor ZHAND)) s0)
      as [[[]|e|] s1]; try reflexivity.
    destruct (gain actor g (Some (zone_of actor ZDISCARD)) s1)
      as [[[]|e|] s2]; reflexivity.
Qed.

(** Alice, with a Copper in hand and a Silver in the Supply, can turn
    the one into the other: the Copper goes to the trash and the Silver
    to her discard pile. *)
Lemma Mine_and_Remodel_choices_witness :
  let s := Sample.new_state
             [Sample.new_actor "Alice" [Sample.Copper 2] [] []]
             [[]; []; []; []; []; [Sample.Silver 7]] in
  let run := enact Sample.no_simple_effects Sample.no_decision
               Sample.first_choice 1
               (effects (trash_to_gain 0 (Sample.Copper 2)
                           (Sample.Silver 7))) s in
  (exists choices,
     generate_choices MineChoices 0 s
     = (Ok (NullOption 0 None :: choices), s)
     /\ Forall (fun c => exists t,
                   In t [Sample.Copper 2] /\ is_treasure t = true
                   /\ trash_offer mine_gainable 0 s t c) choices)
  /\ generate_choices MineChoices 0 s
     = (Ok [NullOption 0 None;
            trash_to_gain 0 (Sample.Copper 2) (Sample.Silver 7)], s)
  /\ fst run = Ok tt
  /\ option_map zones_of (nth_error (players (snd run)) 0)
     = Some ([], [], [Sample.Silver 7], [], [])
  /\ TRASH (snd run) = [Sample.Copper 2]
  /\ piles (snd run) = [[]; []; []; []; []; []].
Proof.
  cbv zeta. split; [|repeat split].
  apply (Mine_and_Remodel_choices 0
           (Sample.new_actor "Alice" [Sample.Copper 2] [] [])
           (Sample.new_state
              [Sample.new_actor "Alice" [Sample.Copper 2] [] []]
              [[]; []; []; []; []; [Sample.Silver 7]])).
  reflexivity.
Defined.

(** ** The choices offered can be enacted *)

Lemma take_piece_NoDup : forall p l g rest,
  take_piece p l = Some (g, rest) ->
  NoDup (map uid l) ->
  NoDup (map uid rest)
  /\ forall q, In q l -> uid q <> uid p -> In q rest.
Proof.
  intros p l g rest H Hn.
  destruct (take_piece_split _ _ _ _ H) as [b [a [-> [-> [Hg Hb]]]]].
  split.
  - rewrite map_app in *. cbn [map] in Hn.
    eapply NoDup_remove_1. exact Hn.
  - intros q Hq Hu. apply in_app_or in Hq. apply in_or_app.
    destruct Hq as [Hq|[<-|Hq]]; [left; exact Hq | | right; exact Hq].
    exfalso. apply Hu. unfold piece_is in Hg. apply Nat.eqb_eq. exact Hg.
Qed.

Lemma trash_run : forall actor x s t z g rest,
  nth_error (players s) actor = Some x ->
  take_piece t (actor_zone z x) = Some (g, rest) ->
  trash actor t (Some (zone_of actor z)) s
  = (Ok tt,
     set_TRASH (TRASH s ++ [g])
       (put_actor actor (set_actor_zone z rest x) s)).
Proof.
  intros actor x s t z g rest Hx Ht. unfold trash. cbn [default_zone].
  rewrite (transfer_piece_run t TRASH_ref (zone_of actor z) s
             (actor_zone z x) (TRASH s)
             (lookup_actor_zone actor z x s Hx) eq_refl).
  rewrite Ht.
  destruct (ZoneRef_eq_dec (zone_of actor z) TRASH_ref); [discriminate|].
  rewrite (store_zone_actor actor z rest x s Hx). reflexivity.
Qed.

(** A piece on top of a pile of a well-formed Supply can be taken from
    the pile of its type. *)
Lemma supply_top : forall predicate s g,
  supply_wf s -> In g (filter_supply predicate s) ->
  exists pile g' rest,
    nth_error (piles s) (total_order_index g) = Some pile
    /\ take_piece g pile = Some (g', rest).
Proof.
  intros predicate s g Hw Hg.
  destruct (filter_supply_In _ _ _ Hg) as [_ [pile [rest [Hp E]]]].
  destruct (In_nth_error _ _ Hp) as [i Hi].
  assert (Hin : In g pile).
  { rewrite E. apply in_or_app. right. left. reflexivity. }
  rewrite <- (Hw i pile g Hi Hin) in Hi.
  destruct (take_piece_In g pile Hin) as [g' [rest' Et]].
  exists pile, g', rest'. split; assumption.
Qed.

Lemma gain_ok : forall actor x s g z pile g' rest,
  nth_error (players s) actor = Some x ->
  nth_error (piles s) (total_order_index g) = Some pile ->
  take_piece g pile = Some (g', rest) ->
  exists s', handle_acquisition actor g (zone_of actor z) s = (Ok tt, s').
Proof.
  intros actor x s g z pile g' rest Hx Hp Ht.
  rewrite (handle_acquisition_run actor actor x g z s pile g' rest Hx Hp Ht).
  eexists. reflexivity.
Qed.

(** The sublists of a list of distinct objects are lists of distinct
    objects of that list. *)
Lemma combinations_sub : forall k (l c : list Piece),
  In c (Combinatorics.combinations k l) ->
  NoDup (map uid l) ->
  NoDup (map uid c) /\ incl c l.
Proof.
  intros k l. revert k. induction l as [|x l IH]; intros k c H Hn.
  - destruct k; simpl in H.
    + destruct H as [<-|[]]. split; [constructor | intros ? []].
    + contradiction.
  - destruct k as [|k].
    + simpl in H. destruct H as [<-|[]].
      split; [constructor | intros ? []].
    + cbn [Combinatorics.combinations] in H.
      cbn [map] in Hn. inversion Hn as [|? ? Hx Hl]; subst.
      apply in_app_or in H. destruct H as [H|H].
      * apply in_map_iff in H. destruct H as [c' [<- Hc']].
        destruct (IH k c' Hc' Hl) as [N I]. split.
        -- cbn [map]. constructor; [|exact N].
           intros C. apply Hx. apply in_map_iff in C.
           destruct C as [y [Ey Hy]]. rewrite <- Ey. apply in_map.
           apply I. exact Hy.
        -- intros y [<-|Hy]; [left; reflexivity | right; apply I; exact Hy].
      * destruct (IH (S k) c H Hl) as [N I]. split; [exact N|].
        intros y Hy. right. apply I. exact Hy.
Qed.

Lemma get_piece_combinations_sub : forall l kmin kmax c,
  In c (Combinatorics.get_piece_combinations l kmin kmax) ->
  NoDup (map uid l) ->
  NoDup (map uid c) /\ incl c l.
Proof.
  intros l kmin kmax c H Hn. unfold Combinatorics.get_piece_combinations in H.
  apply in_flat_map in H. destruct H as [k [_ H]].
  eapply combinations_sub; eassumption.
Qed.

Lemma trash_pieces_ok : forall actor combo x s,
  nth_error (players s) actor = Some x ->
  NoDup (map uid (HAND x)) ->
  NoDup (map uid combo) ->
  incl combo (HAND x) ->
  exists s', trash_pieces actor combo None s = (Ok tt, s').
Proof.
  intros actor combo. induction combo as [|p r IH]; intros x s Hx Hn Hc Hi.
  - eexists. reflexivity.
  - unfold trash_pieces. cbn [for_each].
    assert (Hp : In p (HAND x)) by (apply Hi; left; reflexivity).
    destruct (take_piece_In p (HAND x) Hp) as [g [rest Et]].
    erewrite bind_Ok
      by (apply (trash_run actor x s p ZHAND g rest Hx Et)).
    destruct (take_piece_NoDup _ _ _ _ Et Hn) as [Nr Ir].
    cbn [map] in Hc. inversion Hc as [|? ? Hp' Hr]; subst.
    apply (IH (set_actor_zone ZHAND rest x)).
    + solve_actor.
    + exact Nr.
    + exact Hr.
    + intros q Hq. cbn [set_actor_zone HAND]. apply Ir.
      * apply Hi. right. exact Hq.
      * intros C. apply Hp'. rewrite <- C. apply in_map. exact Hq.
Qed.

Lemma discard_pieces_run : forall actor x s pieces z,
  nth_error (players s) actor = Some x ->
  exists y,
    discard_pieces actor pieces (Some (zone_of actor z)) s
    = (Ok tt, put_actor actor y s).
Proof.
  intros actor x s pieces z Hx.
  unfold discard_pieces. cbn [default_zone]. step. step.
  destruct (Combinatorics.partition _ (actor_zone z x))
    as [to_discard to_keep].
  destruct z; steps; erewrite write_zone_actor by solve_actor;
    rewrite ?put_actor_put_actor; eexists; reflexivity.
Qed.

Lemma draw_ok : forall actor x s n,
  nth_error (players s) actor = Some x ->
  exists s', draw actor n s = (Ok tt, s').
Proof.
  intros actor x s n Hx.
  destruct (Z_le_gt_dec n (len (DECK x))) as [H|H].
  - rewrite (draw_plain actor x s n Hx) by (left; exact H).
    eexists. reflexivity.
  - destruct (DISCARD x) as [|d ds] eqn:Ed.
    + rewrite (draw_plain actor x s n Hx) by (right; exact Ed).
      eexists. reflexivity.
    + rewrite (draw_short actor x s n Hx);
        [| lia | rewrite Ed; discriminate].
      eexists. reflexivity.
Qed.

Section Legal.

Variable simple_effects : Piece -> option (list Effect).
Variable decision : Piece -> option Decision.
Variable select : nat -> list Consequence -> Decision -> State -> nat.

Let runs (fuel : nat) (c : Consequence) (s : State) : Prop :=
  exists s', enact simple_effects decision select (S fuel) (effects c) s
             = (Ok tt, s').

Lemma runs_NullOption : forall fuel actor m s,
  runs fuel (NullOption actor m) s.
Proof. intros. eexists. reflexivity. Qed.

Lemma runs_trash_offer : forall fuel gainable actor x s t c,
  nth_error (players s) actor = Some x ->
  supply_wf s ->
  In t (HAND x) ->
  trash_offer gainable actor s t c ->
  runs fuel c s.
Proof.
  intros fuel gainable actor x s t c Hx Hw Ht Ho.
  destruct (take_piece_In t (HAND x) Ht) as [g [rest Et]].
  pose proof (trash_run actor x s t ZHAND g rest Hx Et) as T.
  destruct Ho as [[_ ->] | [g' [Hg ->]]]; unfold runs, enact;
    cbn [effects new_Consequence trash_to_gain for_each apply_effect].
  - change (trash actor t None)
      with (trash actor t (Some (zone_of actor ZHAND))).
    erewrite bind_Ok by exact T. eexists. reflexivity.
  - change (trash actor t None)
      with (trash actor t (Some (zone_of actor ZHAND))).
    erewrite bind_Ok by exact T.
    destruct (supply_top _ _ _ Hw Hg) as [pile [g2 [rest2 [Hp Et2]]]].
    unfold gain. cbn [default_zone].
    match goal with
    | |- exists _, bind _ _ ?st = _ =>
        destruct (gain_ok actor (set_actor_zone ZHAND rest x) st g' ZDISCARD
                    pile g2 rest2) as [s' E];
          [solve_actor
          | through_setters; rewrite ?piles_put_actor; exact Hp
          | exact Et2 |]
    end.
    erewrite bind_Ok by exact E. eexists. reflexivity.
Qed.

Lemma legal_Buy : forall fuel actor x s choices s1 c,
  nth_error (players s) actor = Some x ->
  supply_wf s ->
  generate_choices BuyChoices actor s = (Ok choices, s1) ->
  In c choices -> runs fuel c s1.
Proof.
  intros fuel actor x s choices s1 c Hx Hw G Hc.
  cbn [generate_choices] in G. rewrite BuyChoices_generate_choices_run in G.
  inversion G; subst; clear G. destruct Hc as [<-|Hc].
  - unfold runs, enact. cbn [effects PassOption for_each apply_effect].
    unfold end_phase. steps. eexists. reflexivity.
  - destruct (Z.eqb (n_buy s1) 0); [contradiction|].
    apply in_map_iff in Hc. destruct Hc as [g [<- Hg]].
    destruct (supply_top _ _ _ Hw Hg) as [pile [g2 [rest2 [Hp Et2]]]].
    unfold runs, enact.
    cbn [effects purchase_of for_each apply_effect].
    unfold buy_piece, pay_cost. cbn [default_zone]. steps.
    match goal with
    | |- exists _, bind _ _ ?st = _ =>
        destruct (gain_ok actor x st g ZDISCARD pile g2 rest2) as [s' E];
          [solve_actor | through_setters; exact Hp | exact Et2 |]
    end.
    erewrite bind_Ok by exact E. eexists. reflexivity.
Qed.

Lemma legal_Workshop : forall fuel actor x s choices s1 c,
  nth_error (players s) actor = Some x ->
  supply_wf s ->
  generate_choices WorkshopChoices actor s = (Ok choices, s1) ->
  In c choices -> runs fuel c s1.
Proof.
  intros fuel actor x s choices s1 c Hx Hw G Hc.
  cbn [generate_choices] in G. unfold WorkshopChoices_generate_choices in G.
  rewrite bind_get in G.
  destruct (filter_supply (fun x => Z.leb (cost x) 4) s) as [|g0 gs] eqn:Ef.
  - inversion G; subst. destruct Hc as [<-|[]]. apply runs_NullOption.
  - unfold lift in G.
    rewrite (res_map_Ok _ _ _
               (fun gainable =>
                  mkConsequence class_Acquisition
                    [Effect_gain actor gainable None] None None
                    (Some gainable) None)) in G
      by (intros; reflexivity).
    inversion G; subst; clear G.
    change (In c (map (fun gainable =>
                         mkConsequence class_Acquisition
                           [Effect_gain actor gainable None] None None
                           (Some gainable) None) (g0 :: gs))) in Hc.
    apply in_map_iff in Hc. destruct Hc as [g [<- Hg]].
    rewrite <- Ef in Hg.
    destruct (supply_top _ _ _ Hw Hg) as [pile [g2 [rest2 [Hp Et2]]]].
    unfold runs, enact. cbn [effects for_each apply_effect].
    unfold gain. cbn [default_zone].
    destruct (gain_ok actor x s1 g ZDISCARD pile g2 rest2 Hx Hp Et2)
      as [s' E].
    erewrite bind_Ok by exact E. eexists. reflexivity.
Qed.

Lemma legal_Mine : forall fuel actor x s choices s1 c,
  nth_error (players s) actor = Some x ->
  supply_wf s ->
  generate_choices MineChoices actor s = (Ok choices, s1) ->
  In c choices -> runs fuel c s1.
Proof.
  intros fuel actor x s choices s1 c Hx Hw G Hc.
  destruct (trash_then_gain_offers mine_gainable actor s
              (Combinatorics.get_pieces (HAND x) true (Some is_treasure)))
    as [offers [E [_ F]]].
  cbn [generate_choices] in G. unfold MineChoices_generate_choices in G.
  rewrite bind_get in G.
  erewrite bind_Ok in G by (apply read_actor_Ok; exact Hx).
  unfold mine_gainable in E. unfold bind, lift in G. rewrite E in G.
  inversion G; subst; clear G.
  destruct Hc as [<-|Hc]; [apply runs_NullOption|].
  rewrite Forall_forall in F. destruct (F c Hc) as [t [Ht Ho]].
  apply get_pieces_In in Ht.
  eapply runs_trash_offer; [exact Hx | exact Hw | apply Ht | exact Ho].
Qed.

Lemma legal_Remodel : forall fuel actor x s choices s1 c,
  nth_error (players s) actor = Some x ->
  supply_wf s ->
  generate_choices RemodelChoices actor s = (Ok choices, s1) ->
  In c choices -> runs fuel c s1.
Proof.
  intros fuel actor x s choices s1 c Hx Hw G Hc.
  cbn [generate_choices] in G. unfold RemodelChoices_generate_choices in G.
  rewrite bind_get in G.
  erewrite bind_Ok in G by (apply read_actor_Ok; exact Hx).
  destruct (Combinatorics.get_pieces (HAND x) true None)
    as [|t0 ts] eqn:Eg.
  - inversion G; subst. destruct Hc as [<-|[]]. apply runs_NullOption.
  - destruct (trash_then_gain_offers remodel_gainable actor s (t0 :: ts))
      as [offers [E [_ F]]].
    unfold remodel_gainable in E. unfold bind, lift in G. rewrite E in G.
    inversion G; subst; clear G.
    rewrite Forall_forall in F. destruct (F c Hc) as [t [Ht Ho]].
    rewrite <- Eg in Ht. apply get_pieces_all_In in Ht.
    eapply runs_trash_offer; [exact Hx | exact Hw | exact Ht | exact Ho].
Qed.

Lemma sorted_In : forall A (le : A -> A -> bool) l x,
  In x (sorted le l) -> In x l.
Proof.
  intros A le l x. unfold sorted.
  assert (I : forall y l', In x (insert_sorted le y l') -> x = y \/ In x l').
  { intros y l'. induction l' as [|z r IH]; simpl; intros H.
    - destruct H as [<-|[]]. left. reflexivity.
    - destruct (le y z).
      + destruct H as [<-|H]; [left; reflexivity | right; exact H].
      + destruct H as [<-|H]; [right; left; reflexivity|].
        destruct (IH H) as [->|H'];
          [left; reflexivity | right; right; exact H']. }
  induction l as [|y r IH]; simpl; intros H.
  - contradiction.
  - destruct (I _ _ H) as [->|H'];
      [left; reflexivity | right; apply IH; exact H'].
Qed.

Lemma runs_discard_then_draw : forall fuel actor x s pieces n,
  nth_error (players s) actor = Some x ->
  runs fuel (new_Consequence [Effect_discard_pieces actor pieces None;
                              Effect_draw actor n] None) s.
Proof.
  intros fuel actor x s pieces n Hx. unfold runs, enact.
  cbn [effects new_Consequence for_each apply_effect].
  destruct (discard_pieces_run actor x s pieces ZHAND Hx) as [y E].
  change (discard_pieces actor pieces None)
    with (discard_pieces actor pieces (Some (zone_of actor ZHAND))).
  erewrite bind_Ok by exact E.
  destruct (draw_ok actor y (put_actor actor y s) n) as [s' D];
    [solve_actor|].
  erewrite bind_Ok by exact D. eexists. reflexivity.
Qed.

Lemma legal_Cellar : forall fuel actor x s choices s1 c,
  nth_error (players s) actor = Some x ->
  generate_choices CellarChoices actor s = (Ok choices, s1) ->
  In c choices -> runs fuel c s1.
Proof.
  intros fuel actor x s choices s1 c Hx G Hc.
  cbn [generate_choices] in G. unfold CellarChoices_generate_choices in G.
  erewrite bind_Ok in G by (apply read_actor_Ok; exact Hx).
  destruct (String.eqb (actor_name x) "You").
  - unfold CellarChoices_generate_human_choices in G.
    rewrite bind_bind in G.
    erewrite bind_Ok in G by (apply read_actor_Ok; exact Hx).
    rewrite !bind_ret in G. inversion G; subst; clear G.
    destruct Hc as [<-|Hc]; [apply runs_NullOption|].
    apply sorted_In in Hc.
    destruct (HAND x) as [|h hs]; [contradiction|].
    apply in_map_iff in Hc. destruct Hc as [combo [<- _]].
    eapply runs_discard_then_draw. exact Hx.
  - unfold CellarChoices_generate_heuristic_choices in G.
    rewrite bind_bind in G.
    erewrite bind_Ok in G by (apply read_actor_Ok; exact Hx).
    destruct (Combinatorics.get_pieces (HAND x) false (Some is_victory))
      as [|v vs]; rewrite !bind_ret in G; inversion G; subst; clear G.
    + destruct Hc as [<-|[]]. apply runs_NullOption.
    + destruct Hc as [<-|[<-|[]]]; [apply runs_NullOption|].
      eapply runs_discard_then_draw. exact Hx.
Qed.

Lemma discard_piece_ok : forall actor x s piece source,
  nth_error (players s) actor = Some x ->
  source = None \/ (exists z, source = Some (zone_of actor z)) ->
  exists y, discard_piece actor piece source s = (Ok tt, put_actor actor y s).
Proof.
  intros actor x s piece source Hx [->|[z ->]].
  - change (discard_piece actor piece None)
      with (discard_piece actor piece (Some (zone_of actor ZHAND))).
    rewrite (discard_piece_run actor x s piece ZHAND Hx).
    eexists. reflexivity.
  - rewrite (discard_piece_run actor x s piece z Hx). eexists. reflexivity.
Qed.

Lemma legal_MilitiaVictim : forall fuel actor x s choices s1 c,
  nth_error (players s) actor = Some x ->
  generate_choices MilitiaVictimProcedure actor s = (Ok choices, s1) ->
  In c choices -> runs fuel c s1.
Proof.
  intros fuel actor x s choices s1 c Hx G Hc.
  cbn [generate_choices] in G.
  unfold MilitiaVictimProcedure_generate_choices in G.
  erewrite bind_Ok in G by (apply read_actor_Ok; exact Hx).
  inversion G; subst; clear G.
  apply in_map_iff in Hc. destruct Hc as [d [<- _]].
  unfold runs, enact. cbn [effects new_Consequence for_each apply_effect].
  destruct (discard_piece_ok actor x s1 d None Hx) as [y E];
    [left; reflexivity|].
  erewrite bind_Ok by exact E. eexists. reflexivity.
Qed.

Lemma legal_Chapel : forall fuel actor x s choices s1 c,
  nth_error (players s) actor = Some x ->
  NoDup (map uid (HAND x)) ->
  generate_choices ChapelChoices actor s = (Ok choices, s1) ->
  In c choices -> runs fuel c s1.
Proof.
  intros fuel actor x s choices s1 c Hx Hn G Hc.
  cbn [generate_choices] in G. unfold ChapelChoices_generate_choices in G.
  erewrite bind_Ok in G by (apply read_actor_Ok; exact Hx).
  destruct (HAND x) as [|h hs] eqn:Eh; inversion G; subst; clear G.
  - destruct Hc as [<-|[]]. apply runs_NullOption.
  - destruct Hc as [<-|Hc]; [apply runs_NullOption|].
    apply in_map_iff in Hc. destruct Hc as [combo [<- Hcombo]].
    destruct (get_piece_combinations_sub _ _ _ _ Hcombo Hn) as [N I].
    unfold runs, enact. cbn [effects new_Consequence for_each apply_effect].
    destruct (trash_pieces_ok actor combo x s1 Hx) as [s' E];
      [rewrite Eh; exact Hn | exact N | rewrite Eh; exact I|].
    erewrite bind_Ok by exact E. eexists. reflexivity.
Qed.

Lemma transfer_piece_ok : forall actor x s piece zd zs,
  nth_error (players s) actor = Some x ->
  In piece (actor_zone zs x) ->
  exists s', transfer_piece piece (zone_of actor zd) (zone_of actor zs) s
             = (Ok tt, s').
Proof.
  intros actor x s piece zd zs Hx Hin.
  rewrite (transfer_piece_run piece (zone_of actor zd) (zone_of actor zs) s
             (actor_zone zs x) (actor_zone zd x)
             (lookup_actor_zone actor zs x s Hx)
             (lookup_actor_zone actor zd x s Hx)).
  destruct (take_piece_In piece _ Hin) as [g [rest ->]].
  eexists. reflexivity.
Qed.

Lemma legal_Harbinger : forall fuel actor x s choices s1 c,
  nth_error (players s) actor = Some x ->
  generate_choices HarbingerChoices actor s = (Ok choices, s1) ->
  In c choices -> runs fuel c s1.
Proof.
  intros fuel actor x s choices s1 c Hx G Hc.
  cbn [generate_choices] in G. unfold HarbingerChoices_generate_choices in G.
  erewrite bind_Ok in G by (apply read_actor_Ok; exact Hx).
  inversion G; subst; clear G.
  destruct Hc as [<-|Hc]; [apply runs_NullOption|].
  apply in_map_iff in Hc. destruct Hc as [target [<- Ht]].
  apply get_pieces_all_In in Ht.
  unfold runs, enact. cbn [effects new_Consequence for_each apply_effect].
  unfold topdeck.
  destruct (transfer_piece_ok actor x s1 target ZDECK ZDISCARD Hx Ht)
    as [s' E].
  erewrite bind_Ok by exact E. eexists. reflexivity.
Qed.

Lemma legal_Moneylender : forall fuel actor x s choices s1 c,
  nth_error (players s) actor = Some x ->
  generate_choices MoneylenderChoices actor s = (Ok choices, s1) ->
  In c choices -> runs fuel c s1.
Proof.
  intros fuel actor x s choices s1 c Hx G Hc.
  cbn [generate_choices] in G.
  unfold MoneylenderChoices_generate_choices in G.
  erewrite bind_Ok in G by (apply read_actor_Ok; exact Hx).
  destruct (Combinatorics.get_pieces (HAND x) true _) as [|c0 cs] eqn:Eg;
    inversion G; subst; clear G.
  - destruct Hc as [<-|[]]. apply runs_NullOption.
  - destruct Hc as [<-|[<-|[]]]; [apply runs_NullOption|].
    assert (Hin : In c0 (HAND x)).
    { eapply (get_pieces_In (HAND x) true). rewrite Eg. left. reflexivity. }
    destruct (take_piece_In c0 (HAND x) Hin) as [g [rest Et]].
    unfold runs, enact. cbn [effects new_Consequence for_each apply_effect].
    change (trash actor c0 None)
      with (trash actor c0 (Some (zone_of actor ZHAND))).
    erewrite bind_Ok by (apply (trash_run actor x s1 c0 ZHAND g rest Hx Et)).
    unfold add_coin. steps. eexists. reflexivity.
Qed.

Lemma runs_discards : forall fuel actor cards x s,
  nth_error (players s) actor = Some x ->
  exists s',
    for_each (map (fun card => Effect_discard_piece actor card None) cards)
      (apply_effect simple_effects decision select (S fuel)) s
    = (Ok tt, s').
Proof.
  intros fuel actor cards. induction cards as [|d r IH]; intros x s Hx.
  - eexists. reflexivity.
  - cbn [map for_each apply_effect].
    destruct (discard_piece_ok actor x s d None Hx) as [y E];
      [left; reflexivity|].
    erewrite bind_Ok by exact E.
    apply (IH y). solve_actor.
Qed.

Lemma legal_PoacherProcedure : forall fuel actor x s choices s1 c,
  nth_error (players s) actor = Some x ->
  generate_choices PoacherProcedure actor s = (Ok choices, s1) ->
  In c choices -> runs fuel c s1.
Proof.
  intros fuel actor x s choices s1 c Hx G Hc.
  cbn [generate_choices] in G. unfold PoacherProcedure_generate_choices in G.
  erewrite bind_Ok in G by (apply read_actor_Ok; exact Hx).
  inversion G; subst; clear G. destruct Hc as [<-|[]].
  unfold runs, enact. cbn [effects new_Consequence].
  eapply runs_discards. exact Hx.
Qed.

Lemma legal_CouncilRoomProcedure : forall fuel actor x s choices s1 c,
  nth_error (players s) actor = Some x ->
  generate_choices CouncilRoomProcedure actor s = (Ok choices, s1) ->
  In c choices -> runs fuel c s1.
Proof.
  intros fuel actor x s choices s1 c Hx G Hc.
  cbn [generate_choices] in G. inversion G; subst; clear G.
  destruct Hc as [<-|[]].
  unfold runs, enact. cbn [effects new_Consequence for_each apply_effect].
  destruct (draw_ok actor x s1 1 Hx) as [s' E].
  erewrite bind_Ok by exact E. eexists. reflexivity.
Qed.

Lemma prepare_deck_actor : forall actor x s n,
  nth_error (players s) actor = Some x ->
  exists s1 x1,
    prepare_deck actor n s = (Ok tt, s1)
    /\ nth_error (players s1) actor = Some x1.
Proof.
  intros actor x s n Hx.
  destruct (prepare_deck_cases actor x s n Hx) as [[_ E] | [_ [_ [_ E]]]].
  - exists s, x. split; assumption.
  - cbv zeta in E. eexists. eexists. split; [exact E | solve_actor].
Qed.

Lemma legal_LibraryProcedure : forall fuel actor x s choices s1 c,
  nth_error (players s) actor = Some x ->
  generate_choices LibraryProcedure actor s = (Ok choices, s1) ->
  In c choices -> runs fuel c s1.
Proof.
  intros fuel actor x s choices s1 c Hx G Hc.
  destruct (prepare_deck_actor actor x s 1 Hx) as [t [x1 [Ep Hx1]]].
  cbn [generate_choices] in G. unfold LibraryProcedure_generate_choices in G.
  erewrite bind_Ok in G by exact Ep.
  erewrite bind_Ok in G by (apply read_actor_Ok; exact Hx1).
  destruct (pop (DECK x1)) as [[top rest]|] eqn:Epop.
  - apply pop_Some in Epop.
    assert (Hin : In top (DECK x1)).
    { rewrite Epop. apply in_or_app. right. left. reflexivity. }
    assert (Hc' : effects c = [Effect_put actor top None None]
                  \/ effects c = [Effect_set_aside actor top
                                    (zone_of actor ZDECK)]).
    { destruct (is_action top); inversion G; subst; simpl in Hc;
        intuition (subst; auto). }
    assert (E1 : s1 = t)
      by (destruct (is_action top); inversion G; reflexivity).
    subst s1. unfold runs, enact.
    destruct Hc' as [-> | ->]; cbn [for_each apply_effect].
    + unfold put. cbn [default_zone].
      destruct (transfer_piece_ok actor x1 t top ZHAND ZDECK Hx1 Hin)
        as [s' E].
      erewrite bind_Ok by exact E. eexists. reflexivity.
    + unfold set_aside.
      destruct (transfer_piece_ok actor x1 t top ZASIDE ZDECK Hx1 Hin)
        as [s' E].
      erewrite bind_Ok by exact E. eexists. reflexivity.
  - inversion G; subst. destruct Hc as [<-|[]]. apply runs_NullOption.
Qed.

Lemma legal_LibraryTeardown : forall fuel actor x s choices s1 c,
  nth_error (players s) actor = Some x ->
  generate_choices LibraryTeardown actor s = (Ok choices, s1) ->
  In c choices -> runs fuel c s1.
Proof.
  intros fuel actor x s choices s1 c Hx G Hc.
  cbn [generate_choices] in G. unfold LibraryTeardown_generate_choices in G.
  erewrite bind_Ok in G by (apply read_actor_Ok; exact Hx).
  destruct (ASIDE x) as [|a r] eqn:Ea; inversion G; subst; clear G;
    destruct Hc as [<-|[]].
  - apply runs_NullOption.
  - unfold runs, enact. cbn [effects new_Consequence for_each apply_effect].
    unfold discard_zone. steps. eexists. reflexivity.
Qed.

Lemma partition_In : forall A (f : A -> bool) l yes no d,
  Combinatorics.partition f l = (yes, no) ->
  In d yes \/ In d no -> In d l.
Proof.
  intros A f. induction l as [|x l IH]; intros yes no d H Hd; simpl in H.
  - inversion H; subst. destruct Hd as [[]|[]].
  - destruct (Combinatorics.partition f l) as [y n].
    destruct (f x); inversion H; subst; clear H.
    + destruct Hd as [[<-|Hd]|Hd]; [left; reflexivity | |];
        right; eapply IH; eauto.
    + destruct Hd as [Hd|[<-|Hd]]; [| left; reflexivity |];
        right; eapply IH; eauto.
Qed.

Lemma runs_trash_from_deck : forall fuel actor x s reveals t rest_effects,
  nth_error (players s) actor = Some x ->
  In t (DECK x) ->
  (forall e, In e reveals -> exists a p, e = Effect_reveal a p) ->
  (forall e, In e rest_effects ->
     exists d, e = Effect_discard_piece actor d (Some (zone_of actor ZDECK))) ->
  exists s',
    for_each (reveals
              ++ Effect_trash actor t (Some (zone_of actor ZDECK))
                 :: rest_effects)
      (apply_effect simple_effects decision select (S fuel)) s
    = (Ok tt, s').
Proof.
  intros fuel actor x s reveals t rest_effects Hx Ht Hr Hd.
  induction reveals as [|e r IH].
  - cbn [app for_each apply_effect].
    destruct (take_piece_In t (DECK x) Ht) as [g [rest Et]].
    erewrite bind_Ok by (apply (trash_run actor x s t ZDECK g rest Hx Et)).
    assert (Hy : exists y,
              nth_error
                (players (set_TRASH (TRASH s ++ [g])
                            (put_actor actor (set_actor_zone ZDECK rest x) s)))
                actor = Some y) by (eexists; solve_actor).
    destruct Hy as [y Hy]. revert Hy.
    generalize (set_TRASH (TRASH s ++ [g])
                  (put_actor actor (set_actor_zone ZDECK rest x) s)).
    clear Hx Ht Et. revert y.
    induction rest_effects as [|e r IH]; intros y u Hy.
    + eexists. reflexivity.
    + destruct (Hd e (or_introl eq_refl)) as [d ->].
      cbn [for_each apply_effect].
      destruct (discard_piece_ok actor y u d (Some (zone_of actor ZDECK)) Hy)
        as [y' E]; [right; eexists; reflexivity|].
      erewrite bind_Ok by exact E.
      apply (IH (fun e He => Hd e (or_intror He)) y'). solve_actor.
  - destruct (Hr e (or_introl eq_refl)) as [a [p ->]].
    cbn [app for_each apply_effect]. unfold reveal at 1. rewrite bind_ret.
    apply IH. intros e He. apply Hr. right. exact He.
Qed.

Lemma legal_BanditProcedure : forall fuel actor x s choices s1 c,
  nth_error (players s) actor = Some x ->
  generate_choices BanditProcedure actor s = (Ok choices, s1) ->
  In c choices -> runs fuel c s1.
Proof.
  intros fuel actor x s choices s1 c Hx G Hc.
  destruct (prepare_deck_actor actor x s 2 Hx) as [t [x1 [Ep Hx1]]].
  cbn [generate_choices] in G. unfold BanditProcedure_generate_choices in G.
  erewrite bind_Ok in G by exact Ep.
  erewrite bind_Ok in G by (apply read_actor_Ok; exact Hx1).
  destruct (pop (DECK x1)) as [[top rest]|] eqn:Epop.
  2:{ inversion G; subst. destruct Hc as [<-|[]]. apply runs_NullOption. }
  destruct (pop rest) as [[second rest']|] eqn:Epop2; [|discriminate].
  apply pop_Some in Epop. apply pop_Some in Epop2. subst rest.
  assert (Htop : forall d, In d [top; second] -> In d (DECK x1)).
  { intros d Hd. rewrite Epop. rewrite <- app_assoc. apply in_or_app. right.
    simpl in *. tauto. }
  destruct (Combinatorics.partition could_trash [top; second])
    as [trashables discardables] eqn:Ept.
  assert (Hrev : forall e, In e (map (Effect_reveal actor) [top; second]) ->
                   exists a p, e = Effect_reveal a p).
  { intros e He. apply in_map_iff in He. destruct He as [p [<- _]]. eauto. }
  assert (Hu : forall u, In u (Combinatorics.get_pieces trashables true None)
                 -> In u (DECK x1)).
  { intros u Hu. apply get_pieces_all_In in Hu. apply Htop.
    eapply partition_In; [exact Ept | left; exact Hu]. }
  unfold runs, enact.
  destruct (Combinatorics.get_pieces trashables true None)
    as [|u0 [|u1 [|u2 us]]] eqn:Eu.
  - inversion G; subst; clear G. destruct Hc as [<-|[]].
    cbn [effects new_Consequence map app for_each apply_effect].
    unfold reveal. rewrite !bind_ret.
    destruct (discard_pieces_run actor x1 s1 discardables ZDECK Hx1)
      as [y E].
    erewrite bind_Ok by exact E. eexists. reflexivity.
  - assert (H0 : In u0 (DECK x1)) by (apply Hu; left; reflexivity).
    destruct discardables as [|d ds]; inversion G; subst; clear G;
      destruct Hc as [<-|[]]; cbn [effects new_Consequence add].
    + apply (runs_trash_from_deck fuel actor x1 s1
               (map (Effect_reveal actor) [top; second]) u0 [] Hx1 H0 Hrev).
      intros e [].
    + apply (runs_trash_from_deck fuel actor x1 s1
               (map (Effect_reveal actor) [top; second]) u0
               [Effect_discard_piece actor d (Some (zone_of actor ZDECK))]
               Hx1 H0 Hrev).
      intros e [<-|[]]. eexists. reflexivity.
  - inversion G; subst; clear G. cbn [map] in Hc.
    destruct Hc as [<-|[<-|[]]]; cbn [effects new_Consequence].
    + apply (runs_trash_from_deck fuel actor x1 s1
               (map (Effect_reveal actor) [top; second]) u0
               [Effect_discard_piece actor u1 (Some (zone_of actor ZDECK))]
               Hx1 (Hu u0 (or_introl eq_refl)) Hrev).
      intros e [<-|[]]. eexists. reflexivity.
    + apply (runs_trash_from_deck fuel actor x1 s1
               (map (Effect_reveal actor) [top; second]) u1
               [Effect_discard_piece actor u0 (Some (zone_of actor ZDECK))]
               Hx1 (Hu u1 (or_intror (or_introl eq_refl))) Hrev).
      intros e [<-|[]]. eexists. reflexivity.
  - inversion G; subst; clear G. destruct Hc as [<-|[]].
    cbn [effects new_Consequence map app for_each apply_effect].
    unfold reveal. rewrite !bind_ret.
    destruct (discard_pieces_run actor x1 s1 discardables ZDECK Hx1)
      as [y E].
    erewrite bind_Ok by exact E. eexists. reflexivity.
Qed.

Ltac returns := first [do 2 eexists; reflexivity | eauto].

Lemma plain_decisions_return : forall d actor x s,
  In d plain_decisions -> d <> BanditProcedure ->
  nth_error (players s) actor = Some x ->
  exists choices s1, generate_choices d actor s = (Ok choices, s1).
Proof.
  intros d actor x s Hd Hb Hx.
  unfold plain_decisions in Hd. cbn [In] in Hd.
  repeat (destruct Hd as [<-|Hd]); try contradiction;
    try congruence; cbn [generate_choices].
  - rewrite BuyChoices_generate_choices_run. returns.
  - destruct (Mine_offers actor x s Hx) as [choices E]. returns.
  - unfold CellarChoices_generate_choices,
      CellarChoices_generate_human_choices,
      CellarChoices_generate_heuristic_choices.
    step. destruct (String.eqb (actor_name x) "You"); steps.
    + returns.
    + destruct (Combinatorics.get_pieces (HAND x) false (Some is_victory));
        steps; returns.
  - destruct (Remodel_offers actor x s Hx) as [choices E]. returns.
  - unfold MilitiaVictimProcedure_generate_choices. steps. returns.
  - unfold WorkshopChoices_generate_choices. steps.
    destruct (filter_supply (fun x => Z.leb (cost x) 4) s) as [|g0 gs];
      [returns|].
    unfold lift.
    rewrite (res_map_Ok _ _ _
               (fun gainable =>
                  mkConsequence class_Acquisition
                    [Effect_gain actor gainable None] None None
                    (Some gainable) None))
      by (intros; reflexivity).
    returns.
  - unfold ChapelChoices_generate_choices. steps.
    destruct (HAND x); returns.
  - unfold HarbingerChoices_generate_choices. steps. returns.
  - unfold MoneylenderChoices_generate_choices. steps.
    destruct (Combinatorics.get_pieces (HAND x) true _); returns.
  - unfold PoacherProcedure_generate_choices. steps. returns.
  - unfold CouncilRoomProcedure_generate_choices. returns.
  - destruct (prepare_deck_actor actor x s 1 Hx) as [t [x1 [Ep Hx1]]].
    unfold LibraryProcedure_generate_choices.
    erewrite bind_Ok by exact Ep.
    erewrite bind_Ok by (apply read_actor_Ok; exact Hx1).
    destruct (pop (DECK x1)) as [[top rest]|]; [|returns].
    destruct (is_action top); returns.
  - unfold LibraryTeardown_generate_choices. steps.
    destruct (ASIDE x); returns.
Qed.

(** X21. The Decisions whose choices are made of the operations on zones
    and counters alone never offer a move that fails: with a well-formed
    Supply and a hand of distinct card objects, generate_choices returns
    (BanditProcedure apart, which can raise) and every Consequence it
    returns can be enacted, in the State it leaves, without an
    exception. *)
Theorem offered_choices_can_be_enacted : forall fuel d actor x s,
  In d plain_decisions ->
  nth_error (players s) actor = Some x ->
  supply_wf s ->
  NoDup (map uid (HAND x)) ->
  (d <> BanditProcedure ->
   exists choices s1, generate_choices d actor s = (Ok choices, s1))
  /\ forall choices s1 c,
       generate_choices d actor s = (Ok choices, s1) ->
       In c choices ->
       exists s2,
         enact simple_effects decision select (S fuel) (effects c) s1
         = (Ok tt, s2).
Proof.
  intros fuel d actor x s Hd Hx Hw Hn. split.
  - intros Hb. apply (plain_decisions_return d actor x s Hd Hb Hx).
  - intros choices s1 c G Hc.
    unfold plain_decisions in Hd. cbn [In] in Hd.
    repeat (destruct Hd as [<-|Hd]); try contradiction.
    + eapply legal_Buy; eassumption.
    + eapply legal_Mine; eassumption.
    + eapply legal_Cellar; eassumption.
    + eapply legal_Remodel; eassumption.
    + eapply legal_MilitiaVictim; eassumption.
    + eapply legal_Workshop; eassumption.
    + eapply legal_Chapel; eassumption.
    + eapply legal_Harbinger; eassumption.
    + eapply legal_Moneylender; eassumption.
    + eapply legal_PoacherProcedure; eassumption.
    + eapply legal_CouncilRoomProcedure; eassumption.
    + eapply legal_LibraryProcedure; eassumption.
    + eapply legal_LibraryTeardown; eassumption.
    + eapply legal_BanditProcedure; eassumption.
Qed.

End Legal.

(** Alice, with a Copper in hand and a Silver in the Supply, turns the
    one into the other. *)
Lemma offered_choices_can_be_enacted_witness :
  let s := Sample.new_state
             [Sample.new_actor "Alice" [Sample.Copper 2] [] []]
             [[]; []; []; []; []; [Sample.Silver 7]] in
  exists s2,
    enact Sample.no_simple_effects Sample.no_decision Sample.first_choice 1
      (effects (trash_to_gain 0 (Sample.Copper 2) (Sample.Silver 7))) s
    = (Ok tt, s2).
Proof.
  cbv zeta.
  refine (proj2 (offered_choices_can_be_enacted Sample.no_simple_effects
                   Sample.no_decision Sample.first_choice 0 MineChoices 0
                   (Sample.new_actor "Alice" [Sample.Copper 2] [] [])
                   (Sample.new_state
                      [Sample.new_actor "Alice" [Sample.Copper 2] [] []]
                      [[]; []; []; []; []; [Sample.Silver 7]])
                   _ eq_refl _ _)
            [NullOption 0 None;
             trash_to_gain 0 (Sample.Copper 2) (Sample.Silver 7)]
            _ _ eq_refl _).
  - unfold plain_decisions. simpl. tauto.
  - intros i pile p Hi Hp.
    destruct i as [|[|[|[|[|[|i]]]]]]; simpl in Hi;
      try (inversion Hi; subst; simpl in Hp; intuition (subst; reflexivity)).
    destruct i; discriminate.
  - repeat constructor. simpl. tauto.
  - right. left. reflexivity.
Defined.

(** ** The Supply only shrinks, and its empty piles are counted *)

Lemma supply_shrinks_same : forall s s',
  piles s' = piles s -> n_empty_piles s' = n_empty_piles s ->
  supply_shrinks s s'.
Proof.
  intros s s' Hp Hn. unfold supply_shrinks, empty_piles. rewrite Hp, Hn.
  split; [reflexivity|]. split; [|lia].
  intros i p H. exists [], p. split; [exact H | reflexivity].
Qed.

Lemma supply_shrinks_refl : forall s, supply_shrinks s s.
Proof. intros s. apply supply_shrinks_same; reflexivity. Qed.

Lemma supply_shrinks_trans : forall s1 s2 s3,
  supply_shrinks s1 s2 -> supply_shrinks s2 s3 -> supply_shrinks s1 s3.
Proof.
  intros s1 s2 s3 [L1 [P1 C1]] [L2 [P2 C2]].
  split; [congruence|]. split; [|lia].
  intros i p H. destruct (P1 i p H) as [t1 [p1 [H1 Q1]]].
  destruct (P2 i p1 H1) as [t2 [p2 [H2 Q2]]].
  exists (t1 ++ t2), p2. split; [exact H2|].
  rewrite Q1, <- app_assoc. apply Permutation_app_head. exact Q2.
Qed.

Lemma shrinks_pure : forall A (m : M A),
  (forall s, snd (m s) = s) -> shrinks m.
Proof. intros A m H s. rewrite H. apply supply_shrinks_refl. Qed.

Lemma shrinks_ret : forall A (a : A), shrinks (ret a).
Proof. intros. apply shrinks_pure. reflexivity. Qed.

Lemma shrinks_raise : forall A e, shrinks (@raise A e).
Proof. intros. apply shrinks_pure. reflexivity. Qed.

Lemma shrinks_out_of_fuel : forall A, shrinks (@out_of_fuel A).
Proof. intros. apply shrinks_pure. reflexivity. Qed.

Lemma shrinks_lift : forall A (r : Res A), shrinks (lift r).
Proof. intros. apply shrinks_pure. reflexivity. Qed.

Lemma shrinks_get : shrinks get.
Proof. apply shrinks_pure. reflexivity. Qed.

Lemma shrinks_read_zone : forall r, shrinks (read_zone r).
Proof.
  intros r. apply shrinks_pure. intros s. unfold read_zone.
  destruct (lookup_zone r s); reflexivity.
Qed.

Lemma shrinks_read_actor : forall a, shrinks (read_actor a).
Proof.
  intros a. apply shrinks_pure. intros s. unfold read_actor.
  destruct (nth_error (players s) a); reflexivity.
Qed.

Lemma shrinks_read_immunity : forall a, shrinks (read_immunity a).
Proof.
  intros a. apply shrinks_pure. intros s. unfold read_immunity.
  destruct (nth_error (attack_immunity s) a); reflexivity.
Qed.

Lemma shrinks_modify : forall f,
  (forall s, piles (f s) = piles s
             /\ n_empty_piles (f s) = n_empty_piles s) ->
  shrinks (modify f).
Proof.
  intros f H s. destruct (H s) as [Hp Hn].
  apply supply_shrinks_same; assumption.
Qed.

Lemma shrinks_write_zone : forall r l,
  off_supply r -> shrinks (write_zone r l).
Proof.
  intros r l H s. destruct r; [| |destruct H];
    apply supply_shrinks_same; reflexivity.
Qed.

Lemma shrinks_bind_post : forall A B (m : M A) (k : A -> M B)
    (Q : A -> Prop),
  shrinks m -> yields Q m -> (forall a, Q a -> shrinks (k a)) ->
  shrinks (bind m k).
Proof.
  intros A B m k Q Hm HQ Hk s. unfold bind. specialize (Hm s).
  destruct (m s) as [[a|e|] s'] eqn:E; simpl in *; try exact Hm.
  eapply supply_shrinks_trans; [exact Hm|]. apply Hk. eapply HQ. exact E.
Qed.

Lemma shrinks_bind : forall A B (m : M A) (k : A -> M B),
  shrinks m -> (forall a, shrinks (k a)) -> shrinks (bind m k).
Proof.
  intros A B m k Hm Hk.
  apply shrinks_bind_post with (Q := fun _ => True); auto.
  intros s a s' _. exact I.
Qed.

Lemma shrinks_for_each : forall A (xs : list A) (body : A -> M unit),
  (forall x, In x xs -> shrinks (body x)) -> shrinks (for_each xs body).
Proof.
  intros A xs body. induction xs as [|x r IH]; intros H.
  - apply shrinks_ret.
  - simpl. apply shrinks_bind.
    + apply H. left. reflexivity.
    + intros _. apply IH. intros y Hy. apply H. right. exact Hy.
Qed.

Lemma shrinks_while : forall fuel cond body,
  shrinks cond -> shrinks body -> shrinks (while_ fuel cond body).
Proof.
  induction fuel as [|fuel IH]; intros cond body Hc Hb.
  - apply shrinks_out_of_fuel.
  - simpl. apply shrinks_bind; [exact Hc|]. intros [|].
    + apply shrinks_bind; [exact Hb|]. intros _.
      apply shrinks_bind; [apply IH; assumption|]. intros n.
      apply shrinks_ret.
    + apply shrinks_ret.
Qed.

Ltac shrink :=
  repeat first
    [ apply shrinks_ret | apply shrinks_raise | apply shrinks_out_of_fuel
    | apply shrinks_lift | apply shrinks_get | apply shrinks_read_zone
    | apply shrinks_read_actor | apply shrinks_read_immunity
    | apply shrinks_write_zone; first [assumption | exact I]
    | apply shrinks_modify; intros; split; reflexivity
    | apply shrinks_for_each; intros
    | apply shrinks_bind; [|intros ?]
    | match goal with
      | |- shrinks (let '(_, _) := ?x in _) => destruct x
      | |- shrinks (match ?x with _ => _ end) => destruct x
      end ].

Lemma shrinks_transfer_piece : forall piece destination source,
  off_supply destination -> off_supply source ->
  shrinks (transfer_piece piece destination source).
Proof. intros. unfold transfer_piece. shrink. Qed.

Lemma shrinks_transfer_top_piece : forall destination source,
  off_supply destination -> off_supply source ->
  shrinks (transfer_top_piece destination source).
Proof. intros. unfold transfer_top_piece. shrink. Qed.

Lemma shrinks_discard_piece : forall actor piece source,
  off_supply (default_zone actor ZHAND source) ->
  shrinks (discard_piece actor piece source).
Proof. intros. unfold discard_piece. shrink. Qed.

Lemma shrinks_discard_pieces : forall actor pieces source,
  off_supply (default_zone actor ZHAND source) ->
  shrinks (discard_pieces actor pieces source).
Proof. intros. unfold discard_pieces. shrink. Qed.

Lemma shrinks_discard_zone : forall actor source,
  off_supply source -> shrinks (discard_zone actor source).
Proof. intros. unfold discard_zone. shrink. Qed.

Lemma shrinks_prepare_deck : forall actor n, shrinks (prepare_deck actor n).
Proof.
  intros. unfold prepare_deck, validate_deck_size, replenish_deck, shuffle.
  shrink.
Qed.

Lemma shrinks_draw : forall actor n, shrinks (draw actor n).
Proof.
  intros. unfold draw. apply shrinks_bind; [apply shrinks_prepare_deck|].
  intros _. unfold transfer_top_piece. shrink.
Qed.

Lemma shrinks_end_phase : forall actor phase, shrinks (end_phase actor phase).
Proof. intros. unfold end_phase. shrink. Qed.

Lemma shrinks_add_silver : shrinks add_silver.
Proof. unfold add_silver, add_coin. shrink. Qed.

Lemma shrinks_swap_top_cards_of_deck : forall actor,
  shrinks (swap_top_cards_of_deck actor).
Proof. intros. unfold swap_top_cards_of_deck. shrink. Qed.

Lemma shrinks_write_immunity : forall self b, shrinks (write_immunity self b).
Proof. intros. unfold write_immunity. shrink. Qed.

Lemma shrinks_antecedent : forall process, shrinks (antecedent process).
Proof.
  intros process. destruct process; cbn [antecedent];
    unfold Attack_antecedent; shrink.
Qed.

Lemma shrinks_clear_internal_state : forall process,
  shrinks (clear_internal_state process).
Proof.
  intros process. destruct process; cbn [clear_internal_state];
    first [apply shrinks_write_immunity | apply shrinks_ret].
Qed.

Lemma shrinks_add_attacks : forall attack victims c,
  shrinks (add_attacks attack victims c).
Proof.
  intros attack victims. induction victims as [|v r IH]; intros c.
  - apply shrinks_ret.
  - simpl. unfold new_attack. shrink. apply IH.
Qed.

(** Replacing one pile changes the number of empty piles by what the
    old and the new pile count for. *)
Lemma empty_update_nth : forall i (ps : list Zone) old new,
  nth_error ps i = Some old ->
  List.length (filter is_nil (update_nth i (fun _ => new) ps))
  + (if is_nil old then 1 else 0)
  = List.length (filter is_nil ps) + (if is_nil new then 1 else 0).
Proof.
  induction i as [|i IH]; intros ps old new H; destruct ps as [|p ps];
    simpl in H; try discriminate.
  - inversion H; subst. simpl.
    destruct (is_nil old), (is_nil new); simpl; lia.
  - simpl. specialize (IH ps old new H).
    destruct (is_nil p); simpl; lia.
Qed.

(** The one operation that takes a piece from the Supply counts the pile
    it empties. *)
Lemma shrinks_handle_acquisition : forall player piece destination,
  off_supply destination ->
  shrinks (handle_acquisition player piece destination).
Proof.
  intros player piece destination Hd s. unfold handle_acquisition.
  rewrite bind_get.
  destruct (nth_error (piles s) (total_order_index piece)) as [pile|] eqn:Ep;
    [|apply supply_shrinks_refl].
  cbv zeta. set (i := total_order_index piece) in *.
  destruct (lookup_zone destination s) as [dst|] eqn:Ed.
  2: { unfold transfer_piece, bind, read_zone. rewrite Ed.
       apply supply_shrinks_refl. }
  assert (Es : lookup_zone (pile_ref i) s = Some pile) by exact Ep.
  unfold bind at 1.
  rewrite (transfer_piece_run piece destination (pile_ref i) s pile dst Es Ed).
  destruct (take_piece piece pile) as [[g rest]|] eqn:Et;
    [|apply supply_shrinks_refl].
  destruct (take_piece_split _ _ _ _ Et) as [before [after [-> [-> _]]]].
  destruct (ZoneRef_eq_dec (pile_ref i) destination) as [E|_];
    [subst destination; destruct Hd|].
  match goal with |- context [store_zone destination ?l ?st] =>
    set (s1 := store_zone destination l st) end.
  assert (P1 : piles s1
               = update_nth i (fun _ => before ++ after) (piles s)).
  { unfold s1. destruct destination; [reflexivity | reflexivity |].
    destruct Hd. }
  assert (N1 : n_empty_piles s1 = n_empty_piles s).
  { unfold s1. destruct destination; [reflexivity | reflexivity |].
    destruct Hd. }
  assert (R1 : read_zone (pile_ref i) s1 = (Ok (before ++ after), s1)).
  { apply read_pile. rewrite P1.
    apply (nth_error_update_nth_same _ i (fun _ => before ++ after)
             _ _ Ep). }
  rewrite (bind_Ok _ _ _ _ _ _ _ R1).
  assert (G : forall s2,
            piles s2 = piles s1 ->
            n_empty_piles s2
            = (n_empty_piles s1
               + (if is_nil (before ++ after) then 1 else 0))%Z ->
            supply_shrinks s s2).
  { intros s2 P2 N2. rewrite P1 in P2. split; [|split].
    - rewrite P2. apply update_nth_length.
    - intros j p Hj. rewrite P2.
      destruct (Nat.eq_dec i j) as [<-|Hne].
      + rewrite Ep in Hj. inversion Hj; subst p.
        exists [g], (before ++ after). split.
        * apply (nth_error_update_nth_same _ i (fun _ => before ++ after)
                   _ _ Ep).
        * apply Permutation_sym.
          exact (Permutation_middle before after g).
      + exists [], p. split; [|reflexivity].
        rewrite nth_error_update_nth_other by exact Hne. exact Hj.
    - unfold empty_piles. rewrite P2, N2, N1.
      pose proof (empty_update_nth i (piles s) _ (before ++ after) Ep) as U.
      assert (F : is_nil (before ++ g :: after) = false)
        by (destruct before; reflexivity).
      rewrite F in U.
      unfold Zone in U.
      destruct (is_nil (before ++ after)); cbv iota in U |- *; lia. }
  destruct (before ++ after) as [|y r] eqn:Er.
  - cbn [snd]. rewrite bind_modify.
    destruct (is_province piece); apply G; reflexivity.
  - apply G; [reflexivity | unfold ret; cbn [snd is_nil]; lia].
Qed.

Lemma shrinks_gain : forall actor piece destination,
  off_supply (default_zone actor ZDISCARD destination) ->
  shrinks (gain actor piece destination).
Proof. intros. unfold gain. apply shrinks_handle_acquisition. assumption. Qed.

Lemma shrinks_buy_piece : forall actor piece destination,
  off_supply (default_zone actor ZDISCARD destination) ->
  shrinks (buy_piece actor piece destination).
Proof.
  intros. unfold buy_piece, pay_cost. cbv zeta.
  apply shrinks_bind; [shrink|]. intros _.
  apply shrinks_handle_acquisition. assumption.
Qed.

Lemma shrinks_generate_choices : forall d actor,
  shrinks (generate_choices d actor).
Proof.
  intros d actor. destruct d; cbn [generate_choices].
  all: try (unfold Decision_generate_choices,
      ImmunityProcedure_generate_choices, ActionChoices_generate_choices,
      TreasureChoices_generate_choices, BuyChoices_generate_choices,
      MineChoices_generate_choices, CellarChoices_generate_choices,
      CellarChoices_generate_human_choices,
      CellarChoices_generate_heuristic_choices,
      RemodelChoices_generate_choices,
      MilitiaVictimProcedure_generate_choices,
      WorkshopChoices_generate_choices, ChapelChoices_generate_choices,
      HarbingerChoices_generate_choices, VassalChoices_generate_choices,
      BureaucratProcedure_generate_choices,
      BureaucratProcedure_class_generate_choices,
      MoneylenderChoices_generate_choices,
      PoacherProcedure_generate_choices, PoacherChoices_generate_choices,
      ThroneRoomChoices_generate_choices, BanditProcedure_generate_choices,
      CouncilRoomProcedure_generate_choices,
      CouncilRoomChoices_generate_choices,
      LibraryProcedure_generate_choices, LibraryTeardown_generate_choices,
      LibraryChoices_generate_choices, SentryChoices_generate_choices,
      SentryChoices_generate_choices_in, lookup_global, engine_discard,
      WitchProcedure_generate_choices, ArtisanChoices_generate_choices,
      ArtisanChoices_generate_choices_in, engine_get_cards;
      repeat first [apply shrinks_prepare_deck | progress shrink]; fail).
  all: unfold MilitiaChoices_generate_choices,
      BureaucratChoices_generate_choices, BanditChoices_generate_choices,
      WitchChoices_generate_choices.
  all: shrink.
  all: apply shrinks_add_attacks.
Qed.

(** What the Decisions build names no Supply pile. *)

Lemma safe_Acquisition_as : forall cls effs c,
  Forall supply_safe effs -> Acquisition_as cls effs = Ok c ->
  safe_consequence c.
Proof.
  intros cls effs c Hw H. unfold safe_consequence.
  rewrite (Acquisition_as_effects _ _ _ H). exact Hw.
Qed.

Lemma safe_DependentAcquisition : forall effs c,
  Forall supply_safe effs -> DependentAcquisition effs = Ok c ->
  safe_consequence c.
Proof.
  intros effs c Hw H. unfold safe_consequence.
  rewrite (DependentAcquisition_effects _ _ H). exact Hw.
Qed.

Lemma safe_trash_then_gain : forall actor trashable gainables cs,
  trash_then_gain actor trashable gainables = Ok cs ->
  Forall safe_consequence cs.
Proof.
  intros actor trashable gainables cs H. unfold trash_then_gain in H.
  destruct gainables as [|g r].
  - inversion H; subst. repeat constructor.
  - eapply res_map_Forall; [|exact H].
    intros x y E. eapply safe_DependentAcquisition; [|exact E].
    repeat constructor.
Qed.

Lemma yields_add_safe_attacks : forall attack victims c,
  safe_consequence c ->
  yields safe_consequence (add_attacks attack victims c).
Proof.
  intros attack victims. induction victims as [|v r IH]; intros c Hc.
  - apply yields_ret. exact Hc.
  - simpl. apply yields_bind. intros self. apply IH.
    unfold safe_consequence, add. simpl. apply Forall_app. split.
    + exact Hc.
    + repeat constructor.
Qed.

(** The leaves: a list of Consequences built from effects that name no
    Supply pile. *)
Ltac safe_leaf :=
  repeat first
    [ assumption
    | apply Forall_nil
    | apply Forall_cons
    | apply Forall_app; split
    | apply Forall_map_intro; intros
    | apply Forall_sorted
    | match goal with
      | |- context [let '(_, _) := ?x in _] => destruct x
      | |- Forall _ (match ?x with _ => _ end) => destruct x
      end
    | progress (unfold safe_consequence;
                cbn [effects new_Consequence PassOption NullOption Act add
                     set_custom_message])
    | exact I
    | (cbn [supply_safe default_zone off_supply]; auto) ].

Ltac yield_safe :=
  repeat first
    [ apply yields_raise
    | apply yields_bind_raise
    | apply yields_ret; safe_leaf
    | match goal with
      | |- yields _ (match ?x with _ => _ end) => destruct x
      end
    | apply yields_bind; intros ? ].

Lemma yields_safe_choices : forall d actor,
  yields (Forall safe_consequence) (generate_choices d actor).
Proof.
  intros d actor. destruct d; cbn [generate_choices].
  all: try (unfold Decision_generate_choices,
      ImmunityProcedure_generate_choices, ActionChoices_generate_choices,
      TreasureChoices_generate_choices, 
      CellarChoices_generate_choices,
      CellarChoices_generate_human_choices,
      CellarChoices_generate_heuristic_choices,
      MilitiaVictimProcedure_generate_choices,
      ChapelChoices_generate_choices,
      HarbingerChoices_generate_choices, VassalChoices_generate_choices,
      BureaucratProcedure_generate_choices,
      BureaucratProcedure_class_generate_choices,
      MoneylenderChoices_generate_choices,
      PoacherProcedure_generate_choices, PoacherChoices_generate_choices,
      ThroneRoomChoices_generate_choices, BanditProcedure_generate_choices,
      CouncilRoomProcedure_generate_choices,
      CouncilRoomChoices_generate_choices,
      LibraryProcedure_generate_choices, LibraryTeardown_generate_choices,
      LibraryChoices_generate_choices, SentryChoices_generate_choices,
      SentryChoices_generate_choices_in, lookup_global, engine_discard,
      WitchProcedure_generate_choices, ArtisanChoices_generate_choices,
      ArtisanChoices_generate_choices_in, engine_get_cards;
      yield_safe; fail).
  - (* BuyChoices *)
    unfold BuyChoices_generate_choices. apply yields_bind. intros s.
    destruct (negb (Z.eqb (n_buy s) 0)); [|yield_safe].
    apply yields_bind_post with (P := Forall safe_consequence).
    + apply yields_lift. intros a E. eapply res_map_Forall; [|exact E].
      intros x y Ey. eapply safe_Acquisition_as; [|exact Ey]. safe_leaf.
    + intros a Ha. yield_safe.
  - (* MineChoices *)
    unfold MineChoices_generate_choices. apply yields_bind. intros s.
    apply yields_bind. intros x.
    apply yields_bind_post with (P := Forall (Forall safe_consequence)).
    + apply yields_lift. intros a E. eapply res_map_Forall; [|exact E].
      intros t cs Et. eapply safe_trash_then_gain. exact Et.
    + intros more Hm. apply yields_ret. apply Forall_app. split.
      * safe_leaf.
      * apply Forall_concat_intro. exact Hm.
  - (* CellarChoices *)
    unfold CellarChoices_generate_choices. apply yields_bind. intros x.
    destruct (String.eqb (actor_name x) "You").
    + apply yields_bind_post with (P := Forall safe_consequence).
      * unfold CellarChoices_generate_human_choices. yield_safe.
      * intros more Hm. yield_safe.
    + apply yields_bind_post with (P := Forall safe_consequence).
      * unfold CellarChoices_generate_heuristic_choices. yield_safe.
      * intros more Hm. yield_safe.
  - (* RemodelChoices *)
    unfold RemodelChoices_generate_choices. apply yields_bind. intros s.
    apply yields_bind. intros x.
    destruct (Combinatorics.get_pieces (HAND x) true None); [yield_safe|].
    apply yields_bind_post with (P := Forall (Forall safe_consequence)).
    + apply yields_lift. intros a E. eapply res_map_Forall; [|exact E].
      intros t cs Et. eapply safe_trash_then_gain. exact Et.
    + intros more Hm. apply yields_ret.
      apply Forall_concat_intro. exact Hm.
  - (* MilitiaChoices *)
    unfold MilitiaChoices_generate_choices. apply yields_bind. intros s.
    apply yields_bind. intros x.
    apply yields_bind_post with (P := safe_consequence).
    + apply yields_add_safe_attacks. safe_leaf.
    + intros c Hc. apply yields_ret. constructor; [exact Hc | constructor].
  - (* WorkshopChoices *)
    unfold WorkshopChoices_generate_choices. apply yields_bind. intros s.
    destruct (filter_supply _ s); [yield_safe|].
    apply yields_lift. intros a E. eapply res_map_Forall; [|exact E].
    intros x y Ey. eapply safe_Acquisition_as; [|exact Ey]. safe_leaf.
  - (* BureaucratChoices *)
    unfold BureaucratChoices_generate_choices. apply yields_bind. intros s.
    apply yields_bind. intros x.
    apply yields_bind_post with (P := safe_consequence).
    + destruct (filter_supply _ s) as [|g r].
      * apply yields_ret. safe_leaf.
      * apply yields_lift. intros c E.
        destruct (last_item (g :: r)) as [piece|?|]; simpl in E;
          try discriminate.
        eapply safe_Acquisition_as; [|exact E]. safe_leaf.
    + intros c Hc.
      apply yields_bind_post with (P := safe_consequence).
      * apply yields_add_safe_attacks. exact Hc.
      * intros c' Hc'. apply yields_ret. constructor; [exact Hc'|constructor].
  - (* BanditChoices *)
    unfold BanditChoices_generate_choices. apply yields_bind. intros s.
    apply yields_bind. intros x.
    apply yields_bind_post with (P := safe_consequence).
    + destruct (filter_supply _ s) as [|g r].
      * apply yields_ret. safe_leaf.
      * apply yields_lift. intros c E.
        destruct (last_item (g :: r)) as [piece|?|]; simpl in E;
          try discriminate.
        eapply safe_Acquisition_as; [|exact E]. safe_leaf.
    + intros c Hc.
      apply yields_bind_post with (P := safe_consequence).
      * apply yields_add_safe_attacks. exact Hc.
      * intros c' Hc'. apply yields_ret. constructor; [exact Hc'|constructor].
  - (* WitchChoices *)
    unfold WitchChoices_generate_choices. apply yields_bind. intros s.
    apply yields_bind. intros x.
    apply yields_bind_post with (P := safe_consequence).
    + apply yields_add_safe_attacks. safe_leaf.
    + intros c Hc. apply yields_ret. constructor; [exact Hc | constructor].
Qed.

Section SupplyInvariant.

Variable simple_effects : Piece -> option (list Effect).
Variable decision : Piece -> option Decision.
Variable select : nat -> list Consequence -> Decision -> State -> nat.

Hypothesis catalogue_safe : forall piece es,
  simple_effects piece = Some es -> Forall supply_safe es.

Lemma shrinks_request_input : forall actor d decider,
  shrinks (request_input select actor d decider).
Proof.
  intros. unfold request_input, expand_choices.
  apply shrinks_bind; [apply shrinks_generate_choices|].
  intros choices. shrink.
Qed.

Lemma yields_safe_request_input : forall actor d decider,
  yields safe_consequence (request_input select actor d decider).
Proof.
  intros. unfold request_input, expand_choices.
  apply yields_bind_post with (P := Forall safe_consequence);
    [apply yields_safe_choices|].
  intros choices Hc. apply yields_bind. intros s.
  destruct choices as [|c r]; [apply yields_raise|].
  apply yields_ret.
  apply (proj1 (Forall_forall _ _) Hc). apply nth_In.
  apply Nat.mod_upper_bound. simpl. discriminate.
Qed.

Lemma shrinks_apply_effect : forall fuel e,
  supply_safe e ->
  shrinks (apply_effect simple_effects decision select fuel e).
Proof.
  induction fuel as [|fuel IH]; intros e He.
  - apply shrinks_out_of_fuel.
  - assert (Henact : forall es, Forall supply_safe es ->
              shrinks (enact simple_effects decision select fuel es)).
    { intros es Hes. unfold enact. apply shrinks_for_each.
      intros x Hx. apply IH. apply (proj1 (Forall_forall _ _) Hes x Hx). }
    assert (Hresolve : forall actor d decider,
              shrinks (resolve_with simple_effects decision select fuel
                         actor d decider)).
    { intros. unfold resolve_with.
      apply shrinks_bind_post with (Q := safe_consequence).
      - apply shrinks_request_input.
      - apply yields_safe_request_input.
      - intros c Hc. apply Henact. exact Hc. }
    assert (Hre : forall actor piece,
              shrinks (resolve_effects_with simple_effects decision select
                         fuel actor piece)).
    { intros. unfold resolve_effects_with. apply shrinks_bind.
      - destruct (simple_effects piece) as [es|] eqn:E.
        + apply Henact. eapply catalogue_safe. exact E.
        + apply shrinks_ret.
      - intros _. destruct (decision piece); [apply Hresolve|].
        apply shrinks_ret. }
    destruct e; cbn [supply_safe] in He;
      try (cbn [apply_effect];
           first [ apply shrinks_end_phase | apply shrinks_add_silver
                 | apply shrinks_buy_piece; exact He
                 | apply shrinks_gain; exact He
                 | apply shrinks_write_immunity
                 | apply shrinks_discard_zone; exact He
                 | apply shrinks_discard_piece; exact He
                 | apply shrinks_discard_pieces; exact He
                 | apply shrinks_draw
                 | apply shrinks_swap_top_cards_of_deck
                 | unfold add_card; apply shrinks_bind;
                   [shrink | intros ?; apply shrinks_draw]
                 | unfold trash_pieces; apply shrinks_for_each; intros;
                   apply shrinks_transfer_piece; [exact I | exact He]
                 | unfold trash, put, set_aside, topdeck;
                   apply shrinks_transfer_piece;
                   first [exact I | exact He | apply He]
                 | unfold reveal, do_nothing, add_action, add_buy,
                     add_coin, add_merchant_silver_bonus, mark_immunity;
                   first [apply shrinks_write_immunity | shrink] ]; fail).
    + (* play_piece *)
      rewrite apply_effect_play_piece.
      apply shrinks_bind; [destruct (negb free); shrink|]. intros _.
      apply shrinks_bind;
        [apply shrinks_transfer_piece; [exact I | exact He]|].
      intros _. apply Hre.
    + (* play_treasures *)
      rewrite apply_effect_play_treasures.
      apply shrinks_bind; [|intros _; apply shrinks_end_phase].
      apply shrinks_for_each. intros x _.
      apply shrinks_bind;
        [apply shrinks_transfer_piece; exact I|].
      intros _. apply Hre.
    + (* resolve_effects *)
      rewrite apply_effect_resolve_effects. apply Hre.
    + (* Initiate *)
      rewrite apply_effect_Initiate. apply Hresolve.
    + (* Process *)
      rewrite apply_effect_Call.
      assert (Hi : forall e, (exists a d, e = Initiate a d None) ->
                shrinks (apply_effect simple_effects decision select
                           fuel e)).
      { intros e [a [d ->]]. apply IH. exact I. }
      apply shrinks_bind.
      * destruct process; cbn [setup_effect];
          first [apply Hi; eauto | apply shrinks_ret].
      * intros _. apply shrinks_bind.
        -- apply shrinks_while; [apply shrinks_antecedent|].
           apply Hi. destruct process; cbn [main_effect]; eauto.
        -- intros _. apply shrinks_bind.
           ++ destruct process; cbn [teardown_effect];
                first [apply Hi; eauto | apply shrinks_ret].
           ++ intros _. apply shrinks_clear_internal_state.
Qed.

(** X22. Whatever its outcome, an effect whose zone arguments are zones
    of players or the trash, with a catalogue of such effects, leaves a
    Supply of the same piles from which pieces have only been taken, and
    has added to n_empty_piles the number of piles it has emptied: when
    n_empty_piles counted the empty piles before, it counts them after.
    The same holds for a whole Consequence. *)
Theorem supply_only_shrinks : forall fuel,
  (forall e s,
     supply_safe e ->
     let s' := snd (apply_effect simple_effects decision select fuel e s) in
     supply_shrinks s s'
     /\ (n_empty_piles s = empty_piles s ->
         n_empty_piles s' = empty_piles s'))
  /\ (forall c s,
        safe_consequence c ->
        let s' := snd (enact simple_effects decision select fuel
                         (effects c) s) in
        supply_shrinks s s'
        /\ (n_empty_piles s = empty_piles s ->
            n_empty_piles s' = empty_piles s')).
Proof.
  intros fuel.
  assert (C : forall s s', supply_shrinks s s' ->
            n_empty_piles s = empty_piles s ->
            n_empty_piles s' = empty_piles s').
  { intros s s' [_ [_ H]] E. lia. }
  split.
  - intros e s He s'.
    pose proof (shrinks_apply_effect fuel e He s) as H. fold s' in H.
    split; [exact H | apply C; exact H].
  - intros c s Hc s'.
    assert (H : supply_shrinks s s').
    { unfold s', enact. apply shrinks_for_each. intros x Hx.
      apply shrinks_apply_effect.
      apply (proj1 (Forall_forall _ _) Hc x Hx). }
    split; [exact H | apply C; exact H].
Qed.

End SupplyInvariant.

Lemma catalogue_sample_safe : forall piece es,
  CatalogueSample.simple_effects piece = Some es -> Forall supply_safe es.
Proof.
  intros piece es. unfold CatalogueSample.simple_effects.
  destruct (String.eqb (name piece) "Village");
    [intros E; inversion E; repeat constructor|].
  destruct (String.eqb (name piece) "Moat");
    [intros E; inversion E; repeat constructor|].
  destruct (String.eqb (name piece) "Militia");
    [intros E; inversion E; repeat constructor|].
  discriminate.
Defined.

(** Buying the last Province of a Supply whose three other piles are
    empty and counted: the counter goes from 3 to 4. *)
Lemma supply_only_shrinks_witness :
  let s := set_n_empty_piles 3 BuySample.last_province in
  let e := Effect_buy_piece 0 (Sample.Province 9) None in
  let s' := snd (apply_effect CatalogueSample.simple_effects
                   CatalogueSample.decision Sample.first_choice 6 e s) in
  supply_safe e
  /\ n_empty_piles s = empty_piles s
  /\ supply_shrinks s s'
  /\ n_empty_piles s' = empty_piles s'
  /\ n_empty_piles s' = 4%Z.
Proof.
  intros s e s'.
  assert (He : supply_safe e) by exact I.
  assert (E : n_empty_piles s = empty_piles s) by reflexivity.
  destruct (proj1 (supply_only_shrinks CatalogueSample.simple_effects
                     CatalogueSample.decision Sample.first_choice
                     catalogue_sample_safe 6) e s He) as [H1 H2].
  split; [exact He|]. split; [exact E|]. split; [exact H1|].
  split; [exact (H2 E) | reflexivity].
Defined.
